(** * Explicit free-list allocator with boundary tags: model and properties

    Shallow embedding of the explicit-list allocator (doubly linked LIFO free
    list, header and footer words, immediate coalescing) over a flat
    byte-addressed memory, for a 64-bit target:
    [sizeof(size_t) = sizeof(void* ) = 8], [ALIGNMENT = 16].

    Conventions.  Addresses are integers; [size_t] arithmetic wraps modulo
    2^64 and the wrap is written out.  Pointer arithmetic between addresses
    of the region is integer arithmetic; where a size that the invariant does
    not bound is added to a pointer (the footer address of [set_header]), the
    sum wraps like [size_t] arithmetic.  Words are stored little-endian.  Reads and writes through any
    address are total on the flat memory, except that [memcpy] and [memset]
    through the null pointer with a non-zero length end the call with
    [Fault].  The free-list walk of [find_fit] takes fuel.

    The last part of the file models the implicit-list variant of the
    allocator ([mm-implicit.c]) in the same way. *)

From Stdlib Require Import ZArith List Lia Bool.
Import ListNotations.
Open Scope Z_scope.

(** [lia] reasons about division and remainder by constants. *)
Ltac Zify.zify_post_hook ::= Z.to_euclidean_division_equations.

(** ** Machine words *)

Module Word.

Definition bits : Z := 64.
Definition modulus : Z := 2 ^ 64.

(** Unsigned 64-bit wrap-around of [size_t] arithmetic. *)
Definition wrap (z : Z) : Z := z mod modulus.

Lemma modulus_eq : modulus = 18446744073709551616.
Proof. reflexivity. Qed.

Lemma wrap_range z : 0 <= wrap z < modulus.
Proof. unfold wrap. apply Z.mod_pos_bound. reflexivity. Qed.

Lemma wrap_small z : 0 <= z < modulus -> wrap z = z.
Proof. intros. unfold wrap. apply Z.mod_small. assumption. Qed.

End Word.

(** ** Byte-addressed memory *)

Module Mem.

(** A memory maps every address to a byte (taken modulo 256 when read). *)
Definition mem := Z -> Z.

Definition byte_at (m : mem) (a : Z) : Z := m a mod 256.

(** Little-endian load of [n] bytes. *)
Fixpoint load_bytes (n : nat) (m : mem) (a : Z) : Z :=
  match n with
  | O => 0
  | S k => byte_at m a + 256 * load_bytes k m (a + 1)
  end.

Definition load64 (m : mem) (a : Z) : Z := load_bytes 8 m a.

Definition store64 (m : mem) (a v : Z) : mem :=
  fun x => if (a <=? x) && (x <? a + 8)
           then (v / 2 ^ (8 * (x - a))) mod 256
           else m x.

(** [memcpy(dst, src, n)] for non-overlapping ranges. *)
Definition memcpy (m : mem) (dst src n : Z) : mem :=
  fun x => if (dst <=? x) && (x <? dst + n) then m (src + (x - dst)) else m x.

Definition memset (m : mem) (dst c n : Z) : mem :=
  fun x => if (dst <=? x) && (x <? dst + n) then c mod 256 else m x.

End Mem.
Import Mem.

(** ** Layout constants (64-bit target) *)

Definition NULL : Z := 0.
Definition ALIGNMENT : Z := 16.          (* 2 * sizeof(size_t) *)
Definition SIZEOF_BLOCK : Z := 8.        (* sizeof(block_t): the header word *)
Definition SIZEOF_FOOTER : Z := 8.       (* sizeof(footer_t) *)
Definition PAYLOAD_OFFSET : Z := 8.      (* offsetof(block_t, payload) *)
Definition PREV_OFFSET : Z := 8.         (* offsetof(free_block_t, prev) *)
Definition NEXT_OFFSET : Z := 16.        (* offsetof(free_block_t, next) *)
Definition SBRK_FAILED : Z := Word.modulus - 1.   (* (void * ) -1 *)

(** Minimum block size of the explicit list layout: header, two links and
    footer, i.e. [sizeof(free_block_t) + sizeof(footer_t)]. *)
Definition MIN_BLOCK_SIZE : Z := 32.

(** ** Allocator state: the heap area, the region provider's break and limit,
    and the three module-level pointers. *)

Record state := mkState {
  heap : mem;
  mem_brk : Z;
  mem_max_addr : Z;
  head : Z;
  mm_heap_first : Z;
  mm_heap_last : Z
}.

Definition with_heap (s : state) (m : mem) : state :=
  mkState m (mem_brk s) (mem_max_addr s) (head s) (mm_heap_first s) (mm_heap_last s).

Definition with_head (s : state) (h : Z) : state :=
  mkState (heap s) (mem_brk s) (mem_max_addr s) h (mm_heap_first s) (mm_heap_last s).

Definition with_last (s : state) (l : Z) : state :=
  mkState (heap s) (mem_brk s) (mem_max_addr s) (head s) (mm_heap_first s) l.

Definition with_first (s : state) (f : Z) : state :=
  mkState (heap s) (mem_brk s) (mem_max_addr s) (head s) f (mm_heap_last s).

(** Modelled from the spec: the region provider [mem_sbrk] of memlib, which is
    not part of the sources.  [grow(bytes)] extends the region by exactly
    [bytes] and returns the old end, or the sentinel [(void * ) -1] when the
    region cannot grow. *)
Definition mem_sbrk (s : state) (incr : Z) : state * Z :=
  if mem_brk s + incr <=? mem_max_addr s
  then (mkState (heap s) (mem_brk s + incr) (mem_max_addr s)
                (head s) (mm_heap_first s) (mm_heap_last s), mem_brk s)
  else (s, SBRK_FAILED).

(** ** Results of facade operations.
    [Fault]: a byte operation through the null pointer (undefined behaviour in
    C).  [OutOfFuel]: the free-list walk did not finish within the fuel. *)

Inductive outcome (A : Type) : Type :=
| Done (a : A)
| Fault
| OutOfFuel.
Arguments Done {A} a.
Arguments Fault {A}.
Arguments OutOfFuel {A}.

(** ** The allocator *)

Definition add_block (s : state) (block : Z) : state :=
  if head s =? NULL then
    let m1 := store64 (heap s) (block + PREV_OFFSET) NULL in
    let m2 := store64 m1 (block + NEXT_OFFSET) NULL in
    with_heap (with_head s block) m2
  else
    let old := head s in
    let m1 := store64 (heap s) (block + PREV_OFFSET) NULL in
    let m2 := store64 m1 (block + NEXT_OFFSET) old in
    let m3 := store64 m2 (old + PREV_OFFSET) block in
    with_heap (with_head s block) m3.

Definition remove_block (s : state) (block : Z) : state :=
  let prev := load64 (heap s) (block + PREV_OFFSET) in
  let nxt := load64 (heap s) (block + NEXT_OFFSET) in
  let s1 := if negb (prev =? NULL)
            then with_heap s (store64 (heap s) (prev + NEXT_OFFSET) nxt)
            else with_head s nxt in
  if negb (nxt =? NULL)
  then with_heap s1 (store64 (heap s1) (nxt + PREV_OFFSET) prev)
  else s1.

(** Rounds up [size] to the nearest multiple of [n] (in [size_t] arithmetic). *)
Definition round_up (size n : Z) : Z :=
  Word.wrap (Word.wrap (size + (n - 1)) / n * n).

Definition bool_to_Z (b : bool) : Z := if b then 1 else 0.

(** Writes the header [size | is_allocated] and the footer [size].  The
    footer address adds a [size_t] to the block pointer and wraps with it. *)
Definition set_header (m : mem) (block size : Z) (is_alloc : bool) : mem :=
  let m1 := store64 m block (Z.lor size (bool_to_Z is_alloc)) in
  store64 m1 (Word.wrap (block + size - SIZEOF_FOOTER)) size.

Definition get_size (m : mem) (block : Z) : Z :=
  Z.land (load64 m block) (Word.wrap (Z.lnot 1)).

Definition is_allocated (m : mem) (block : Z) : bool :=
  negb (Z.land (load64 m block) 1 =? 0).

(** First-fit walk of the explicit free list, starting at [curr]. *)
Fixpoint find_fit_from (fuel : nat) (m : mem) (size curr : Z) : option Z :=
  match fuel with
  | O => None
  | S k =>
      if curr =? NULL then Some NULL
      else if size <=? get_size m curr then Some curr
      else find_fit_from k m size (load64 m (curr + NEXT_OFFSET))
  end.

Definition find_fit (fuel : nat) (s : state) (size : Z) : option Z :=
  find_fit_from fuel (heap s) size (head s).

Definition block_from_payload (ptr : Z) : Z := ptr - PAYLOAD_OFFSET.

Definition payload_of (block : Z) : Z := block + PAYLOAD_OFFSET.

Definition mm_init (s : state) : state * bool :=
  let '(s1, padding) := mem_sbrk s (ALIGNMENT - SIZEOF_BLOCK) in
  if padding =? SBRK_FAILED then (s1, false)
  else (mkState (heap s1) (mem_brk s1) (mem_max_addr s1) NULL NULL NULL, true).

Definition split_helper (s : state) (block split size split_size : Z) : state :=
  let s1 := if block =? mm_heap_last s then with_last s split else s in
  let s2 := with_heap s1 (set_header (heap s1) block size true) in
  let s3 := with_heap s2 (set_header (heap s2) split split_size false) in
  add_block s3 split.

(** The block size [mm_malloc] computes for a request of [size] bytes. *)
Definition request_size (size : Z) : Z :=
  round_up (Word.wrap (Word.wrap (SIZEOF_BLOCK + size) + SIZEOF_FOOTER)) ALIGNMENT.

Definition mm_malloc (fuel : nat) (s : state) (size : Z) : outcome (state * Z) :=
  let size := request_size size in
  match find_fit fuel s size with
  | None => OutOfFuel
  | Some block =>
      if negb (block =? NULL) then
        let s1 := remove_block s block in
        let s2 :=
          if Word.wrap (Word.wrap (SIZEOF_BLOCK + size) + SIZEOF_FOOTER)
               <? get_size (heap s1) block
          then
            let split := block + size in
            let split_size := Word.wrap (get_size (heap s1) block - size) in
            split_helper s1 block split size split_size
          else
            with_heap s1 (set_header (heap s1) block (get_size (heap s1) block) true) in
        Done (s2, payload_of block)
      else
        let '(s1, block) := mem_sbrk s size in
        if block =? SBRK_FAILED then Done (s1, NULL)
        else
          let s2 := if mm_heap_first s1 =? NULL then with_first s1 block else s1 in
          let s3 := with_last s2 block in
          Done (with_heap s3 (set_header (heap s3) block size true), payload_of block)
  end.

Definition coalesce_helper (s : state) (prev block next : Z) : state :=
  let m := heap s in
  if negb (prev =? NULL) && negb (next =? NULL)
     && negb (is_allocated m prev) && negb (is_allocated m next) then
    let sz := Word.wrap (Word.wrap (get_size m prev + get_size m block) + get_size m next) in
    let s1 := with_heap s (set_header m prev sz false) in
    let s2 := remove_block s1 next in
    let s3 := remove_block s2 block in
    if next =? mm_heap_last s3 then with_last s3 prev else s3
  else if negb (prev =? NULL) && negb (is_allocated m prev) then
    let sz := Word.wrap (get_size m prev + get_size m block) in
    let s1 := with_heap s (set_header m prev sz false) in
    let s2 := remove_block s1 block in
    if block =? mm_heap_last s2 then with_last s2 prev else s2
  else if negb (next =? NULL) && negb (is_allocated m next) then
    let sz := Word.wrap (get_size m block + get_size m next) in
    let s1 := with_heap s (set_header m block sz false) in
    let s2 := remove_block s1 next in
    if next =? mm_heap_last s2 then with_last s2 block else s2
  else
    with_heap s (set_header m block (get_size m block) false).

(** The source computes the footer address of the previous block with
    [sizeof(footer)], the size of the pointer variable, which is 8 like
    [sizeof(footer_t)]. *)
Definition mm_free (s : state) (ptr : Z) : state :=
  if ptr =? NULL then s
  else
    let block := block_from_payload ptr in
    let s1 := add_block s block in
    let prev :=
      if negb (block =? mm_heap_first s1)
      then block - load64 (heap s1) (block - SIZEOF_FOOTER)
      else NULL in
    let next :=
      if negb (block =? mm_heap_last s1)
      then block + get_size (heap s1) block
      else NULL in
    coalesce_helper s1 prev block next.

(** Number of bytes [mm_realloc] passes to [memcpy]. *)
Definition realloc_copy_length (m : mem) (old_ptr size : Z) : Z :=
  let new_size := get_size m (block_from_payload old_ptr) in
  if size <? new_size then size else new_size.

Definition mm_realloc (fuel : nat) (s : state) (old_ptr size : Z)
  : outcome (state * Z) :=
  match mm_malloc fuel s size with
  | Done (s1, new_ptr) =>
      if old_ptr =? NULL then Done (s1, new_ptr)
      else if size =? 0 then Done (mm_free s1 old_ptr, NULL)
      else
        let n := realloc_copy_length (heap s1) old_ptr size in
        if (new_ptr =? NULL) && (0 <? n) then Fault
        else
          let s2 := with_heap s1 (memcpy (heap s1) new_ptr old_ptr n) in
          Done (mm_free s2 old_ptr, new_ptr)
  | Fault => Fault
  | OutOfFuel => OutOfFuel
  end.

Definition mm_calloc (fuel : nat) (s : state) (nmemb size : Z)
  : outcome (state * Z) :=
  let total_size := Word.wrap (nmemb * size) in
  match mm_malloc fuel s total_size with
  | Done (s1, block) =>
      let n := Word.wrap (nmemb * size) in
      if (block =? NULL) && (0 <? n) then Fault
      else Done (with_heap s1 (memset (heap s1) block 0 n), block)
  | Fault => Fault
  | OutOfFuel => OutOfFuel
  end.

(** ** Memory lemmas *)

Module MemFacts.

Lemma byte_at_range m a : 0 <= byte_at m a < 256.
Proof. unfold byte_at. apply Z.mod_pos_bound. lia. Qed.

Lemma load_bytes_range n m a : 0 <= load_bytes n m a < 2 ^ (8 * Z.of_nat n).
Proof.
  revert a. induction n as [|n IH]; intros a.
  - simpl. lia.
  - cbn [load_bytes].
    replace (8 * Z.of_nat (S n)) with (8 + 8 * Z.of_nat n) by lia.
    rewrite Z.pow_add_r by lia.
    pose proof (byte_at_range m a). specialize (IH (a + 1)).
    change (2 ^ 8) with 256. nia.
Qed.

Lemma load64_range m a : 0 <= load64 m a < Word.modulus.
Proof. apply (load_bytes_range 8 m a). Qed.

Lemma load_bytes_ext n m1 m2 a :
  (forall i, 0 <= i < Z.of_nat n -> m1 (a + i) = m2 (a + i)) ->
  load_bytes n m1 a = load_bytes n m2 a.
Proof.
  revert a. induction n as [|n IH]; intros a H.
  - reflexivity.
  - cbn [load_bytes]. unfold byte_at.
    rewrite (IH (a + 1)).
    + specialize (H 0). rewrite Z.add_0_r in H. rewrite H by lia. reflexivity.
    + intros i Hi. replace (a + 1 + i) with (a + (1 + i)) by lia. apply H. lia.
Qed.

Lemma load64_ext m1 m2 a :
  (forall x, a <= x < a + 8 -> m1 x = m2 x) -> load64 m1 a = load64 m2 a.
Proof.
  intros H. apply load_bytes_ext. intros i Hi. apply H. lia.
Qed.

Lemma store64_outside m a v x : x < a \/ a + 8 <= x -> store64 m a v x = m x.
Proof.
  intros H. unfold store64.
  destruct (a <=? x) eqn:E1; destruct (x <? a + 8) eqn:E2; simpl; try reflexivity.
  apply Z.leb_le in E1. apply Z.ltb_lt in E2. lia.
Qed.

Lemma store64_inside m a v x :
  a <= x < a + 8 -> store64 m a v x = (v / 2 ^ (8 * (x - a))) mod 256.
Proof.
  intros H. unfold store64.
  replace (a <=? x) with true by (symmetry; apply Z.leb_le; lia).
  replace (x <? a + 8) with true by (symmetry; apply Z.ltb_lt; lia).
  reflexivity.
Qed.

Lemma load64_store64_other m a v a' :
  a' + 8 <= a \/ a + 8 <= a' -> load64 (store64 m a v) a' = load64 m a'.
Proof.
  intros H. apply load64_ext. intros x Hx. apply store64_outside. lia.
Qed.

Lemma load_bytes_store n : forall m a v k,
  0 <= k -> k + Z.of_nat n <= 8 ->
  load_bytes n (store64 m a v) (a + k) = (v / 2 ^ (8 * k)) mod 2 ^ (8 * Z.of_nat n).
Proof.
  induction n as [|n IH]; intros m a v k Hk Hn.
  - simpl. rewrite Z.mod_1_r. reflexivity.
  - cbn [load_bytes]. unfold byte_at.
    rewrite store64_inside by lia.
    replace (a + k + 1) with (a + (k + 1)) by lia.
    rewrite IH by lia.
    replace (a + k - a) with k by lia.
    rewrite Z.mod_mod by lia.
    replace (8 * Z.of_nat (S n)) with (8 + 8 * Z.of_nat n) by lia.
    rewrite Z.pow_add_r by lia.
    replace (8 * (k + 1)) with (8 * k + 8) by lia.
    rewrite Z.pow_add_r by lia.
    rewrite <- Z.div_div by (try apply Z.pow_pos_nonneg; lia).
    change (2 ^ 8) with 256.
    symmetry. apply Z.rem_mul_r; [lia | apply Z.pow_pos_nonneg; lia].
Qed.

Lemma load64_store64_same m a v : load64 (store64 m a v) a = Word.wrap v.
Proof.
  unfold load64. pose proof (load_bytes_store 8 m a v 0) as H.
  rewrite Z.add_0_r in H. rewrite H by lia.
  change (2 ^ (8 * 0)) with 1. rewrite Z.div_1_r. reflexivity.
Qed.

Lemma load64_store64_same_small m a v :
  0 <= v < Word.modulus -> load64 (store64 m a v) a = v.
Proof. intros. rewrite load64_store64_same. apply Word.wrap_small. assumption. Qed.

Lemma memcpy_outside m dst src n x :
  x < dst \/ dst + n <= x -> memcpy m dst src n x = m x.
Proof.
  intros H. unfold memcpy.
  destruct (dst <=? x) eqn:E1; destruct (x <? dst + n) eqn:E2; simpl; try reflexivity.
  apply Z.leb_le in E1. apply Z.ltb_lt in E2. lia.
Qed.

Lemma memcpy_inside m dst src n x :
  dst <= x < dst + n -> memcpy m dst src n x = m (src + (x - dst)).
Proof.
  intros H. unfold memcpy.
  replace (dst <=? x) with true by (symmetry; apply Z.leb_le; lia).
  replace (x <? dst + n) with true by (symmetry; apply Z.ltb_lt; lia).
  reflexivity.
Qed.

Lemma memset_outside m dst c n x :
  x < dst \/ dst + n <= x -> memset m dst c n x = m x.
Proof.
  intros H. unfold memset.
  destruct (dst <=? x) eqn:E1; destruct (x <? dst + n) eqn:E2; simpl; try reflexivity.
  apply Z.leb_le in E1. apply Z.ltb_lt in E2. lia.
Qed.

Lemma memset_inside m dst c n x :
  dst <= x < dst + n -> memset m dst c n x = c mod 256.
Proof.
  intros H. unfold memset.
  replace (dst <=? x) with true by (symmetry; apply Z.leb_le; lia).
  replace (x <? dst + n) with true by (symmetry; apply Z.ltb_lt; lia).
  reflexivity.
Qed.

Lemma load64_memcpy_other m dst src n a :
  a + 8 <= dst \/ dst + n <= a -> load64 (memcpy m dst src n) a = load64 m a.
Proof.
  intros H. apply load64_ext. intros x Hx. apply memcpy_outside. lia.
Qed.

Lemma load64_memset_other m dst c n a :
  a + 8 <= dst \/ dst + n <= a -> load64 (memset m dst c n) a = load64 m a.
Proof.
  intros H. apply load64_ext. intros x Hx. apply memset_outside. lia.
Qed.

End MemFacts.
Import MemFacts.

(** ** Header encoding: size in the high bits, allocated flag in bit 0 *)

Module Header.

Lemma land_1 x : Z.land x 1 = x mod 2.
Proof. change 1 with (Z.ones 1) at 1. rewrite Z.land_ones by lia. reflexivity. Qed.

Lemma mask_eq : Word.wrap (Z.lnot 1) = Word.modulus - 2.
Proof. reflexivity. Qed.

Lemma land_mask x : 0 <= x < Word.modulus -> Z.land x (Word.wrap (Z.lnot 1)) = x - x mod 2.
Proof.
  intros Hx.
  assert (E : Word.wrap (Z.lnot 1) = Z.land (Z.ones 64) (Z.lnot 1)) by reflexivity.
  rewrite E, Z.land_assoc, Z.land_ones by lia.
  change (2 ^ 64) with Word.modulus. rewrite Z.mod_small by assumption.
  change (Z.land x (Z.lnot 1)) with (Z.ldiff x (Z.ones 1)).
  rewrite Z.ldiff_ones_r by lia.
  rewrite Z.shiftr_div_pow2, Z.shiftl_mul_pow2 by lia.
  change (2 ^ 1) with 2. pose proof (Z.div_mod x 2). lia.
Qed.

Lemma lor_flag sz (b : bool) : sz mod 2 = 0 -> Z.lor sz (bool_to_Z b) = sz + bool_to_Z b.
Proof.
  intros H. destruct b; simpl.
  - rewrite <- Z.lxor_lor by (rewrite land_1; exact H).
    symmetry. apply Z.add_nocarry_lxor. rewrite land_1. exact H.
  - rewrite Z.lor_0_r. lia.
Qed.

Lemma header_range sz (b : bool) :
  0 <= sz < Word.modulus -> sz mod 2 = 0 ->
  0 <= Z.lor sz (bool_to_Z b) < Word.modulus.
Proof.
  intros Hsz H. rewrite lor_flag by assumption.
  change Word.modulus with 18446744073709551616 in *.
  destruct b; simpl; lia.
Qed.

End Header.

(** Linear arithmetic over the layout constants. *)
Ltac layout_lia :=
  change Word.modulus with 18446744073709551616 in *;
  unfold NULL, ALIGNMENT, SIZEOF_BLOCK, SIZEOF_FOOTER, PAYLOAD_OFFSET, PREV_OFFSET,
    NEXT_OFFSET, MIN_BLOCK_SIZE in *;
  lia.

(** ** Footprints: where two memories may differ *)

Definition unchanged_outside (R : Z -> Prop) (m m' : mem) : Prop :=
  forall y, ~ R y -> m' y = m y.

Definition word_at (a : Z) : Z -> Prop := fun y => a <= y < a + 8.
Definition range_at (a n : Z) : Z -> Prop := fun y => a <= y < a + n.

Section Footprints.

Lemma unchanged_refl R m : unchanged_outside R m m.
Proof. intros y _. reflexivity. Qed.

Lemma unchanged_trans R m1 m2 m3 :
  unchanged_outside R m1 m2 -> unchanged_outside R m2 m3 -> unchanged_outside R m1 m3.
Proof. intros H1 H2 y Hy. rewrite H2, H1 by assumption. reflexivity. Qed.

Lemma unchanged_weaken (R R' : Z -> Prop) m m' :
  (forall y, R y -> R' y) -> unchanged_outside R m m' -> unchanged_outside R' m m'.
Proof. intros HR H y Hy. apply H. intros Hc. apply Hy, HR, Hc. Qed.

Lemma unchanged_store64 (R : Z -> Prop) m a v :
  (forall y, a <= y < a + 8 -> R y) -> unchanged_outside R m (store64 m a v).
Proof.
  intros HR y Hy. apply store64_outside.
  destruct (Z_lt_dec y a); [lia|]. destruct (Z_le_dec (a + 8) y); [lia|].
  exfalso. apply Hy, HR. lia.
Qed.

Lemma unchanged_memcpy (R : Z -> Prop) m dst src n :
  (forall y, dst <= y < dst + n -> R y) -> unchanged_outside R m (memcpy m dst src n).
Proof.
  intros HR y Hy. apply memcpy_outside.
  destruct (Z_lt_dec y dst); [lia|]. destruct (Z_le_dec (dst + n) y); [lia|].
  exfalso. apply Hy, HR. lia.
Qed.

Lemma unchanged_memset (R : Z -> Prop) m dst c n :
  (forall y, dst <= y < dst + n -> R y) -> unchanged_outside R m (memset m dst c n).
Proof.
  intros HR y Hy. apply memset_outside.
  destruct (Z_lt_dec y dst); [lia|]. destruct (Z_le_dec (dst + n) y); [lia|].
  exfalso. apply Hy, HR. lia.
Qed.

Lemma unchanged_load64 R m m' a :
  unchanged_outside R m m' -> (forall y, a <= y < a + 8 -> ~ R y) ->
  load64 m' a = load64 m a.
Proof. intros H Ha. apply load64_ext. intros x Hx. apply H, Ha, Hx. Qed.

End Footprints.

(** ** Abstract view of the heap: the sequence of physical blocks *)

Record blk := mkBlk { b_addr : Z; b_size : Z; b_alloc : bool }.

Definition b_end (b : blk) : Z := b_addr b + b_size b.
Definition b_footer (b : blk) : Z := b_addr b + b_size b - SIZEOF_FOOTER.

(** Header and footer words of [b] as stored in memory. *)
Definition tag_ok (m : mem) (b : blk) : Prop :=
  load64 m (b_addr b) = Z.lor (b_size b) (bool_to_Z (b_alloc b)) /\
  load64 m (b_footer b) = b_size b.

(** Sizes are multiples of [ALIGNMENT]; a free block holds header, two links
    and footer; an allocated block holds at least header and footer. *)
Definition size_ok (b : blk) : Prop :=
  b_size b mod ALIGNMENT = 0 /\
  (if b_alloc b then SIZEOF_BLOCK + SIZEOF_FOOTER else MIN_BLOCK_SIZE) <= b_size b.

(** The blocks of [l] tile the addresses from [a] to [e] without gaps. *)
Fixpoint chain (a : Z) (l : list blk) (e : Z) : Prop :=
  match l with
  | [] => a = e
  | b :: l' => b_addr b = a /\ chain (b_end b) l' e
  end.

Definition heap_start (l : list blk) (brk : Z) : Z :=
  match l with [] => brk | b :: _ => b_addr b end.

Record heap_rep (s : state) (l : list blk) : Prop := mkHeapRep {
  hr_start : 0 <= heap_start l (mem_brk s);
  hr_align : mem_brk s mod ALIGNMENT = 8;
  hr_max : mem_brk s <= mem_max_addr s /\ mem_max_addr s + ALIGNMENT < Word.modulus;
  hr_first : mm_heap_first s = hd NULL (map b_addr l);
  hr_last : mm_heap_last s = last (map b_addr l) NULL;
  hr_chain : chain (heap_start l (mem_brk s)) l (mem_brk s);
  hr_size : Forall size_ok l;
  hr_tag : Forall (tag_ok (heap s)) l
}.

(** No two physically adjacent blocks are both free. *)
Fixpoint adjacent_free (l : list blk) : bool :=
  match l with
  | b1 :: ((b2 :: _) as l') =>
      (negb (b_alloc b1) && negb (b_alloc b2)) || adjacent_free l'
  | _ => false
  end.

Definition no_adjacent_free (l : list blk) : Prop := adjacent_free l = false.

(** ** Abstract view of the free list: the addresses in list order *)

Fixpoint dlseg (m : mem) (p : Z) (fl : list Z) (n : Z) : Prop :=
  match fl with
  | [] => True
  | f :: fl' =>
      load64 m (f + PREV_OFFSET) = p /\
      load64 m (f + NEXT_OFFSET) = hd n fl' /\
      dlseg m f fl' n
  end.

Definition is_free_block (l : list blk) (f : Z) : Prop :=
  exists sz, In (mkBlk f sz false) l.

Record free_rep (s : state) (l : list blk) (fl : list Z) : Prop := mkFreeRep {
  fr_head : head s = hd NULL fl;
  fr_links : dlseg (heap s) NULL fl NULL;
  fr_nodup : NoDup fl;
  fr_mem : forall f, In f fl <-> is_free_block l f
}.

(** The data-model invariant relating the concrete state to its abstract
    view. *)
Definition wf (s : state) (l : list blk) (fl : list Z) : Prop :=
  heap_rep s l /\ free_rep s l fl.

(** ** Geometry of block sequences *)

Section Geometry.

Lemma size_ok_pos b : size_ok b -> 16 <= b_size b.
Proof.
  unfold size_ok, SIZEOF_BLOCK, SIZEOF_FOOTER, MIN_BLOCK_SIZE.
  destruct (b_alloc b); lia.
Qed.

Lemma chain_split a l1 b l2 e :
  chain a (l1 ++ b :: l2) e <-> chain a l1 (b_addr b) /\ chain (b_end b) l2 e.
Proof.
  revert a. induction l1 as [|c l1 IH]; intros a; simpl.
  - split; [intros [H1 H2]; auto | intros [H1 H2]; auto].
  - rewrite IH. tauto.
Qed.

Lemma chain_app a l1 l2 e :
  chain a (l1 ++ l2) e <-> exists mid, chain a l1 mid /\ chain mid l2 e.
Proof.
  revert a. induction l1 as [|c l1 IH]; intros a; simpl.
  - split.
    + intros H. exists a. auto.
    + intros [mid [-> H]]. exact H.
  - rewrite IH. split.
    + intros [H1 [mid [H2 H3]]]. exists mid. auto.
    + intros [mid [[H1 H2] H3]]. split; [exact H1|]. exists mid. auto.
Qed.

Lemma chain_bounds a l e :
  chain a l e -> Forall size_ok l ->
  a <= e /\ (e - a) mod 16 = 0 /\
  forall b, In b l -> a <= b_addr b /\ b_end b <= e /\ (b_addr b - a) mod 16 = 0.
Proof.
  revert a. induction l as [|c l IH]; intros a Hc Hs; simpl in *.
  - subst. split; [lia|]. split; [rewrite Z.sub_diag; reflexivity|]. intros b [].
  - destruct Hc as [Ha Hc]. inversion Hs as [|? ? Hc0 Hs']; subst.
    destruct (IH _ Hc Hs') as [H1 [H2 H3]].
    pose proof (size_ok_pos _ Hc0) as Hp. destruct Hc0 as [Hm _].
    unfold b_end, ALIGNMENT in *.
    split; [lia|]. split; [lia|].
    intros b [->|Hb].
    + split; [lia|]. split; [lia|]. rewrite Z.sub_diag. reflexivity.
    + destruct (H3 b Hb) as [? [? ?]]. lia.
Qed.

(** Two blocks of a chain are the same block or occupy disjoint ranges. *)
Lemma chain_disjoint a l e b c :
  chain a l e -> Forall size_ok l -> In b l -> In c l ->
  b = c \/ b_end b <= b_addr c \/ b_end c <= b_addr b.
Proof.
  intros Hc Hs Hb Hi.
  destruct (in_split _ _ Hb) as [l1 [l2 ->]].
  apply chain_split in Hc. destruct Hc as [Hc1 Hc2].
  apply Forall_app in Hs. destruct Hs as [Hs1 Hs2].
  inversion Hs2 as [|? ? Hsb Hs2']; subst.
  apply in_app_or in Hi. destruct Hi as [Hi|[Hi|Hi]].
  - destruct (chain_bounds _ _ _ Hc1 Hs1) as [_ [_ H]].
    destruct (H c Hi) as [_ [? _]]. right. right. assumption.
  - left. assumption.
  - destruct (chain_bounds _ _ _ Hc2 Hs2') as [_ [_ H]].
    destruct (H c Hi) as [? _]. right. left. assumption.
Qed.

Lemma chain_addr_inj a l e b c :
  chain a l e -> Forall size_ok l -> In b l -> In c l ->
  b_addr b = b_addr c -> b = c.
Proof.
  intros Hc Hs Hb Hi Heq.
  destruct (chain_disjoint _ _ _ _ _ Hc Hs Hb Hi) as [H|[H|H]]; [assumption| |].
  - pose proof (proj1 (Forall_forall _ _) Hs b Hb) as Hp. apply size_ok_pos in Hp.
    unfold b_end in H. lia.
  - pose proof (proj1 (Forall_forall _ _) Hs c Hi) as Hp. apply size_ok_pos in Hp.
    unfold b_end in H. lia.
Qed.

End Geometry.

Arguments load64 : simpl never.
Arguments store64 : simpl never.
Arguments memcpy : simpl never.
Arguments memset : simpl never.
Arguments Word.wrap : simpl never.

(** ** Doubly linked segments *)

(** The link words of the free-list members [fl]. *)
Definition links_region (fl : list Z) : Z -> Prop :=
  fun y => exists f, In f fl /\ f + PREV_OFFSET <= y < f + NEXT_OFFSET + 8.

(** Members are valid non-null pointers and their link words do not overlap. *)
Definition ptrs_ok (fl : list Z) : Prop :=
  (forall f, In f fl -> 0 < f < Word.modulus) /\
  (forall f g, In f fl -> In g fl -> f = g \/ f + 24 <= g \/ g + 24 <= f).

Section Dlseg.

Lemma ptrs_ok_incl fl fl' :
  (forall f, In f fl' -> In f fl) -> ptrs_ok fl -> ptrs_ok fl'.
Proof.
  intros Hi [H1 H2]. split.
  - intros f Hf. apply H1, Hi, Hf.
  - intros f g Hf Hg. apply H2; apply Hi; assumption.
Qed.

Lemma dlseg_frame R m m' p fl n :
  unchanged_outside R m m' ->
  (forall f y, In f fl -> f + 8 <= y < f + 24 -> ~ R y) ->
  dlseg m p fl n -> dlseg m' p fl n.
Proof.
  intros Hu. revert p. induction fl as [|f fl IH]; intros p HR H; simpl in *.
  - exact I.
  - destruct H as [H1 [H2 H3]]. unfold PREV_OFFSET, NEXT_OFFSET in *.
    assert (E1 : load64 m' (f + 8) = load64 m (f + 8)).
    { apply (unchanged_load64 R); [assumption|].
      intros y Hy. apply (HR f); [left; reflexivity | lia]. }
    assert (E2 : load64 m' (f + 16) = load64 m (f + 16)).
    { apply (unchanged_load64 R); [assumption|].
      intros y Hy. apply (HR f); [left; reflexivity | lia]. }
    rewrite E1, E2.
    split; [assumption|]. split; [assumption|].
    apply IH; [|assumption]. intros g y Hg. apply HR. right. assumption.
Qed.

Lemma dlseg_store_other m p fl n a v :
  (forall f, In f fl -> a + 8 <= f + 8 \/ f + 24 <= a) ->
  dlseg m p fl n -> dlseg (store64 m a v) p fl n.
Proof.
  intros H. apply (dlseg_frame (word_at a)).
  - apply unchanged_store64. intros y Hy. exact Hy.
  - intros f y Hf Hy Hw. unfold word_at in Hw. specialize (H f Hf). lia.
Qed.

Lemma dlseg_app m p l1 l2 n :
  dlseg m p (l1 ++ l2) n <-> dlseg m p l1 (hd n l2) /\ dlseg m (last l1 p) l2 n.
Proof.
  revert p. induction l1 as [|f l1 IH]; intros p.
  - simpl. tauto.
  - change ((f :: l1) ++ l2) with (f :: (l1 ++ l2)).
    cbn [dlseg]. rewrite IH.
    assert (E1 : hd n (l1 ++ l2) = hd (hd n l2) l1) by (destruct l1; reflexivity).
    assert (E2 : last (f :: l1) p = last l1 f).
    { clear. revert p f. induction l1 as [|g l1 IH]; intros p f; [reflexivity|].
      change (last (f :: g :: l1) p) with (last (g :: l1) p).
      rewrite (IH p g), (IH f g). reflexivity. }
    rewrite E1, E2. tauto.
Qed.

Lemma dlseg_set_next m p l y n n' :
  NoDup (l ++ [y]) -> ptrs_ok (l ++ [y]) -> 0 <= n' < Word.modulus ->
  dlseg m p (l ++ [y]) n ->
  dlseg (store64 m (y + NEXT_OFFSET) n') p (l ++ [y]) n'.
Proof.
  intros Hnd [_ Hsep] Hn' H. apply dlseg_app in H. destruct H as [H1 H2].
  apply dlseg_app. cbn [hd] in *. split.
  - apply dlseg_store_other; [|assumption].
    intros f Hf.
    assert (f <> y).
    { intros ->. apply NoDup_remove_2 in Hnd. rewrite app_nil_r in Hnd. contradiction. }
    destruct (Hsep f y) as [?|[?|?]];
      [apply in_or_app; auto | apply in_or_app; right; left; reflexivity | | |];
      unfold NEXT_OFFSET; lia.
  - cbn [dlseg] in *. destruct H2 as [H2 [H3 _]]. unfold PREV_OFFSET, NEXT_OFFSET in *.
    rewrite load64_store64_other by lia.
    rewrite load64_store64_same_small by assumption. auto.
Qed.

Lemma dlseg_set_prev m p z l n p' :
  NoDup (z :: l) -> ptrs_ok (z :: l) -> 0 <= p' < Word.modulus ->
  dlseg m p (z :: l) n ->
  dlseg (store64 m (z + PREV_OFFSET) p') p' (z :: l) n.
Proof.
  intros Hnd [_ Hsep] Hp' H. cbn [dlseg] in *. destruct H as [H1 [H2 H3]].
  unfold PREV_OFFSET, NEXT_OFFSET in *.
  rewrite load64_store64_same_small by assumption.
  rewrite load64_store64_other by lia.
  split; [reflexivity|]. split; [assumption|].
  apply dlseg_store_other; [|assumption].
  intros f Hf.
  assert (f <> z) by (intros ->; inversion Hnd; contradiction).
  destruct (Hsep f z) as [?|[?|?]]; [right; assumption | left; reflexivity | | |]; lia.
Qed.

Lemma dlseg_change_prev m p p' fl n :
  fl = [] -> dlseg m p fl n -> dlseg m p' fl n.
Proof. intros ->. auto. Qed.

End Dlseg.

(** ** Free-list insertion and removal on the abstract list *)

Definition same_region (s s' : state) : Prop :=
  mem_brk s' = mem_brk s /\ mem_max_addr s' = mem_max_addr s /\
  mm_heap_first s' = mm_heap_first s /\ mm_heap_last s' = mm_heap_last s.

Section FreeListOps.

Lemma nodup_app_neq (l1 l2 : list Z) f g :
  NoDup (l1 ++ l2) -> In f l1 -> In g l2 -> f <> g.
Proof.
  intros Hnd Hf Hg ->. revert Hnd Hf. induction l1 as [|a l1 IH]; intros Hnd Hf.
  - destruct Hf.
  - simpl in Hnd. inversion Hnd as [|? ? Hn Hnd']; subst.
    destruct Hf as [->|Hf].
    + apply Hn. apply in_or_app. right. assumption.
    + apply IH; assumption.
Qed.

Lemma sep_parts fl l1 l2 f g :
  fl = l1 ++ l2 -> NoDup fl -> ptrs_ok fl -> In f l1 -> In g l2 ->
  f + 24 <= g \/ g + 24 <= f.
Proof.
  intros -> Hnd [_ Hsep] Hf Hg.
  pose proof (nodup_app_neq _ _ _ _ Hnd Hf Hg) as Hne.
  destruct (Hsep f g) as [?|?]; [apply in_or_app; auto | apply in_or_app; auto | | ].
  - contradiction.
  - assumption.
Qed.

Lemma last_snoc (l : list Z) y d : last (l ++ [y]) d = y.
Proof. apply last_last. Qed.

Lemma remove_block_spec s fl1 x fl2 :
  head s = hd NULL (fl1 ++ x :: fl2) ->
  dlseg (heap s) NULL (fl1 ++ x :: fl2) NULL ->
  NoDup (fl1 ++ x :: fl2) -> ptrs_ok (fl1 ++ x :: fl2) ->
  head (remove_block s x) = hd NULL (fl1 ++ fl2) /\
  dlseg (heap (remove_block s x)) NULL (fl1 ++ fl2) NULL /\
  same_region s (remove_block s x) /\
  unchanged_outside (links_region (fl1 ++ fl2)) (heap s) (heap (remove_block s x)).
Proof.
  intros Hh Hd Hnd Hp.
  pose proof Hp as [Hrange Hsep].
  apply dlseg_app in Hd. destruct Hd as [Hd1 Hd2].
  cbn [dlseg hd] in Hd1, Hd2. destruct Hd2 as [Hprev [Hnext Hd2]].
  unfold remove_block. rewrite Hprev, Hnext.
  assert (Hnd2 : NoDup (fl1 ++ fl2)) by (eapply NoDup_remove_1; eassumption).
  assert (Hp2 : ptrs_ok (fl1 ++ fl2)).
  { eapply ptrs_ok_incl; [|exact Hp]. intros f Hf.
    apply in_app_or in Hf. apply in_or_app. destruct Hf; [left|right; right]; assumption. }
  destruct fl1 as [|f0 fl1'] using rev_ind.
  - (* x is the head of the list *)
    cbn [last app hd] in *. change (NULL =? NULL) with true. cbn [negb].
    destruct fl2 as [|z fl2'].
    + cbn [hd]. change (NULL =? NULL) with true. cbn [negb].
      cbn [heap head with_heap with_head].
      split; [reflexivity|]. split; [exact I|].
      split; [repeat split | apply unchanged_refl].
    + cbn [hd].
      assert (Hz : 0 < z < Word.modulus) by (apply Hrange; right; left; reflexivity).
      replace (z =? NULL) with false by (symmetry; apply Z.eqb_neq; unfold NULL; lia).
      cbn [negb]. cbn [heap head with_heap with_head mem_brk mem_max_addr
                        mm_heap_first mm_heap_last].
      split; [reflexivity|]. split.
      * apply dlseg_set_prev with (p := x); try assumption.
        unfold NULL, Word.modulus. lia.
      * split; [repeat split|].
        apply unchanged_store64. intros y Hy. exists z.
        split; [left; reflexivity|]. unfold PREV_OFFSET, NEXT_OFFSET in *. lia.
  - (* x has a predecessor f0 *)
    clear IHfl1'. rewrite last_snoc in *.
    assert (Hf0 : 0 < f0 < Word.modulus).
    { apply Hrange. apply in_or_app. left. apply in_or_app. right. left. reflexivity. }
    replace (f0 =? NULL) with false by (symmetry; apply Z.eqb_neq; unfold NULL; lia).
    cbn [negb].
    assert (Hhd : forall t, hd NULL ((fl1' ++ [f0]) ++ t) = hd NULL (fl1' ++ [f0])).
    { intros t. destruct fl1'; reflexivity. }
    assert (Hnd1 : NoDup (fl1' ++ [f0])) by (eapply NoDup_app_remove_r; eassumption).
    assert (Hp1 : ptrs_ok (fl1' ++ [f0])).
    { eapply ptrs_ok_incl; [|exact Hp2]. intros f Hf. apply in_or_app. auto. }
    destruct fl2 as [|z fl2'].
    + cbn [hd]. change (NULL =? NULL) with true. cbn [negb].
      cbn [heap head with_heap with_head mem_brk mem_max_addr
                mm_heap_first mm_heap_last].
      rewrite app_nil_r in *.
      split; [rewrite Hh; apply Hhd|]. split.
      * apply dlseg_set_next with (n := x); try assumption.
        unfold NULL, Word.modulus. lia.
      * split; [repeat split|].
        apply unchanged_store64. intros y Hy. exists f0.
        split; [apply in_or_app; right; left; reflexivity|].
        unfold PREV_OFFSET, NEXT_OFFSET in *. lia.
    + cbn [hd].
      assert (Hz : 0 < z < Word.modulus).
      { apply Hrange. apply in_or_app. right. right. left. reflexivity. }
      replace (z =? NULL) with false by (symmetry; apply Z.eqb_neq; unfold NULL; lia).
      cbn [negb]. cbn [heap head with_heap with_head mem_brk mem_max_addr
                        mm_heap_first mm_heap_last].
      split; [rewrite Hh, !Hhd; reflexivity|]. split.
      * apply dlseg_app. cbn [hd]. rewrite last_snoc. split.
        -- apply dlseg_store_other.
           ++ intros f Hf.
              destruct (sep_parts _ (fl1' ++ [f0]) (z :: fl2') f z eq_refl Hnd2 Hp2 Hf)
                as [?|?]; [left; reflexivity | |]; unfold PREV_OFFSET; lia.
           ++ apply dlseg_set_next with (n := x); try assumption. lia.
        -- apply dlseg_set_prev with (p := x); try lia.
           ++ eapply NoDup_app_remove_l; eassumption.
           ++ eapply ptrs_ok_incl; [|exact Hp2]. intros f Hf. apply in_or_app. auto.
           ++ apply dlseg_store_other; [|assumption].
              intros f Hf.
              assert (Hin : In f0 (fl1' ++ [f0])) by (apply in_or_app; right; left; reflexivity).
              destruct (sep_parts _ (fl1' ++ [f0]) (z :: fl2') f0 f eq_refl Hnd2 Hp2 Hin Hf)
                as [?|?]; unfold NEXT_OFFSET; lia.
      * split; [repeat split|].
        apply unchanged_trans with (m2 := store64 (heap s) (f0 + NEXT_OFFSET) z).
        -- apply unchanged_store64. intros y Hy. exists f0.
           split; [apply in_or_app; left; apply in_or_app; right; left; reflexivity|].
           unfold PREV_OFFSET, NEXT_OFFSET in *. lia.
        -- apply unchanged_store64. intros y Hy. exists z.
           split; [apply in_or_app; right; left; reflexivity|].
           unfold PREV_OFFSET, NEXT_OFFSET in *. lia.
Qed.

Lemma add_block_spec s fl b :
  head s = hd NULL fl ->
  dlseg (heap s) NULL fl NULL ->
  NoDup (b :: fl) -> ptrs_ok (b :: fl) ->
  head (add_block s b) = b /\
  dlseg (heap (add_block s b)) NULL (b :: fl) NULL /\
  same_region s (add_block s b) /\
  unchanged_outside (links_region (b :: fl)) (heap s) (heap (add_block s b)).
Proof.
  intros Hh Hd Hnd Hp. pose proof Hp as [Hrange Hsep].
  assert (Hb : 0 < b < Word.modulus) by (apply Hrange; left; reflexivity).
  assert (Hregion : forall y, b + 8 <= y < b + 24 -> links_region (b :: fl) y).
  { intros y Hy. exists b. split; [left; reflexivity|].
    unfold PREV_OFFSET, NEXT_OFFSET. lia. }
  unfold add_block. rewrite Hh.
  destruct fl as [|z fl'].
  - cbn [hd]. change (NULL =? NULL) with true.
    cbn [heap head with_heap with_head mem_brk mem_max_addr mm_heap_first mm_heap_last].
    split; [reflexivity|]. split.
    + cbn [dlseg hd]. unfold PREV_OFFSET, NEXT_OFFSET, NULL.
      rewrite load64_store64_other by lia.
      rewrite !load64_store64_same_small by (unfold Word.modulus; lia). auto.
    + split; [repeat split|].
      apply unchanged_trans with (m2 := store64 (heap s) (b + PREV_OFFSET) NULL);
        apply unchanged_store64; intros y Hy; apply Hregion;
        unfold PREV_OFFSET, NEXT_OFFSET in *; lia.
  - cbn [hd].
    assert (Hz : 0 < z < Word.modulus) by (apply Hrange; right; left; reflexivity).
    assert (Hbz : b + 24 <= z \/ z + 24 <= b).
    { apply (sep_parts (b :: z :: fl') [b] (z :: fl') b z eq_refl Hnd Hp);
        left; reflexivity. }
    replace (z =? NULL) with false by (symmetry; apply Z.eqb_neq; unfold NULL; lia).
    cbn [heap head with_heap with_head mem_brk mem_max_addr mm_heap_first mm_heap_last].
    split; [reflexivity|]. split.
    + cbn [dlseg hd]. unfold PREV_OFFSET, NEXT_OFFSET, NULL.
      rewrite (load64_store64_other _ (z + 8) b (b + 8)) by lia.
      rewrite (load64_store64_other _ (b + 16) z (b + 8)) by lia.
      rewrite load64_store64_same_small by (unfold Word.modulus; lia).
      rewrite (load64_store64_other _ (z + 8) b (b + 16)) by lia.
      rewrite load64_store64_same_small by lia.
      split; [reflexivity|]. split; [reflexivity|].
      change (z + 8) with (z + PREV_OFFSET).
      apply dlseg_set_prev with (p := 0); try lia.
      * inversion Hnd; assumption.
      * eapply ptrs_ok_incl; [|exact Hp]. intros f Hf. right. assumption.
      * apply dlseg_store_other.
        { intros f Hf.
          destruct (sep_parts (b :: z :: fl') [b] (z :: fl') b f eq_refl Hnd Hp)
            as [?|?]; [left; reflexivity | assumption | |]; lia. }
        apply dlseg_store_other; [|exact Hd].
        intros f Hf.
        destruct (sep_parts (b :: z :: fl') [b] (z :: fl') b f eq_refl Hnd Hp)
          as [?|?]; [left; reflexivity | assumption | |]; lia.
    + split; [repeat split|].
      apply unchanged_trans with
        (m2 := store64 (store64 (heap s) (b + PREV_OFFSET) NULL) (b + NEXT_OFFSET) z).
      * apply unchanged_trans with (m2 := store64 (heap s) (b + PREV_OFFSET) NULL);
          apply unchanged_store64; intros y Hy; apply Hregion;
          unfold PREV_OFFSET, NEXT_OFFSET in *; lia.
      * apply unchanged_store64. intros y Hy. exists z.
        split; [right; left; reflexivity|]. unfold PREV_OFFSET, NEXT_OFFSET in *. lia.
Qed.

End FreeListOps.

(** ** Headers, footers and payloads of a block sequence *)

(** Bytes strictly between the header and the footer of some block of [l]. *)
Definition payload_region (l : list blk) : Z -> Prop :=
  fun y => exists c, In c l /\ b_addr c + SIZEOF_BLOCK <= y < b_footer c.

(** Bytes of the header or footer word of some block of [l]. *)
Definition tag_region (l : list blk) : Z -> Prop :=
  fun y => exists d, In d l /\
    (b_addr d <= y < b_addr d + SIZEOF_BLOCK \/ b_footer d <= y < b_footer d + SIZEOF_FOOTER).

(** The free-list node at [f] (header and two links, followed by a footer)
    lies inside one block of [l]. *)
Definition inside (l : list blk) (f : Z) : Prop :=
  exists c, In c l /\ b_addr c <= f /\ f + MIN_BLOCK_SIZE <= b_end c.

Section Tags.

Variables (a e : Z) (l : list blk).
Hypothesis Hchain : chain a l e.
Hypothesis Hsize : Forall size_ok l.

Lemma payload_not_tag y : payload_region l y -> ~ tag_region l y.
Proof.
  intros [c [Hc Hy]] [d [Hd Ht]].
  pose proof (proj1 (Forall_forall _ _) Hsize c Hc) as Hsc. apply size_ok_pos in Hsc.
  pose proof (proj1 (Forall_forall _ _) Hsize d Hd) as Hsd. apply size_ok_pos in Hsd.
  unfold b_footer, SIZEOF_BLOCK, SIZEOF_FOOTER in *.
  destruct (chain_disjoint _ _ _ _ _ Hchain Hsize Hc Hd) as [->|[H|H]];
    unfold b_end in *; lia.
Qed.

Lemma tags_frame m m' :
  unchanged_outside (payload_region l) m m' ->
  Forall (tag_ok m) l -> Forall (tag_ok m') l.
Proof.
  intros Hu Ht. apply Forall_forall. intros d Hd.
  pose proof (proj1 (Forall_forall _ _) Ht d Hd) as [H1 H2].
  unfold tag_ok.
  rewrite (unchanged_load64 _ _ _ (b_addr d) Hu).
  - rewrite (unchanged_load64 _ _ _ (b_footer d) Hu); [auto|].
    intros y Hy Hp. apply (payload_not_tag y Hp). exists d.
    unfold SIZEOF_FOOTER. auto.
  - intros y Hy Hp. apply (payload_not_tag y Hp). exists d.
    unfold SIZEOF_BLOCK. auto.
Qed.

Lemma links_in_payload fl y :
  (forall f, In f fl -> inside l f) -> links_region fl y -> payload_region l y.
Proof.
  intros Hin [f [Hf Hy]]. destruct (Hin f Hf) as [c [Hc [H1 H2]]].
  exists c. split; [assumption|].
  unfold b_footer, b_end, PREV_OFFSET, NEXT_OFFSET, SIZEOF_BLOCK, SIZEOF_FOOTER,
    MIN_BLOCK_SIZE in *. lia.
Qed.

Lemma tags_frame_links fl m m' :
  (forall f, In f fl -> inside l f) ->
  unchanged_outside (links_region fl) m m' ->
  Forall (tag_ok m) l -> Forall (tag_ok m') l.
Proof.
  intros Hin Hu. apply tags_frame.
  eapply unchanged_weaken; [|exact Hu]. intros y. apply links_in_payload. assumption.
Qed.

End Tags.

(** ** Consequences of the representation invariant *)

Section HeapFacts.

Variables (s : state) (l : list blk).
Hypothesis Hrep : heap_rep s l.

Lemma start_aligned : heap_start l (mem_brk s) mod 16 = 8.
Proof.
  destruct Hrep as [H0 Hal Hmax _ _ Hc Hs _].
  destruct (chain_bounds _ _ _ Hc Hs) as [H1 [H2 _]].
  unfold ALIGNMENT in *. lia.
Qed.

Lemma block_facts b :
  In b l ->
  8 <= b_addr b /\ b_addr b mod 16 = 8 /\ b_end b <= mem_brk s /\
  b_end b < Word.modulus /\ size_ok b /\ tag_ok (heap s) b.
Proof.
  intros Hb. pose proof start_aligned as Hst.
  destruct Hrep as [H0 Hal Hmax _ _ Hc Hs Ht].
  destruct (chain_bounds _ _ _ Hc Hs) as [H1 [H2 H3]].
  destruct (H3 b Hb) as [H4 [H5 H6]].
  pose proof (proj1 (Forall_forall _ _) Hs b Hb) as Hsb.
  pose proof (proj1 (Forall_forall _ _) Ht b Hb) as Htb.
  unfold b_end in *.
  do 4 (split; [layout_lia|]). split; assumption.
Qed.

Lemma block_size_range b : In b l -> 16 <= b_size b /\ b_size b + 32 <= Word.modulus.
Proof.
  intros Hb. destruct (block_facts b Hb) as [H1 [H2 [H3 [H4 [H5 _]]]]].
  pose proof (size_ok_pos _ H5). destruct H5 as [H5 _].
  destruct Hrep as [_ _ Hmax _ _ _ _ _].
  unfold b_end in *. layout_lia.
Qed.

Lemma get_size_block b : In b l -> get_size (heap s) (b_addr b) = b_size b.
Proof.
  intros Hb. destruct (block_facts b Hb) as [_ [_ [_ [_ [[Hm _] [Ht _]]]]]].
  pose proof (block_size_range b Hb) as Hr.
  unfold get_size. rewrite Ht.
  assert (Hev : b_size b mod 2 = 0) by (unfold ALIGNMENT in Hm; lia).
  rewrite Header.land_mask.
  - rewrite Header.lor_flag by assumption. destruct (b_alloc b); simpl; lia.
  - apply Header.header_range; [|assumption].
    change Word.modulus with 18446744073709551616 in *. lia.
Qed.

Lemma is_allocated_block b : In b l -> is_allocated (heap s) (b_addr b) = b_alloc b.
Proof.
  intros Hb. destruct (block_facts b Hb) as [_ [_ [_ [_ [[Hm _] [Ht _]]]]]].
  unfold is_allocated. rewrite Ht.
  assert (Hev : b_size b mod 2 = 0) by (unfold ALIGNMENT in Hm; lia).
  rewrite Header.lor_flag by assumption. rewrite Header.land_1.
  destruct (b_alloc b); simpl.
  - replace ((b_size b + 1) mod 2) with 1 by lia. reflexivity.
  - replace ((b_size b + 0) mod 2) with 0 by lia. reflexivity.
Qed.

Lemma footer_in_space b : In b l -> 0 <= b_footer b < Word.modulus.
Proof.
  intros Hb. destruct (block_facts b Hb) as [H1 [_ [_ [H4 [H5 _]]]]].
  pose proof (size_ok_pos _ H5). unfold b_footer, b_end in *. layout_lia.
Qed.

Lemma brk_in_space :
  8 <= mem_brk s /\ mem_brk s <= mem_max_addr s /\ mem_max_addr s + 16 < Word.modulus.
Proof.
  pose proof start_aligned as Hst.
  destruct Hrep as [H0 Hal Hmax _ _ Hc Hs _].
  destruct (chain_bounds _ _ _ Hc Hs) as [H1 _].
  unfold ALIGNMENT in *. lia.
Qed.

Lemma block_inside b : In b l -> MIN_BLOCK_SIZE <= b_size b -> inside l (b_addr b).
Proof.
  intros Hb Hsz. exists b. unfold b_end. split; [assumption|]. lia.
Qed.

Lemma nodes_ptrs_ok fl :
  (forall f, In f fl -> exists c, In c l /\ b_addr c = f /\ MIN_BLOCK_SIZE <= b_size c) ->
  ptrs_ok fl.
Proof.
  intros Hn. split.
  - intros f Hf. destruct (Hn f Hf) as [c [Hc [<- Hsz]]].
    destruct (block_facts c Hc) as [H1 [_ [_ [H2 _]]]].
    unfold b_end, MIN_BLOCK_SIZE in *. lia.
  - intros f g Hf Hg.
    destruct (Hn f Hf) as [c [Hc [<- Hsz]]].
    destruct (Hn g Hg) as [d [Hd [<- Hsd]]].
    destruct Hrep as [_ _ _ _ _ Hch Hs _].
    unfold MIN_BLOCK_SIZE in *.
    destruct (chain_disjoint _ _ _ _ _ Hch Hs Hc Hd) as [->|[H|H]];
      unfold b_end in *; [left; reflexivity | right; left; lia | right; right; lia].
Qed.

Lemma free_nodes fl :
  (forall f, In f fl -> is_free_block l f) ->
  forall f, In f fl -> exists c, In c l /\ b_addr c = f /\ MIN_BLOCK_SIZE <= b_size c.
Proof.
  intros Hfree f Hf. destruct (Hfree f Hf) as [sz Hc].
  exists (mkBlk f sz false). split; [assumption|]. split; [reflexivity|].
  destruct (block_facts _ Hc) as [_ [_ [_ [_ [[_ Hsz] _]]]]]. exact Hsz.
Qed.

End HeapFacts.

(** ** Rewriting headers and footers *)

Section Retag.

Lemma chain_end_unique a l e e' : chain a l e -> chain a l e' -> e = e'.
Proof.
  revert a. induction l as [|c l IH]; intros a H1 H2; simpl in *.
  - congruence.
  - destruct H1 as [_ H1]. destruct H2 as [_ H2]. eapply IH; eassumption.
Qed.

Lemma chain_start a l e : chain a l e -> l <> [] -> heap_start l e = a.
Proof. destruct l as [|c l]; [congruence|]. intros [H _] _. exact H. Qed.

Lemma set_header_flat m b sz al :
  0 <= b + sz - SIZEOF_FOOTER < Word.modulus ->
  set_header m b sz al
  = store64 (store64 m b (Z.lor sz (bool_to_Z al))) (b + sz - SIZEOF_FOOTER) sz.
Proof. intros H. unfold set_header. rewrite Word.wrap_small by assumption. reflexivity. Qed.

Lemma set_header_tag m d :
  b_size d mod ALIGNMENT = 0 -> 16 <= b_size d < Word.modulus ->
  0 <= b_footer d < Word.modulus ->
  tag_ok (set_header m (b_addr d) (b_size d) (b_alloc d)) d.
Proof.
  intros Hm Hr Hf. rewrite set_header_flat by exact Hf. unfold tag_ok, b_footer.
  assert (Hev : b_size d mod 2 = 0) by (unfold ALIGNMENT in Hm; lia).
  split.
  - rewrite load64_store64_other by layout_lia.
    apply load64_store64_same_small. apply Header.header_range; [lia | assumption].
  - apply load64_store64_same_small. lia.
Qed.

Lemma set_header_unchanged (R : Z -> Prop) m b sz al :
  (forall y, b <= y < b + 8 \/ b + sz - 8 <= y < b + sz -> R y) ->
  0 <= b + sz - SIZEOF_FOOTER < Word.modulus ->
  unchanged_outside R m (set_header m b sz al).
Proof.
  intros HR Hf. rewrite set_header_flat by exact Hf.
  eapply unchanged_trans; apply unchanged_store64; intros y Hy; apply HR;
    unfold SIZEOF_FOOTER in *; lia.
Qed.

Lemma set_header_unchanged_tags l m d :
  In d l -> 0 <= b_footer d < Word.modulus ->
  unchanged_outside (tag_region l) m (set_header m (b_addr d) (b_size d) (b_alloc d)).
Proof.
  intros Hd Hf. apply set_header_unchanged; [|exact Hf]. intros y Hy. exists d.
  split; [assumption|]. unfold b_footer, SIZEOF_BLOCK, SIZEOF_FOOTER. lia.
Qed.

Lemma dlseg_frame_tags a l e fl m m' p n :
  chain a l e -> Forall size_ok l ->
  (forall f, In f fl -> inside l f) ->
  unchanged_outside (tag_region l) m m' ->
  dlseg m p fl n -> dlseg m' p fl n.
Proof.
  intros Hc Hs Hin Hu. apply (dlseg_frame _ _ _ _ _ _ Hu).
  intros f y Hf Hy Ht.
  apply (payload_not_tag a e l Hc Hs y); [|assumption].
  apply (links_in_payload l fl); [assumption|].
  exists f. split; [assumption|]. unfold PREV_OFFSET, NEXT_OFFSET. lia.
Qed.

Lemma heap_rep_frame s s' l :
  heap_rep s l -> same_region s s' ->
  unchanged_outside (payload_region l) (heap s) (heap s') ->
  heap_rep s' l.
Proof.
  intros [H0 H1 H2 H3 H4 H5 H6 H7] [E1 [E2 [E3 E4]]] Hu.
  constructor; rewrite ?E1, ?E2, ?E3, ?E4; try assumption.
  eapply tags_frame; eassumption.
Qed.

Lemma last_map_app_nonempty (l1 l2 : list blk) d :
  l2 <> [] -> last (map b_addr (l1 ++ l2)) d = last (map b_addr l2) d.
Proof.
  intros H. rewrite map_app. induction l1 as [|c l1 IH]; [reflexivity|].
  change (map b_addr (c :: l1) ++ map b_addr l2)
    with (b_addr c :: (map b_addr l1 ++ map b_addr l2)).
  destruct (map b_addr l1 ++ map b_addr l2) eqn:E.
  - apply app_eq_nil in E. destruct E as [_ E]. destruct l2; [congruence|discriminate].
  - exact IH.
Qed.

(** Replacing a run [mid] of blocks by a run [mid'] that tiles the same
    address range, after rewriting only bytes of that range. *)
Lemma heap_rep_replace s s' l1 mid mid' l2 a e :
  heap_rep s (l1 ++ mid ++ l2) ->
  mid <> [] -> mid' <> [] ->
  chain a mid e -> chain a mid' e ->
  Forall size_ok mid' -> Forall (tag_ok (heap s')) mid' ->
  unchanged_outside (range_at a (e - a)) (heap s) (heap s') ->
  mem_brk s' = mem_brk s -> mem_max_addr s' = mem_max_addr s ->
  mm_heap_first s' = mm_heap_first s ->
  mm_heap_last s' = last (map b_addr (l1 ++ mid' ++ l2)) NULL ->
  heap_rep s' (l1 ++ mid' ++ l2).
Proof.
  intros [H0 H1 H2 H3 H4 H5 H6 H7] Hne Hne' Hc Hc' Hs' Ht' Hu E1 E2 E3 E4.
  apply chain_app in H5. destruct H5 as [m1 [Hc1 H5]].
  apply chain_app in H5. destruct H5 as [m2 [Hcm Hc2]].
  assert (m1 = a).
  { destruct mid as [|c mid]; [congruence|]. destruct Hcm as [Hx _]. destruct Hc as [Hy _].
    congruence. }
  subst m1.
  assert (m2 = e) by (eapply chain_end_unique; eassumption). subst m2.
  apply Forall_app in H6. destruct H6 as [Hs1 H6].
  apply Forall_app in H6. destruct H6 as [Hsm Hs2].
  apply Forall_app in H7. destruct H7 as [Ht1 H7].
  apply Forall_app in H7. destruct H7 as [_ Ht2].
  assert (Hst : heap_start (l1 ++ mid' ++ l2) (mem_brk s)
                = heap_start (l1 ++ mid ++ l2) (mem_brk s)).
  { destruct l1 as [|c l1]; [|reflexivity].
    destruct mid as [|c mid]; [congruence|]. destruct mid' as [|c' mid']; [congruence|].
    destruct Hc as [Hx _]. destruct Hc' as [Hy _]. simpl. congruence. }
  assert (Hhd : hd NULL (map b_addr (l1 ++ mid' ++ l2))
                = hd NULL (map b_addr (l1 ++ mid ++ l2))).
  { destruct l1 as [|c l1]; [|reflexivity].
    destruct mid as [|c mid]; [congruence|]. destruct mid' as [|c' mid']; [congruence|].
    destruct Hc as [Hx _]. destruct Hc' as [Hy _]. simpl. congruence. }
  constructor; rewrite ?E1, ?E2, ?E3; try assumption.
  - rewrite Hst. assumption.
  - rewrite Hhd. assumption.
  - rewrite Hst. apply chain_app. exists a. split.
    + destruct l1; assumption.
    + apply chain_app. exists e. auto.
  - apply Forall_app. split; [assumption|]. apply Forall_app. auto.
  - destruct (chain_bounds _ _ _ Hc1 Hs1) as [_ [_ Hb1]].
    destruct (chain_bounds _ _ _ Hc2 Hs2) as [_ [_ Hb2]].
    apply Forall_app. split; [|apply Forall_app; split; [assumption|]].
    + apply Forall_forall. intros d Hd.
      pose proof (proj1 (Forall_forall _ _) Ht1 d Hd) as [T1 T2].
      pose proof (proj1 (Forall_forall _ _) Hs1 d Hd) as Hp. apply size_ok_pos in Hp.
      destruct (Hb1 d Hd) as [_ [Hle _]]. unfold b_end in Hle.
      split.
      * rewrite (unchanged_load64 _ _ _ _ Hu); [assumption|].
        intros y Hy. unfold range_at. lia.
      * rewrite (unchanged_load64 _ _ _ _ Hu); [assumption|].
        intros y Hy. unfold range_at, b_footer, SIZEOF_FOOTER in *. lia.
    + apply Forall_forall. intros d Hd.
      pose proof (proj1 (Forall_forall _ _) Ht2 d Hd) as [T1 T2].
      pose proof (proj1 (Forall_forall _ _) Hs2 d Hd) as Hp. apply size_ok_pos in Hp.
      destruct (Hb2 d Hd) as [Hle _].
      split.
      * rewrite (unchanged_load64 _ _ _ _ Hu); [assumption|].
        intros y Hy. unfold range_at. lia.
      * rewrite (unchanged_load64 _ _ _ _ Hu); [assumption|].
        intros y Hy. unfold range_at, b_footer, SIZEOF_FOOTER in *. lia.
Qed.

End Retag.

(** ** Sizing a request *)

(** Requests whose block size is computed without wrap-around. *)
Definition request_ok (n : Z) : Prop := 0 <= n /\ n + 31 < Word.modulus.

(** [round_up(header + n + footer, ALIGNMENT)] over the integers. *)
Definition need_of (n : Z) : Z := (SIZEOF_BLOCK + n + SIZEOF_FOOTER + (ALIGNMENT - 1)) / ALIGNMENT * ALIGNMENT.

Section Sizing.

Lemma request_size_eq n : request_ok n -> request_size n = need_of n.
Proof.
  intros [H0 H1]. unfold request_size, round_up, need_of, Word.wrap.
  change Word.modulus with 18446744073709551616 in *.
  unfold SIZEOF_BLOCK, SIZEOF_FOOTER, ALIGNMENT.
  rewrite (Z.mod_small (8 + n)) by lia.
  rewrite (Z.mod_small (8 + n + 8)) by lia.
  rewrite (Z.mod_small (8 + n + 8 + (16 - 1))) by lia.
  apply Z.mod_small. lia.
Qed.

Lemma need_of_facts n :
  0 <= n -> need_of n mod 16 = 0 /\ n + 16 <= need_of n <= n + 31.
Proof.
  intros H. unfold need_of, SIZEOF_BLOCK, SIZEOF_FOOTER, ALIGNMENT. lia.
Qed.

Lemma split_threshold need :
  0 <= need -> need + 16 < Word.modulus ->
  Word.wrap (Word.wrap (SIZEOF_BLOCK + need) + SIZEOF_FOOTER) = need + 16.
Proof.
  intros H0 H1. unfold Word.wrap. change Word.modulus with 18446744073709551616 in *.
  unfold SIZEOF_BLOCK, SIZEOF_FOOTER.
  rewrite (Z.mod_small (8 + need)) by lia. rewrite Z.mod_small by lia. lia.
Qed.

End Sizing.

(** ** First fit on the abstract free list *)

Fixpoint first_fit (m : mem) (size : Z) (fl : list Z) : Z :=
  match fl with
  | [] => NULL
  | f :: fl' => if size <=? get_size m f then f else first_fit m size fl'
  end.

Section FirstFit.

Lemma find_fit_from_spec fuel m size : forall p fl,
  dlseg m p fl NULL -> (forall f, In f fl -> f <> NULL) ->
  (length fl < fuel)%nat ->
  find_fit_from fuel m size (hd NULL fl) = Some (first_fit m size fl).
Proof.
  induction fuel as [|fuel IH]; intros p fl Hd Hnz Hlen; [inversion Hlen|].
  destruct fl as [|f fl].
  - reflexivity.
  - cbn [hd find_fit_from first_fit].
    assert (Hf : f <> NULL) by (apply Hnz; left; reflexivity).
    replace (f =? NULL) with false by (symmetry; apply Z.eqb_neq; assumption).
    destruct (size <=? get_size m f); [reflexivity|].
    cbn [dlseg] in Hd. destruct Hd as [_ [Hn Hd]]. rewrite Hn.
    apply (IH f).
    + exact Hd.
    + intros g Hg. apply Hnz. right. assumption.
    + simpl in Hlen. lia.
Qed.

Lemma first_fit_cases m size fl :
  (first_fit m size fl = NULL /\ forall f, In f fl -> get_size m f < size) \/
  (exists fl1 x fl2, fl = fl1 ++ x :: fl2 /\ first_fit m size fl = x /\
     size <= get_size m x /\ forall f, In f fl1 -> get_size m f < size).
Proof.
  induction fl as [|f fl IH].
  - left. split; [reflexivity|]. intros f [].
  - cbn [first_fit]. destruct (size <=? get_size m f) eqn:E.
    + right. exists [], f, fl. apply Z.leb_le in E.
      split; [reflexivity|]. split; [reflexivity|]. split; [assumption|]. intros g [].
    + apply Z.leb_gt in E. destruct IH as [[H1 H2]|[fl1 [x [fl2 [H1 [H2 [H3 H4]]]]]]].
      * left. split; [assumption|]. intros g [<-|Hg]; auto.
      * right. exists (f :: fl1), x, fl2. subst fl.
        split; [reflexivity|]. split; [assumption|]. split; [assumption|].
        intros g [<-|Hg]; auto.
Qed.

End FirstFit.

(** ** Allocation: growing the region *)

Section MallocGrow.

Variables (s : state) (l : list blk) (fl : list Z) (need : Z).
Hypothesis Hwf : wf s l fl.
Hypothesis Hneed_al : need mod ALIGNMENT = 0.
Hypothesis Hneed_pos : 16 <= need.
Hypothesis Hroom : mem_brk s + need <= mem_max_addr s.

Definition grown_state : state :=
  mkState (set_header (heap s) (mem_brk s) need true)
          (mem_brk s + need) (mem_max_addr s) (head s)
          (if mm_heap_first s =? NULL then mem_brk s else mm_heap_first s)
          (mem_brk s).

Definition grown_block : blk := mkBlk (mem_brk s) need true.

Lemma grown_unchanged :
  unchanged_outside (range_at (mem_brk s) need) (heap s) (heap grown_state).
Proof.
  pose proof (brk_in_space s l (proj1 Hwf)) as Hb.
  apply set_header_unchanged; [intros y Hy; unfold range_at; lia | layout_lia].
Qed.

Lemma malloc_grow_heap_rep : heap_rep grown_state (l ++ [grown_block]).
Proof.
  destruct Hwf as [Hrep _].
  pose proof (block_facts s l Hrep) as Hfacts.
  destruct Hrep as [H0 H1 H2 H3 H4 H5 H6 H7].
  assert (Hbrk : 0 <= mem_brk s) by (destruct (chain_bounds _ _ _ H5 H6); lia).
  assert (Hst : heap_start (l ++ [grown_block]) (mem_brk s + need)
                = heap_start l (mem_brk s)) by (destruct l; reflexivity).
  constructor; cbn [heap mem_brk mem_max_addr head mm_heap_first mm_heap_last grown_state].
  - rewrite Hst. assumption.
  - unfold ALIGNMENT in *. lia.
  - lia.
  - rewrite H3. destruct l as [|c l0].
    + reflexivity.
    + cbn [map hd app].
      assert (8 <= b_addr c) by (apply Hfacts; left; reflexivity).
      replace (b_addr c =? NULL) with false by (symmetry; apply Z.eqb_neq; layout_lia).
      reflexivity.
  - rewrite map_app. cbn [map]. rewrite last_last. reflexivity.
  - rewrite Hst. apply chain_app. exists (mem_brk s). split; [assumption|].
    simpl. unfold b_end. simpl. auto.
  - apply Forall_app. split; [assumption|]. constructor; [|constructor].
    split; simpl; [assumption | layout_lia].
  - apply Forall_app. split.
    + apply Forall_forall. intros d Hd.
      pose proof (proj1 (Forall_forall _ _) H7 d Hd) as [T1 T2].
      destruct (Hfacts d Hd) as [_ [_ [Hend [_ [Hsz _]]]]]. apply size_ok_pos in Hsz.
      unfold b_end in Hend.
      split.
      * rewrite (unchanged_load64 _ _ _ _ grown_unchanged); [assumption|].
        intros y Hy. unfold range_at. lia.
      * rewrite (unchanged_load64 _ _ _ _ grown_unchanged); [assumption|].
        intros y Hy. unfold range_at, b_footer, SIZEOF_FOOTER in *. lia.
    + constructor; [|constructor].
      pose proof (brk_in_space s l (proj1 Hwf)) as Hb.
      apply (set_header_tag (heap s) grown_block); unfold b_footer; simpl;
        [assumption | layout_lia | layout_lia].
Qed.

Lemma malloc_grow_free_rep : free_rep grown_state (l ++ [grown_block]) fl.
Proof.
  destruct Hwf as [Hrep [Hh Hd Hnd Hm]].
  constructor; cbn [heap head grown_state].
  - assumption.
  - apply (dlseg_frame _ _ _ _ _ _ grown_unchanged); [|assumption].
    intros f y Hf Hy. apply Hm in Hf. destruct Hf as [sz Hin].
    destruct (block_facts s l Hrep _ Hin) as [_ [_ [Hend [_ [[_ Hsz] _]]]]].
    unfold range_at, b_end in *. simpl in *. layout_lia.
  - assumption.
  - intros f. rewrite Hm. unfold is_free_block. split.
    + intros [sz Hin]. exists sz. apply in_or_app. auto.
    + intros [sz Hin]. exists sz. apply in_app_or in Hin.
      destruct Hin as [Hin|[Hin|[]]]; [assumption | discriminate].
Qed.

Lemma malloc_grow_wf : wf grown_state (l ++ [grown_block]) fl.
Proof. split; [apply malloc_grow_heap_rep | apply malloc_grow_free_rep]. Qed.

End MallocGrow.

(** ** Allocation: placing a request in a free block *)

Section ListFacts.

Lemma is_free_app la lb f :
  is_free_block (la ++ lb) f <-> is_free_block la f \/ is_free_block lb f.
Proof.
  unfold is_free_block. split.
  - intros [sz H]. apply in_app_or in H. destruct H; [left|right]; exists sz; assumption.
  - intros [[sz H]|[sz H]]; exists sz; apply in_or_app; auto.
Qed.

Lemma split_bounds a l1 b l2 e :
  chain a (l1 ++ b :: l2) e -> Forall size_ok (l1 ++ b :: l2) ->
  (forall d, In d l1 -> a <= b_addr d /\ b_addr d + 16 <= b_end d /\ b_end d <= b_addr b) /\
  (forall d, In d l2 -> b_end b <= b_addr d /\ b_addr d + 16 <= b_end d /\ b_end d <= e) /\
  a <= b_addr b /\ b_end b <= e.
Proof.
  intros Hc Hs. apply chain_split in Hc. destruct Hc as [Hc1 Hc2].
  apply Forall_app in Hs. destruct Hs as [Hs1 Hs2].
  inversion Hs2 as [|? ? Hsb Hs2']; subst.
  destruct (chain_bounds _ _ _ Hc1 Hs1) as [A1 [_ A2]].
  destruct (chain_bounds _ _ _ Hc2 Hs2') as [B1 [_ B2]].
  apply size_ok_pos in Hsb. unfold b_end in *.
  split; [|split; [|lia]].
  - intros d Hd. destruct (A2 d Hd) as [? [? _]].
    pose proof (proj1 (Forall_forall _ _) Hs1 d Hd) as Hp. apply size_ok_pos in Hp. lia.
  - intros d Hd. destruct (B2 d Hd) as [? [? _]].
    pose proof (proj1 (Forall_forall _ _) Hs2' d Hd) as Hp. apply size_ok_pos in Hp. lia.
Qed.

Lemma last_addr_in (l : list blk) d :
  l <> [] -> exists c, In c l /\ last (map b_addr l) d = b_addr c.
Proof.
  induction l as [|c l IH]; [congruence|]. intros _.
  destruct l as [|c' l'].
  - exists c. split; [left; reflexivity | reflexivity].
  - destruct IH as [c0 [H1 H2]]; [discriminate|].
    exists c0. split; [right; assumption|]. exact H2.
Qed.

Lemma last_map_mid (l1 mid l2 : list blk) d :
  last (map b_addr (l1 ++ mid ++ l2)) d =
  match l2 with
  | [] => last (map b_addr (l1 ++ mid)) d
  | _ :: _ => last (map b_addr l2) d
  end.
Proof.
  destruct l2 as [|c l2].
  - rewrite app_nil_r. reflexivity.
  - rewrite app_assoc. apply last_map_app_nonempty. discriminate.
Qed.

End ListFacts.

Section MallocFit.

Variables (s : state) (l1 l2 : list blk) (fl1 fl2 : list Z) (x sz : Z).
Let B := mkBlk x sz false.
Let l := l1 ++ [B] ++ l2.
Let fl := fl1 ++ x :: fl2.
Hypothesis Hwf : wf s l fl.

Let s1 := remove_block s x.

Lemma fit_geometry :
  (forall d, In d l1 -> 8 <= b_addr d /\ b_addr d + 16 <= b_end d /\ b_end d <= x) /\
  (forall d, In d l2 -> x + sz <= b_addr d /\ b_addr d + 16 <= b_end d
                        /\ b_end d <= mem_brk s) /\
  8 <= x /\ x mod 16 = 8 /\ x + sz <= mem_brk s /\ sz mod 16 = 0 /\ 32 <= sz /\
  sz + 32 <= Word.modulus /\ mem_brk s + 16 < Word.modulus.
Proof.
  destruct Hwf as [Hrep _].
  assert (HB : In B l) by (apply in_or_app; right; left; reflexivity).
  destruct (block_facts s l Hrep B HB) as [F1 [F2 [F3 [F4 [[F5 F6] _]]]]].
  pose proof (block_size_range s l Hrep B HB) as [_ F7].
  pose proof (block_facts s l Hrep) as Hall.
  destruct Hrep as [H0 _ H2 _ _ H5 H6 _].
  destruct (split_bounds _ _ _ _ _ H5 H6) as [G1 [G2 _]].
  unfold b_end in *. simpl in *.
  split; [|split].
  - intros d Hd. destruct (G1 d Hd) as [? [? ?]].
    assert (8 <= b_addr d) by (apply Hall; apply in_or_app; auto). lia.
  - intros d Hd. destruct (G2 d Hd) as [? [? ?]]. lia.
  - repeat split; try assumption; layout_lia.
Qed.

Lemma fit_rest_free f :
  In f (fl1 ++ fl2) -> is_free_block l1 f \/ is_free_block l2 f.
Proof.
  intros Hf. destruct Hwf as [_ [_ _ Hnd Hm]].
  assert (Hne : f <> x).
  { intros ->. apply NoDup_remove_2 in Hnd. contradiction. }
  assert (Hin : In f fl).
  { apply in_app_or in Hf. apply in_or_app. destruct Hf; [left|right; right]; assumption. }
  apply Hm in Hin. apply is_free_app in Hin. destruct Hin as [Hin|Hin]; [left; assumption|].
  apply is_free_app in Hin. destruct Hin as [[sz' Hin]|Hin]; [|right; assumption].
  destruct Hin as [Hin|[]]. inversion Hin. congruence.
Qed.

Lemma fit_rest_mem f :
  In f (fl1 ++ fl2) <-> is_free_block l1 f \/ is_free_block l2 f.
Proof.
  split; [apply fit_rest_free|].
  intros H. pose proof fit_geometry as [G1 [G2 G3]].
  destruct Hwf as [_ [_ _ Hnd Hm]].
  assert (Hin : In f fl).
  { apply Hm. apply is_free_app. destruct H; [left; assumption|].
    right. apply is_free_app. right. assumption. }
  assert (Hne : f <> x).
  { destruct H as [[sz' H]|[sz' H]].
    - destruct (G1 _ H) as [? [? ?]]. unfold b_end in *. simpl in *. lia.
    - destruct (G2 _ H) as [? [? ?]]. unfold b_end in *. simpl in *. lia. }
  apply in_app_or in Hin. apply in_or_app.
  destruct Hin as [Hin|[Hin|Hin]]; [left; assumption | congruence | right; assumption].
Qed.

(** The other free-list nodes lie inside blocks before [x] or after
    [x + sz], whatever replaces the block at [x]. *)
Lemma fit_rest_inside mid f :
  In f (fl1 ++ fl2) -> inside (l1 ++ mid ++ l2) f.
Proof.
  intros Hf. destruct Hwf as [Hrep _].
  destruct (fit_rest_free f Hf) as [[sz' H]|[sz' H]].
  - exists (mkBlk f sz' false). split; [apply in_or_app; auto|].
    assert (Hin : In (mkBlk f sz' false) l) by (apply in_or_app; auto).
    destruct (block_facts s l Hrep _ Hin) as [_ [_ [_ [_ [[_ Hs] _]]]]].
    unfold b_end. simpl in *. lia.
  - exists (mkBlk f sz' false).
    split; [apply in_or_app; right; apply in_or_app; auto|].
    assert (Hin : In (mkBlk f sz' false) l).
    { apply in_or_app. right. apply in_or_app. auto. }
    destruct (block_facts s l Hrep _ Hin) as [_ [_ [_ [_ [[_ Hs] _]]]]].
    unfold b_end. simpl in *. lia.
Qed.

Lemma fit_rest_outside f :
  In f (fl1 ++ fl2) -> 8 <= f /\ (f + 32 <= x \/ x + sz <= f) /\ f + 32 <= mem_brk s.
Proof.
  intros Hf. pose proof fit_geometry as [G1 [G2 G3]].
  destruct Hwf as [Hrep _].
  destruct (fit_rest_free f Hf) as [[sz' H]|[sz' H]].
  - assert (Hin : In (mkBlk f sz' false) l) by (apply in_or_app; auto).
    destruct (block_facts s l Hrep _ Hin) as [_ [_ [_ [_ [[_ Hs] _]]]]].
    destruct (G1 _ H) as [? [? ?]]. unfold b_end in *. simpl in *.
    unfold MIN_BLOCK_SIZE in *. lia.
  - assert (Hin : In (mkBlk f sz' false) l).
    { apply in_or_app. right. apply in_or_app. auto. }
    destruct (block_facts s l Hrep _ Hin) as [_ [_ [_ [_ [[_ Hs] _]]]]].
    destruct (G2 _ H) as [? [? ?]]. unfold b_end in *. simpl in *.
    unfold MIN_BLOCK_SIZE in *. lia.
Qed.

Lemma fit_ptrs_ok : ptrs_ok fl.
Proof.
  destruct Hwf as [Hrep [_ _ _ Hm]].
  apply (nodes_ptrs_ok s l Hrep). apply (free_nodes s l Hrep).
  intros f Hf. apply Hm. assumption.
Qed.

Lemma fit_removed :
  head s1 = hd NULL (fl1 ++ fl2) /\
  dlseg (heap s1) NULL (fl1 ++ fl2) NULL /\
  same_region s s1 /\
  heap_rep s1 l /\
  get_size (heap s1) x = sz.
Proof.
  pose proof fit_ptrs_ok as Hp.
  destruct Hwf as [Hrep [Hh Hd Hnd Hm]].
  destruct (remove_block_spec s fl1 x fl2 Hh Hd Hnd Hp) as [R1 [R2 [R3 R4]]].
  assert (Hrep1 : heap_rep s1 l).
  { apply (heap_rep_frame s s1 l Hrep R3).
    eapply unchanged_weaken; [|exact R4].
    intros y. apply links_in_payload. intros f Hf.
    apply (fit_rest_inside [B]). assumption. }
  split; [assumption|]. split; [assumption|]. split; [assumption|].
  split; [assumption|].
  apply (get_size_block s1 l Hrep1 B). apply in_or_app. right. left. reflexivity.
Qed.

End MallocFit.

Section MallocPlace.

Variables (s : state) (l1 l2 : list blk) (fl1 fl2 : list Z) (x sz : Z).
Hypothesis Hwf : wf s (l1 ++ [mkBlk x sz false] ++ l2) (fl1 ++ x :: fl2).

(** The state after unlinking [x] and marking the whole block allocated. *)
Definition whole_state : state :=
  with_heap (remove_block s x) (set_header (heap (remove_block s x)) x sz true).

Lemma malloc_whole_wf :
  wf whole_state (l1 ++ [mkBlk x sz true] ++ l2) (fl1 ++ fl2).
Proof.
  pose proof (fit_geometry _ _ _ _ _ _ _ Hwf) as [G1 [G2 [G3 [G4 [G5 [G6 [G7 [G8 G9]]]]]]]].
  pose proof (fit_removed _ _ _ _ _ _ _ Hwf) as [R1 [R2 [[E1 [E2 [E3 E4]]] [R4 R5]]]].
  assert (Hu : unchanged_outside (range_at x (x + sz - x))
                 (heap (remove_block s x)) (heap whole_state)).
  { apply set_header_unchanged; [intros y Hy; unfold range_at; lia | layout_lia]. }
  assert (Hrep' : heap_rep whole_state (l1 ++ [mkBlk x sz true] ++ l2)).
  { apply (heap_rep_replace (remove_block s x) whole_state l1
             [mkBlk x sz false] [mkBlk x sz true] l2 x (x + sz)); try assumption;
      try discriminate; try reflexivity.
    - simpl. auto.
    - simpl. auto.
    - constructor; [|constructor]. split; simpl; [assumption | layout_lia].
    - constructor; [|constructor].
      apply (set_header_tag _ (mkBlk x sz true)); unfold b_footer; simpl;
        [assumption | layout_lia | layout_lia].
    - cbn [whole_state with_heap mm_heap_last].
      destruct R4 as [_ _ _ _ H4 _ _ _]. rewrite H4.
      rewrite !map_app. reflexivity. }
  split; [assumption|].
  destruct Hwf as [_ [_ _ Hnd _]].
  constructor.
  - exact R1.
  - destruct Hrep' as [_ _ _ _ _ Hc Hs _].
    apply (dlseg_frame_tags _ _ _ (fl1 ++ fl2) (heap (remove_block s x)) _ _ _ Hc Hs).
    + intros f Hf. apply (fit_rest_inside _ _ _ _ _ _ _ Hwf). assumption.
    + apply (set_header_unchanged_tags _ _ (mkBlk x sz true));
        [|unfold b_footer; simpl; layout_lia].
      apply in_or_app. right. left. reflexivity.
    + exact R2.
  - eapply NoDup_remove_1. eassumption.
  - intros f. rewrite (fit_rest_mem _ _ _ _ _ _ _ Hwf f).
    rewrite is_free_app, is_free_app. split.
    + intros [H|H]; auto.
    + intros [H|[[sz' [H|[]]]|H]]; auto. discriminate.
Qed.

Variable need : Z.
Hypothesis Hneed_al : need mod ALIGNMENT = 0.
Hypothesis Hneed_pos : 16 <= need.
Hypothesis Hneed_fit : need + 32 <= sz.

(** The state after unlinking [x] and splitting it at [x + need]. *)
Definition split_state : state :=
  split_helper (remove_block s x) x (x + need) need (sz - need).

Let s1 := remove_block s x.
Let s2 := if x =? mm_heap_last s1 then with_last s1 (x + need) else s1.
Let s3 := with_heap s2 (set_header (heap s2) x need true).
Let s4 := with_heap s3 (set_header (heap s3) (x + need) (sz - need) false).
Let l' := l1 ++ [mkBlk x need true; mkBlk (x + need) (sz - need) false] ++ l2.

Lemma split_retagged :
  heap_rep s4 l' /\ head s4 = hd NULL (fl1 ++ fl2) /\
  dlseg (heap s4) NULL (fl1 ++ fl2) NULL.
Proof.
  pose proof (fit_geometry _ _ _ _ _ _ _ Hwf) as [G1 [G2 [G3 [G4 [G5 [G6 [G7 [G8 G9]]]]]]]].
  pose proof (fit_removed _ _ _ _ _ _ _ Hwf) as [R1 [R2 [[E1 [E2 [E3 E4]]] [R4 R5]]]].
  fold s1 in R1, R2, E1, E2, E3, E4, R4, R5.
  assert (Hheap2 : heap s2 = heap s1) by (unfold s2; destruct (x =? mm_heap_last s1); reflexivity).
  assert (Hhead2 : head s2 = head s1) by (unfold s2; destruct (x =? mm_heap_last s1); reflexivity).
  assert (Hu : unchanged_outside (range_at x (x + sz - x)) (heap s1) (heap s4)).
  { cbn [s4 s3 heap with_heap]. rewrite Hheap2.
    apply unchanged_trans with (m2 := set_header (heap s1) x need true);
      (apply set_header_unchanged; [intros y Hy; unfold range_at; lia | layout_lia]). }
  assert (Hrep' : heap_rep s4 l').
  { apply (heap_rep_replace s1 s4 l1 [mkBlk x sz false]
             [mkBlk x need true; mkBlk (x + need) (sz - need) false] l2 x (x + sz));
      try assumption; try discriminate.
    - simpl. auto.
    - simpl. unfold b_end. simpl. repeat split; lia.
    - constructor; [|constructor; [|constructor]]; split; simpl;
        unfold ALIGNMENT in *; layout_lia.
    - constructor; [|constructor; [|constructor]].
      + cbn [s4 s3 heap with_heap].
        destruct (set_header_tag (heap s2) (mkBlk x need true)) as [T1 T2];
          [simpl; assumption | simpl; layout_lia | unfold b_footer; simpl; layout_lia |].
        assert (Hu2 : unchanged_outside (range_at (x + need) (sz - need))
                        (set_header (heap s2) x need true)
                        (set_header (set_header (heap s2) x need true)
                           (x + need) (sz - need) false)).
        { apply set_header_unchanged; [intros y Hy; unfold range_at; lia | layout_lia]. }
        unfold tag_ok, b_footer in *. cbn [b_addr b_size b_alloc] in *.
        split.
        * rewrite (unchanged_load64 _ _ _ x Hu2);
            [assumption | intros y Hy; unfold range_at; lia].
        * rewrite (unchanged_load64 _ _ _ (x + need - SIZEOF_FOOTER) Hu2);
            [assumption | intros y Hy; unfold range_at, SIZEOF_FOOTER in *; lia].
      + cbn [s4 heap with_heap].
        apply (set_header_tag (heap s3) (mkBlk (x + need) (sz - need) false));
          unfold b_footer; simpl; unfold ALIGNMENT in *; layout_lia.
    - unfold s4, s3, s2. destruct (x =? mm_heap_last s1); reflexivity.
    - unfold s4, s3, s2. destruct (x =? mm_heap_last s1); reflexivity.
    - unfold s4, s3, s2. destruct (x =? mm_heap_last s1); reflexivity.
    - destruct R4 as [_ _ _ _ H4 _ _ _].
      rewrite last_map_mid in H4. rewrite last_map_mid.
      unfold s4, s3. cbn [mm_heap_last with_heap]. unfold s2.
      destruct l2 as [|c l2'].
      + rewrite map_app in H4. cbn [map] in H4. rewrite last_last in H4.
        cbn [b_addr] in H4.
        rewrite H4, Z.eqb_refl. cbn [with_last mm_heap_last].
        change [mkBlk x need true; mkBlk (x + need) (sz - need) false]
          with ([mkBlk x need true] ++ [mkBlk (x + need) (sz - need) false]).
        rewrite app_assoc, map_app. cbn [map]. rewrite last_last. reflexivity.
      + destruct (last_addr_in (c :: l2') NULL) as [d [Hd Hl]]; [discriminate|].
        rewrite H4, Hl. destruct (G2 d Hd) as [? _].
        replace (x =? b_addr d) with false by (symmetry; apply Z.eqb_neq; lia).
        cbn [mm_heap_last]. rewrite H4. exact Hl. }
  split; [assumption|]. split.
  - cbn [s4 s3 head with_heap]. rewrite Hhead2. exact R1.
  - destruct Hrep' as [_ _ _ _ _ Hc Hs _].
    apply (dlseg_frame (range_at x (x + sz - x)) _ _ _ _ _ Hu); [|exact R2].
    intros f y Hf Hy. destruct (fit_rest_outside _ _ _ _ _ _ _ Hwf f Hf) as [? [? ?]].
    unfold range_at. lia.
Qed.

Lemma split_nodes f :
  In f ((x + need) :: fl1 ++ fl2) ->
  exists c, In c l' /\ b_addr c = f /\ MIN_BLOCK_SIZE <= b_size c.
Proof.
  intros [<-|Hf].
  - exists (mkBlk (x + need) (sz - need) false).
    split; [apply in_or_app; right; right; left; reflexivity|].
    split; [reflexivity|]. simpl. layout_lia.
  - destruct Hwf as [Hrep _].
    destruct (fit_rest_free _ _ _ _ _ _ _ Hwf f Hf) as [[sz' H]|[sz' H]].
    + exists (mkBlk f sz' false). split; [apply in_or_app; auto|].
      split; [reflexivity|].
      assert (Hin : In (mkBlk f sz' false) (l1 ++ [mkBlk x sz false] ++ l2))
        by (apply in_or_app; auto).
      destruct (block_facts _ _ Hrep _ Hin) as [_ [_ [_ [_ [[_ Hs] _]]]]]. exact Hs.
    + exists (mkBlk f sz' false).
      split; [apply in_or_app; right; right; right; assumption|].
      split; [reflexivity|].
      assert (Hin : In (mkBlk f sz' false) (l1 ++ [mkBlk x sz false] ++ l2)).
      { apply in_or_app. right. apply in_or_app. auto. }
      destruct (block_facts _ _ Hrep _ Hin) as [_ [_ [_ [_ [[_ Hs] _]]]]]. exact Hs.
Qed.

Lemma malloc_split_wf : wf split_state l' ((x + need) :: fl1 ++ fl2).
Proof.
  pose proof (fit_geometry _ _ _ _ _ _ _ Hwf) as [G1 [G2 [G3 [G4 [G5 [G6 [G7 [G8 G9]]]]]]]].
  destruct split_retagged as [Hrep4 [Hh4 Hd4]].
  assert (Hp : ptrs_ok ((x + need) :: fl1 ++ fl2)).
  { apply (nodes_ptrs_ok s4 l' Hrep4). apply split_nodes. }
  assert (Hnd : NoDup ((x + need) :: fl1 ++ fl2)).
  { constructor.
    - intros Hin. destruct (fit_rest_outside _ _ _ _ _ _ _ Hwf _ Hin) as [? [? ?]]. lia.
    - destruct Hwf as [_ [_ _ Hnd _]]. eapply NoDup_remove_1. eassumption. }
  destruct (add_block_spec s4 (fl1 ++ fl2) (x + need) Hh4 Hd4 Hnd Hp) as [A1 [A2 [A3 A4]]].
  change (add_block s4 (x + need)) with split_state in *.
  split.
  - apply (heap_rep_frame s4 split_state l' Hrep4 A3).
    eapply unchanged_weaken; [|exact A4].
    destruct Hrep4 as [_ _ _ _ _ Hc Hs _].
    intros y. apply links_in_payload. intros f Hf.
    destruct (split_nodes f Hf) as [c [Hc1 [Hc2 Hc3]]].
    exists c. split; [assumption|]. unfold b_end. lia.
  - constructor.
    + exact A1.
    + exact A2.
    + exact Hnd.
    + intros f. unfold l'. rewrite is_free_app, is_free_app. split.
      * intros [<-|Hf].
        -- right. left. exists (sz - need). right. left. reflexivity.
        -- apply (fit_rest_mem _ _ _ _ _ _ _ Hwf) in Hf. tauto.
      * intros [H|[[sz' [H|[H|[]]]]|H]].
        -- right. apply (fit_rest_mem _ _ _ _ _ _ _ Hwf). auto.
        -- discriminate.
        -- left. inversion H. reflexivity.
        -- right. apply (fit_rest_mem _ _ _ _ _ _ _ Hwf). auto.
Qed.

End MallocPlace.

(** ** Allocation: the abstract result of [mm_malloc] *)

Inductive malloc_spec (s : state) (l : list blk) (fl : list Z) (need : Z)
  : state -> Z -> list blk -> list Z -> Prop :=
| MallocWhole l1 l2 fl1 fl2 x sz :
    l = l1 ++ [mkBlk x sz false] ++ l2 -> fl = fl1 ++ x :: fl2 ->
    (forall f, In f fl1 -> get_size (heap s) f < need) ->
    need <= sz <= need + 16 ->
    malloc_spec s l fl need (whole_state s x sz) (payload_of x)
      (l1 ++ [mkBlk x sz true] ++ l2) (fl1 ++ fl2)
| MallocSplit l1 l2 fl1 fl2 x sz :
    l = l1 ++ [mkBlk x sz false] ++ l2 -> fl = fl1 ++ x :: fl2 ->
    (forall f, In f fl1 -> get_size (heap s) f < need) ->
    need + 16 < sz ->
    malloc_spec s l fl need (split_state s x sz need) (payload_of x)
      (l1 ++ [mkBlk x need true; mkBlk (x + need) (sz - need) false] ++ l2)
      ((x + need) :: fl1 ++ fl2)
| MallocGrow :
    (forall f, In f fl -> get_size (heap s) f < need) ->
    mem_brk s + need <= mem_max_addr s ->
    malloc_spec s l fl need (grown_state s need) (payload_of (mem_brk s))
      (l ++ [grown_block s need]) fl
| MallocFail :
    (forall f, In f fl -> get_size (heap s) f < need) ->
    mem_max_addr s < mem_brk s + need ->
    malloc_spec s l fl need s NULL l fl.

Section MallocCorrect.

Variables (fuel : nat) (s : state) (l : list blk) (fl : list Z) (n : Z).
Hypothesis Hwf : wf s l fl.
Hypothesis Hreq : request_ok n.
Hypothesis Hfuel : (length fl < fuel)%nat.

Lemma mm_malloc_correct :
  exists s' p l' fl',
    mm_malloc fuel s n = Done (s', p) /\
    malloc_spec s l fl (need_of n) s' p l' fl' /\
    wf s' l' fl'.
Proof.
  pose proof (need_of_facts n (proj1 Hreq)) as [Nal [Nlo Nhi]].
  pose proof Hreq as [Hn0 Hn1].
  pose proof Hwf as [Hrep [Hh Hd Hnd Hm]].
  assert (Hp : ptrs_ok fl).
  { apply (nodes_ptrs_ok s l Hrep). apply (free_nodes s l Hrep).
    intros f Hf. apply Hm. assumption. }
  assert (Hbrk : 0 <= mem_brk s /\ mem_brk s + 16 < Word.modulus).
  { destruct Hrep as [? ? ? ? ? Hc Hs ?]. destruct (chain_bounds _ _ _ Hc Hs).
    layout_lia. }
  unfold mm_malloc. rewrite (request_size_eq n Hreq).
  unfold find_fit. rewrite Hh.
  rewrite (find_fit_from_spec fuel (heap s) (need_of n) NULL fl Hd); [|
    intros f Hf; destruct Hp as [Hr _]; specialize (Hr f Hf); unfold NULL; lia |
    assumption].
  destruct (first_fit_cases (heap s) (need_of n) fl)
    as [[Hff Hsmall]|[fl1 [x [fl2 [Hfl [Hff [Hfit Hsmall]]]]]]]; rewrite Hff.
  - (* no fit: grow the region *)
    change (NULL =? NULL) with true. cbn [negb].
    unfold mem_sbrk. destruct (mem_brk s + need_of n <=? mem_max_addr s) eqn:E.
    + apply Z.leb_le in E.
      replace (mem_brk s =? SBRK_FAILED) with false
        by (symmetry; apply Z.eqb_neq; unfold SBRK_FAILED; layout_lia).
      exists (grown_state s (need_of n)), (payload_of (mem_brk s)),
        (l ++ [grown_block s (need_of n)]), fl.
      split.
      * unfold grown_state. cbn [mm_heap_first].
        destruct (mm_heap_first s =? NULL); reflexivity.
      * split; [apply MallocGrow; assumption|].
        apply malloc_grow_wf; try assumption; layout_lia.
    + apply Z.leb_gt in E. rewrite Z.eqb_refl.
      exists s, NULL, l, fl. split; [reflexivity|].
      split; [apply MallocFail; assumption | assumption].
  - (* first fit at x *)
    subst fl.
    assert (Hx : In x (fl1 ++ x :: fl2)) by (apply in_or_app; right; left; reflexivity).
    pose proof (proj1 (Hm x) Hx) as [sz Hin].
    destruct (in_split _ _ Hin) as [l1 [l2 Hl]]. subst l.
    change (l1 ++ mkBlk x sz false :: l2) with (l1 ++ [mkBlk x sz false] ++ l2) in *.
    pose proof (fit_geometry _ _ _ _ _ _ _ Hwf) as [G1 [G2 [G3 [G4 [G5 [G6 [G7 [G8 G9]]]]]]]].
    pose proof (fit_removed _ _ _ _ _ _ _ Hwf) as [R1 [R2 [R3 [R4 R5]]]].
    assert (Hsz : get_size (heap s) x = sz)
      by (apply (get_size_block s _ Hrep (mkBlk x sz false)); assumption).
    rewrite Hsz in Hfit.
    replace (x =? NULL) with false by (symmetry; apply Z.eqb_neq; unfold NULL; lia).
    cbn [negb]. rewrite R5.
    rewrite split_threshold by layout_lia.
    destruct (need_of n + 16 <? sz) eqn:E.
    + apply Z.ltb_lt in E.
      rewrite Word.wrap_small by layout_lia.
      exists (split_state s x sz (need_of n)), (payload_of x),
        (l1 ++ [mkBlk x (need_of n) true;
                mkBlk (x + need_of n) (sz - need_of n) false] ++ l2),
        ((x + need_of n) :: fl1 ++ fl2).
      split; [reflexivity|]. split.
      * apply MallocSplit; auto.
      * apply malloc_split_wf; try assumption; layout_lia.
    + apply Z.ltb_ge in E.
      exists (whole_state s x sz), (payload_of x),
        (l1 ++ [mkBlk x sz true] ++ l2), (fl1 ++ fl2).
      split; [reflexivity|]. split.
      * apply MallocWhole; auto.
      * apply malloc_whole_wf; assumption.
Qed.

End MallocCorrect.

(** ** Release: the four coalescing cases of [coalesce_helper] *)

Definition merge_both (s : state) (prev block next : Z) : state :=
  let m := heap s in
  let sz := Word.wrap (Word.wrap (get_size m prev + get_size m block) + get_size m next) in
  let s1 := with_heap s (set_header m prev sz false) in
  let s2 := remove_block s1 next in
  let s3 := remove_block s2 block in
  if next =? mm_heap_last s3 then with_last s3 prev else s3.

Definition merge_prev (s : state) (prev block : Z) : state :=
  let m := heap s in
  let sz := Word.wrap (get_size m prev + get_size m block) in
  let s1 := with_heap s (set_header m prev sz false) in
  let s2 := remove_block s1 block in
  if block =? mm_heap_last s2 then with_last s2 prev else s2.

Definition merge_next (s : state) (block next : Z) : state :=
  let m := heap s in
  let sz := Word.wrap (get_size m block + get_size m next) in
  let s1 := with_heap s (set_header m block sz false) in
  let s2 := remove_block s1 next in
  if next =? mm_heap_last s2 then with_last s2 block else s2.

Definition merge_none (s : state) (block : Z) : state :=
  with_heap s (set_header (heap s) block (get_size (heap s) block) false).

(** "There is a neighbour at [p] and it is free". *)
Definition free_neighbour (m : mem) (p : Z) : bool :=
  negb (p =? NULL) && negb (is_allocated m p).

Section CoalesceCases.

Lemma coalesce_helper_cases s prev block next :
  coalesce_helper s prev block next =
  if free_neighbour (heap s) prev && free_neighbour (heap s) next
  then merge_both s prev block next
  else if free_neighbour (heap s) prev then merge_prev s prev block
  else if free_neighbour (heap s) next then merge_next s block next
  else merge_none s block.
Proof.
  unfold coalesce_helper, free_neighbour, merge_both, merge_prev, merge_next, merge_none.
  destruct (prev =? NULL); destruct (next =? NULL);
    destruct (is_allocated (heap s) prev); destruct (is_allocated (heap s) next);
    reflexivity.
Qed.

Lemma remove_block_last s x : mm_heap_last (remove_block s x) = mm_heap_last s.
Proof.
  unfold remove_block.
  destruct (negb (load64 (heap s) (x + PREV_OFFSET) =? NULL));
    destruct (negb (load64 (heap s) (x + NEXT_OFFSET) =? NULL)); reflexivity.
Qed.

Lemma remove_block_with_last s x v :
  remove_block (with_last s v) x = with_last (remove_block s x) v.
Proof.
  unfold remove_block. cbn [heap with_last].
  destruct (negb (load64 (heap s) (x + PREV_OFFSET) =? NULL));
    destruct (negb (load64 (heap s) (x + NEXT_OFFSET) =? NULL)); reflexivity.
Qed.

(** Unlinking a node keeps the block sequence when every remaining node
    lies inside a block. *)
Lemma remove_block_rep s l fl1 x fl2 :
  heap_rep s l ->
  head s = hd NULL (fl1 ++ x :: fl2) ->
  dlseg (heap s) NULL (fl1 ++ x :: fl2) NULL ->
  NoDup (fl1 ++ x :: fl2) -> ptrs_ok (fl1 ++ x :: fl2) ->
  (forall f, In f (fl1 ++ fl2) -> inside l f) ->
  heap_rep (remove_block s x) l /\
  head (remove_block s x) = hd NULL (fl1 ++ fl2) /\
  dlseg (heap (remove_block s x)) NULL (fl1 ++ fl2) NULL /\
  unchanged_outside (links_region (fl1 ++ fl2)) (heap s) (heap (remove_block s x)).
Proof.
  intros Hrep Hh Hd Hnd Hp Hin.
  destruct (remove_block_spec s fl1 x fl2 Hh Hd Hnd Hp) as [R1 [R2 [R3 R4]]].
  split; [|auto].
  apply (heap_rep_frame s _ l Hrep R3).
  eapply unchanged_weaken; [|exact R4].
  intros y. apply links_in_payload. assumption.
Qed.

End CoalesceCases.

Section MergeFacts.

Lemma merged_last lastp v xl (l1 mid l2 : list blk) M :
  lastp = last (map b_addr (l1 ++ mid ++ l2)) NULL ->
  last (map b_addr mid) NULL = xl -> mid <> [] ->
  (forall d, In d l2 -> b_addr d <> xl) ->
  b_addr M = v ->
  (if xl =? lastp then v else lastp) = last (map b_addr (l1 ++ [M] ++ l2)) NULL.
Proof.
  intros Hl Hx Hne Hd HM. rewrite last_map_mid in Hl. rewrite last_map_mid.
  destruct l2 as [|c l2'].
  - rewrite last_map_app_nonempty in Hl by assumption.
    rewrite Hl, Hx, Z.eqb_refl. rewrite map_app. cbn [map]. rewrite last_last.
    symmetry. assumption.
  - destruct (last_addr_in (c :: l2') NULL) as [d [Hin Hlast]]; [discriminate|].
    rewrite Hlast in Hl. specialize (Hd d Hin).
    replace (xl =? lastp) with false by (symmetry; apply Z.eqb_neq; congruence).
    rewrite Hl. symmetry. assumption.
Qed.

Lemma block_geometry s l1 B l2 :
  heap_rep s (l1 ++ [B] ++ l2) ->
  (forall d, In d l1 -> 8 <= b_addr d /\ b_addr d + 16 <= b_end d /\ b_end d <= b_addr B) /\
  (forall d, In d l2 -> b_end B <= b_addr d /\ b_addr d + 16 <= b_end d
                        /\ b_end d <= mem_brk s) /\
  8 <= b_addr B /\ b_addr B mod 16 = 8 /\ b_end B <= mem_brk s /\
  b_size B mod 16 = 0 /\ 16 <= b_size B /\
  mem_brk s + 16 < Word.modulus.
Proof.
  intros Hrep.
  assert (HB : In B (l1 ++ [B] ++ l2)) by (apply in_or_app; right; left; reflexivity).
  destruct (block_facts s _ Hrep B HB) as [F1 [F2 [F3 [F4 [F5 _]]]]].
  pose proof (size_ok_pos _ F5) as F6. destruct F5 as [F5 _].
  pose proof (block_facts s _ Hrep) as Hall.
  destruct Hrep as [H0 _ H2 _ _ H5 H6 _].
  destruct (split_bounds _ _ _ _ _ H5 H6) as [G1 [G2 _]].
  split; [|split].
  - intros d Hd. destruct (G1 d Hd) as [? [? ?]].
    assert (8 <= b_addr d) by (apply Hall; apply in_or_app; auto). lia.
  - intros d Hd. destruct (G2 d Hd) as [? [? ?]]. lia.
  - repeat split; try assumption; layout_lia.
Qed.

End MergeFacts.

Section Free.

Variables (s : state) (l1 l2 : list blk) (fl : list Z) (b sz : Z).
Hypothesis Hwf : wf s (l1 ++ [mkBlk b sz true] ++ l2) fl.
Hypothesis Hsz : MIN_BLOCK_SIZE <= sz.

Let B := mkBlk b sz true.
Let l := l1 ++ [B] ++ l2.
Let s1 := add_block s b.

Lemma free_not_listed : ~ In b fl.
Proof.
  intros Hin. destruct Hwf as [Hrep [_ _ _ Hm]].
  apply Hm in Hin. destruct Hin as [sz' Hin].
  assert (HB : In B l) by (apply in_or_app; right; left; reflexivity).
  destruct Hrep as [_ _ _ _ _ Hc Hs _].
  pose proof (chain_addr_inj _ _ _ _ _ Hc Hs Hin HB eq_refl) as E.
  inversion E.
Qed.

Lemma free_nodes_blocks f :
  In f (b :: fl) -> exists c, In c l /\ b_addr c = f /\ MIN_BLOCK_SIZE <= b_size c.
Proof.
  destruct Hwf as [Hrep [_ _ _ Hm]].
  intros [<-|Hf].
  - exists B. split; [apply in_or_app; right; left; reflexivity|]. split; [reflexivity|].
    exact Hsz.
  - apply (free_nodes s l Hrep fl); [|assumption]. intros g Hg. apply Hm. assumption.
Qed.

Lemma free_added :
  head s1 = b /\ dlseg (heap s1) NULL (b :: fl) NULL /\ same_region s s1 /\
  heap_rep s1 l /\
  unchanged_outside (links_region (b :: fl)) (heap s) (heap s1) /\
  NoDup (b :: fl) /\ ptrs_ok (b :: fl).
Proof.
  pose proof Hwf as [Hrep [Hh Hd Hnd Hm]].
  assert (Hnd' : NoDup (b :: fl)) by (constructor; [apply free_not_listed | assumption]).
  assert (Hp : ptrs_ok (b :: fl)) by (apply (nodes_ptrs_ok s l Hrep), free_nodes_blocks).
  destruct (add_block_spec s fl b Hh Hd Hnd' Hp) as [A1 [A2 [A3 A4]]].
  repeat (split; [assumption|]).
  split; [|auto].
  apply (heap_rep_frame s s1 l Hrep A3).
  eapply unchanged_weaken; [|exact A4].
  destruct Hrep as [_ _ _ _ _ Hc Hs _].
  intros y. apply links_in_payload. intros f Hf.
  destruct (free_nodes_blocks f Hf) as [c [Hc1 [Hc2 Hc3]]].
  exists c. split; [assumption|]. unfold b_end. lia.
Qed.

(** The neighbour pointers [mm_free] computes from the boundary tags. *)
Definition prev_ptr : Z :=
  if negb (b =? mm_heap_first s1)
  then b - load64 (heap s1) (b - SIZEOF_FOOTER) else NULL.

Definition next_ptr : Z :=
  if negb (b =? mm_heap_last s1) then b + get_size (heap s1) b else NULL.

Lemma free_get_size : get_size (heap s1) b = sz.
Proof.
  destruct free_added as [_ [_ [_ [Hrep1 _]]]].
  apply (get_size_block s1 l Hrep1 B). apply in_or_app. right. left. reflexivity.
Qed.

Lemma prev_ptr_none : l1 = [] -> prev_ptr = NULL.
Proof.
  intros E. destruct free_added as [_ [_ [_ [Hrep1 _]]]].
  unfold prev_ptr. destruct Hrep1 as [_ _ _ H3 _ _ _ _].
  unfold l in H3. rewrite E in H3. cbn in H3. rewrite H3, Z.eqb_refl. reflexivity.
Qed.

Lemma prev_ptr_some l1' P : l1 = l1' ++ [P] -> prev_ptr = b_addr P /\ 8 <= b_addr P.
Proof.
  intros E. destruct free_added as [_ [_ [_ [Hrep1 _]]]].
  pose proof (block_geometry s1 l1 B l2 Hrep1) as [G1 [G2 G3]].
  assert (HP : In P l1) by (rewrite E; apply in_or_app; right; left; reflexivity).
  assert (HPl : In P l) by (apply in_or_app; auto).
  destruct (block_facts s1 l Hrep1 P HPl) as [_ [_ [_ [_ [_ [_ Hfoot]]]]]].
  pose proof Hrep1 as [_ _ _ H3 _ H5 _ _].
  assert (Hend : b_end P = b).
  { unfold l in H5. rewrite E in H5. rewrite <- app_assoc in H5.
    apply chain_split in H5. destruct H5 as [_ H5]. simpl in H5. destruct H5 as [H5 _].
    symmetry. exact H5. }
  assert (Hfirst : mm_heap_first s1 <> b).
  { rewrite H3. unfold l.
    destruct l1 as [|c l1r]; [destruct l1'; discriminate|].
    cbn [app map hd]. destruct (G1 c (or_introl eq_refl)) as [? [? ?]]. simpl in *. lia. }
  unfold prev_ptr.
  replace (b =? mm_heap_first s1) with false by (symmetry; apply Z.eqb_neq; congruence).
  cbn [negb].
  replace (b - SIZEOF_FOOTER) with (b_footer P) by (unfold b_footer; rewrite <- Hend; reflexivity).
  rewrite Hfoot. destruct (G1 P HP) as [? _]. unfold b_end in Hend. split; lia.
Qed.

Lemma next_ptr_none : l2 = [] -> next_ptr = NULL.
Proof.
  intros E. destruct free_added as [_ [_ [_ [Hrep1 _]]]].
  unfold next_ptr. destruct Hrep1 as [_ _ _ _ H4 _ _ _].
  unfold l in H4. rewrite E in H4. rewrite app_nil_r, map_app in H4.
  cbn [map] in H4. rewrite last_last in H4. cbn in H4.
  rewrite H4, Z.eqb_refl. reflexivity.
Qed.

Lemma next_ptr_some N l2' : l2 = N :: l2' -> next_ptr = b_addr N /\ 8 <= b_addr N.
Proof.
  intros E. destruct free_added as [_ [_ [_ [Hrep1 _]]]].
  pose proof (block_geometry s1 l1 B l2 Hrep1) as [G1 [G2 G3]].
  pose proof Hrep1 as [_ _ _ _ H4 H5 _ _].
  assert (Hstart : b_addr N = b + sz).
  { unfold l in H5. apply chain_split in H5. destruct H5 as [_ H5].
    rewrite E in H5. simpl in H5. destruct H5 as [H5 _]. exact H5. }
  assert (Hlast : mm_heap_last s1 <> b).
  { rewrite H4. unfold l. rewrite last_map_mid. rewrite E.
    destruct (last_addr_in (N :: l2') NULL) as [d [Hd Hl]]; [discriminate|].
    rewrite Hl. rewrite <- E in Hd. destruct (G2 d Hd) as [? _].
    unfold b_end in *. simpl in *. unfold MIN_BLOCK_SIZE in *. lia. }
  unfold next_ptr.
  replace (b =? mm_heap_last s1) with false by (symmetry; apply Z.eqb_neq; congruence).
  cbn [negb]. rewrite free_get_size. destruct G3 as [G3 _]. cbn in G3.
  unfold MIN_BLOCK_SIZE in *. split; lia.
Qed.

Lemma free_neighbour_block c :
  In c l -> free_neighbour (heap s1) (b_addr c) = negb (b_alloc c).
Proof.
  intros Hc. destruct free_added as [_ [_ [_ [Hrep1 _]]]].
  unfold free_neighbour. rewrite (is_allocated_block s1 l Hrep1 c Hc).
  destruct (block_facts s1 l Hrep1 c Hc) as [H8 _].
  replace (b_addr c =? NULL) with false by (symmetry; apply Z.eqb_neq; unfold NULL; lia).
  reflexivity.
Qed.

Lemma free_neighbour_null : free_neighbour (heap s1) NULL = false.
Proof. reflexivity. Qed.

End Free.

Section FreeRetag.

Variables (s : state) (l1 l2 : list blk) (fl : list Z) (b sz : Z).
Hypothesis Hwf : wf s (l1 ++ [mkBlk b sz true] ++ l2) fl.
Hypothesis Hsz : MIN_BLOCK_SIZE <= sz.

Lemma remove_block_if_last (s0 : state) x xl v :
  (if xl =? mm_heap_last (remove_block s0 x)
   then with_last (remove_block s0 x) v else remove_block s0 x) =
  remove_block (if xl =? mm_heap_last s0 then with_last s0 v else s0) x.
Proof.
  rewrite remove_block_last. destruct (xl =? mm_heap_last s0); [|reflexivity].
  rewrite remove_block_with_last. reflexivity.
Qed.

(** Writing the tags of a free block [M] that covers the run [run] of
    blocks around the released block. *)
Lemma free_retag la run lb M xl :
  l1 ++ [mkBlk b sz true] ++ l2 = la ++ run ++ lb ->
  chain (b_addr M) run (b_end M) ->
  last (map b_addr run) NULL = xl ->
  b_alloc M = false -> In (mkBlk b sz true) run ->
  let s1 := add_block s b in
  let s2 := with_heap s1 (set_header (heap s1) (b_addr M) (b_size M) false) in
  let s2' := if xl =? mm_heap_last s2 then with_last s2 (b_addr M) else s2 in
  heap_rep s2' (la ++ [M] ++ lb) /\ head s2' = b /\
  dlseg (heap s2') NULL (b :: fl) NULL /\
  unchanged_outside (tag_region (la ++ [M] ++ lb)) (heap s1) (heap s2') /\
  (forall f, In f (b :: fl) -> inside (la ++ [M] ++ lb) f).
Proof.
  intros Hl Hrun Hxl Hfree HB s1 s2 s2'.
  destruct (free_added s l1 l2 fl b sz Hwf Hsz) as [F1 [F2 [F3 [F4 [F5 [F6 F7]]]]]].
  fold s1 in F1, F2, F3, F4, F5.
  assert (Hne : run <> []) by (destruct run; [destruct HB | discriminate]).
  rewrite Hl in F4.
  pose proof F4 as [_ _ Hmax _ Hlast Hc Hs _].
  apply chain_app in Hc. destruct Hc as [m1 [Hca Hc]].
  apply chain_app in Hc. destruct Hc as [m2 [Hcr Hcb]].
  assert (m1 = b_addr M).
  { destruct run as [|c run]; [congruence|]. destruct Hcr as [Hx _]. destruct Hrun as [Hy _].
    congruence. }
  subst m1.
  assert (m2 = b_end M) by (eapply chain_end_unique; eassumption). subst m2.
  apply Forall_app in Hs. destruct Hs as [Hsa Hs].
  apply Forall_app in Hs. destruct Hs as [Hsr Hsb].
  destruct (chain_bounds _ _ _ Hcr Hsr) as [_ [Hmod Hbr]].
  destruct (chain_bounds _ _ _ Hcb Hsb) as [Hle [_ Hbb]].
  destruct (Hbr _ HB) as [HB1 [HB2 _]]. unfold b_end in HB1, HB2, Hmod, Hle. simpl in HB1, HB2.
  assert (Hbrk : b_end M < Word.modulus) by (unfold b_end; layout_lia).
  assert (HM8 : 8 <= b_addr M).
  { destruct run as [|c run']; [congruence|]. destruct Hcr as [Hx _]. rewrite <- Hx.
    apply (block_facts s1 _ F4 c). apply in_or_app. right. left. reflexivity. }
  assert (HsM : size_ok M).
  { split; [unfold ALIGNMENT; lia|]. rewrite Hfree. unfold MIN_BLOCK_SIZE in *. lia. }
  assert (Hheap : heap s2' = heap s2) by (unfold s2'; destruct (xl =? mm_heap_last s2); reflexivity).
  assert (Hu : unchanged_outside (range_at (b_addr M) (b_end M - b_addr M))
                 (heap s1) (heap s2')).
  { rewrite Hheap. apply set_header_unchanged.
    - intros y Hy. unfold range_at, b_end. layout_lia.
    - unfold b_end, MIN_BLOCK_SIZE in *. layout_lia. }
  assert (Hrep' : heap_rep s2' (la ++ [M] ++ lb)).
  { apply (heap_rep_replace s1 s2' la run [M] lb (b_addr M) (b_end M)); try assumption.
    - discriminate.
    - simpl. auto.
    - constructor; [assumption | constructor].
    - constructor; [|constructor]. rewrite Hheap. cbn [s2 heap with_heap].
      rewrite <- Hfree. apply set_header_tag.
      + destruct HsM as [H _]. exact H.
      + unfold b_end, MIN_BLOCK_SIZE in *. layout_lia.
      + unfold b_footer, b_end, MIN_BLOCK_SIZE in *. layout_lia.
    - unfold s2'. destruct (xl =? mm_heap_last s2); reflexivity.
    - unfold s2'. destruct (xl =? mm_heap_last s2); reflexivity.
    - unfold s2'. destruct (xl =? mm_heap_last s2); reflexivity.
    - assert (E : mm_heap_last s2' = if xl =? mm_heap_last s1 then b_addr M else mm_heap_last s1).
      { unfold s2'. cbn [s2 mm_heap_last with_heap].
        destruct (xl =? mm_heap_last s1); reflexivity. }
      rewrite E. apply (merged_last _ _ _ la run lb M Hlast Hxl Hne); [|reflexivity].
      intros d Hd. destruct (last_addr_in run NULL Hne) as [c [Hc Hcl]].
      rewrite Hxl in Hcl. rewrite Hcl.
      destruct (Hbr c Hc) as [_ [? _]]. destruct (Hbb d Hd) as [? _].
      pose proof (proj1 (Forall_forall _ _) Hsr c Hc) as Hp. apply size_ok_pos in Hp.
      unfold b_end in *. lia. }
  assert (Hinside : forall f, In f (b :: fl) -> inside (la ++ [M] ++ lb) f).
  { intros f Hf.
    destruct (free_nodes_blocks s l1 l2 fl b sz Hwf Hsz f Hf) as [c [Hc1 [Hc2 Hc3]]].
    rewrite Hl in Hc1. apply in_app_or in Hc1. destruct Hc1 as [Hc1|Hc1].
    - exists c. split; [apply in_or_app; auto|]. unfold b_end. lia.
    - apply in_app_or in Hc1. destruct Hc1 as [Hc1|Hc1].
      + exists M. split; [apply in_or_app; right; left; reflexivity|].
        destruct (Hbr c Hc1) as [? [? _]]. unfold b_end in *. lia.
      + exists c. split; [apply in_or_app; right; right; assumption|]. unfold b_end. lia. }
  assert (Hut : unchanged_outside (tag_region (la ++ [M] ++ lb)) (heap s1) (heap s2')).
  { rewrite Hheap. cbn [s2 heap with_heap]. rewrite <- Hfree.
    apply set_header_unchanged_tags; [apply in_or_app; right; left; reflexivity|].
    unfold b_footer, b_end, MIN_BLOCK_SIZE in *. layout_lia. }
  split; [assumption|]. split.
  - unfold s2'. cbn [s2]. destruct (xl =? _); exact F1.
  - split; [|split; assumption].
    destruct Hrep' as [_ _ _ _ _ Hc' Hs' _].
    apply (dlseg_frame_tags _ _ _ (b :: fl) (heap s1) _ _ _ Hc' Hs' Hinside Hut F2).
Qed.

End FreeRetag.

Section RunGeometry.

Lemma run_geometry s la run lb :
  heap_rep s (la ++ run ++ lb) -> run <> [] ->
  exists a e,
    chain a run e /\ Forall size_ok run /\ 8 <= a /\ e <= mem_brk s /\
    mem_brk s + 16 < Word.modulus /\
    (forall d, In d la -> 8 <= b_addr d /\ b_addr d + 16 <= b_end d /\ b_end d <= a) /\
    (forall d, In d lb -> e <= b_addr d /\ b_addr d + 16 <= b_end d /\ b_end d <= mem_brk s).
Proof.
  intros Hrep Hne. pose proof (block_facts s _ Hrep) as Hall.
  destruct Hrep as [_ _ Hmax _ _ Hc Hs _].
  apply chain_app in Hc. destruct Hc as [a [Hca Hc]].
  apply chain_app in Hc. destruct Hc as [e [Hcr Hcb]].
  apply Forall_app in Hs. destruct Hs as [Hsa Hs].
  apply Forall_app in Hs. destruct Hs as [Hsr Hsb].
  destruct (chain_bounds _ _ _ Hca Hsa) as [_ [_ Hba]].
  destruct (chain_bounds _ _ _ Hcr Hsr) as [Hae _].
  destruct (chain_bounds _ _ _ Hcb Hsb) as [Heb [_ Hbb]].
  exists a, e. split; [assumption|]. split; [assumption|].
  assert (Ha8 : 8 <= a).
  { destruct run as [|c run']; [congruence|]. destruct Hcr as [Hx _]. rewrite <- Hx.
    apply (Hall c). apply in_or_app. right. left. reflexivity. }
  split; [assumption|]. split; [assumption|]. split; [layout_lia|]. split.
  - intros d Hd. destruct (Hba d Hd) as [_ [? _]].
    pose proof (proj1 (Forall_forall _ _) Hsa d Hd) as Hp. apply size_ok_pos in Hp.
    assert (8 <= b_addr d) by (apply Hall; apply in_or_app; auto).
    unfold b_end in *. lia.
  - intros d Hd. destruct (Hbb d Hd) as [? [? _]].
    pose proof (proj1 (Forall_forall _ _) Hsb d Hd) as Hp. apply size_ok_pos in Hp.
    unfold b_end in *. lia.
Qed.

Lemma mem_remove (flA flB : list Z) n f :
  NoDup (flA ++ n :: flB) ->
  In f (flA ++ flB) <-> In f (flA ++ n :: flB) /\ f <> n.
Proof.
  intros Hnd. split.
  - intros Hf. split.
    + apply in_app_or in Hf. apply in_or_app. destruct Hf; [left|right; right]; assumption.
    + intros ->. apply NoDup_remove_2 in Hnd. contradiction.
  - intros [Hf Hne]. apply in_app_or in Hf. apply in_or_app.
    destruct Hf as [Hf|[Hf|Hf]]; [left; assumption | congruence | right; assumption].
Qed.

Lemma is_free_single c f :
  is_free_block [c] f <-> b_alloc c = false /\ b_addr c = f.
Proof.
  unfold is_free_block. split.
  - intros [sz' [H|[]]]. subst c. simpl. auto.
  - intros [H1 H2]. exists (b_size c). left. destruct c. simpl in *. congruence.
Qed.

Lemma is_free_addr la f :
  is_free_block la f -> exists d, In d la /\ b_addr d = f.
Proof. intros [sz' H]. exists (mkBlk f sz' false). auto. Qed.

End RunGeometry.

(** ** Release: the abstract result of [mm_free] *)

(** The bytes [mm_free] may write when it releases the block at [b]: tags of
    the resulting blocks and link words of free-list nodes. *)
Definition free_footprint (l' : list blk) (b : Z) (fl : list Z) : Z -> Prop :=
  fun y => tag_region l' y \/ links_region (b :: fl) y.

Inductive free_spec (l1 : list blk) (b sz : Z) (l2 : list blk) (fl : list Z)
  : list blk -> list Z -> Prop :=
| FreeBoth l1' p szp n szn l2' flA flB :
    l1 = l1' ++ [mkBlk p szp false] -> l2 = mkBlk n szn false :: l2' ->
    fl = flA ++ n :: flB ->
    free_spec l1 b sz l2 fl
      (l1' ++ [mkBlk p (szp + sz + szn) false] ++ l2') (flA ++ flB)
| FreePrev l1' p szp :
    l1 = l1' ++ [mkBlk p szp false] ->
    (forall c l2', l2 = c :: l2' -> b_alloc c = true) ->
    free_spec l1 b sz l2 fl (l1' ++ [mkBlk p (szp + sz) false] ++ l2) fl
| FreeNext n szn l2' flA flB :
    (forall l1' c, l1 = l1' ++ [c] -> b_alloc c = true) ->
    l2 = mkBlk n szn false :: l2' -> fl = flA ++ n :: flB ->
    free_spec l1 b sz l2 fl (l1 ++ [mkBlk b (sz + szn) false] ++ l2') (b :: flA ++ flB)
| FreeNone :
    (forall l1' c, l1 = l1' ++ [c] -> b_alloc c = true) ->
    (forall c l2', l2 = c :: l2' -> b_alloc c = true) ->
    free_spec l1 b sz l2 fl (l1 ++ [mkBlk b sz false] ++ l2) (b :: fl).

Section FreeCases.

Variables (s : state) (l1 l2 : list blk) (fl : list Z) (b sz : Z).
Hypothesis Hwf : wf s (l1 ++ [mkBlk b sz true] ++ l2) fl.
Hypothesis Hsz : MIN_BLOCK_SIZE <= sz.

Let s1 := add_block s b.

Lemma heap_rep_fields s0 s0' l :
  heap_rep s0 l -> heap s0' = heap s0 -> mem_brk s0' = mem_brk s0 ->
  mem_max_addr s0' = mem_max_addr s0 -> mm_heap_first s0' = mm_heap_first s0 ->
  mm_heap_last s0' = mm_heap_last s0 -> heap_rep s0' l.
Proof.
  intros [H0 H1 H2 H3 H4 H5 H6 H7] E1 E2 E3 E4 E5.
  constructor; rewrite ?E1, ?E2, ?E3, ?E4, ?E5; assumption.
Qed.

Lemma free_list_mem f :
  In f fl <-> is_free_block l1 f \/ is_free_block l2 f.
Proof.
  destruct Hwf as [_ [_ _ _ Hm]]. rewrite Hm, is_free_app, is_free_app, is_free_single.
  simpl. split; [intros [H|[[H _]|H]]; auto; discriminate | intros [H|H]; auto].
Qed.

Lemma footprint_links l' fl0 m m' :
  (forall f, In f fl0 -> In f (b :: fl)) ->
  unchanged_outside (links_region fl0) m m' ->
  unchanged_outside (free_footprint l' b fl) m m'.
Proof.
  intros Hsub Hu. eapply unchanged_weaken; [|exact Hu].
  intros y [f [Hf Hy]]. right. exists f. split; [apply Hsub; assumption | assumption].
Qed.

Lemma footprint_tags l' m m' :
  unchanged_outside (tag_region l') m m' ->
  unchanged_outside (free_footprint l' b fl) m m'.
Proof.
  intros Hu. eapply unchanged_weaken; [|exact Hu]. intros y Hy. left. assumption.
Qed.

Lemma free_case_none :
  wf (merge_none s1 b) (l1 ++ [mkBlk b sz false] ++ l2) (b :: fl) /\
  unchanged_outside (free_footprint (l1 ++ [mkBlk b sz false] ++ l2) b fl)
    (heap s) (heap (merge_none s1 b)).
Proof.
  destruct (free_added s l1 l2 fl b sz Hwf Hsz) as [F1 [F2 [F3 [F4 [F5 [F6 F7]]]]]].
  fold s1 in F1, F2, F3, F4, F5.
  destruct (free_retag s l1 l2 fl b sz Hwf Hsz l1 [mkBlk b sz true] l2
              (mkBlk b sz false) b eq_refl) as [T1 [T2 [T3 [T4 T5]]]];
    [simpl; auto | reflexivity | reflexivity | left; reflexivity |].
  fold s1 in T1, T2, T3, T4. cbn [b_addr b_size] in T1, T2, T3, T4.
  assert (Hfinal : merge_none s1 b = with_heap s1 (set_header (heap s1) b sz false)).
  { pose proof (free_get_size s l1 l2 fl b sz Hwf Hsz) as Hszb. fold s1 in Hszb.
    unfold merge_none. rewrite Hszb. reflexivity. }
  rewrite Hfinal.
  set (s2 := with_heap s1 (set_header (heap s1) b sz false)) in *.
  assert (Hheap : heap (if b =? mm_heap_last s2 then with_last s2 b else s2) = heap s2)
    by (destruct (b =? mm_heap_last s2); reflexivity).
  rewrite Hheap in T3, T4.
  split; [split|].
  - apply (heap_rep_fields _ s2 _ T1); destruct (b =? mm_heap_last s2) eqn:E; try reflexivity.
    apply Z.eqb_eq in E. cbn [with_last mm_heap_last]. symmetry. exact E.
  - constructor.
    + exact F1.
    + exact T3.
    + exact F6.
    + intros f. cbn [In]. rewrite free_list_mem, is_free_app, is_free_app, is_free_single.
      simpl. split; [intros [H|[H|H]]; auto | intros [H|[[_ H]|H]]; auto].
  - eapply unchanged_trans.
    + apply (footprint_links _ (b :: fl)); [auto | exact F5].
    + apply footprint_tags. exact T4.
Qed.

Lemma free_case_next n szn l2' flA flB :
  l2 = mkBlk n szn false :: l2' -> fl = flA ++ n :: flB ->
  wf (merge_next s1 b n) (l1 ++ [mkBlk b (sz + szn) false] ++ l2') (b :: flA ++ flB) /\
  unchanged_outside (free_footprint (l1 ++ [mkBlk b (sz + szn) false] ++ l2') b fl)
    (heap s) (heap (merge_next s1 b n)).
Proof.
  intros El2 Efl.
  destruct (free_added s l1 l2 fl b sz Hwf Hsz) as [F1 [F2 [F3 [F4 [F5 [F6 F7]]]]]].
  fold s1 in F1, F2, F3, F4, F5.
  assert (Hl : l1 ++ [mkBlk b sz true] ++ l2 =
               l1 ++ [mkBlk b sz true; mkBlk n szn false] ++ l2')
    by (rewrite El2; reflexivity).
  pose proof F4 as F4'. rewrite Hl in F4'.
  destruct (run_geometry s1 _ _ _ F4') as [a [e [Hc [Hs [Ha [He [Hbrk [Ga Gb]]]]]]]];
    [discriminate|].
  simpl in Hc. unfold b_end in Hc. simpl in Hc. destruct Hc as [Hc1 [Hc2 Hc3]].
  subst a. subst e.
  assert (HsN : szn mod 16 = 0 /\ 32 <= szn).
  { apply (proj1 (Forall_forall _ _) Hs (mkBlk n szn false)). right. left. reflexivity. }
  destruct (free_retag s l1 l2 fl b sz Hwf Hsz l1
              [mkBlk b sz true; mkBlk n szn false] l2'
              (mkBlk b (sz + szn) false) n Hl) as [T1 [T2 [T3 [T4 T5]]]];
    [simpl; unfold b_end; simpl; repeat split; lia | reflexivity | reflexivity
     | left; reflexivity |].
  fold s1 in T1, T2, T3, T4. cbn [b_addr b_size] in T1, T2, T3, T4.
  assert (Hszn : get_size (heap s1) n = szn).
  { apply (get_size_block s1 _ F4' (mkBlk n szn false)).
    apply in_or_app. right. right. left. reflexivity. }
  assert (Hfinal : merge_next s1 b n =
    remove_block (let s2 := with_heap s1 (set_header (heap s1) b (sz + szn) false) in
                  if n =? mm_heap_last s2 then with_last s2 b else s2) n).
  { pose proof (free_get_size s l1 l2 fl b sz Hwf Hsz) as Hszb. fold s1 in Hszb.
    unfold merge_next. rewrite Hszb, Hszn.
    rewrite Word.wrap_small by layout_lia.
    cbv zeta. apply remove_block_if_last. }
  rewrite Hfinal. cbv zeta in *.
  set (s2' := if n =? mm_heap_last (with_heap s1 (set_header (heap s1) b (sz + szn) false))
              then with_last (with_heap s1 (set_header (heap s1) b (sz + szn) false)) b
              else with_heap s1 (set_header (heap s1) b (sz + szn) false)) in *.
  rewrite Efl in F2, F5, F6, F7, T3, T5.
  destruct (remove_block_rep s2' _ (b :: flA) n flB T1 T2 T3 F6 F7)
    as [R1 [R2 [R3 R4]]].
  { intros f Hf. apply T5. cbn [app] in Hf. destruct Hf as [Hf|Hf]; [left; assumption|].
    right. apply in_app_or in Hf. apply in_or_app.
    destruct Hf; [left | right; right]; assumption. }
  split; [split|].
  - exact R1.
  - constructor.
    + exact R2.
    + exact R3.
    + apply (NoDup_remove_1 (b :: flA) flB n). exact F6.
    + intros f. cbn [In].
      assert (Hnd : NoDup (flA ++ n :: flB)) by (inversion F6; assumption).
      rewrite (mem_remove flA flB n f Hnd). rewrite <- Efl.
      rewrite free_list_mem, El2.
      change (mkBlk n szn false :: l2') with ([mkBlk n szn false] ++ l2').
      rewrite !is_free_app, !is_free_single. simpl.
      split.
      * intros [H|[[H|[[_ H]|H]] Hne]]; auto. congruence.
      * intros [H|[[_ H]|H]]; auto.
        -- right. split; [auto|]. destruct (is_free_addr _ _ H) as [d [Hd <-]].
           destruct (Ga d Hd) as [? [? ?]]. unfold b_end in *. layout_lia.
        -- right. split; [auto|]. destruct (is_free_addr _ _ H) as [d [Hd <-]].
           destruct (Gb d Hd) as [? [? ?]]. unfold b_end in *. layout_lia.
  - eapply unchanged_trans; [|eapply unchanged_trans].
    + apply (footprint_links _ (b :: flA ++ n :: flB)); [rewrite Efl; auto | exact F5].
    + apply footprint_tags. exact T4.
    + apply (footprint_links _ ((b :: flA) ++ flB)); [|exact R4]. rewrite Efl.
      intros f Hf. cbn [app] in Hf. destruct Hf as [Hf|Hf]; [left; assumption|].
      right. apply in_app_or in Hf. apply in_or_app.
      destruct Hf; [left | right; right]; assumption.
Qed.

End FreeCases.

Section FreeCasesPrev.

Variables (s : state) (l1 l2 : list blk) (fl : list Z) (b sz : Z).
Hypothesis Hwf : wf s (l1 ++ [mkBlk b sz true] ++ l2) fl.
Hypothesis Hsz : MIN_BLOCK_SIZE <= sz.

Let s1 := add_block s b.

Lemma free_case_prev l1' p szp :
  l1 = l1' ++ [mkBlk p szp false] ->
  wf (merge_prev s1 p b) (l1' ++ [mkBlk p (szp + sz) false] ++ l2) fl /\
  unchanged_outside (free_footprint (l1' ++ [mkBlk p (szp + sz) false] ++ l2) b fl)
    (heap s) (heap (merge_prev s1 p b)).
Proof.
  intros El1.
  destruct (free_added s l1 l2 fl b sz Hwf Hsz) as [F1 [F2 [F3 [F4 [F5 [F6 F7]]]]]].
  fold s1 in F1, F2, F3, F4, F5.
  assert (Hl : l1 ++ [mkBlk b sz true] ++ l2 =
               l1' ++ [mkBlk p szp false; mkBlk b sz true] ++ l2)
    by (rewrite El1, <- app_assoc; reflexivity).
  pose proof F4 as F4'. rewrite Hl in F4'.
  destruct (run_geometry s1 _ _ _ F4') as [a [e [Hc [Hs [Ha [He [Hbrk [Ga Gb]]]]]]]];
    [discriminate|].
  simpl in Hc. unfold b_end in Hc. simpl in Hc. destruct Hc as [Hc1 [Hc2 Hc3]].
  subst a. subst e.
  assert (HsP : szp mod 16 = 0 /\ 32 <= szp).
  { apply (proj1 (Forall_forall _ _) Hs (mkBlk p szp false)). left. reflexivity. }
  destruct (free_retag s l1 l2 fl b sz Hwf Hsz l1'
              [mkBlk p szp false; mkBlk b sz true] l2
              (mkBlk p (szp + sz) false) b Hl) as [T1 [T2 [T3 [T4 T5]]]];
    [simpl; unfold b_end; simpl; repeat split; lia | reflexivity | reflexivity
     | right; left; reflexivity |].
  fold s1 in T1, T2, T3, T4. cbn [b_addr b_size] in T1, T2, T3, T4.
  assert (Hszp : get_size (heap s1) p = szp).
  { apply (get_size_block s1 _ F4' (mkBlk p szp false)).
    apply in_or_app. right. left. reflexivity. }
  assert (Hfinal : merge_prev s1 p b =
    remove_block (let s2 := with_heap s1 (set_header (heap s1) p (szp + sz) false) in
                  if b =? mm_heap_last s2 then with_last s2 p else s2) b).
  { pose proof (free_get_size s l1 l2 fl b sz Hwf Hsz) as Hszb. fold s1 in Hszb.
    unfold merge_prev. rewrite Hszb, Hszp.
    rewrite Word.wrap_small by layout_lia.
    cbv zeta. apply remove_block_if_last. }
  rewrite Hfinal. cbv zeta in *.
  set (s2' := if b =? mm_heap_last (with_heap s1 (set_header (heap s1) p (szp + sz) false))
              then with_last (with_heap s1 (set_header (heap s1) p (szp + sz) false)) p
              else with_heap s1 (set_header (heap s1) p (szp + sz) false)) in *.
  destruct (remove_block_rep s2' _ [] b fl T1 T2 T3 F6 F7) as [R1 [R2 [R3 R4]]].
  { intros f Hf. apply T5. right. exact Hf. }
  cbn [app] in R2, R3, R4.
  split; [split|].
  - exact R1.
  - constructor.
    + exact R2.
    + exact R3.
    + inversion F6; assumption.
    + intros f. rewrite (free_list_mem s l1 l2 fl b sz Hwf), El1.
      rewrite !is_free_app, !is_free_single. simpl.
      split; [intros [[H|[_ H]]|H]; auto | intros [H|[[_ H]|H]]; auto].
  - eapply unchanged_trans; [|eapply unchanged_trans].
    + apply (footprint_links _ _ _ (b :: fl)); [auto | exact F5].
    + apply footprint_tags. exact T4.
    + apply (footprint_links _ _ _ fl); [|exact R4]. intros f Hf. right. exact Hf.
Qed.

Lemma free_case_both l1' p szp n szn l2' flA flB :
  l1 = l1' ++ [mkBlk p szp false] -> l2 = mkBlk n szn false :: l2' ->
  fl = flA ++ n :: flB ->
  wf (merge_both s1 p b n) (l1' ++ [mkBlk p (szp + sz + szn) false] ++ l2') (flA ++ flB) /\
  unchanged_outside
    (free_footprint (l1' ++ [mkBlk p (szp + sz + szn) false] ++ l2') b fl)
    (heap s) (heap (merge_both s1 p b n)).
Proof.
  intros El1 El2 Efl.
  destruct (free_added s l1 l2 fl b sz Hwf Hsz) as [F1 [F2 [F3 [F4 [F5 [F6 F7]]]]]].
  fold s1 in F1, F2, F3, F4, F5.
  assert (Hl : l1 ++ [mkBlk b sz true] ++ l2 =
               l1' ++ [mkBlk p szp false; mkBlk b sz true; mkBlk n szn false] ++ l2')
    by (rewrite El1, El2, <- app_assoc; reflexivity).
  pose proof F4 as F4'. rewrite Hl in F4'.
  destruct (run_geometry s1 _ _ _ F4') as [a [e [Hc [Hs [Ha [He [Hbrk [Ga Gb]]]]]]]];
    [discriminate|].
  simpl in Hc. unfold b_end in Hc. simpl in Hc. destruct Hc as [Hc1 [Hc2 [Hc3 Hc4]]].
  subst a. subst e.
  assert (HsP : szp mod 16 = 0 /\ 32 <= szp).
  { apply (proj1 (Forall_forall _ _) Hs (mkBlk p szp false)). left. reflexivity. }
  assert (HsN : szn mod 16 = 0 /\ 32 <= szn).
  { apply (proj1 (Forall_forall _ _) Hs (mkBlk n szn false)). right. right. left.
    reflexivity. }
  destruct (free_retag s l1 l2 fl b sz Hwf Hsz l1'
              [mkBlk p szp false; mkBlk b sz true; mkBlk n szn false] l2'
              (mkBlk p (szp + sz + szn) false) n Hl) as [T1 [T2 [T3 [T4 T5]]]];
    [simpl; unfold b_end; simpl; repeat split; lia | reflexivity | reflexivity
     | right; left; reflexivity |].
  fold s1 in T1, T2, T3, T4. cbn [b_addr b_size] in T1, T2, T3, T4.
  assert (Hszp : get_size (heap s1) p = szp).
  { apply (get_size_block s1 _ F4' (mkBlk p szp false)).
    apply in_or_app. right. left. reflexivity. }
  assert (Hszn : get_size (heap s1) n = szn).
  { apply (get_size_block s1 _ F4' (mkBlk n szn false)).
    apply in_or_app. right. right. right. left. reflexivity. }
  assert (Hfinal : merge_both s1 p b n =
    remove_block
      (remove_block
         (let s2 := with_heap s1 (set_header (heap s1) p (szp + sz + szn) false) in
          if n =? mm_heap_last s2 then with_last s2 p else s2) n) b).
  { pose proof (free_get_size s l1 l2 fl b sz Hwf Hsz) as Hszb. fold s1 in Hszb.
    unfold merge_both. rewrite Hszb, Hszp, Hszn.
    rewrite (Word.wrap_small (szp + sz)) by layout_lia.
    rewrite Word.wrap_small by layout_lia.
    cbv zeta. rewrite remove_block_if_last, remove_block_if_last. reflexivity. }
  rewrite Hfinal. cbv zeta in *.
  set (s2' := if n =? mm_heap_last
                     (with_heap s1 (set_header (heap s1) p (szp + sz + szn) false))
              then with_last
                     (with_heap s1 (set_header (heap s1) p (szp + sz + szn) false)) p
              else with_heap s1 (set_header (heap s1) p (szp + sz + szn) false)) in *.
  rewrite Efl in F2, F5, F6, F7, T3, T5.
  assert (Hsub : forall f, In f ((b :: flA) ++ flB) -> In f (b :: flA ++ n :: flB)).
  { intros f Hf. cbn [app] in Hf. destruct Hf as [Hf|Hf]; [left; assumption|].
    right. apply in_app_or in Hf. apply in_or_app.
    destruct Hf; [left | right; right]; assumption. }
  destruct (remove_block_rep s2' _ (b :: flA) n flB T1 T2 T3 F6 F7)
    as [R1 [R2 [R3 R4]]].
  { intros f Hf. apply T5, Hsub, Hf. }
  assert (Hnd2 : NoDup ((b :: flA) ++ flB)) by (apply (NoDup_remove_1 (b :: flA) flB n); exact F6).
  assert (Hp2 : ptrs_ok ((b :: flA) ++ flB)) by (eapply ptrs_ok_incl; [exact Hsub | exact F7]).
  destruct (remove_block_rep (remove_block s2' n) _ [] b (flA ++ flB) R1 R2 R3 Hnd2 Hp2)
    as [Q1 [Q2 [Q3 Q4]]].
  { intros f Hf. apply T5, Hsub. right. exact Hf. }
  cbn [app] in Q2, Q3, Q4.
  split; [split|].
  - exact Q1.
  - constructor.
    + exact Q2.
    + exact Q3.
    + inversion Hnd2; assumption.
    + intros f.
      assert (Hnd : NoDup (flA ++ n :: flB)) by (inversion F6; assumption).
      rewrite (mem_remove flA flB n f Hnd). rewrite <- Efl.
      rewrite (free_list_mem s l1 l2 fl b sz Hwf), El1, El2.
      change (mkBlk n szn false :: l2') with ([mkBlk n szn false] ++ l2').
      rewrite !is_free_app, !is_free_single. simpl.
      split.
      * intros [[[H|[_ H]]|[[_ H]|H]] Hne]; auto. congruence.
      * intros [H|[[_ H]|H]].
        -- split; [auto|]. destruct (is_free_addr _ _ H) as [d [Hd <-]].
           destruct (Ga d Hd) as [? [? ?]]. unfold b_end in *. layout_lia.
        -- split; [auto|]. layout_lia.
        -- split; [auto|]. destruct (is_free_addr _ _ H) as [d [Hd <-]].
           destruct (Gb d Hd) as [? [? ?]]. unfold b_end in *. layout_lia.
  - eapply unchanged_trans; [|eapply unchanged_trans; [|eapply unchanged_trans]].
    + apply (footprint_links _ _ _ (b :: flA ++ n :: flB)); [rewrite Efl; auto | exact F5].
    + apply footprint_tags. exact T4.
    + apply (footprint_links _ _ _ ((b :: flA) ++ flB)); [|exact R4].
      rewrite Efl. exact Hsub.
    + apply (footprint_links _ _ _ (flA ++ flB)); [|exact Q4].
      rewrite Efl. intros f Hf. apply Hsub. right. exact Hf.
Qed.

End FreeCasesPrev.

(** ** Release: correctness of [mm_free] *)

Section FreeCorrect.

Lemma list_snoc_cases (l : list blk) : l = [] \/ exists l' c, l = l' ++ [c].
Proof.
  destruct l as [|c l] using rev_ind; [left; reflexivity|].
  right. exists l, c. reflexivity.
Qed.

Lemma remove_block_region s x :
  mem_brk (remove_block s x) = mem_brk s /\
  mem_max_addr (remove_block s x) = mem_max_addr s.
Proof.
  unfold remove_block.
  destruct (negb (load64 (heap s) (x + PREV_OFFSET) =? NULL));
    destruct (negb (load64 (heap s) (x + NEXT_OFFSET) =? NULL)); split; reflexivity.
Qed.

Lemma add_block_region s x :
  mem_brk (add_block s x) = mem_brk s /\ mem_max_addr (add_block s x) = mem_max_addr s.
Proof. unfold add_block. destruct (head s =? NULL); split; reflexivity. Qed.

Lemma coalesce_helper_region s p b n :
  mem_brk (coalesce_helper s p b n) = mem_brk s /\
  mem_max_addr (coalesce_helper s p b n) = mem_max_addr s.
Proof.
  rewrite coalesce_helper_cases.
  unfold merge_both, merge_prev, merge_next, merge_none.
  repeat match goal with
         | |- context [if ?c then _ else _] => destruct c
         end;
    cbn [mem_brk mem_max_addr with_last with_heap];
    repeat (rewrite (proj1 (remove_block_region _ _))
            || rewrite (proj2 (remove_block_region _ _)));
    split; reflexivity.
Qed.

Lemma mm_free_region s ptr :
  mem_brk (mm_free s ptr) = mem_brk s /\ mem_max_addr (mm_free s ptr) = mem_max_addr s.
Proof.
  unfold mm_free. destruct (ptr =? NULL); [split; reflexivity|].
  cbv zeta.
  destruct (coalesce_helper_region (add_block s (block_from_payload ptr))
    (if negb (block_from_payload ptr =? mm_heap_first (add_block s (block_from_payload ptr)))
     then block_from_payload ptr
          - load64 (heap (add_block s (block_from_payload ptr)))
              (block_from_payload ptr - SIZEOF_FOOTER)
     else NULL)
    (block_from_payload ptr)
    (if negb (block_from_payload ptr =? mm_heap_last (add_block s (block_from_payload ptr)))
     then block_from_payload ptr
          + get_size (heap (add_block s (block_from_payload ptr))) (block_from_payload ptr)
     else NULL)) as [E1 E2].
  rewrite E1, E2. apply add_block_region.
Qed.

Variables (s : state) (l1 l2 : list blk) (fl : list Z) (b sz : Z).
Hypothesis Hwf : wf s (l1 ++ [mkBlk b sz true] ++ l2) fl.
Hypothesis Hsz : MIN_BLOCK_SIZE <= sz.

Lemma mm_free_unfold :
  mm_free s (payload_of b) =
  coalesce_helper (add_block s b) (prev_ptr s b) b (next_ptr s b).
Proof.
  destruct Hwf as [Hrep _].
  destruct (block_geometry s l1 _ l2 Hrep) as [_ [_ [H8 _]]]. simpl in H8.
  unfold mm_free.
  replace (payload_of b =? NULL) with false
    by (symmetry; apply Z.eqb_neq; unfold payload_of; layout_lia).
  replace (block_from_payload (payload_of b)) with b
    by (unfold block_from_payload, payload_of; lia).
  reflexivity.
Qed.

Lemma prev_side :
  (l1 = [] /\ free_neighbour (heap (add_block s b)) (prev_ptr s b) = false) \/
  (exists l1' P, l1 = l1' ++ [P] /\ prev_ptr s b = b_addr P /\
     free_neighbour (heap (add_block s b)) (prev_ptr s b) = negb (b_alloc P)).
Proof.
  destruct (list_snoc_cases l1) as [E|[l1' [P E]]].
  - left. split; [assumption|].
    rewrite (prev_ptr_none s l1 l2 fl b sz Hwf Hsz E). reflexivity.
  - right. exists l1', P. split; [assumption|].
    destruct (prev_ptr_some s l1 l2 fl b sz Hwf Hsz l1' P E) as [Hp _].
    split; [assumption|]. rewrite Hp.
    apply (free_neighbour_block s l1 l2 fl b sz Hwf Hsz).
    rewrite E. apply in_or_app. left. apply in_or_app. right. left. reflexivity.
Qed.

Lemma next_side :
  (l2 = [] /\ free_neighbour (heap (add_block s b)) (next_ptr s b) = false) \/
  (exists N l2', l2 = N :: l2' /\ next_ptr s b = b_addr N /\
     free_neighbour (heap (add_block s b)) (next_ptr s b) = negb (b_alloc N)).
Proof.
  assert (Hcases : l2 = [] \/ exists N l2', l2 = N :: l2').
  { destruct l2 as [|N l2']; [left; reflexivity | right; exists N, l2'; reflexivity]. }
  destruct Hcases as [E|[N [l2' E]]].
  - left. split; [assumption|].
    rewrite (next_ptr_none s l1 l2 fl b sz Hwf Hsz E). reflexivity.
  - right. exists N, l2'. split; [assumption|].
    destruct (next_ptr_some s l1 l2 fl b sz Hwf Hsz N l2' E) as [Hn _].
    split; [assumption|]. rewrite Hn.
    apply (free_neighbour_block s l1 l2 fl b sz Hwf Hsz).
    rewrite E. apply in_or_app. right. right. left. reflexivity.
Qed.

Theorem mm_free_correct :
  exists l' fl',
    free_spec l1 b sz l2 fl l' fl' /\
    wf (mm_free s (payload_of b)) l' fl' /\
    unchanged_outside (free_footprint l' b fl) (heap s) (heap (mm_free s (payload_of b))).
Proof.
  rewrite mm_free_unfold, coalesce_helper_cases.
  assert (Hall : forall f, In f fl <-> is_free_block (l1 ++ [mkBlk b sz true] ++ l2) f).
  { destruct Hwf as [_ [_ _ _ Hm]]. exact Hm. }
  destruct prev_side as [[E1 Hp]|[l1' [P [E1 [Hpp Hp]]]]];
    destruct next_side as [[E2 Hn]|[N [l2' [E2 [Hnp Hn]]]]]; rewrite Hp, Hn.
  - (* no neighbours *)
    cbn [andb]. exists (l1 ++ [mkBlk b sz false] ++ l2), (b :: fl).
    split; [|exact (free_case_none s l1 l2 fl b sz Hwf Hsz)].
    apply FreeNone.
    + intros l0 c E. rewrite E1 in E. destruct l0; discriminate.
    + intros c l0 E. rewrite E2 in E. discriminate.
  - (* only a next neighbour *)
    cbn [andb]. destruct N as [n szn [|]]; cbn [negb b_alloc b_addr] in *.
    + exists (l1 ++ [mkBlk b sz false] ++ l2), (b :: fl).
      split; [|exact (free_case_none s l1 l2 fl b sz Hwf Hsz)].
      apply FreeNone.
      * intros l0 c E. rewrite E1 in E. destruct l0; discriminate.
      * intros c l0 E. rewrite E2 in E. inversion E. reflexivity.
    + assert (Hin : In n fl).
      { apply Hall. exists szn. rewrite E2. apply in_or_app. right. right. left.
        reflexivity. }
      destruct (in_split _ _ Hin) as [flA [flB Efl]].
      exists (l1 ++ [mkBlk b (sz + szn) false] ++ l2'), (b :: flA ++ flB).
      rewrite Hnp. split; [|exact (free_case_next s l1 l2 fl b sz Hwf Hsz n szn l2' flA flB E2 Efl)].
      apply (FreeNext _ _ _ _ _ n szn l2' flA flB); try assumption.
      intros l0 c E. rewrite E1 in E. destruct l0; discriminate.
  - (* only a previous neighbour *)
    destruct P as [p szp [|]]; cbn [negb andb b_alloc b_addr] in *.
    + exists (l1 ++ [mkBlk b sz false] ++ l2), (b :: fl).
      split; [|exact (free_case_none s l1 l2 fl b sz Hwf Hsz)].
      apply FreeNone.
      * intros l0 c E. rewrite E1 in E. apply app_inj_tail in E. destruct E as [_ <-].
        reflexivity.
      * intros c l0 E. rewrite E2 in E. discriminate.
    + exists (l1' ++ [mkBlk p (szp + sz) false] ++ l2), fl.
      rewrite Hpp. split; [|exact (free_case_prev s l1 l2 fl b sz Hwf Hsz l1' p szp E1)].
      apply (FreePrev _ _ _ _ _ l1' p szp); try assumption.
      intros c l0 E. rewrite E2 in E. discriminate.
  - (* both neighbours *)
    destruct P as [p szp [|]]; destruct N as [n szn [|]];
      cbn [negb andb b_alloc b_addr] in *.
    + exists (l1 ++ [mkBlk b sz false] ++ l2), (b :: fl).
      split; [|exact (free_case_none s l1 l2 fl b sz Hwf Hsz)].
      apply FreeNone.
      * intros l0 c E. rewrite E1 in E. apply app_inj_tail in E. destruct E as [_ <-].
        reflexivity.
      * intros c l0 E. rewrite E2 in E. inversion E. reflexivity.
    + assert (Hin : In n fl).
      { apply Hall. exists szn. rewrite E2. apply in_or_app. right. right. left.
        reflexivity. }
      destruct (in_split _ _ Hin) as [flA [flB Efl]].
      exists (l1 ++ [mkBlk b (sz + szn) false] ++ l2'), (b :: flA ++ flB).
      rewrite Hnp. split; [|exact (free_case_next s l1 l2 fl b sz Hwf Hsz n szn l2' flA flB E2 Efl)].
      apply (FreeNext _ _ _ _ _ n szn l2' flA flB); try assumption.
      intros l0 c E. rewrite E1 in E. apply app_inj_tail in E. destruct E as [_ <-].
      reflexivity.
    + exists (l1' ++ [mkBlk p (szp + sz) false] ++ l2), fl.
      rewrite Hpp. split; [|exact (free_case_prev s l1 l2 fl b sz Hwf Hsz l1' p szp E1)].
      apply (FreePrev _ _ _ _ _ l1' p szp); try assumption.
      intros c l0 E. rewrite E2 in E. inversion E. reflexivity.
    + assert (Hin : In n fl).
      { apply Hall. exists szn. rewrite E2. apply in_or_app. right. right. left.
        reflexivity. }
      destruct (in_split _ _ Hin) as [flA [flB Efl]].
      exists (l1' ++ [mkBlk p (szp + sz + szn) false] ++ l2'), (flA ++ flB).
      rewrite Hpp, Hnp. split; [|exact (free_case_both s l1 l2 fl b sz Hwf Hsz l1' p szp n szn l2' flA flB E1 E2 Efl)].
      apply (FreeBoth _ _ _ _ _ l1' p szp n szn l2' flA flB); assumption.
Qed.

End FreeCorrect.

(** ** Immediate coalescing: physically adjacent free blocks *)

Definition free_at_start (l : list blk) : bool :=
  match l with
  | [] => false
  | c :: _ => negb (b_alloc c)
  end.

Fixpoint free_at_end (l : list blk) : bool :=
  match l with
  | [] => false
  | [c] => negb (b_alloc c)
  | _ :: l' => free_at_end l'
  end.

Section Adjacency.

Lemma adjacent_free_cons c l :
  adjacent_free (c :: l) = (negb (b_alloc c) && free_at_start l) || adjacent_free l.
Proof. destruct l as [|d l]; simpl; [rewrite andb_false_r|]; reflexivity. Qed.

Lemma free_at_end_cons c l :
  free_at_end (c :: l) = match l with [] => negb (b_alloc c) | _ => free_at_end l end.
Proof. destruct l; reflexivity. Qed.

Lemma free_at_start_app l1 l2 :
  free_at_start (l1 ++ l2) = match l1 with [] => free_at_start l2 | _ => free_at_start l1 end.
Proof. destruct l1; reflexivity. Qed.

Lemma free_at_end_app l1 l2 :
  free_at_end (l1 ++ l2) = match l2 with [] => free_at_end l1 | _ => free_at_end l2 end.
Proof.
  induction l1 as [|c l1 IH].
  - destruct l2; reflexivity.
  - change ((c :: l1) ++ l2) with (c :: (l1 ++ l2)).
    rewrite free_at_end_cons, IH.
    destruct l2 as [|d l2].
    + rewrite app_nil_r. destruct l1; reflexivity.
    + destruct (l1 ++ d :: l2) eqn:E; [destruct l1; discriminate | reflexivity].
Qed.

Lemma adjacent_free_app l1 l2 :
  adjacent_free (l1 ++ l2) =
  adjacent_free l1 || adjacent_free l2 || (free_at_end l1 && free_at_start l2).
Proof.
  induction l1 as [|c l1 IH].
  - simpl. rewrite orb_false_r. reflexivity.
  - change ((c :: l1) ++ l2) with (c :: (l1 ++ l2)).
    rewrite !adjacent_free_cons, IH, free_at_start_app, free_at_end_cons.
    destruct l1 as [|d l1].
    + simpl. destruct (negb (b_alloc c)), (free_at_start l2), (adjacent_free l2);
        reflexivity.
    + destruct (negb (b_alloc c)), (free_at_start (d :: l1)), (adjacent_free (d :: l1)),
        (adjacent_free l2), (free_at_end (d :: l1)), (free_at_start l2); reflexivity.
Qed.

(** Shape of the adjacency test around a run of blocks in the middle. *)
Lemma adjacent_free_mid l1 mid l2 :
  mid <> [] ->
  adjacent_free (l1 ++ mid ++ l2) =
  adjacent_free l1 || adjacent_free mid || adjacent_free l2
  || (free_at_end l1 && free_at_start mid) || (free_at_end mid && free_at_start l2).
Proof.
  intros Hne. rewrite !adjacent_free_app, free_at_start_app.
  destruct mid as [|c mid]; [congruence|].
  destruct (adjacent_free l1), (adjacent_free (c :: mid)), (adjacent_free l2),
    (free_at_end l1), (free_at_start (c :: mid)), (free_at_end (c :: mid)),
    (free_at_start l2); reflexivity.
Qed.

Lemma free_at_start_alloc l :
  (forall c l', l = c :: l' -> b_alloc c = true) -> free_at_start l = false.
Proof.
  destruct l as [|c l]; [reflexivity|]. intros H. simpl.
  rewrite (H c l eq_refl). reflexivity.
Qed.

Lemma free_at_end_alloc l :
  (forall l' c, l = l' ++ [c] -> b_alloc c = true) -> free_at_end l = false.
Proof.
  destruct (list_snoc_cases l) as [->|[l' [c ->]]]; [reflexivity|]. intros H.
  rewrite free_at_end_app. simpl. rewrite (H l' c eq_refl). reflexivity.
Qed.

Lemma malloc_spec_no_adjacent s l fl need s' p l' fl' :
  malloc_spec s l fl need s' p l' fl' ->
  no_adjacent_free l -> no_adjacent_free l'.
Proof.
  unfold no_adjacent_free.
  intros H Hn. destruct H as [l1 l2 fl1 fl2 x sz -> _ _ _ | l1 l2 fl1 fl2 x sz -> _ _ _ | |].
  - rewrite adjacent_free_mid in * by discriminate. simpl in *.
    destruct (adjacent_free l1), (adjacent_free l2), (free_at_end l1), (free_at_start l2);
      simpl in *; congruence.
  - rewrite adjacent_free_mid in * by discriminate. simpl in *.
    destruct (adjacent_free l1), (adjacent_free l2), (free_at_end l1), (free_at_start l2);
      simpl in *; congruence.
  - rewrite adjacent_free_app. simpl. rewrite Hn, andb_false_r. reflexivity.
  - assumption.
Qed.

Lemma free_spec_no_adjacent l1 b sz l2 fl l' fl' :
  free_spec l1 b sz l2 fl l' fl' ->
  no_adjacent_free (l1 ++ [mkBlk b sz true] ++ l2) -> no_adjacent_free l'.
Proof.
  unfold no_adjacent_free.
  intros H Hn.
  destruct H as [l1' p szp n szn l2' flA flB -> -> _ | l1' p szp -> Hnext
                 | n szn l2' flA flB Hprev -> _ | Hprev Hnext].
  - rewrite <- app_assoc in Hn.
    change ([mkBlk p szp false] ++ [mkBlk b sz true] ++ mkBlk n szn false :: l2')
      with ([mkBlk p szp false; mkBlk b sz true; mkBlk n szn false] ++ l2') in Hn.
    rewrite adjacent_free_mid in * by discriminate. simpl in *.
    destruct (adjacent_free l1'), (adjacent_free l2'), (free_at_end l1'),
      (free_at_start l2'); simpl in *; congruence.
  - rewrite <- app_assoc in Hn.
    change ([mkBlk p szp false] ++ [mkBlk b sz true] ++ l2)
      with ([mkBlk p szp false; mkBlk b sz true] ++ l2) in Hn.
    rewrite adjacent_free_mid in * by discriminate. simpl in *.
    rewrite (free_at_start_alloc l2 Hnext) in *.
    destruct (adjacent_free l1'), (adjacent_free l2), (free_at_end l1');
      simpl in *; congruence.
  - change ([mkBlk b sz true] ++ mkBlk n szn false :: l2')
      with ([mkBlk b sz true; mkBlk n szn false] ++ l2') in Hn.
    rewrite adjacent_free_mid in * by discriminate. simpl in *.
    rewrite (free_at_end_alloc l1 Hprev) in *.
    destruct (adjacent_free l1), (adjacent_free l2'), (free_at_start l2');
      simpl in *; congruence.
  - rewrite adjacent_free_mid in * by discriminate. simpl in *.
    rewrite (free_at_end_alloc l1 Hprev), (free_at_start_alloc l2 Hnext) in *.
    destruct (adjacent_free l1), (adjacent_free l2); simpl in *; congruence.
Qed.

End Adjacency.

(** ** Writes into the payload of allocated blocks *)

(** Bytes strictly between header and footer of an allocated block of [l]. *)
Definition allocated_payload (l : list blk) : Z -> Prop :=
  fun y => exists c, In c l /\ b_alloc c = true /\
                     b_addr c + SIZEOF_BLOCK <= y < b_footer c.

(** Bytes strictly between header and footer of a free block of [l]. *)
Definition free_payload (l : list blk) : Z -> Prop :=
  fun y => exists c, In c l /\ b_alloc c = false /\
                     b_addr c + SIZEOF_BLOCK <= y < b_footer c.

(** [p] is the payload address of an allocated block of [l] that is large
    enough for the free-list links. *)
Definition valid_payload (l : list blk) (p : Z) : Prop :=
  exists l1 b sz l2,
    l = l1 ++ [mkBlk b sz true] ++ l2 /\ p = payload_of b /\ MIN_BLOCK_SIZE <= sz.

Section PayloadWrites.

Lemma wf_frame_payload s l fl m' :
  wf s l fl ->
  unchanged_outside (allocated_payload l) (heap s) m' ->
  wf (with_heap s m') l fl.
Proof.
  intros [Hrep [Hh Hd Hnd Hm]] Hu. split.
  - apply (heap_rep_frame s _ l Hrep); [repeat split|].
    eapply unchanged_weaken; [|exact Hu].
    intros y [c [Hc [_ Hy]]]. exists c. auto.
  - constructor; cbn [head heap with_heap]; try assumption.
    apply (dlseg_frame _ _ _ _ _ _ Hu); [|assumption].
    intros f y Hf Hy [c [Hc [Hal Hyc]]].
    apply Hm in Hf. destruct Hf as [szf Hin].
    destruct (block_facts s l Hrep _ Hin) as [_ [_ [_ [_ [[_ Hs] _]]]]].
    pose proof (proj1 (Forall_forall _ _) (hr_size _ _ Hrep) c Hc) as Hsc.
    apply size_ok_pos in Hsc.
    destruct (chain_disjoint _ _ _ _ _ (hr_chain _ _ Hrep) (hr_size _ _ Hrep) Hc Hin)
      as [E|[E|E]].
    + subst c. simpl in Hal. discriminate.
    + unfold b_end, b_footer in *. simpl in *. layout_lia.
    + unfold b_end, b_footer in *. simpl in *. layout_lia.
Qed.

Lemma malloc_spec_persist s l fl need s' p l' fl' :
  malloc_spec s l fl need s' p l' fl' ->
  forall c, In c l -> b_alloc c = true -> In c l'.
Proof.
  intros H c Hc Hal.
  destruct H as [l1 l2 fl1 fl2 x sz -> _ _ _ | l1 l2 fl1 fl2 x sz -> _ _ _ | |].
  - apply in_app_or in Hc. apply in_or_app. destruct Hc as [Hc|[Hc|Hc]]; auto.
    + subst c. discriminate.
    + right. right. assumption.
  - apply in_app_or in Hc. apply in_or_app. destruct Hc as [Hc|[Hc|Hc]]; auto.
    + subst c. discriminate.
    + right. right. right. assumption.
  - apply in_or_app. auto.
  - assumption.
Qed.

(** A successful allocation returns the payload of an allocated block of
    the new sequence, at least [need] bytes long, whose address was not an
    allocated block before. *)
Lemma malloc_spec_new_block s l fl need s' p l' fl' :
  heap_rep s l -> 16 <= need ->
  malloc_spec s l fl need s' p l' fl' ->
  (p = NULL /\ s' = s /\ l' = l /\ fl' = fl) \/
  (exists c, In c l' /\ b_alloc c = true /\ p = payload_of (b_addr c) /\
             need <= b_size c /\ 8 <= b_addr c /\ b_addr c mod 16 = 8 /\
             forall d, In d l -> b_alloc d = true -> b_addr d <> b_addr c).
Proof.
  intros Hrep Hneed H.
  destruct H as [l1 l2 fl1 fl2 x sz El _ _ Hsz | l1 l2 fl1 fl2 x sz El _ _ Hsz | _ _ | _ _].
  - right. subst l.
    destruct (block_geometry s l1 _ l2 Hrep) as [G1 [G2 [G3 [G4 _]]]]. simpl in *.
    exists (mkBlk x sz true). simpl.
    split; [apply in_or_app; right; left; reflexivity|].
    repeat (split; [reflexivity || lia|]).
    intros d Hd Hal E. apply in_app_or in Hd. destruct Hd as [Hd|[Hd|Hd]].
    + destruct (G1 d Hd) as [? [? ?]]. unfold b_end in *. lia.
    + subst d. discriminate.
    + destruct (G2 d Hd) as [? [? ?]]. unfold b_end in *. simpl in *. lia.
  - right. subst l.
    destruct (block_geometry s l1 _ l2 Hrep) as [G1 [G2 [G3 [G4 _]]]]. simpl in *.
    exists (mkBlk x need true). simpl.
    split; [apply in_or_app; right; left; reflexivity|].
    repeat (split; [reflexivity || lia|]).
    intros d Hd Hal E. apply in_app_or in Hd. destruct Hd as [Hd|[Hd|Hd]].
    + destruct (G1 d Hd) as [? [? ?]]. unfold b_end in *. lia.
    + subst d. discriminate.
    + destruct (G2 d Hd) as [? [? ?]]. unfold b_end in *. simpl in *. lia.
  - right. exists (grown_block s need). simpl.
    pose proof (block_facts s l Hrep) as Hall.
    destruct Hrep as [H0 Hal _ _ _ Hc Hs _].
    destruct (chain_bounds _ _ _ Hc Hs) as [Hle _].
    split; [apply in_or_app; right; left; reflexivity|].
    repeat (split; [reflexivity || layout_lia|]).
    intros d Hd _ E. destruct (Hall d Hd) as [_ [_ [Hend [_ [Hsz _]]]]].
    apply size_ok_pos in Hsz. unfold b_end in *. lia.
  - left. auto.
Qed.

End PayloadWrites.

(** ** The invariant across the facade *)

Section FacadeInvariant.

Variables (fuel : nat) (s : state) (l : list blk) (fl : list Z).
Hypothesis Hwf : wf s l fl.
Hypothesis Hadj : no_adjacent_free l.
Hypothesis Hfuel : (length fl < fuel)%nat.

Lemma mm_malloc_invariant n :
  request_ok n ->
  exists s' p l' fl',
    mm_malloc fuel s n = Done (s', p) /\ wf s' l' fl' /\ no_adjacent_free l'.
Proof.
  intros Hreq.
  destruct (mm_malloc_correct fuel s l fl n Hwf Hreq Hfuel)
    as [s' [p [l' [fl' [E [Hspec Hwf']]]]]].
  exists s', p, l', fl'. split; [assumption|]. split; [assumption|].
  eapply malloc_spec_no_adjacent; eassumption.
Qed.

Lemma mm_free_invariant p :
  p = NULL \/ valid_payload l p ->
  exists l' fl', wf (mm_free s p) l' fl' /\ no_adjacent_free l'.
Proof.
  intros [->|[l1 [b [sz [l2 [El [-> Hsz]]]]]]].
  - exists l, fl. auto.
  - subst l.
    destruct (mm_free_correct s l1 l2 fl b sz Hwf Hsz) as [l' [fl' [Hspec [Hwf' _]]]].
    exists l', fl'. split; [assumption|].
    eapply free_spec_no_adjacent; eassumption.
Qed.

End FacadeInvariant.

Section ReallocInvariant.

Variables (fuel : nat) (s : state) (l : list blk) (fl : list Z).
Hypothesis Hwf : wf s l fl.
Hypothesis Hadj : no_adjacent_free l.
Hypothesis Hfuel : (length fl < fuel)%nat.

Lemma valid_payload_persist s1 l' p :
  heap_rep s1 l' ->
  (forall c, In c l -> b_alloc c = true -> In c l') ->
  valid_payload l p -> valid_payload l' p.
Proof.
  intros _ Hper [l1 [b [sz [l2 [El [Ep Hsz]]]]]].
  assert (Hin : In (mkBlk b sz true) l').
  { apply Hper; [|reflexivity]. rewrite El. apply in_or_app. right. left. reflexivity. }
  destruct (in_split _ _ Hin) as [la [lb E]].
  exists la, b, sz, lb. auto.
Qed.

Lemma mm_realloc_invariant p n :
  p = NULL \/ valid_payload l p -> request_ok n ->
  mm_realloc fuel s p n <> OutOfFuel /\
  forall s' q, mm_realloc fuel s p n = Done (s', q) ->
    exists l' fl', wf s' l' fl' /\ no_adjacent_free l'.
Proof.
  intros Hp Hreq.
  destruct (mm_malloc_correct fuel s l fl n Hwf Hreq Hfuel)
    as [s1 [q1 [la [fla [E [Hspec Hwf1]]]]]].
  pose proof (malloc_spec_no_adjacent _ _ _ _ _ _ _ _ Hspec Hadj) as Hadj1.
  unfold mm_realloc. rewrite E.
  destruct Hp as [->|Hvalid].
  - change (NULL =? NULL) with true. cbv iota.
    split; [discriminate|]. intros s' q Hd. inversion Hd; subst. exists la, fla. auto.
  - pose proof Hwf as [Hrep _]. pose proof Hwf1 as [Hrep1 _].
    pose proof (valid_payload_persist s1 la p Hrep1
                  (malloc_spec_persist _ _ _ _ _ _ _ _ Hspec) Hvalid) as Hvalid1.
    destruct Hvalid1 as [l1 [b [sz [l2 [El [Ep Hsz]]]]]]. subst la. subst p.
    destruct (block_geometry s1 l1 _ l2 Hrep1) as [_ [_ [Hb8 _]]]. simpl in Hb8.
    replace (payload_of b =? NULL) with false
      by (symmetry; apply Z.eqb_neq; unfold payload_of; layout_lia).
    destruct (n =? 0) eqn:En.
    + split; [discriminate|]. intros s' q Hd. inversion Hd; subst.
      destruct (mm_free_correct s1 l1 l2 fla b sz Hwf1 Hsz) as [l' [fl' [Hfs [Hwf' _]]]].
      exists l', fl'. split; [assumption|].
      eapply free_spec_no_adjacent; eassumption.
    + apply Z.eqb_neq in En.
      assert (Hlen : realloc_copy_length (heap s1) (payload_of b) n = Z.min n sz).
      { unfold realloc_copy_length.
        replace (block_from_payload (payload_of b)) with b
          by (unfold block_from_payload, payload_of; lia).
        assert (Hg : get_size (heap s1) b = sz).
        { apply (get_size_block s1 _ Hrep1 (mkBlk b sz true)).
          apply in_or_app. right. left. reflexivity. }
        rewrite Hg. destruct (n <? sz) eqn:Elt; [apply Z.ltb_lt in Elt | apply Z.ltb_ge in Elt];
          lia. }
      rewrite Hlen.
      destruct Hreq as [Hn0 Hn1].
      assert (Hpos : 0 < Z.min n sz) by layout_lia.
      replace (0 <? Z.min n sz) with true by (symmetry; apply Z.ltb_lt; assumption).
      rewrite andb_true_r.
      destruct (q1 =? NULL) eqn:Eq.
      * split; [discriminate|]. intros s' q Hd. discriminate.
      * apply Z.eqb_neq in Eq. split; [discriminate|].
        intros s' q Hd. inversion Hd; subst s' q. clear Hd.
        destruct (need_of_facts n Hn0) as [_ [Hlo _]].
        assert (Hn16 : 16 <= need_of n) by lia.
        destruct (malloc_spec_new_block _ _ _ _ _ _ _ _ Hrep Hn16 Hspec)
          as [[Hnull _]|[c [Hc [Hal [Hq [Hcs _]]]]]]; [congruence|].
        assert (Hwf2 : wf (with_heap s1 (memcpy (heap s1) q1 (payload_of b) (Z.min n sz)))
                          (l1 ++ [mkBlk b sz true] ++ l2) fla).
        { apply wf_frame_payload; [assumption|].
          apply unchanged_memcpy. intros y Hy. exists c.
          split; [assumption|]. split; [assumption|].
          subst q1. unfold payload_of, b_footer in *. layout_lia. }
        destruct (mm_free_correct _ l1 l2 fla b sz Hwf2 Hsz) as [l' [fl' [Hfs [Hwf' _]]]].
        exists l', fl'. split; [assumption|].
        eapply free_spec_no_adjacent; eassumption.
Qed.

Lemma mm_calloc_invariant k sz :
  request_ok (Word.wrap (k * sz)) ->
  mm_calloc fuel s k sz <> OutOfFuel /\
  forall s' q, mm_calloc fuel s k sz = Done (s', q) ->
    exists l' fl', wf s' l' fl' /\ no_adjacent_free l'.
Proof.
  intros Hreq.
  destruct (mm_malloc_correct fuel s l fl _ Hwf Hreq Hfuel)
    as [s1 [q1 [la [fla [E [Hspec Hwf1]]]]]].
  pose proof (malloc_spec_no_adjacent _ _ _ _ _ _ _ _ Hspec Hadj) as Hadj1.
  unfold mm_calloc. rewrite E.
  destruct ((q1 =? NULL) && (0 <? Word.wrap (k * sz))) eqn:Ec.
  - split; [discriminate|]. intros s' q Hd. discriminate.
  - split; [discriminate|]. intros s' q Hd. inversion Hd; subst s' q. clear Hd.
    exists la, fla. split; [|assumption].
    apply wf_frame_payload; [assumption|].
    apply unchanged_memset. intros y Hy.
    pose proof Hwf as [Hrep _]. destruct Hreq as [Hn0 Hn1].
    destruct (need_of_facts _ Hn0) as [_ [Hlo _]].
    assert (Hn16 : 16 <= need_of (Word.wrap (k * sz))) by lia.
    destruct (malloc_spec_new_block _ _ _ _ _ _ _ _ Hrep Hn16 Hspec)
      as [[Hnull _]|[c [Hc [Hal [Hq [Hcs _]]]]]].
    + subst q1. change (NULL =? NULL) with true in Ec. cbn [andb] in Ec.
      apply Z.ltb_ge in Ec. unfold NULL in *. lia.
    + exists c. split; [assumption|]. split; [assumption|].
      subst q1. unfold payload_of, b_footer in *. layout_lia.
Qed.

End ReallocInvariant.

(** Preservation of the data-model invariant, where it holds: from a
    well-formed heap without adjacent free blocks, every operation that is
    called with a request size whose block size does not wrap and a payload
    pointer that is null or belongs to an allocated block of at least 32
    bytes returns in a well-formed heap without adjacent free blocks;
    allocation always returns, and no operation runs out of fuel.  Releasing
    a 16-byte block is outside these hypotheses and breaks the invariant
    ([release_of_16_byte_block_leaves_adjacent_free]). *)
Theorem facade_keeps_no_adjacent_free_blocks
    (fuel : nat) (s : state) (l : list blk) (fl : list Z) :
  wf s l fl -> no_adjacent_free l -> (length fl < fuel)%nat ->
  (forall n, request_ok n ->
     exists s' p l' fl',
       mm_malloc fuel s n = Done (s', p) /\ wf s' l' fl' /\ no_adjacent_free l') /\
  (forall p, p = NULL \/ valid_payload l p ->
     exists l' fl', wf (mm_free s p) l' fl' /\ no_adjacent_free l') /\
  (forall p n, p = NULL \/ valid_payload l p -> request_ok n ->
     mm_realloc fuel s p n <> OutOfFuel /\
     forall s' q, mm_realloc fuel s p n = Done (s', q) ->
       exists l' fl', wf s' l' fl' /\ no_adjacent_free l') /\
  (forall k sz, request_ok (Word.wrap (k * sz)) ->
     mm_calloc fuel s k sz <> OutOfFuel /\
     forall s' q, mm_calloc fuel s k sz = Done (s', q) ->
       exists l' fl', wf s' l' fl' /\ no_adjacent_free l').
Proof.
  intros Hwf Hadj Hfuel. split; [|split; [|split]].
  - intros n Hn. apply (mm_malloc_invariant fuel s l fl Hwf Hadj Hfuel n Hn).
  - intros p Hp. apply (mm_free_invariant s l fl Hwf Hadj p Hp).
  - intros p n Hp Hn. apply (mm_realloc_invariant fuel s l fl Hwf Hadj Hfuel p n Hp Hn).
  - intros k sz Hn. apply (mm_calloc_invariant fuel s l fl Hwf Hadj Hfuel k sz Hn).
Qed.

(** ** Initialisation establishes the invariant *)

Lemma mm_init_wf (s : state) :
  0 <= mem_brk s -> mem_brk s mod ALIGNMENT = 0 ->
  mem_brk s + 8 <= mem_max_addr s -> mem_max_addr s + ALIGNMENT < Word.modulus ->
  snd (mm_init s) = true /\ wf (fst (mm_init s)) [] [] /\ no_adjacent_free [].
Proof.
  intros H0 Hal Hroom Hmax.
  unfold mm_init, mem_sbrk.
  replace (mem_brk s + (ALIGNMENT - SIZEOF_BLOCK) <=? mem_max_addr s) with true
    by (symmetry; apply Z.leb_le; layout_lia).
  replace (mem_brk s =? SBRK_FAILED) with false
    by (symmetry; apply Z.eqb_neq; unfold SBRK_FAILED; layout_lia).
  split; [reflexivity|]. split; [|reflexivity].
  split.
  - constructor; cbn [fst heap mem_brk mem_max_addr head mm_heap_first mm_heap_last
                      heap_start map hd last chain]; try reflexivity;
      try constructor; layout_lia.
  - constructor; cbn [fst heap head hd dlseg].
    + reflexivity.
    + exact I.
    + constructor.
    + intros f. split; [intros [] | intros [sz []]].
Qed.

(** ** Concrete heaps *)

Module Examples.

(** A zero-filled region of 1024 bytes starting at address 4096. *)
Definition raw : state := mkState (fun _ => 0) 4096 5120 0 0 0.

Definition state_of (o : outcome (state * Z)) : state :=
  match o with Done (s, _) => s | _ => raw end.

Definition result_of (o : outcome (state * Z)) : Z :=
  match o with Done (_, p) => p | _ => -1 end.

Definition is_done (o : outcome (state * Z)) : bool :=
match o with Done _ => true | _ => false end.

(** An outcome is determined by its state and result once it is known to be
    [Done]; this avoids comparing heaps, which are functions. *)
Lemma done_eq (o : outcome (state * Z)) (p : Z) :
  is_done o = true -> result_of o = p -> o = Done (state_of o, p).
Proof.
  destruct o as [[s q]| |]; simpl; intros H1 H2; try discriminate. congruence.
Qed.

(** After [mm_init]: padding of 8 bytes, no blocks. *)
Definition fresh : state := fst (mm_init raw).

(** [a = allocate(48); b = allocate(8); free(a)]: a free block of 64 bytes
    at 4104 followed by an allocated block of 32 bytes at 4168. *)
Definition two_a : outcome (state * Z) := mm_malloc 1 fresh 48.
Definition two_b : outcome (state * Z) := mm_malloc 1 (state_of two_a) 8.
Definition one_free : state := mm_free (state_of two_b) (result_of two_a).

Definition one_free_blocks : list blk := [mkBlk 4104 64 false; mkBlk 4168 32 true].
Definition one_free_list : list Z := [4104].

(** The same heap before the release: both blocks allocated. *)
Definition two_allocated : state := state_of two_b.
Definition two_allocated_blocks : list blk := [mkBlk 4104 64 true; mkBlk 4168 32 true].

Lemma fresh_wf : wf fresh [] [].
Proof.
  split.
  - constructor.
    + vm_compute. congruence.
    + vm_compute. reflexivity.
    + vm_compute. split; [congruence | reflexivity].
    + vm_compute. reflexivity.
    + vm_compute. reflexivity.
    + vm_compute. reflexivity.
    + constructor.
    + constructor.
  - constructor.
    + vm_compute. reflexivity.
    + exact I.
    + constructor.
    + intros f. split; [intros [] | intros [sz []]].
Qed.

Lemma one_free_wf : wf one_free one_free_blocks one_free_list.
Proof.
  split.
  - constructor.
    + vm_compute. congruence.
    + vm_compute. reflexivity.
    + vm_compute. split; [congruence | reflexivity].
    + vm_compute. reflexivity.
    + vm_compute. reflexivity.
    + vm_compute. auto.
    + repeat constructor; vm_compute; congruence.
    + repeat constructor; vm_compute; reflexivity.
  - constructor.
    + vm_compute. reflexivity.
    + vm_compute. auto.
    + repeat constructor. intros [].
    + intros f. split.
      * intros [<-|[]]. exists 64. left. reflexivity.
      * intros [sz [H|[H|[]]]]; inversion H. left. reflexivity.
Qed.

Lemma two_allocated_wf : wf two_allocated two_allocated_blocks [].
Proof.
  split.
  - constructor.
    + vm_compute. congruence.
    + vm_compute. reflexivity.
    + vm_compute. split; [congruence | reflexivity].
    + vm_compute. reflexivity.
    + vm_compute. reflexivity.
    + vm_compute. auto.
    + repeat constructor; vm_compute; congruence.
    + repeat constructor; vm_compute; reflexivity.
  - constructor.
    + vm_compute. reflexivity.
    + vm_compute. auto.
    + constructor.
    + intros f. split; [intros []|].
      intros [sz [H|[H|[]]]]; inversion H.
Qed.

Lemma one_free_valid : valid_payload one_free_blocks 4176.
Proof.
  exists [mkBlk 4104 64 false], 4168, 32, []. repeat split. vm_compute. congruence.
Qed.

End Examples.

Lemma facade_keeps_no_adjacent_free_blocks_witness :
  (forall n, request_ok n ->
     exists s' p l' fl',
       mm_malloc 2 Examples.one_free n = Done (s', p) /\ wf s' l' fl' /\
       no_adjacent_free l') /\
  (forall p, p = NULL \/ valid_payload Examples.one_free_blocks p ->
     exists l' fl', wf (mm_free Examples.one_free p) l' fl' /\ no_adjacent_free l') /\
  (forall p n, p = NULL \/ valid_payload Examples.one_free_blocks p -> request_ok n ->
     mm_realloc 2 Examples.one_free p n <> OutOfFuel /\
     forall s' q, mm_realloc 2 Examples.one_free p n = Done (s', q) ->
       exists l' fl', wf s' l' fl' /\ no_adjacent_free l') /\
  (forall k sz, request_ok (Word.wrap (k * sz)) ->
     mm_calloc 2 Examples.one_free k sz <> OutOfFuel /\
     forall s' q, mm_calloc 2 Examples.one_free k sz = Done (s', q) ->
       exists l' fl', wf s' l' fl' /\ no_adjacent_free l').
Proof.
  apply (facade_keeps_no_adjacent_free_blocks 2 Examples.one_free
           Examples.one_free_blocks Examples.one_free_list).
  - exact Examples.one_free_wf.
  - reflexivity.
  - simpl. lia.
Defined.

(** ** Placement policy *)

Section Placement.

Lemma first_fit_unique (P : Z -> Prop) : forall fl1 x fl2 fl1' x' fl2',
  fl1 ++ x :: fl2 = fl1' ++ x' :: fl2' ->
  (forall f, In f fl1 -> P f) -> ~ P x ->
  (forall f, In f fl1' -> P f) -> ~ P x' ->
  fl1 = fl1' /\ x = x' /\ fl2 = fl2'.
Proof.
  induction fl1 as [|a r IH]; intros x fl2 fl1' x' fl2' E H1 Hx H1' Hx'.
  - destruct fl1' as [|a' r'].
    + simpl in E. inversion E. auto.
    + simpl in E. inversion E. subst. exfalso. apply Hx. apply H1'. left. reflexivity.
  - destruct fl1' as [|a' r'].
    + simpl in E. inversion E. subst. exfalso. apply Hx'. apply H1. left. reflexivity.
    + simpl in E. inversion E. subst a'.
      destruct (IH x fl2 r' x' fl2') as [E1 [E2 E3]]; auto.
      * intros f Hf. apply H1. right. assumption.
      * intros f Hf. apply H1'. right. assumption.
      * subst. auto.
Qed.

Lemma place_region s x sz need :
  mem_brk (whole_state s x sz) = mem_brk s /\
  mem_brk (split_state s x sz need) = mem_brk s.
Proof.
  unfold whole_state, split_state, split_helper. split.
  - cbn [mem_brk with_heap]. apply remove_block_region.
  - rewrite (proj1 (add_block_region _ _)).
    destruct (x =? mm_heap_last (remove_block s x));
      cbn [mem_brk with_heap with_last]; apply remove_block_region.
Qed.

Lemma payload_of_inj x y : payload_of x = payload_of y -> x = y.
Proof. unfold payload_of. lia. Qed.

Lemma malloc_spec_null s l fl need s' l' fl' :
  heap_rep s l -> malloc_spec s l fl need s' NULL l' fl' ->
  (forall f, In f fl -> get_size (heap s) f < need) /\
  mem_max_addr s < mem_brk s + need.
Proof.
  intros Hrep H. remember NULL as p eqn:Hp.
  destruct H as [l1 l2 fl1 fl2 x sz El _ _ _ | l1 l2 fl1 fl2 x sz El _ _ _
                 | Hsm Hroom | Hsm Hroom].
  - subst l. destruct (block_geometry s l1 _ l2 Hrep) as [_ [_ [G3 _]]]. simpl in G3.
    unfold payload_of in Hp. layout_lia.
  - subst l. destruct (block_geometry s l1 _ l2 Hrep) as [_ [_ [G3 _]]]. simpl in G3.
    unfold payload_of in Hp. layout_lia.
  - pose proof (start_aligned s l Hrep) as Hst.
    destruct Hrep as [H0 _ _ _ _ Hc Hs _]. destruct (chain_bounds _ _ _ Hc Hs) as [? _].
    unfold payload_of in Hp. layout_lia.
  - auto.
Qed.

End Placement.

(** Placement at a given first fit: [x] is the first member of the free list
    whose block has at least [need_of n] bytes. *)
Lemma first_fit_placement_at
    (fuel : nat) (s : state) (l : list blk) (fl : list Z) (n : Z)
    (fl1 : list Z) (x : Z) (fl2 : list Z) (sz : Z) :
  wf s l fl -> 0 <= n -> (length fl < fuel)%nat ->
  fl = fl1 ++ x :: fl2 ->
  In (mkBlk x sz false) l -> need_of n <= sz ->
  (forall f szf, In f fl1 -> In (mkBlk f szf false) l -> szf < need_of n) ->
  exists s' l' fl' sz',
    mm_malloc fuel s n = Done (s', payload_of x) /\
    wf s' l' fl' /\
    In (mkBlk x sz' true) l' /\ need_of n <= sz' /\
    ~ In x fl' /\ (forall f, In f fl -> f <> x -> In f fl') /\
    mem_brk s' = mem_brk s.
Proof.
  intros Hwf Hn Hfuel Efl Hx Hfit Hsmall.
  pose proof Hwf as [Hrep [Hh Hd Hnd Hm]].
  destruct (need_of_facts n Hn) as [Nal [Nlo Nhi]].
  assert (Hreq : request_ok n).
  { split; [assumption|]. pose proof (block_size_range s l Hrep _ Hx) as [_ Hr].
    simpl in Hr. layout_lia. }
  assert (Hgx : get_size (heap s) x = sz) by (apply (get_size_block s l Hrep _ Hx)).
  assert (Hsmall' : forall f, In f fl1 -> get_size (heap s) f < need_of n).
  { intros f Hf.
    assert (Hin : In f fl) by (rewrite Efl; apply in_or_app; auto).
    apply Hm in Hin. destruct Hin as [szf Hin].
    pose proof (get_size_block s l Hrep _ Hin) as Hg. simpl in Hg. rewrite Hg.
    eapply Hsmall; eassumption. }
  destruct (mm_malloc_correct fuel s l fl n Hwf Hreq Hfuel)
    as [s' [p [l' [fl' [E [Hspec Hwf']]]]]].
  destruct Hspec as [l1 l2 fa fb y szy El Efl' Hsm Hszy
                    | l1 l2 fa fb y szy El Efl' Hsm Hszy | Hsm _ | Hsm _].
  - assert (Hgy : get_size (heap s) y = szy).
    { apply (get_size_block s l Hrep (mkBlk y szy false)). rewrite El.
      apply in_or_app. right. left. reflexivity. }
    destruct (first_fit_unique (fun f => get_size (heap s) f < need_of n)
                fl1 x fl2 fa y fb) as [E1 [E2 E3]]; try assumption; try lia.
    { rewrite <- Efl. exact Efl'. }
    subst fa y fb. exists (whole_state s x szy), (l1 ++ [mkBlk x szy true] ++ l2),
      (fl1 ++ fl2), szy.
    split; [assumption|]. split; [assumption|].
    split; [apply in_or_app; right; left; reflexivity|].
    split; [lia|]. rewrite Efl in Hnd. split; [|split].
    + apply NoDup_remove_2 in Hnd. assumption.
    + intros f Hf Hne. rewrite Efl in Hf. apply in_app_or in Hf. apply in_or_app.
      destruct Hf as [Hf|[Hf|Hf]]; [left; assumption | congruence | right; assumption].
    + apply place_region. exact 0.
  - assert (Hgy : get_size (heap s) y = szy).
    { apply (get_size_block s l Hrep (mkBlk y szy false)). rewrite El.
      apply in_or_app. right. left. reflexivity. }
    destruct (first_fit_unique (fun f => get_size (heap s) f < need_of n)
                fl1 x fl2 fa y fb) as [E1 [E2 E3]]; try assumption; try lia.
    { rewrite <- Efl. exact Efl'. }
    subst fa y fb.
    exists (split_state s x szy (need_of n)),
      (l1 ++ [mkBlk x (need_of n) true;
              mkBlk (x + need_of n) (szy - need_of n) false] ++ l2),
      ((x + need_of n) :: fl1 ++ fl2), (need_of n).
    split; [assumption|]. split; [assumption|].
    split; [apply in_or_app; right; left; reflexivity|].
    split; [lia|]. rewrite Efl in Hnd. split; [|split].
    + intros [Hf|Hf]; [lia|]. apply NoDup_remove_2 in Hnd. contradiction.
    + intros f Hf Hne. right. rewrite Efl in Hf. apply in_app_or in Hf. apply in_or_app.
      destruct Hf as [Hf|[Hf|Hf]]; [left; assumption | congruence | right; assumption].
    + apply place_region.
  - exfalso. specialize (Hsm x). rewrite Hgx in Hsm.
    assert (In x fl) by (rewrite Efl; apply in_or_app; right; left; reflexivity).
    specialize (Hsm H). lia.
  - exfalso. specialize (Hsm x). rewrite Hgx in Hsm.
    assert (In x fl) by (rewrite Efl; apply in_or_app; right; left; reflexivity).
    specialize (Hsm H). lia.
Qed.

(** The first member of the free list that fits, when some member fits. *)
Lemma first_fit_exists s l fl need f0 sz0 :
  wf s l fl -> In f0 fl -> In (mkBlk f0 sz0 false) l -> need <= sz0 ->
  exists fl1 x fl2 sz,
    fl = fl1 ++ x :: fl2 /\ In (mkBlk x sz false) l /\ need <= sz /\
    forall f szf, In f fl1 -> In (mkBlk f szf false) l -> szf < need.
Proof.
  intros [Hrep [_ _ _ Hm]] Hf0 Hb0 Hfit.
  destruct (first_fit_cases (heap s) need fl)
    as [[_ Hsmall]|[fl1 [x [fl2 [Efl [_ [Hx Hsmall]]]]]]].
  - exfalso. specialize (Hsmall f0 Hf0).
    pose proof (get_size_block s l Hrep _ Hb0) as Hg. simpl in Hg. lia.
  - assert (Hxin : In x fl) by (rewrite Efl; apply in_or_app; right; left; reflexivity).
    apply Hm in Hxin. destruct Hxin as [sz Hin].
    pose proof (get_size_block s l Hrep _ Hin) as Hg. simpl in Hg.
    exists fl1, x, fl2, sz. split; [assumption|]. split; [assumption|].
    split; [lia|]. intros f szf Hf Hbf.
    pose proof (get_size_block s l Hrep _ Hbf) as Hgf. simpl in Hgf.
    specialize (Hsmall f Hf). lia.
Qed.

(** C8: for every allocate(n), if at least one block reachable from the
    free-list head has size >= need, allocate places the request in the first
    such block in list order, unlinks that block from the free list, and does
    not grow the region.  The first such block is [x]: the members before it
    in the list are all smaller than the need.  The call returns the payload
    of [x], whose block is allocated afterwards; [x] is no longer a member of
    the free list while every other member stays; the break is unchanged. *)
Theorem first_fit_placement
    (fuel : nat) (s : state) (l : list blk) (fl : list Z) (n f0 sz0 : Z) :
  wf s l fl -> 0 <= n -> (length fl < fuel)%nat ->
  In f0 fl -> In (mkBlk f0 sz0 false) l -> need_of n <= sz0 ->
  exists fl1 x fl2 sz,
    fl = fl1 ++ x :: fl2 /\ In (mkBlk x sz false) l /\ need_of n <= sz /\
    (forall f szf, In f fl1 -> In (mkBlk f szf false) l -> szf < need_of n) /\
    exists s' l' fl' sz',
      mm_malloc fuel s n = Done (s', payload_of x) /\
      wf s' l' fl' /\
      In (mkBlk x sz' true) l' /\ need_of n <= sz' /\
      ~ In x fl' /\ (forall f, In f fl -> f <> x -> In f fl') /\
      mem_brk s' = mem_brk s.
Proof.
  intros Hwf Hn Hfuel Hf0 Hb0 Hfit.
  destruct (first_fit_exists s l fl (need_of n) f0 sz0 Hwf Hf0 Hb0 Hfit)
    as [fl1 [x [fl2 [sz [Efl [Hx [Hxfit Hsmall]]]]]]].
  exists fl1, x, fl2, sz. split; [assumption|]. split; [assumption|].
  split; [assumption|]. split; [assumption|].
  apply (first_fit_placement_at fuel s l fl n fl1 x fl2 sz); assumption.
Qed.

Lemma first_fit_placement_witness :
  exists fl1 x fl2 sz,
    Examples.one_free_list = fl1 ++ x :: fl2 /\
    In (mkBlk x sz false) Examples.one_free_blocks /\ need_of 8 <= sz /\
    (forall f szf, In f fl1 -> In (mkBlk f szf false) Examples.one_free_blocks ->
                   szf < need_of 8) /\
    exists s' l' fl' sz',
      mm_malloc 2 Examples.one_free 8 = Done (s', payload_of x) /\
      wf s' l' fl' /\
      In (mkBlk x sz' true) l' /\ need_of 8 <= sz' /\
      ~ In x fl' /\ (forall f, In f Examples.one_free_list -> f <> x -> In f fl') /\
      mem_brk s' = mem_brk Examples.one_free.
Proof.
  apply (first_fit_placement 2 Examples.one_free Examples.one_free_blocks
           Examples.one_free_list 8 4104 64).
  - exact Examples.one_free_wf.
  - lia.
  - simpl. lia.
  - left. reflexivity.
  - left. reflexivity.
  - vm_compute. congruence.
Defined.


(** ** Split policy *)



Section SplitPolicy.

Variables (fuel : nat) (s : state) (l : list blk) (fl : list Z) (n : Z).
Hypothesis Hwf : wf s l fl.
Hypothesis Hreq : request_ok n.
Hypothesis Hfuel : (length fl < fuel)%nat.



End SplitPolicy.





(** ** Resize with a null payload *)

Lemma mm_realloc_null fuel s n : mm_realloc fuel s NULL n = mm_malloc fuel s n.
Proof.
  unfold mm_realloc. destruct (mm_malloc fuel s n) as [[s1 p]| |]; reflexivity.
Qed.

(** C9: resize(null, 0) behaves as allocate(0), not as a zero-size free: the
    null-old-payload rule takes precedence over the zero-new-size rule, so the
    call returns a fresh non-null, ALIGNMENT-aligned payload rather than null.
    The two calls are equal as functions of the state; on a well-formed heap
    in which the request can be served (a free block exists or the region can
    grow by 16 bytes) the call returns the payload of a block that is
    allocated afterwards and whose address held no allocated block before. *)
Theorem resize_null_zero_is_allocate_zero
    (fuel : nat) (s : state) (l : list blk) (fl : list Z) :
  wf s l fl -> (length fl < fuel)%nat ->
  fl <> [] \/ mem_brk s + 16 <= mem_max_addr s ->
  mm_realloc fuel s NULL 0 = mm_malloc fuel s 0 /\
  exists s' p l' fl',
    mm_realloc fuel s NULL 0 = Done (s', p) /\
    p <> NULL /\ p mod ALIGNMENT = 0 /\
    wf s' l' fl' /\
    exists c, In c l' /\ b_alloc c = true /\ p = payload_of (b_addr c) /\
              forall d, In d l -> b_alloc d = true -> b_addr d <> b_addr c.
Proof.
  intros Hwf Hfuel Hserve. split; [apply mm_realloc_null|].
  rewrite mm_realloc_null.
  assert (Hreq : request_ok 0) by (split; [lia | layout_lia]).
  destruct (mm_malloc_correct fuel s l fl 0 Hwf Hreq Hfuel)
    as [s' [p [l' [fl' [E [Hspec Hwf']]]]]].
  pose proof Hwf as [Hrep [_ _ _ Hm]].
  assert (Hneed : need_of 0 = 16) by reflexivity.
  assert (Hn16 : 16 <= need_of 0) by (rewrite Hneed; lia).
  exists s', p, l', fl'. split; [assumption|].
  destruct (malloc_spec_new_block _ _ _ _ _ _ _ _ Hrep Hn16 Hspec)
    as [[Hnull [-> [-> ->]]]|[c [Hc [Hal [Hq [Hcs [Hc8 [Hcal Hfresh]]]]]]]].
  - exfalso. subst p.
    destruct (malloc_spec_null _ _ _ _ _ _ _ Hrep Hspec) as [Hsmall Hroom].
    destruct Hserve as [Hne|Hgrow]; [|lia].
    destruct fl as [|f fl0]; [congruence|].
    assert (Hf : In f (f :: fl0)) by (left; reflexivity).
    pose proof (Hsmall f Hf) as Hlt. apply Hm in Hf. destruct Hf as [szf Hin].
    pose proof (get_size_block s l Hrep _ Hin) as Hg. simpl in Hg.
    destruct (block_facts s l Hrep _ Hin) as [_ [_ [_ [_ [[_ Hsz] _]]]]].
    simpl in Hsz. rewrite Hg, Hneed in Hlt. layout_lia.
  - subst p. unfold payload_of. split; [layout_lia|]. split; [layout_lia|].
    split; [assumption|]. exists c. auto.
Qed.

Lemma resize_null_zero_is_allocate_zero_witness :
  mm_realloc 2 Examples.one_free NULL 0 = mm_malloc 2 Examples.one_free 0 /\
  exists s' p l' fl',
    mm_realloc 2 Examples.one_free NULL 0 = Done (s', p) /\
    p <> NULL /\ p mod ALIGNMENT = 0 /\
    wf s' l' fl' /\
    exists c, In c l' /\ b_alloc c = true /\ p = payload_of (b_addr c) /\
              forall d, In d Examples.one_free_blocks -> b_alloc d = true ->
                        b_addr d <> b_addr c.
Proof.
  apply (resize_null_zero_is_allocate_zero 2 Examples.one_free
           Examples.one_free_blocks Examples.one_free_list).
  - exact Examples.one_free_wf.
  - simpl. lia.
  - left. discriminate.
Defined.

(** ** The footprint of a release *)

Section FreeFootprint.

Variables (s : state) (l1 l2 : list blk) (fl : list Z) (b sz : Z).
Hypothesis Hwf : wf s (l1 ++ [mkBlk b sz true] ++ l2) fl.
Hypothesis Hsz : MIN_BLOCK_SIZE <= sz.

Lemma free_spec_persist l' fl' :
  free_spec l1 b sz l2 fl l' fl' ->
  forall c, In c (l1 ++ l2) -> b_alloc c = true -> In c l'.
Proof.
  intros H c Hc Hal.
  destruct H as [l1' p szp n szn l2' flA flB E1 E2 _ | l1' p szp E1 _
                 | n szn l2' flA flB _ E2 _ | _ _].
  - rewrite E1, E2 in Hc. apply in_app_or in Hc. apply in_or_app.
    destruct Hc as [Hc|[Hc|Hc]].
    + apply in_app_or in Hc. destruct Hc as [Hc|[Hc|[]]]; [left; assumption|].
      subst c. discriminate.
    + subst c. discriminate.
    + right. right. assumption.
  - rewrite E1 in Hc. apply in_app_or in Hc. apply in_or_app.
    destruct Hc as [Hc|Hc]; [|right; right; assumption].
    apply in_app_or in Hc. destruct Hc as [Hc|[Hc|[]]]; [left; assumption|].
    subst c. discriminate.
  - rewrite E2 in Hc. apply in_app_or in Hc. apply in_or_app.
    destruct Hc as [Hc|[Hc|Hc]]; [left; assumption | | right; right; assumption].
    subst c. discriminate.
  - apply in_app_or in Hc. apply in_or_app.
    destruct Hc as [Hc|Hc]; [left; assumption | right; right; assumption].
Qed.

Lemma free_block_itself la f :
  (forall c, In c la -> In c (l1 ++ [mkBlk b sz true] ++ l2)) ->
  is_free_block la f ->
  exists c, In c la /\ b_alloc c = false /\ b_addr c <= f /\ f + MIN_BLOCK_SIZE <= b_end c.
Proof.
  intros Hsub [szf Hin]. destruct Hwf as [Hrep _].
  exists (mkBlk f szf false). split; [assumption|]. split; [reflexivity|].
  destruct (block_facts s _ Hrep _ (Hsub _ Hin)) as [_ [_ [_ [_ [[_ Hs] _]]]]].
  unfold b_end. simpl in *. lia.
Qed.

Lemma free_nodes_in_free_blocks l' fl' :
  free_spec l1 b sz l2 fl l' fl' ->
  forall f, In f (b :: fl) ->
  exists c, In c l' /\ b_alloc c = false /\ b_addr c <= f /\ f + MIN_BLOCK_SIZE <= b_end c.
Proof.
  intros H f Hf. pose proof Hwf as [Hrep _].
  assert (Hcases : f = b \/ is_free_block l1 f \/ is_free_block l2 f).
  { destruct Hf as [Hf|Hf]; [left; congruence|]. right.
    apply (free_list_mem s l1 l2 fl b sz Hwf). assumption. }
  destruct H as [l1' p szp n szn l2' flA flB E1 E2 _ | l1' p szp E1 _
                 | n szn l2' flA flB _ E2 _ | _ _].
  - assert (Hl : l1 ++ [mkBlk b sz true] ++ l2 =
                 l1' ++ [mkBlk p szp false; mkBlk b sz true; mkBlk n szn false] ++ l2')
      by (rewrite E1, E2, <- app_assoc; reflexivity).
    pose proof Hrep as Hrep'. rewrite Hl in Hrep'.
    destruct (run_geometry s _ _ _ Hrep') as [a [e [Hc [Hs _]]]]; [discriminate|].
    simpl in Hc. unfold b_end in Hc. simpl in Hc. destruct Hc as [Hc1 [Hc2 [Hc3 Hc4]]].
    assert (HsP : szp mod 16 = 0 /\ 32 <= szp).
    { apply (proj1 (Forall_forall _ _) Hs (mkBlk p szp false)). left. reflexivity. }
    assert (HsN : szn mod 16 = 0 /\ 32 <= szn).
    { apply (proj1 (Forall_forall _ _) Hs (mkBlk n szn false)). right. right. left.
      reflexivity. }
    assert (Hmerged : forall g, p <= g -> g + 32 <= p + (szp + sz + szn) ->
              exists c, In c (l1' ++ [mkBlk p (szp + sz + szn) false] ++ l2') /\
                        b_alloc c = false /\ b_addr c <= g /\ g + MIN_BLOCK_SIZE <= b_end c).
    { intros g G1 G2. exists (mkBlk p (szp + sz + szn) false).
      split; [apply in_or_app; right; left; reflexivity|]. split; [reflexivity|].
      unfold b_end. simpl. layout_lia. }
    destruct Hcases as [->|[Hfree|Hfree]].
    + apply Hmerged; layout_lia.
    + rewrite E1 in Hfree. apply is_free_app in Hfree. destruct Hfree as [Hfree|Hfree].
      * destruct (free_block_itself l1' f) as [c [Hc [Hal Hb]]]; [|assumption|].
        { intros c Hc. rewrite E1. apply in_or_app. left. apply in_or_app. auto. }
        exists c. split; [apply in_or_app; auto | auto].
      * apply is_free_single in Hfree. simpl in Hfree. destruct Hfree as [_ <-].
        apply Hmerged; layout_lia.
    + rewrite E2 in Hfree.
      change (mkBlk n szn false :: l2') with ([mkBlk n szn false] ++ l2') in Hfree.
      apply is_free_app in Hfree. destruct Hfree as [Hfree|Hfree].
      * apply is_free_single in Hfree. simpl in Hfree. destruct Hfree as [_ <-].
        apply Hmerged; layout_lia.
      * destruct (free_block_itself l2' f) as [c [Hc [Hal Hb]]]; [|assumption|].
        { intros c Hc. rewrite E2. apply in_or_app. right. right. right. assumption. }
        exists c. split; [apply in_or_app; right; right; assumption | auto].
  - assert (Hl : l1 ++ [mkBlk b sz true] ++ l2 =
                 l1' ++ [mkBlk p szp false; mkBlk b sz true] ++ l2)
      by (rewrite E1, <- app_assoc; reflexivity).
    pose proof Hrep as Hrep'. rewrite Hl in Hrep'.
    destruct (run_geometry s _ _ _ Hrep') as [a [e [Hc [Hs _]]]]; [discriminate|].
    simpl in Hc. unfold b_end in Hc. simpl in Hc. destruct Hc as [Hc1 [Hc2 Hc3]].
    assert (HsP : szp mod 16 = 0 /\ 32 <= szp).
    { apply (proj1 (Forall_forall _ _) Hs (mkBlk p szp false)). left. reflexivity. }
    assert (Hmerged : forall g, p <= g -> g + 32 <= p + (szp + sz) ->
              exists c, In c (l1' ++ [mkBlk p (szp + sz) false] ++ l2) /\
                        b_alloc c = false /\ b_addr c <= g /\ g + MIN_BLOCK_SIZE <= b_end c).
    { intros g G1 G2. exists (mkBlk p (szp + sz) false).
      split; [apply in_or_app; right; left; reflexivity|]. split; [reflexivity|].
      unfold b_end. simpl. layout_lia. }
    destruct Hcases as [->|[Hfree|Hfree]].
    + apply Hmerged; layout_lia.
    + rewrite E1 in Hfree. apply is_free_app in Hfree. destruct Hfree as [Hfree|Hfree].
      * destruct (free_block_itself l1' f) as [c [Hc [Hal Hb]]]; [|assumption|].
        { intros c Hc. rewrite E1. apply in_or_app. left. apply in_or_app. auto. }
        exists c. split; [apply in_or_app; auto | auto].
      * apply is_free_single in Hfree. simpl in Hfree. destruct Hfree as [_ <-].
        apply Hmerged; layout_lia.
    + destruct (free_block_itself l2 f) as [c [Hc [Hal Hb]]]; [|assumption|].
      { intros c Hc. apply in_or_app. right. right. assumption. }
      exists c. split; [apply in_or_app; right; right; assumption | auto].
  - assert (Hl : l1 ++ [mkBlk b sz true] ++ l2 =
                 l1 ++ [mkBlk b sz true; mkBlk n szn false] ++ l2')
      by (rewrite E2; reflexivity).
    pose proof Hrep as Hrep'. rewrite Hl in Hrep'.
    destruct (run_geometry s _ _ _ Hrep') as [a [e [Hc [Hs _]]]]; [discriminate|].
    simpl in Hc. unfold b_end in Hc. simpl in Hc. destruct Hc as [Hc1 [Hc2 Hc3]].
    assert (HsN : szn mod 16 = 0 /\ 32 <= szn).
    { apply (proj1 (Forall_forall _ _) Hs (mkBlk n szn false)). right. left. reflexivity. }
    assert (Hmerged : forall g, b <= g -> g + 32 <= b + (sz + szn) ->
              exists c, In c (l1 ++ [mkBlk b (sz + szn) false] ++ l2') /\
                        b_alloc c = false /\ b_addr c <= g /\ g + MIN_BLOCK_SIZE <= b_end c).
    { intros g G1 G2. exists (mkBlk b (sz + szn) false).
      split; [apply in_or_app; right; left; reflexivity|]. split; [reflexivity|].
      unfold b_end. simpl. layout_lia. }
    destruct Hcases as [->|[Hfree|Hfree]].
    + apply Hmerged; layout_lia.
    + destruct (free_block_itself l1 f) as [c [Hc [Hal Hb]]]; [|assumption|].
      { intros c Hc. apply in_or_app. left. assumption. }
      exists c. split; [apply in_or_app; auto | auto].
    + rewrite E2 in Hfree.
      change (mkBlk n szn false :: l2') with ([mkBlk n szn false] ++ l2') in Hfree.
      apply is_free_app in Hfree. destruct Hfree as [Hfree|Hfree].
      * apply is_free_single in Hfree. simpl in Hfree. destruct Hfree as [_ <-].
        apply Hmerged; layout_lia.
      * destruct (free_block_itself l2' f) as [c [Hc [Hal Hb]]]; [|assumption|].
        { intros c Hc. rewrite E2. apply in_or_app. right. right. right. assumption. }
        exists c. split; [apply in_or_app; right; right; assumption | auto].
  - destruct Hcases as [->|[Hfree|Hfree]].
    + exists (mkBlk b sz false). split; [apply in_or_app; right; left; reflexivity|].
      split; [reflexivity|]. unfold b_end. simpl. lia.
    + destruct (free_block_itself l1 f) as [c [Hc [Hal Hb]]]; [|assumption|].
      { intros c Hc. apply in_or_app. left. assumption. }
      exists c. split; [apply in_or_app; auto | auto].
    + destruct (free_block_itself l2 f) as [c [Hc [Hal Hb]]]; [|assumption|].
      { intros c Hc. apply in_or_app. right. right. assumption. }
      exists c. split; [apply in_or_app; right; right; assumption | auto].
Qed.

Lemma mm_free_footprint :
  exists l' fl',
    free_spec l1 b sz l2 fl l' fl' /\
    wf (mm_free s (payload_of b)) l' fl' /\
    unchanged_outside (fun y => tag_region l' y \/ free_payload l' y)
      (heap s) (heap (mm_free s (payload_of b))).
Proof.
  destruct (mm_free_correct s l1 l2 fl b sz Hwf Hsz) as [l' [fl' [Hspec [Hwf' Hu]]]].
  exists l', fl'. split; [assumption|]. split; [assumption|].
  eapply unchanged_weaken; [|exact Hu].
  intros y [Ht|[f [Hf Hy]]]; [left; assumption|]. right.
  destruct (free_nodes_in_free_blocks l' fl' Hspec f Hf) as [c [Hc [Hal [Hlo Hhi]]]].
  exists c. split; [assumption|]. split; [assumption|].
  unfold b_end, b_footer in *. layout_lia.
Qed.

End FreeFootprint.

(** C10: if every block on the heap has size at least the minimum block
    size, then free(p) on an allocated block modifies no payload byte of any
    other currently allocated block: its writes touch only block headers,
    block footers, and the payload words of blocks that are free when the
    call returns. *)
Theorem free_preserves_other_payloads
    (s : state) (l1 l2 : list blk) (fl : list Z) (b sz : Z) :
  wf s (l1 ++ [mkBlk b sz true] ++ l2) fl ->
  (forall c, In c (l1 ++ [mkBlk b sz true] ++ l2) -> MIN_BLOCK_SIZE <= b_size c) ->
  (forall c y, In c (l1 ++ l2) -> b_alloc c = true ->
     b_addr c + SIZEOF_BLOCK <= y < b_footer c ->
     heap (mm_free s (payload_of b)) y = heap s y) /\
  exists l' fl',
    wf (mm_free s (payload_of b)) l' fl' /\
    unchanged_outside (fun y => tag_region l' y \/ free_payload l' y)
      (heap s) (heap (mm_free s (payload_of b))).
Proof.
  intros Hwf Hmin.
  assert (Hsz : MIN_BLOCK_SIZE <= sz).
  { apply (Hmin (mkBlk b sz true)). apply in_or_app. right. left. reflexivity. }
  destruct (mm_free_footprint s l1 l2 fl b sz Hwf Hsz) as [l' [fl' [Hspec [Hwf' Hu]]]].
  split; [|exists l', fl'; auto].
  intros c y Hc Hal Hy. apply Hu. intros [Ht|[d [Hd [Hdal Hdy]]]].
  - pose proof Hwf' as [[_ _ _ _ _ Hch Hs _] _].
    apply (payload_not_tag _ _ l' Hch Hs y); [|assumption].
    exists c. split; [|assumption].
    apply (free_spec_persist l1 l2 fl b sz l' fl' Hspec); assumption.
  - pose proof Hwf' as [[_ _ _ _ _ Hch Hs _] _].
    assert (Hc' : In c l') by (apply (free_spec_persist l1 l2 fl b sz l' fl' Hspec); assumption).
    pose proof (proj1 (Forall_forall _ _) Hs c Hc') as Hsc. apply size_ok_pos in Hsc.
    pose proof (proj1 (Forall_forall _ _) Hs d Hd) as Hsd. apply size_ok_pos in Hsd.
    destruct (chain_disjoint _ _ _ _ _ Hch Hs Hc' Hd) as [E|[E|E]].
    + subst d. congruence.
    + unfold b_end, b_footer in *. layout_lia.
    + unfold b_end, b_footer in *. layout_lia.
Qed.

Lemma free_preserves_other_payloads_witness :
  (forall c y, In c ([mkBlk 4104 64 true] ++ []) -> b_alloc c = true ->
     b_addr c + SIZEOF_BLOCK <= y < b_footer c ->
     heap (mm_free Examples.two_allocated (payload_of 4168)) y
     = heap Examples.two_allocated y) /\
  exists l' fl',
    wf (mm_free Examples.two_allocated (payload_of 4168)) l' fl' /\
    unchanged_outside (fun y => tag_region l' y \/ free_payload l' y)
      (heap Examples.two_allocated)
      (heap (mm_free Examples.two_allocated (payload_of 4168))).
Proof.
  apply (free_preserves_other_payloads Examples.two_allocated
           [mkBlk 4104 64 true] [] [] 4168 32).
  - exact Examples.two_allocated_wf.
  - intros c [<-|[<-|[]]]; vm_compute; congruence.
Defined.

(** ** Zeroed allocation *)

(** [zero_allocate(k, sz)] returns the payload of the underlying allocation
    with its first [len] bytes zero. *)
Definition zero_allocate_spec (len : Z) (fuel : nat) (s : state) (k sz : Z) : Prop :=
  forall s1 q,
    mm_malloc fuel s (Word.wrap (k * sz)) = Done (s1, q) -> q <> NULL ->
    exists s', mm_calloc fuel s k sz = Done (s', q) /\
               forall i, 0 <= i < len -> byte_at (heap s') (q + i) = 0.

(** When the underlying allocation succeeds, [mm_calloc] returns the same
    payload with its first (k * sz mod 2^64) bytes all zero. *)
Lemma zero_allocate_zeroes_wrapped_product
    (fuel : nat) (s : state) (k sz : Z) (s1 : state) (q : Z) :
  mm_malloc fuel s (Word.wrap (k * sz)) = Done (s1, q) -> q <> NULL ->
  exists s', mm_calloc fuel s k sz = Done (s', q) /\
             forall i, 0 <= i < Word.wrap (k * sz) -> byte_at (heap s') (q + i) = 0.
Proof.
  intros E Hq. unfold mm_calloc. rewrite E.
  replace (q =? NULL) with false by (symmetry; apply Z.eqb_neq; assumption).
  cbn [andb].
  exists (with_heap s1 (memset (heap s1) q 0 (Word.wrap (k * sz)))).
  split; [reflexivity|].
  intros i Hi. cbn [heap with_heap]. unfold byte_at.
  rewrite memset_inside by lia. reflexivity.
Qed.

(** When the underlying allocation fails and the length is not zero,
    [mm_calloc] passes the null result to [memset]: the call does not return
    null, it writes through the null pointer. *)
Lemma mm_calloc_failure_faults (fuel : nat) (s : state) (k sz : Z) (s1 : state) :
  mm_malloc fuel s (Word.wrap (k * sz)) = Done (s1, NULL) ->
  0 < Word.wrap (k * sz) ->
  mm_calloc fuel s k sz = Fault.
Proof.
  intros E Hlen. unfold mm_calloc. rewrite E.
  change (NULL =? NULL) with true.
  replace (0 <? Word.wrap (k * sz)) with true by (symmetry; apply Z.ltb_lt; assumption).
  reflexivity.
Qed.

(** With the exact product as the length the property fails when the
    product wraps: [zero_allocate(2^63, 2)] requests 0 bytes,
    gets the 16-byte block at 4104 and returns its payload 4112, where the
    first byte is the footer of that block. *)
Lemma zero_allocate_exact_product_fails :
  ~ zero_allocate_spec (2 ^ 63 * 2) 1 Examples.fresh (2 ^ 63) 2.
Proof.
  intros H.
  assert (E : mm_malloc 1 Examples.fresh (Word.wrap (2 ^ 63 * 2))
              = Done (Examples.state_of
                        (mm_malloc 1 Examples.fresh (Word.wrap (2 ^ 63 * 2))), 4112))
    by (apply Examples.done_eq; vm_compute; reflexivity).
  assert (Hq : 4112 <> NULL) by (vm_compute; congruence).
  destruct (H _ _ E Hq) as [s' [Hc Hz]].
  assert (Hs' : Examples.state_of (mm_calloc 1 Examples.fresh (2 ^ 63) 2) = s')
    by (rewrite Hc; reflexivity).
  specialize (Hz 0). rewrite <- Hs' in Hz.
  assert (Hb : byte_at (heap (Examples.state_of
                  (mm_calloc 1 Examples.fresh (2 ^ 63) 2))) (4112 + 0) = 16)
    by (vm_compute; reflexivity).
  rewrite Hb in Hz. assert (16 = 0) by (apply Hz; vm_compute; split; congruence).
  discriminate.
Qed.

(** ** Behaviour of the code at the inputs where it departs from the
    specification *)

Module Departures.

(** A region with room for the padding and one block of 48 bytes only. *)
Definition raw_small : state := mkState (fun _ => 0) 4096 4152 0 0 0.

(** [p = allocate(24)] in the small region: the region is exhausted. *)
Definition full : state :=
Examples.state_of (mm_malloc 1 (fst (mm_init raw_small)) 24).

(** [p = allocate(16)]: a block of 32 bytes at 4104, payload 4112. *)
Definition one_small : state := Examples.state_of (mm_malloc 1 Examples.fresh 16).

(** [a = allocate(0); b = allocate(8)]: a block of 16 bytes at 4104 followed
    by a block of 32 bytes at 4120. *)
Definition tiny_then_small : state :=
Examples.state_of
  (mm_malloc 1 (Examples.state_of (mm_malloc 1 Examples.fresh 0)) 8).

(** [a = allocate(0); b = allocate(8); c = allocate(8)]: blocks of 16, 32
    and 32 bytes at 4104, 4120 and 4152. *)
Definition tiny_then_two : state :=
Examples.state_of (mm_malloc 1 tiny_then_small 8).

End Departures.

(** Every return of [mm_realloc] with a non-null old payload and a non-zero
    size is a return of [mm_free] on the old payload: no path keeps the old
    block allocated. *)
Lemma mm_realloc_returns_after_free fuel s old_ptr size s' q :
  old_ptr <> NULL -> size <> 0 ->
  mm_realloc fuel s old_ptr size = Done (s', q) ->
  exists s2, s' = mm_free s2 old_ptr.
Proof.
  intros Hp Hn. unfold mm_realloc.
  destruct (mm_malloc fuel s size) as [[s1 p]| |]; try discriminate.
  replace (old_ptr =? NULL) with false by (symmetry; apply Z.eqb_neq; assumption).
  replace (size =? 0) with false by (symmetry; apply Z.eqb_neq; assumption).
  destruct ((p =? NULL) && (0 <? realloc_copy_length (heap s1) old_ptr size));
    [discriminate|].
  intros H. injection H as Hs' _.
  exists (with_heap s1 (memcpy (heap s1) p old_ptr
                          (realloc_copy_length (heap s1) old_ptr size))).
  symmetry. exact Hs'.
Qed.

(** C2: when the underlying allocation fails, resize should return null and
    leave the old block allocated.  In the exhausted region [full], the
    allocation of 100 bytes fails, and [mm_realloc] passes the null result to
    [memcpy] with a non-zero length: the call faults instead of returning null. *)
Theorem resize_failure_copies_to_null :
  Examples.result_of (mm_malloc 1 Departures.full 100) = NULL /\
  is_allocated (heap Departures.full) (block_from_payload 4112) = true /\
  realloc_copy_length (heap Departures.full) 4112 100 = 48 /\
  mm_realloc 1 Departures.full 4112 100 = Fault.
Proof. vm_compute. repeat split; reflexivity. Qed.

(** C4: resize should copy min(old payload capacity, n) bytes.  For the
    32-byte block at 4104 (payload capacity 32 - 8 - 8 = 16) and n = 64, the
    length passed to [memcpy] is 32, the total block size; the third word of
    the new payload receives the old block's footer. *)
Theorem resize_copies_total_block_size :
  get_size (heap Departures.one_small) (block_from_payload 4112)
    - SIZEOF_BLOCK - SIZEOF_FOOTER = 16 /\
  realloc_copy_length (heap Departures.one_small) 4112 64 = 32 /\
  Examples.result_of (mm_realloc 1 Departures.one_small 4112 64) = 4144 /\
  load64 (heap Departures.one_small) (4112 + 16) = 32 /\
  load64 (heap (Examples.state_of (mm_realloc 1 Departures.one_small 4112 64)))
         (4144 + 16) = 32.
Proof. vm_compute. repeat split; reflexivity. Qed.

(** C5: the block size should be clamped below to the minimum block size of
    32 bytes.  [mm_malloc(0)] computes a block size of 16 and creates a block
    of 16 bytes. *)
Theorem allocate_zero_creates_16_byte_block :
  request_size 0 = 16 /\
  Examples.result_of (mm_malloc 1 Examples.fresh 0) = 4112 /\
  get_size (heap (Examples.state_of (mm_malloc 1 Examples.fresh 0)))
           (block_from_payload 4112) = 16 /\
  16 < MIN_BLOCK_SIZE.
Proof. vm_compute. repeat split; reflexivity. Qed.

(** Releasing the 16-byte block writes the [next] link over the header of the
    following block: the allocated 32-byte block at 4120 reads as a free block
    of size 0 afterwards, and the free list is empty. *)
Lemma free_of_16_byte_block_clobbers_next_header :
  is_allocated (heap Departures.tiny_then_small) 4120 = true /\
  get_size (heap Departures.tiny_then_small) 4120 = 32 /\
  is_allocated (heap (mm_free Departures.tiny_then_small 4112)) 4120 = false /\
  get_size (heap (mm_free Departures.tiny_then_small 4112)) 4120 = 0 /\
  head (mm_free Departures.tiny_then_small 4112) = NULL.
Proof. vm_compute. repeat split; reflexivity. Qed.

(** C3: after every facade operation returns, no two physically adjacent
    blocks of the heap should both be free.  After [a = allocate(0);
    b = allocate(8); c = allocate(8); free(a)] the 16-byte block at 4104 is
    free and so is, by its header, the block that starts where it ends, at
    4120: the live block [b], whose header [add_block] has overwritten with
    the null [next] link of the 16-byte block.  Both blocks lie between
    [mm_heap_first] and [mm_heap_last], and the free list is empty. *)
Theorem release_of_16_byte_block_leaves_adjacent_free :
  mm_heap_first Departures.tiny_then_two = 4104 /\
  mm_heap_last Departures.tiny_then_two = 4152 /\
  get_size (heap Departures.tiny_then_two) 4104 = 16 /\
  is_allocated (heap Departures.tiny_then_two) 4104 = true /\
  is_allocated (heap Departures.tiny_then_two) (4104 + 16) = true /\
  mm_heap_first (mm_free Departures.tiny_then_two (payload_of 4104)) = 4104 /\
  mm_heap_last (mm_free Departures.tiny_then_two (payload_of 4104)) = 4152 /\
  is_allocated (heap (mm_free Departures.tiny_then_two (payload_of 4104))) 4104 = false /\
  get_size (heap (mm_free Departures.tiny_then_two (payload_of 4104))) 4104 = 16 /\
  is_allocated (heap (mm_free Departures.tiny_then_two (payload_of 4104))) (4104 + 16)
  = false /\
  head (mm_free Departures.tiny_then_two (payload_of 4104)) = NULL.
Proof. vm_compute. repeat split; reflexivity. Qed.

(** C7: zero_allocate should return null when the underlying allocation
    fails.  In the exhausted region [full] the allocation of 10 * 10 bytes
    fails, and [mm_calloc] passes the null result to [memset] with the
    length 100: the call faults instead of returning null. *)
Theorem zero_allocate_failure_writes_to_null :
  Examples.result_of (mm_malloc 1 Departures.full (Word.wrap (10 * 10))) = NULL /\
  Word.wrap (10 * 10) = 100 /\
  mm_calloc 1 Departures.full 10 10 = Fault.
Proof. vm_compute. repeat split; reflexivity. Qed.

(** C6: resize(p, 0) should be free(p) followed by returning null, with no
    other change of the allocator state.  [mm_realloc] calls [mm_malloc(0)]
    before it tests the size: the region grows by 16 bytes and a new allocated
    block of 16 bytes stays behind at the old break. *)
Theorem resize_to_zero_allocates_first :
  Examples.result_of (mm_realloc 1 Examples.two_allocated 4176 0) = NULL /\
  mem_brk (mm_free Examples.two_allocated 4176) = 4200 /\
  mem_brk (Examples.state_of (mm_realloc 1 Examples.two_allocated 4176 0)) = 4216 /\
  mm_heap_last (mm_free Examples.two_allocated 4176) = 4168 /\
  mm_heap_last (Examples.state_of (mm_realloc 1 Examples.two_allocated 4176 0)) = 4200 /\
  is_allocated
    (heap (Examples.state_of (mm_realloc 1 Examples.two_allocated 4176 0))) 4200 = true /\
  get_size
    (heap (Examples.state_of (mm_realloc 1 Examples.two_allocated 4176 0))) 4200 = 16.
Proof. vm_compute. repeat split; reflexivity. Qed.

(** * Further properties of the explicit-list allocator *)

(** Small facts about the concrete heaps of [Examples]. *)
Module ExampleLists.





(** [a = allocate(48); b = allocate(8); free(b)]: an allocated block of 64
    bytes at 4104 followed by a free block of 32 bytes at 4168. *)
Definition free_last : state := mm_free Examples.two_allocated 4176.

Definition free_last_blocks : list blk := [mkBlk 4104 64 true; mkBlk 4168 32 false].

Lemma free_last_wf : wf free_last free_last_blocks [4168].
Proof.
  split.
  - constructor.
    + vm_compute. congruence.
    + vm_compute. reflexivity.
    + vm_compute. split; [congruence | reflexivity].
    + vm_compute. reflexivity.
    + vm_compute. reflexivity.
    + vm_compute. auto.
    + repeat constructor; vm_compute; congruence.
    + repeat constructor; vm_compute; reflexivity.
  - constructor.
    + vm_compute. reflexivity.
    + vm_compute. auto.
    + repeat constructor. intros [].
    + intros f. split.
      * intros [<-|[]]. exists 32. right. left. reflexivity.
      * intros [sz [H|[H|[]]]]; inversion H. left. reflexivity.
Qed.

Lemma request_8 : request_ok 8.
Proof. split; [lia|]. change Word.modulus with 18446744073709551616. lia. Qed.

End ExampleLists.

(** ** Sizes and tags *)


(** [round_up]: when [size + (n - 1)] does not wrap, the result is the least
    multiple of [n] that is not below [size]; in particular it is below
    [size + n]. *)
Theorem round_up_least_multiple (size n : Z) :
  0 < n -> 0 <= size -> size + (n - 1) < Word.modulus ->
  round_up size n mod n = 0 /\
  size <= round_up size n < size + n /\
  (forall k, k mod n = 0 -> size <= k -> round_up size n <= k).
Proof.
  intros Hn Hs Hw. unfold round_up.
  rewrite (Word.wrap_small (size + (n - 1))) by lia.
  pose proof (Z.div_mod (size + (n - 1)) n ltac:(lia)) as Hdm.
  pose proof (Z.mod_pos_bound (size + (n - 1)) n Hn) as Hmb.
  remember ((size + (n - 1)) / n) as q eqn:Eq.
  remember ((size + (n - 1)) mod n) as r eqn:Er.
  rewrite (Z.mul_comm q n).
  assert (Hr : 0 <= n * q < Word.modulus) by lia.
  rewrite Word.wrap_small by assumption.
  split; [rewrite Z.mul_comm; apply Z.mod_mul; lia|]. split; [lia|].
  intros k Hk Hle.
  apply Z.mod_divide in Hk; [|lia]. destruct Hk as [j Hj]. subst k.
  assert (q <= j); [|nia].
  assert (q < j + 1); [|lia].
  apply Z.mul_lt_mono_pos_l with (p := n); [assumption|]. lia.
Qed.

Lemma round_up_least_multiple_witness :
  round_up 17 16 mod 16 = 0 /\
  17 <= round_up 17 16 < 17 + 16 /\
  (forall k, k mod 16 = 0 -> 17 <= k -> round_up 17 16 <= k).
Proof.
  apply (round_up_least_multiple 17 16); [lia | lia | vm_compute; reflexivity].
Defined.



Lemma footer_clear_of_header (b size : Z) :
  size mod 2 = 0 -> 16 <= size < Word.modulus -> 0 <= b < Word.modulus ->
  Word.wrap (b + size - SIZEOF_FOOTER) + 8 <= b \/
  b + 8 <= Word.wrap (b + size - SIZEOF_FOOTER).
Proof.
  intros Hev Hr Hb. unfold Word.wrap, SIZEOF_FOOTER.
  change Word.modulus with 18446744073709551616 in *. lia.
Qed.

Lemma set_header_header_word (m : mem) (b size : Z) (a : bool) :
  size mod 2 = 0 -> 16 <= size < Word.modulus -> 0 <= b < Word.modulus ->
  load64 (set_header m b size a) b = size + bool_to_Z a.
Proof.
  intros Hev Hr Hb. unfold set_header.
  rewrite MemFacts.load64_store64_other
    by (destruct (footer_clear_of_header b size Hev Hr Hb); lia).
  rewrite MemFacts.load64_store64_same_small
    by (apply Header.header_range; [lia | assumption]).
  apply Header.lor_flag. assumption.
Qed.

Lemma set_header_get_size (m : mem) (b size : Z) (a : bool) :
  size mod 2 = 0 -> 16 <= size < Word.modulus -> 0 <= b < Word.modulus ->
  get_size (set_header m b size a) b = size.
Proof.
  intros Hev Hr Hb. unfold get_size.
  rewrite set_header_header_word, Header.land_mask
    by (assumption || (destruct a; simpl; layout_lia)).
  destruct a; simpl; lia.
Qed.

Lemma set_header_is_allocated (m : mem) (b size : Z) (a : bool) :
  size mod 2 = 0 -> 16 <= size < Word.modulus -> 0 <= b < Word.modulus ->
  is_allocated (set_header m b size a) b = a.
Proof.
  intros Hev Hr Hb.
  unfold is_allocated. rewrite set_header_header_word, Header.land_1 by assumption.
  destruct a; simpl.
  - replace ((size + 1) mod 2) with 1 by lia. reflexivity.
  - replace ((size + 0) mod 2) with 0 by lia. reflexivity.
Qed.

Lemma set_header_outside (m : mem) (b size : Z) (a : bool) (y : Z) :
  ~ (b <= y < b + 8) ->
  ~ (Word.wrap (b + size - SIZEOF_FOOTER) <= y
     < Word.wrap (b + size - SIZEOF_FOOTER) + 8) ->
  set_header m b size a y = m y.
Proof.
  intros H1 H2. unfold set_header.
  rewrite !MemFacts.store64_outside by lia. reflexivity.
Qed.

(** [set_header] followed by [get_size] and [is_allocated].  The footer word
    is at [(block + size - 8) mod 2^64].  For an even size of at least 16
    bytes, when neither word runs past the end of the address space, the
    header decodes to the size and the flag that were written, the footer
    holds the size, and no byte outside the two words changes. *)
Theorem set_header_round_trip (m : mem) (b size : Z) (a : bool) :
  size mod 2 = 0 -> 16 <= size < Word.modulus ->
  0 <= b -> b + 8 <= Word.modulus ->
  Word.wrap (b + size - SIZEOF_FOOTER) + 8 <= Word.modulus ->
  get_size (set_header m b size a) b = size /\
  is_allocated (set_header m b size a) b = a /\
  load64 (set_header m b size a) (Word.wrap (b + size - SIZEOF_FOOTER)) = size /\
  (forall y, ~ (b <= y < b + 8) ->
             ~ (Word.wrap (b + size - SIZEOF_FOOTER) <= y
                < Word.wrap (b + size - SIZEOF_FOOTER) + 8) ->
             set_header m b size a y = m y).
Proof.
  intros Hev Hr Hb0 Hb8 Hf.
  assert (Hb : 0 <= b < Word.modulus) by lia.
  split; [apply set_header_get_size; assumption|].
  split; [apply set_header_is_allocated; assumption|]. split.
  - unfold set_header. apply MemFacts.load64_store64_same_small. lia.
  - intros y. apply set_header_outside.
Qed.

Lemma set_header_round_trip_witness :
  get_size (set_header (fun _ => 0) 4200 (Word.modulus - 64) true) 4200
  = Word.modulus - 64 /\
  is_allocated (set_header (fun _ => 0) 4200 (Word.modulus - 64) true) 4200 = true /\
  load64 (set_header (fun _ => 0) 4200 (Word.modulus - 64) true)
    (Word.wrap (4200 + (Word.modulus - 64) - SIZEOF_FOOTER)) = Word.modulus - 64 /\
  (forall y, ~ (4200 <= y < 4200 + 8) ->
             ~ (Word.wrap (4200 + (Word.modulus - 64) - SIZEOF_FOOTER) <= y
                < Word.wrap (4200 + (Word.modulus - 64) - SIZEOF_FOOTER) + 8) ->
             set_header (fun _ => 0) 4200 (Word.modulus - 64) true y = (fun _ => 0) y).
Proof.
  apply (set_header_round_trip (fun _ => 0) 4200 (Word.modulus - 64) true).
  - reflexivity.
  - change Word.modulus with 18446744073709551616. lia.
  - lia.
  - change Word.modulus with 18446744073709551616. lia.
  - vm_compute. congruence.
Defined.







(** [find_fit] on a well-formed heap returns (with fuel above the length of
    the free list), and its result is null exactly when no free block has at
    least the requested size; a non-null result is a free block of at least
    that size. *)
Theorem find_fit_null_iff_none_fits
    (fuel : nat) (s : state) (l : list blk) (fl : list Z) (size : Z) :
  wf s l fl -> (length fl < fuel)%nat ->
  exists r, find_fit fuel s size = Some r /\
    (r = NULL <-> forall c, In c l -> b_alloc c = false -> b_size c < size) /\
    (r <> NULL -> exists sz, In (mkBlk r sz false) l /\ size <= sz).
Proof.
  intros Hwf Hfuel. pose proof Hwf as [Hrep [Hh Hd Hnd Hm]].
  assert (Hp : ptrs_ok fl).
  { apply (nodes_ptrs_ok s l Hrep). apply (free_nodes s l Hrep).
    intros f Hf. apply Hm. assumption. }
  unfold find_fit. rewrite Hh.
  rewrite (find_fit_from_spec fuel (heap s) size NULL fl Hd);
    [| intros f Hf; destruct Hp as [Hr _]; specialize (Hr f Hf); unfold NULL; lia
     | assumption].
  exists (first_fit (heap s) size fl). split; [reflexivity|].
  destruct (first_fit_cases (heap s) size fl)
    as [[Hff Hsmall]|[fl1 [x [fl2 [Efl [Hff [Hfit Hsmall]]]]]]]; rewrite Hff.
  - split; [|intros H; exfalso; apply H; reflexivity].
    split; [|reflexivity]. intros _ c Hc Hal.
    destruct c as [a sz al]. simpl in Hal. subst al.
    assert (Hin : In a fl) by (apply Hm; exists sz; assumption).
    pose proof (get_size_block s l Hrep _ Hc) as Hg. simpl in Hg.
    specialize (Hsmall a Hin). simpl. lia.
  - assert (Hx : In x fl) by (rewrite Efl; apply in_or_app; right; left; reflexivity).
    pose proof (proj1 (Hm x) Hx) as [sz Hin].
    pose proof (get_size_block s l Hrep _ Hin) as Hg. simpl in Hg.
    assert (Hxn : x <> NULL).
    { destruct Hp as [Hr _]. specialize (Hr x Hx). unfold NULL. lia. }
    split.
    + split; [contradiction|]. intros Hall. exfalso.
      specialize (Hall _ Hin eq_refl). simpl in Hall. lia.
    + intros _. exists sz. split; [assumption | lia].
Qed.

Lemma find_fit_null_iff_none_fits_witness :
  exists r, find_fit 2 Examples.one_free 32 = Some r /\
    (r = NULL <-> forall c, In c Examples.one_free_blocks -> b_alloc c = false ->
                            b_size c < 32) /\
    (r <> NULL -> exists sz, In (mkBlk r sz false) Examples.one_free_blocks /\ 32 <= sz).
Proof.
  apply (find_fit_null_iff_none_fits 2 Examples.one_free Examples.one_free_blocks
           Examples.one_free_list 32).
  - exact Examples.one_free_wf.
  - simpl. lia.
Defined.

(** Bytes of the free blocks of [l], tags included. *)
Definition free_range (l : list blk) : Z -> Prop :=
  fun y => exists c, In c l /\ b_alloc c = false /\ b_addr c <= y < b_end c.

Section MallocFootprint.

Lemma add_block_footprint s b :
  unchanged_outside
    (fun y => b + 8 <= y < b + 24 \/ (head s <> NULL /\ head s + 8 <= y < head s + 16))
    (heap s) (heap (add_block s b)).
Proof.
  intros y Hy. unfold add_block.
  destruct (head s =? NULL) eqn:E; cbn [heap with_heap with_head].
  - rewrite !MemFacts.store64_outside by layout_lia. reflexivity.
  - apply Z.eqb_neq in E.
    rewrite !MemFacts.store64_outside by layout_lia. reflexivity.
Qed.

Lemma free_node_range s l fl f y :
  wf s l fl -> In f fl -> f <= y < f + MIN_BLOCK_SIZE -> free_range l y.
Proof.
  intros [Hrep [_ _ _ Hm]] Hf Hy.
  apply Hm in Hf. destruct Hf as [sz Hin].
  destruct (block_facts s l Hrep _ Hin) as [_ [_ [_ [_ [[_ Hs] _]]]]].
  exists (mkBlk f sz false). split; [assumption|]. split; [reflexivity|].
  unfold b_end. simpl in *. lia.
Qed.

Lemma hd_in (fl : list Z) : hd NULL fl <> NULL -> In (hd NULL fl) fl.
Proof. destruct fl; simpl; [congruence | auto]. Qed.

Lemma malloc_spec_footprint s l fl need s' p l' fl' :
  wf s l fl -> need mod ALIGNMENT = 0 -> 16 <= need ->
  malloc_spec s l fl need s' p l' fl' ->
  unchanged_outside (fun y => free_range l y \/ mem_brk s <= y) (heap s) (heap s').
Proof.
  intros Hwf Hal Hpos H.
  destruct H as [l1 l2 fl1 fl2 x sz El Efl _ Hsz | l1 l2 fl1 fl2 x sz El Efl _ Hsz
                 | _ Hroom | _ _].
  - subst l fl.
    pose proof (fit_geometry _ _ _ _ _ _ _ Hwf) as [_ [_ [G3 [G4 [G5 [G6 [G7 [G8 G9]]]]]]]].
    pose proof (fit_ptrs_ok _ _ _ _ _ _ _ Hwf) as Hp.
    pose proof Hwf as [Hrep [Hh Hd Hnd Hm]].
    destruct (remove_block_spec s fl1 x fl2 Hh Hd Hnd Hp) as [_ [_ [_ R4]]].
    unfold whole_state. cbn [heap with_heap].
    eapply unchanged_trans.
    + eapply unchanged_weaken; [|exact R4].
      intros y [f [Hf Hy]]. left.
      apply (free_node_range s _ _ f y Hwf).
      * apply in_app_or in Hf. apply in_or_app. destruct Hf; [left | right; right]; assumption.
      * layout_lia.
    + apply set_header_unchanged; [|layout_lia]. intros y Hy. left.
      exists (mkBlk x sz false). split; [apply in_or_app; right; left; reflexivity|].
      split; [reflexivity|]. unfold b_end. simpl. lia.
  - subst l fl.
    pose proof (fit_geometry _ _ _ _ _ _ _ Hwf) as [_ [_ [G3 [G4 [G5 [G6 [G7 [G8 G9]]]]]]]].
    pose proof (fit_ptrs_ok _ _ _ _ _ _ _ Hwf) as Hp.
    pose proof (fit_removed _ _ _ _ _ _ _ Hwf) as [R1 _].
    pose proof Hwf as [Hrep [Hh Hd Hnd Hm]].
    destruct (remove_block_spec s fl1 x fl2 Hh Hd Hnd Hp) as [_ [_ [_ R4]]].
    assert (Hx : forall y, x <= y < x + sz ->
                 free_range (l1 ++ [mkBlk x sz false] ++ l2) y \/ mem_brk s <= y).
    { intros y Hy. left. exists (mkBlk x sz false).
      split; [apply in_or_app; right; left; reflexivity|].
      split; [reflexivity|]. unfold b_end. simpl. lia. }
    assert (Hrest : forall f y, In f (fl1 ++ fl2) -> f <= y < f + MIN_BLOCK_SIZE ->
                 free_range (l1 ++ [mkBlk x sz false] ++ l2) y \/ mem_brk s <= y).
    { intros f y Hf Hy. left. apply (free_node_range s _ _ f y Hwf); [|assumption].
      apply in_app_or in Hf. apply in_or_app. destruct Hf; [left | right; right]; assumption. }
    unfold ALIGNMENT in *.
    unfold split_state, split_helper.
    set (s1 := remove_block s x) in *.
    set (s2 := if x =? mm_heap_last s1 then with_last s1 (x + need) else s1).
    assert (E2 : heap s2 = heap s1 /\ head s2 = head s1).
    { unfold s2. destruct (x =? mm_heap_last s1); split; reflexivity. }
    destruct E2 as [E2 E2h].
    eapply unchanged_trans;
      [|eapply unchanged_weaken; [|apply add_block_footprint]].
    + cbn [heap with_heap]. rewrite E2.
      apply unchanged_trans with (m2 := heap s1);
        [|apply unchanged_trans with (m2 := set_header (heap s1) x need true)].
      * eapply unchanged_weaken; [|exact R4].
        intros y [f [Hf Hy]]. apply (Hrest f y Hf). layout_lia.
      * apply set_header_unchanged; [intros y Hy; apply Hx; lia | layout_lia].
      * apply set_header_unchanged; [intros y Hy; apply Hx; lia | layout_lia].
    + intros y [Hy|[Hne Hy]].
      * apply Hx. lia.
      * cbn [head with_heap] in Hne, Hy. rewrite E2h, R1 in Hne, Hy.
        apply (Hrest (hd NULL (fl1 ++ fl2)) y); [apply hd_in; assumption|].
        layout_lia.
  - unfold grown_state. cbn [heap].
    pose proof (brk_in_space s l (proj1 Hwf)) as Hb.
    apply set_header_unchanged; [intros y Hy; right; lia | layout_lia].
  - apply unchanged_refl.
Qed.

End MallocFootprint.

(** For every request, also one whose size computation wraps, [mm_malloc]
    returns, and it returns null exactly when no free block has at least the
    block size it computed ([request_size n], the wrapped and rounded size)
    and the region cannot grow by that size; a failed call leaves the whole
    allocator state unchanged.  A request near [SIZE_MAX], whose computed
    size wraps to 0 or 16, therefore succeeds where it should fail. *)
Theorem mm_malloc_fails_only_when_exhausted
    (fuel : nat) (s : state) (l : list blk) (fl : list Z) (n : Z) :
  wf s l fl -> (length fl < fuel)%nat ->
  exists s' p,
    mm_malloc fuel s n = Done (s', p) /\
    (p = NULL <->
       (forall c, In c l -> b_alloc c = false -> b_size c < request_size n) /\
       mem_max_addr s < mem_brk s + request_size n) /\
    (p = NULL -> s' = s).
Proof.
  intros Hwf Hfuel. pose proof Hwf as [Hrep [Hh Hd Hnd Hm]].
  pose proof (brk_in_space s l Hrep) as [Hb8 [Hbmax Hmax]].
  assert (Hp : ptrs_ok fl).
  { apply (nodes_ptrs_ok s l Hrep). apply (free_nodes s l Hrep).
    intros f Hf. apply Hm. assumption. }
  assert (Eff : find_fit fuel s (request_size n)
                = Some (first_fit (heap s) (request_size n) fl)).
  { unfold find_fit. rewrite Hh.
    apply (find_fit_from_spec fuel (heap s) (request_size n) NULL fl Hd);
      [|assumption].
    intros f Hf. destruct Hp as [Hr _]. specialize (Hr f Hf). unfold NULL. lia. }
  unfold mm_malloc. rewrite Eff.
  destruct (first_fit_cases (heap s) (request_size n) fl)
    as [[E Hall]|[fl1 [x [fl2 [Efl [E [Hfit _]]]]]]]; rewrite E.
  - change (NULL =? NULL) with true. cbn [negb]. unfold mem_sbrk.
    destruct (mem_brk s + request_size n <=? mem_max_addr s) eqn:Er.
    + apply Z.leb_le in Er.
      replace (mem_brk s =? SBRK_FAILED) with false
        by (symmetry; apply Z.eqb_neq; unfold SBRK_FAILED; layout_lia).
      eexists. exists (payload_of (mem_brk s)). split; [reflexivity|].
      assert (Hne : payload_of (mem_brk s) <> NULL) by (unfold payload_of; layout_lia).
      split; [|contradiction]. split; [contradiction|]. intros [_ Hno]. lia.
    + apply Z.leb_gt in Er. rewrite Z.eqb_refl.
      exists s, NULL. split; [reflexivity|]. split; [|reflexivity].
      split; [|reflexivity]. intros _. split; [|assumption].
      intros c Hc Hal. destruct c as [a sz al]. simpl in Hal. subst al.
      assert (Hin : In a fl) by (apply Hm; exists sz; assumption).
      pose proof (get_size_block s l Hrep _ Hc) as Hg. simpl in Hg.
      specialize (Hall a Hin). simpl. lia.
  - assert (Hx : In x fl) by (rewrite Efl; apply in_or_app; right; left; reflexivity).
    destruct (proj1 (Hm x) Hx) as [sz Hin].
    pose proof (get_size_block s l Hrep _ Hin) as Hg. simpl in Hg.
    destruct (block_facts s l Hrep _ Hin) as [Hx8 _]. simpl in Hx8.
    replace (x =? NULL) with false by (symmetry; apply Z.eqb_neq; unfold NULL; lia).
    cbn [negb].
    eexists. exists (payload_of x). split; [reflexivity|].
    assert (Hne : payload_of x <> NULL) by (unfold payload_of; layout_lia).
    split; [|contradiction]. split; [contradiction|].
    intros [Hno _]. specialize (Hno _ Hin eq_refl). simpl in Hno. lia.
Qed.

Lemma mm_malloc_fails_only_when_exhausted_witness :
  exists s' p,
    mm_malloc 2 Examples.one_free (Word.modulus - 1) = Done (s', p) /\
    (p = NULL <->
       (forall c, In c Examples.one_free_blocks -> b_alloc c = false ->
                  b_size c < request_size (Word.modulus - 1)) /\
       mem_max_addr Examples.one_free
       < mem_brk Examples.one_free + request_size (Word.modulus - 1)) /\
    (p = NULL -> s' = Examples.one_free).
Proof.
  apply (mm_malloc_fails_only_when_exhausted 2 Examples.one_free
           Examples.one_free_blocks Examples.one_free_list (Word.modulus - 1)).
  - exact Examples.one_free_wf.
  - simpl. lia.
Defined.

Lemma malloc_grow_case
    (fuel : nat) (s : state) (l : list blk) (fl : list Z) (n : Z) :
  wf s l fl -> request_ok n -> (length fl < fuel)%nat ->
  (forall c, In c l -> b_alloc c = false -> b_size c < need_of n) ->
  mem_brk s + need_of n <= mem_max_addr s ->
  mm_malloc fuel s n = Done (grown_state s (need_of n), payload_of (mem_brk s)) /\
  wf (grown_state s (need_of n)) (l ++ [grown_block s (need_of n)]) fl.
Proof.
  intros Hwf Hreq Hfuel Hsmall Hroom.
  destruct (mm_malloc_correct fuel s l fl n Hwf Hreq Hfuel)
    as [s' [p [l' [fl' [E [Hspec Hwf']]]]]].
  assert (Hfit : forall l1 x sz l2, l = l1 ++ [mkBlk x sz false] ++ l2 ->
                 need_of n <= sz -> False).
  { intros l1 x sz l2 El Hle.
    assert (Hin : In (mkBlk x sz false) l)
      by (rewrite El; apply in_or_app; right; left; reflexivity).
    specialize (Hsmall _ Hin eq_refl). simpl in Hsmall. lia. }
  destruct Hspec as [l1 l2 fl1 fl2 x sz El _ _ Hsz | l1 l2 fl1 fl2 x sz El _ _ Hsz
                     | Hsm _ | Hsm Hno].
  - exfalso. apply (Hfit l1 x sz l2 El). lia.
  - exfalso. apply (Hfit l1 x sz l2 El). lia.
  - split; assumption.
  - lia.
Qed.

(** When no free block is large enough and the region has room, [mm_malloc]
    grows the region by exactly the block size, places the new allocated
    block at the old break as the last block, leaves the free list alone and
    changes no byte below the old break. *)
Theorem mm_malloc_grows_at_break
    (fuel : nat) (s : state) (l : list blk) (fl : list Z) (n : Z) :
  wf s l fl -> request_ok n -> (length fl < fuel)%nat ->
  (forall c, In c l -> b_alloc c = false -> b_size c < need_of n) ->
  mem_brk s + need_of n <= mem_max_addr s ->
  exists s',
    mm_malloc fuel s n = Done (s', payload_of (mem_brk s)) /\
    mem_brk s' = mem_brk s + need_of n /\
    mm_heap_last s' = mem_brk s /\
    wf s' (l ++ [mkBlk (mem_brk s) (need_of n) true]) fl /\
    (forall y, y < mem_brk s -> heap s' y = heap s y).
Proof.
  intros Hwf Hreq Hfuel Hsmall Hroom.
  destruct (malloc_grow_case fuel s l fl n Hwf Hreq Hfuel Hsmall Hroom) as [E Hwf'].
  exists (grown_state s (need_of n)). split; [assumption|].
  split; [reflexivity|]. split; [reflexivity|]. split; [exact Hwf'|].
  intros y Hy. unfold grown_state. cbn [heap].
  destruct (need_of_facts n (proj1 Hreq)) as [_ [Hlo _]]. destruct Hreq as [Hn0 _].
  pose proof (brk_in_space s l (proj1 Hwf)) as Hb.
  rewrite set_header_flat by layout_lia.
  rewrite !MemFacts.store64_outside by layout_lia. reflexivity.
Qed.

Lemma mm_malloc_grows_at_break_witness :
  exists s',
    mm_malloc 1 Examples.two_allocated 8
    = Done (s', payload_of (mem_brk Examples.two_allocated)) /\
    mem_brk s' = mem_brk Examples.two_allocated + need_of 8 /\
    mm_heap_last s' = mem_brk Examples.two_allocated /\
    wf s' (Examples.two_allocated_blocks
           ++ [mkBlk (mem_brk Examples.two_allocated) (need_of 8) true]) [] /\
    (forall y, y < mem_brk Examples.two_allocated ->
               heap s' y = heap Examples.two_allocated y).
Proof.
  apply (mm_malloc_grows_at_break 1 Examples.two_allocated
           Examples.two_allocated_blocks [] 8).
  - exact Examples.two_allocated_wf.
  - exact ExampleLists.request_8.
  - simpl. lia.
  - intros c [<-|[<-|[]]]; discriminate.
  - vm_compute. congruence.
Defined.

(** For a request whose block size does not wrap ([n + 31 < 2^64]), on a
    well-formed heap: [mm_malloc(n)] returns in a well-formed heap, and a
    non-null result is 16-byte aligned and is the payload of an allocated
    block inside the region whose [n] payload bytes end before its footer;
    that block overlaps no block that was allocated before the call.  (For
    the other requests see [request_size_wraps_near_size_max].) *)
Theorem mm_malloc_result_is_aligned_and_fresh
    (fuel : nat) (s : state) (l : list blk) (fl : list Z) (n : Z) :
  wf s l fl -> request_ok n -> (length fl < fuel)%nat ->
  exists s' p l' fl',
    mm_malloc fuel s n = Done (s', p) /\ wf s' l' fl' /\
    (p <> NULL ->
       p mod ALIGNMENT = 0 /\
       exists c, In c l' /\ b_alloc c = true /\ p = payload_of (b_addr c) /\
                 p + n <= b_footer c /\ b_end c <= mem_brk s' /\
                 forall d, In d l -> b_alloc d = true ->
                           b_end d <= b_addr c \/ b_end c <= b_addr d).
Proof.
  intros Hwf Hreq Hfuel. pose proof Hwf as [Hrep _].
  destruct (mm_malloc_correct fuel s l fl n Hwf Hreq Hfuel)
    as [s' [p [l' [fl' [E [Hspec Hwf']]]]]].
  exists s', p, l', fl'. split; [assumption|]. split; [assumption|].
  intros Hne.
  destruct (need_of_facts n (proj1 Hreq)) as [_ [Hlo _]]. destruct Hreq as [Hn0 _].
  assert (Hn16 : 16 <= need_of n) by lia.
  destruct (malloc_spec_new_block _ _ _ _ _ _ _ _ Hrep Hn16 Hspec)
    as [[Hnull _]|[c [Hc [Hal [Hp [Hsz [H8 [Hmod Hfresh]]]]]]]]; [contradiction|].
  split; [subst p; unfold payload_of; layout_lia|].
  exists c. split; [assumption|]. split; [assumption|]. split; [assumption|].
  pose proof Hwf' as [Hrep' _].
  destruct (block_facts s' l' Hrep' c Hc) as [_ [_ [Hend _]]].
  split; [subst p; unfold payload_of, b_footer; layout_lia|].
  split; [assumption|].
  intros d Hd Hdal.
  assert (Hd' : In d l') by (eapply malloc_spec_persist; eassumption).
  destruct Hrep' as [_ _ _ _ _ Hch Hs _].
  destruct (chain_disjoint _ _ _ _ _ Hch Hs Hd' Hc) as [->|[?|?]]; [|auto|auto].
  exfalso. apply (Hfresh c Hd Hdal). reflexivity.
Qed.

Lemma mm_malloc_result_is_aligned_and_fresh_witness :
  exists s' p l' fl',
    mm_malloc 2 Examples.one_free 8 = Done (s', p) /\ wf s' l' fl' /\
    (p <> NULL ->
       p mod ALIGNMENT = 0 /\
       exists c, In c l' /\ b_alloc c = true /\ p = payload_of (b_addr c) /\
                 p + 8 <= b_footer c /\ b_end c <= mem_brk s' /\
                 forall d, In d Examples.one_free_blocks -> b_alloc d = true ->
                           b_end d <= b_addr c \/ b_end c <= b_addr d).
Proof.
  apply (mm_malloc_result_is_aligned_and_fresh 2 Examples.one_free
           Examples.one_free_blocks Examples.one_free_list 8).
  - exact Examples.one_free_wf.
  - exact ExampleLists.request_8.
  - simpl. lia.
Defined.



(** ** A request whose block size wraps to zero *)

Lemma mm_malloc_serves_from_head fuel s n f :
  head s = f -> f <> NULL -> request_size n <= get_size (heap s) f ->
  (0 < fuel)%nat ->
  exists s', mm_malloc fuel s n = Done (s', payload_of f).
Proof.
  intros Hh Hf Hfit Hfuel. destruct fuel as [|k]; [lia|].
  unfold mm_malloc, find_fit. cbn [find_fit_from]. rewrite Hh.
  replace (f =? NULL) with false by (symmetry; apply Z.eqb_neq; assumption).
  replace (request_size n <=? get_size (heap s) f) with true
    by (symmetry; apply Z.leb_le; assumption).
  cbv beta iota.
  replace (f =? NULL) with false by (symmetry; apply Z.eqb_neq; assumption).
  cbn [negb]. eexists. reflexivity.
Qed.

(** For a request near [SIZE_MAX] whose computed block size wraps to 0 (the
    requests from [2^64 - 31] to [2^64 - 16]), on a well-formed heap with a
    non-empty free list: [mm_malloc] returns the payload of the block at the
    head of the list, but the block is free and at the head of the list
    afterwards, so that the same request returns the same payload again; and
    the footer of the block that physically precedes it holds 0 afterwards. *)
Theorem mm_malloc_wrapped_to_zero_returns_free_block
    (fuel : nat) (s : state) (l1 l2 : list blk) (fl : list Z) (f sz n : Z) :
  wf s (l1 ++ [mkBlk f sz false] ++ l2) (f :: fl) ->
  request_size n = 0 -> (0 < fuel)%nat ->
  exists s',
    mm_malloc fuel s n = Done (s', payload_of f) /\
    head s' = f /\
    is_allocated (heap s') f = false /\ get_size (heap s') f = sz /\
    (forall c, In c l1 -> b_end c = f -> load64 (heap s') (b_footer c) = 0) /\
    exists s'', mm_malloc fuel s' n = Done (s'', payload_of f).
Proof.
  intros Hwf Hn Hfuel.
  pose proof (fit_geometry s l1 l2 [] fl f sz Hwf)
    as [_ [_ [G3 [G4 [G5 [G6 [G7 [G8 G9]]]]]]]].
  pose proof (fit_removed s l1 l2 [] fl f sz Hwf) as [R1 [_ [_ [_ R5]]]].
  cbn [app] in R1.
  pose proof (fit_rest_outside s l1 l2 [] fl f sz Hwf) as Hfar. cbn [app] in Hfar.
  pose proof Hwf as [Hrep [Hh _ _ _]]. cbn [hd] in Hh.
  set (s1 := remove_block s f) in *.
  set (s2 := if f =? mm_heap_last s1 then with_last s1 f else s1).
  assert (E2 : heap s2 = heap s1 /\ head s2 = head s1)
    by (unfold s2; destruct (f =? mm_heap_last s1); split; reflexivity).
  destruct E2 as [E2 E2h].
  set (m1 := set_header (heap s1) f 0 true).
  set (m2 := set_header m1 f sz false).
  set (s3 := with_heap (with_heap s2 m1) m2).
  assert (E : mm_malloc fuel s n = Done (add_block s3 f, payload_of f)).
  { destruct fuel as [|k]; [lia|].
    unfold mm_malloc, find_fit. rewrite Hn. cbn [find_fit_from]. rewrite Hh.
    replace (f =? NULL) with false by (symmetry; apply Z.eqb_neq; unfold NULL; lia).
    pose proof (get_size_block s _ Hrep (mkBlk f sz false)) as Hg.
    cbn [b_addr b_size] in Hg. rewrite Hg by (apply in_or_app; right; left; reflexivity).
    replace (0 <=? sz) with true by (symmetry; apply Z.leb_le; lia).
    cbv beta iota.
    replace (f =? NULL) with false by (symmetry; apply Z.eqb_neq; unfold NULL; lia).
    cbn [negb]. cbv beta iota zeta. fold s1. rewrite R5.
    replace (Word.wrap (Word.wrap (SIZEOF_BLOCK + 0) + SIZEOF_FOOTER) <? sz) with true
      by (symmetry; apply Z.ltb_lt; vm_compute (Word.wrap _); lia).
    unfold split_helper. rewrite Z.add_0_r, Z.sub_0_r.
    rewrite (Word.wrap_small sz) by layout_lia.
    fold s2. rewrite E2. reflexivity. }
  assert (Hclear : forall y, f - 8 <= y < f + 8 ->
            ~ (f + 8 <= y < f + 24 \/
               (head s3 <> NULL /\ head s3 + 8 <= y < head s3 + 16))).
  { intros y Hy [Hl|[Hne Hl]]; [lia|].
    assert (Hs3 : head s3 = hd NULL fl) by (cbn [s3 head with_heap]; congruence).
    rewrite Hs3 in Hne, Hl.
    assert (Hin : In (hd NULL fl) fl) by (apply hd_in; assumption).
    destruct (Hfar _ Hin) as [_ [[H|H] _]]; lia. }
  assert (Ehdr : load64 (heap (add_block s3 f)) f = load64 m2 f).
  { apply (unchanged_load64 _ _ _ _ (add_block_footprint s3 f)).
    intros y Hy. apply Hclear. lia. }
  assert (Eftr : load64 (heap (add_block s3 f)) (f - 8) = 0).
  { rewrite (unchanged_load64 _ _ _ _ (add_block_footprint s3 f))
      by (intros y Hy; apply Hclear; lia).
    change (heap s3) with m2. unfold m2.
    rewrite (MemFacts.load64_ext _ m1).
    - unfold m1, set_header. rewrite Z.add_0_r.
      rewrite (Word.wrap_small (f - SIZEOF_FOOTER)) by layout_lia.
      change (f - SIZEOF_FOOTER) with (f - 8).
      apply MemFacts.load64_store64_same_small.
      change Word.modulus with 18446744073709551616. lia.
    - intros y Hy. apply set_header_outside; [lia|].
      rewrite Word.wrap_small by layout_lia. unfold SIZEOF_FOOTER. lia. }
  assert (Hev : sz mod 2 = 0) by lia.
  assert (Hr : 16 <= sz < Word.modulus) by layout_lia.
  assert (Hf : 0 <= f < Word.modulus) by layout_lia.
  assert (Egs : get_size (heap (add_block s3 f)) f = sz).
  { unfold get_size. rewrite Ehdr.
    change (Z.land (load64 m2 f) (Word.wrap (Z.lnot 1))) with (get_size m2 f).
    unfold m2. apply set_header_get_size; assumption. }
  exists (add_block s3 f). split; [exact E|].
  assert (Ehead : head (add_block s3 f) = f)
    by (unfold add_block; destruct (head s3 =? NULL); reflexivity).
  split; [exact Ehead|]. split; [|split; [exact Egs|split]].
  - unfold is_allocated. rewrite Ehdr.
    change (negb (Z.land (load64 m2 f) 1 =? 0)) with (is_allocated m2 f).
    unfold m2. apply set_header_is_allocated; assumption.
  - intros c Hc Hend. unfold b_footer, b_end, SIZEOF_FOOTER in *.
    replace (b_addr c + b_size c - 8) with (f - 8) by lia. exact Eftr.
  - apply mm_malloc_serves_from_head; [exact Ehead | unfold NULL; lia | | assumption].
    rewrite Hn, Egs. lia.
Qed.

Lemma mm_malloc_wrapped_to_zero_returns_free_block_witness :
  exists s',
    mm_malloc 1 ExampleLists.free_last (Word.modulus - 20) = Done (s', payload_of 4168) /\
    head s' = 4168 /\
    is_allocated (heap s') 4168 = false /\ get_size (heap s') 4168 = 32 /\
    (forall c, In c [mkBlk 4104 64 true] -> b_end c = 4168 ->
               load64 (heap s') (b_footer c) = 0) /\
    exists s'', mm_malloc 1 s' (Word.modulus - 20) = Done (s'', payload_of 4168).
Proof.
  apply (mm_malloc_wrapped_to_zero_returns_free_block 1 ExampleLists.free_last
           [mkBlk 4104 64 true] [] [] 4168 32 (Word.modulus - 20)).
  - exact ExampleLists.free_last_wf.
  - vm_compute. reflexivity.
  - lia.
Defined.

(** ** Release as a function on the block sequence *)

(** Size of the free block that ends [l1], if the last block of [l1] is
    free (0 otherwise), and [l1] without it. *)
Definition prev_free (l1 : list blk) : Z :=
  match rev l1 with
  | c :: _ => if b_alloc c then 0 else b_size c
  | [] => 0
  end.

Definition keep_prev (l1 : list blk) : list blk :=
  match rev l1 with
  | c :: r => if b_alloc c then l1 else rev r
  | [] => []
  end.

(** The same for the block that starts [l2]. *)
Definition next_free (l2 : list blk) : Z :=
  match l2 with
  | c :: _ => if b_alloc c then 0 else b_size c
  | [] => 0
  end.

Definition keep_next (l2 : list blk) : list blk :=
  match l2 with
  | c :: r => if b_alloc c then l2 else r
  | [] => []
  end.

(** The block sequence after the block [b] of size [sz] between [l1] and
    [l2] is released and merged with its free neighbours. *)
Definition released (l1 : list blk) (b sz : Z) (l2 : list blk) : list blk :=
  keep_prev l1
  ++ [mkBlk (b - prev_free l1) (prev_free l1 + sz + next_free l2) false]
  ++ keep_next l2.

Section Released.

Lemma prev_snoc l c :
  prev_free (l ++ [c]) = (if b_alloc c then 0 else b_size c) /\
  keep_prev (l ++ [c]) = (if b_alloc c then l ++ [c] else l).
Proof.
  unfold prev_free, keep_prev. rewrite rev_unit.
  destruct (b_alloc c); split; try reflexivity. apply rev_involutive.
Qed.

Lemma prev_allocated l1 :
  (forall l1' c, l1 = l1' ++ [c] -> b_alloc c = true) ->
  prev_free l1 = 0 /\ keep_prev l1 = l1.
Proof.
  intros H. destruct (list_snoc_cases l1) as [->|[l1' [c ->]]].
  - split; reflexivity.
  - destruct (prev_snoc l1' c) as [E1 E2]. rewrite E1, E2.
    rewrite (H l1' c eq_refl). split; reflexivity.
Qed.

Lemma next_allocated l2 :
  (forall c l2', l2 = c :: l2' -> b_alloc c = true) ->
  next_free l2 = 0 /\ keep_next l2 = l2.
Proof.
  intros H. destruct l2 as [|c l2']; [split; reflexivity|].
  unfold next_free, keep_next. rewrite (H c l2' eq_refl). split; reflexivity.
Qed.

Lemma free_spec_released s l1 b sz l2 fl l' fl' :
  heap_rep s (l1 ++ [mkBlk b sz true] ++ l2) ->
  free_spec l1 b sz l2 fl l' fl' -> l' = released l1 b sz l2.
Proof.
  intros Hrep H. unfold released.
  assert (Hadj : forall l1' p szp, l1 = l1' ++ [mkBlk p szp false] -> p = b - szp).
  { intros l1' p szp E. subst l1. destruct Hrep as [_ _ _ _ _ Hc _ _].
    rewrite <- app_assoc in Hc. apply chain_split in Hc. destruct Hc as [_ Hc].
    cbn [app chain] in Hc. destruct Hc as [Hc _]. unfold b_end in Hc. simpl in Hc. lia. }
  destruct H as [l1' p szp n szn l2' flA flB E1 E2 _ | l1' p szp E1 Hn
                 | n szn l2' flA flB Hp E2 _ | Hp Hn].
  - pose proof (Hadj l1' p szp E1) as Ep. subst p. subst l1 l2.
    destruct (prev_snoc l1' (mkBlk (b - szp) szp false)) as [-> ->]. reflexivity.
  - pose proof (Hadj l1' p szp E1) as Ep. subst p. subst l1.
    destruct (prev_snoc l1' (mkBlk (b - szp) szp false)) as [-> ->].
    destruct (next_allocated l2 Hn) as [-> ->]. cbn [b_alloc b_size].
    replace (szp + sz + 0) with (szp + sz) by lia. reflexivity.
  - subst l2. destruct (prev_allocated l1 Hp) as [-> ->]. cbn [next_free keep_next b_alloc b_size].
    replace (b - 0) with b by lia. replace (0 + sz + szn) with (sz + szn) by lia.
    reflexivity.
  - destruct (prev_allocated l1 Hp) as [-> ->].
    destruct (next_allocated l2 Hn) as [-> ->].
    replace (b - 0) with b by lia. replace (0 + sz + 0) with sz by lia. reflexivity.
Qed.

End Released.

(** [mm_free] of an allocated block of at least 32 bytes, as a function on
    the block sequence of a well-formed heap: the released block is merged
    with the free blocks that precede and follow it physically; the
    resulting free block starts at the free predecessor (if any), its size is
    the sum of the merged sizes, it is on the free list, and the free list has
    no new member besides it.  (A 16-byte block, as [mm_malloc(0)] creates
    it, has no room for the list links: its release is not covered.) *)
Theorem mm_free_merges_with_free_neighbours
    (s : state) (l1 l2 : list blk) (fl : list Z) (b sz : Z) :
  wf s (l1 ++ [mkBlk b sz true] ++ l2) fl -> MIN_BLOCK_SIZE <= sz ->
  exists fl',
    wf (mm_free s (payload_of b)) (released l1 b sz l2) fl' /\
    In (b - prev_free l1) fl' /\
    (forall f, In f fl' -> f = b - prev_free l1 \/ In f fl).
Proof.
  intros Hwf Hsz. pose proof Hwf as [Hrep _].
  destruct (mm_free_correct s l1 l2 fl b sz Hwf Hsz) as [l' [fl' [Hspec [Hwf' _]]]].
  pose proof (free_spec_released s l1 b sz l2 fl l' fl' Hrep Hspec) as El.
  exists fl'. rewrite <- El. split; [assumption|].
  split.
  - destruct Hwf' as [_ [_ _ _ Hm]]. apply Hm.
    exists (prev_free l1 + sz + next_free l2). rewrite El. unfold released.
    apply in_or_app. right. left. reflexivity.
  - clear El. intros f Hf.
    destruct Hspec as [l1' p szp n szn l2' flA flB E1 E2 E3 | l1' p szp E1 Hn
                       | n szn l2' flA flB Hp E2 E3 | Hp Hn].
    + right. subst fl. apply in_app_or in Hf. apply in_or_app.
      destruct Hf; [left | right; right]; assumption.
    + right. assumption.
    + destruct (prev_allocated l1 Hp) as [-> _]. destruct Hf as [<-|Hf]; [left; lia|].
      right. subst fl. apply in_app_or in Hf. apply in_or_app.
      destruct Hf; [left | right; right]; assumption.
    + destruct (prev_allocated l1 Hp) as [-> _]. destruct Hf as [<-|Hf]; [left; lia|].
      right. assumption.
Qed.

Lemma mm_free_merges_with_free_neighbours_witness :
  exists fl',
    wf (mm_free Examples.one_free (payload_of 4168))
       (released [mkBlk 4104 64 false] 4168 32 []) fl' /\
    In (4168 - prev_free [mkBlk 4104 64 false]) fl' /\
    (forall f, In f fl' ->
               f = 4168 - prev_free [mkBlk 4104 64 false] \/
               In f Examples.one_free_list).
Proof.
  apply (mm_free_merges_with_free_neighbours Examples.one_free
           [mkBlk 4104 64 false] [] Examples.one_free_list 4168 32).
  - exact Examples.one_free_wf.
  - vm_compute. congruence.
Defined.

Section ReallocContents.

Variables (fuel : nat) (s : state) (l1 l2 : list blk) (fl : list Z) (b sz n : Z).
Hypothesis Hwf : wf s (l1 ++ [mkBlk b sz true] ++ l2) fl.
Hypothesis Hsz : MIN_BLOCK_SIZE <= sz.
Hypothesis Hreq : request_ok n.
Hypothesis Hpos : 0 < n.
Hypothesis Hfuel : (length fl < fuel)%nat.

Lemma mm_realloc_moves :
  forall s1 q l' fl',
    mm_malloc fuel s n = Done (s1, q) ->
    malloc_spec s (l1 ++ [mkBlk b sz true] ++ l2) fl (need_of n) s1 q l' fl' ->
    wf s1 l' fl' -> q <> NULL ->
    exists s' la lb c l'' fl'',
      mm_realloc fuel s (payload_of b) n = Done (s', q) /\
      l' = la ++ [mkBlk b sz true] ++ lb /\
      In c (la ++ lb) /\ b_alloc c = true /\ q = payload_of (b_addr c) /\
      q + n <= b_footer c /\
      free_spec la b sz lb fl' l'' fl'' /\ wf s' l'' fl'' /\
      (forall i, 0 <= i < Z.min n (sz - 16) ->
                 heap s' (q + i) = heap s (payload_of b + i)).
Proof.
  intros s1 q l' fl' E Hspec Hwf1 Hq.
  pose proof Hwf as [Hrep _]. pose proof Hwf1 as [Hrep1 _].
  destruct (need_of_facts n (proj1 Hreq)) as [Nal [Hlo _]]. pose proof Hreq as [Hn0 _].
  assert (Hn16 : 16 <= need_of n) by lia.
  assert (HB : In (mkBlk b sz true) (l1 ++ [mkBlk b sz true] ++ l2))
    by (apply in_or_app; right; left; reflexivity).
  assert (HB1 : In (mkBlk b sz true) l')
    by (apply (malloc_spec_persist _ _ _ _ _ _ _ _ Hspec _ HB); reflexivity).
  destruct (in_split _ _ HB1) as [la [lb El]].
  change (la ++ mkBlk b sz true :: lb) with (la ++ [mkBlk b sz true] ++ lb) in El.
  destruct (malloc_spec_new_block _ _ _ _ _ _ _ _ Hrep Hn16 Hspec)
    as [[Hnull _]|[c [Hc [Hal [Hqc [Hcs [_ [_ Hfresh]]]]]]]]; [contradiction|].
  assert (Hcb : b_addr c <> b).
  { intros Eb. apply (Hfresh (mkBlk b sz true) HB eq_refl). simpl. congruence. }
  assert (Hc' : In c (la ++ lb)).
  { rewrite El in Hc. apply in_app_or in Hc. apply in_or_app.
    destruct Hc as [Hc|[Hc|Hc]]; [left; assumption | | right; assumption].
    subst c. simpl in Hcb. congruence. }
  subst l'.
  destruct (block_geometry s1 la _ lb Hrep1) as [_ [_ [Hb8 _]]]. simpl in Hb8.
  assert (Hg : get_size (heap s1) b = sz).
  { apply (get_size_block s1 _ Hrep1 (mkBlk b sz true)).
    apply in_or_app. right. left. reflexivity. }
  assert (Hlen : realloc_copy_length (heap s1) (payload_of b) n = Z.min n sz).
  { unfold realloc_copy_length.
    replace (block_from_payload (payload_of b)) with b
      by (unfold block_from_payload, payload_of; lia).
    rewrite Hg. destruct (n <? sz) eqn:Elt;
      [apply Z.ltb_lt in Elt | apply Z.ltb_ge in Elt]; lia. }
  set (s2 := with_heap s1 (memcpy (heap s1) q (payload_of b) (Z.min n sz))).
  assert (Hwf2 : wf s2 (la ++ [mkBlk b sz true] ++ lb) fl').
  { apply wf_frame_payload; [assumption|].
    apply unchanged_memcpy. intros y Hy. exists c.
    split; [apply in_or_app; apply in_app_or in Hc'; destruct Hc';
            [left | right; right]; assumption|].
    split; [assumption|].
    subst q. unfold payload_of, b_footer in *. layout_lia. }
  destruct (mm_free_footprint s2 la lb fl' b sz Hwf2 Hsz) as [l'' [fl'' [Hfs [Hwf' Hu]]]].
  exists (mm_free s2 (payload_of b)), la, lb, c, l'', fl''.
  split.
  { unfold mm_realloc. rewrite E.
    replace (payload_of b =? NULL) with false
      by (symmetry; apply Z.eqb_neq; unfold payload_of; layout_lia).
    replace (n =? 0) with false by (symmetry; apply Z.eqb_neq; lia).
    rewrite Hlen.
    replace (q =? NULL) with false by (symmetry; apply Z.eqb_neq; assumption).
    reflexivity. }
  split; [reflexivity|]. split; [assumption|]. split; [assumption|].
  split; [assumption|].
  split; [subst q; unfold payload_of, b_footer; layout_lia|].
  split; [assumption|]. split; [assumption|].
  intros i Hi.
  assert (Hc'' : In c l'') by (apply (free_spec_persist la lb fl' b sz l'' fl'' Hfs); assumption).
  assert (Hin : b_addr c + SIZEOF_BLOCK <= q + i < b_footer c).
  { subst q. unfold payload_of, b_footer. layout_lia. }
  rewrite Hu.
  - unfold s2. cbn [heap with_heap].
    rewrite MemFacts.memcpy_inside by lia.
    replace (payload_of b + (q + i - q)) with (payload_of b + i) by lia.
    apply (malloc_spec_footprint _ _ _ _ _ _ _ _ Hwf Nal Hn16 Hspec).
    destruct (block_facts s _ Hrep _ HB) as [_ [_ [Hend _]]].
    unfold b_end in Hend. simpl in Hend.
    intros [[d [Hd [Hdal Hdy]]]|Hbrk]; [|unfold payload_of in Hbrk; layout_lia].
    destruct Hrep as [_ _ _ _ _ Hch Hs _].
    destruct (chain_disjoint _ _ _ _ _ Hch Hs HB Hd) as [Ed|[Ed|Ed]].
    + subst d. discriminate.
    + unfold b_end, payload_of in *. simpl in *. layout_lia.
    + unfold b_end, payload_of in *. simpl in *. layout_lia.
  - pose proof Hwf' as [[_ _ _ _ _ Hch Hs _] _].
    intros [Ht|[d [Hd [Hdal Hdy]]]].
    + apply (payload_not_tag _ _ l'' Hch Hs (q + i)); [|assumption].
      exists c. split; assumption.
    + pose proof (proj1 (Forall_forall _ _) Hs c Hc'') as Hsc. apply size_ok_pos in Hsc.
      pose proof (proj1 (Forall_forall _ _) Hs d Hd) as Hsd. apply size_ok_pos in Hsd.
      destruct (chain_disjoint _ _ _ _ _ Hch Hs Hc'' Hd) as [Ed|[Ed|Ed]].
      * subst d. congruence.
      * unfold b_end, b_footer in *. layout_lia.
      * unfold b_end, b_footer in *. layout_lia.
Qed.

End ReallocContents.

(** The request can be served: a free block is large enough or the region
    can grow by the block size. *)
Definition can_serve (s : state) (l : list blk) (need : Z) : Prop :=
  (exists c, In c l /\ b_alloc c = false /\ need <= b_size c) \/
  mem_brk s + need <= mem_max_addr s.

Lemma mm_malloc_succeeds fuel s l fl n :
  wf s l fl -> request_ok n -> (length fl < fuel)%nat ->
  can_serve s l (need_of n) ->
  exists s1 q l' fl',
    mm_malloc fuel s n = Done (s1, q) /\
    malloc_spec s l fl (need_of n) s1 q l' fl' /\ wf s1 l' fl' /\ q <> NULL.
Proof.
  intros Hwf Hreq Hfuel Hcan. pose proof Hwf as [Hrep [_ _ _ Hm]].
  destruct (mm_malloc_correct fuel s l fl n Hwf Hreq Hfuel)
    as [s1 [q [l' [fl' [E [Hspec Hwf1]]]]]].
  exists s1, q, l', fl'. do 3 (split; [assumption|]).
  intros ->. destruct (malloc_spec_null s l fl _ s1 l' fl' Hrep Hspec) as [Hsm Hroom].
  destruct Hcan as [[c [Hc [Hal Hle]]]|Hgrow]; [|lia].
  destruct c as [a sz al]. simpl in Hal, Hle. subst al.
  assert (Hin : In a fl) by (apply Hm; exists sz; assumption).
  pose proof (get_size_block s l Hrep _ Hc) as Hg. simpl in Hg.
  specialize (Hsm a Hin). lia.
Qed.

(** [mm_realloc(p, n)] on a well-formed heap, with [0 < n], [n + 31 < 2^64],
    [p] the payload of an allocated block of at least 32 bytes, and a
    replacement at hand (a free block of at least the new block size, or
    room to grow the region by it): the call returns in a well-formed heap a
    non-null payload of an allocated block with room for [n] bytes, whose
    first [min(n, capacity of the old block)] bytes equal the bytes of the
    old payload before the call. *)
Theorem mm_realloc_preserves_contents
    (fuel : nat) (s : state) (l1 l2 : list blk) (fl : list Z) (b sz n : Z) :
  wf s (l1 ++ [mkBlk b sz true] ++ l2) fl -> MIN_BLOCK_SIZE <= sz ->
  request_ok n -> 0 < n -> (length fl < fuel)%nat ->
  can_serve s (l1 ++ [mkBlk b sz true] ++ l2) (need_of n) ->
  exists s' q l' fl',
    mm_realloc fuel s (payload_of b) n = Done (s', q) /\
    wf s' l' fl' /\ q <> NULL /\
    (exists c, In c l' /\ b_alloc c = true /\ q = payload_of (b_addr c) /\
               q + n <= b_footer c) /\
    (forall i, 0 <= i < Z.min n (sz - (SIZEOF_BLOCK + SIZEOF_FOOTER)) ->
               heap s' (q + i) = heap s (payload_of b + i)).
Proof.
  intros Hwf Hsz Hreq Hpos Hfuel Hcan.
  destruct (mm_malloc_succeeds fuel s _ fl n Hwf Hreq Hfuel Hcan)
    as [s1 [q [l' [fl' [E [Hspec [Hwf1 Hq]]]]]]].
  destruct (mm_realloc_moves fuel s l1 l2 fl b sz n Hwf Hsz Hreq Hpos Hfuel
              s1 q l' fl' E Hspec Hwf1 Hq)
    as [s' [la [lb [c [l'' [fl'' [Er [El [Hc [Hal [Hqc [Hfit [Hfs [Hwf' Hdata]]]]]]]]]]]]]].
  exists s', q, l'', fl''. do 3 (split; [assumption|]). split.
  - exists c. split; [|auto].
    apply (free_spec_persist la lb fl' b sz l'' fl'' Hfs); assumption.
  - exact Hdata.
Qed.

Lemma mm_realloc_preserves_contents_witness :
  exists s' q l' fl',
    mm_realloc 1 Examples.two_allocated (payload_of 4104) 8 = Done (s', q) /\
    wf s' l' fl' /\ q <> NULL /\
    (exists c, In c l' /\ b_alloc c = true /\ q = payload_of (b_addr c) /\
               q + 8 <= b_footer c) /\
    (forall i, 0 <= i < Z.min 8 (64 - (SIZEOF_BLOCK + SIZEOF_FOOTER)) ->
               heap s' (q + i) = heap Examples.two_allocated (payload_of 4104 + i)).
Proof.
  apply (mm_realloc_preserves_contents 1 Examples.two_allocated
           [] [mkBlk 4168 32 true] [] 4104 64 8).
  - exact Examples.two_allocated_wf.
  - vm_compute. congruence.
  - exact ExampleLists.request_8.
  - lia.
  - simpl. lia.
  - right. vm_compute. congruence.
Defined.

(** Under the same conditions ([0 < n], [n + 31 < 2^64], an allocated block
    of at least 32 bytes, a replacement at hand), [mm_realloc(p, n)] does not
    resize in place: the result differs from [p], and the old block is
    released (its bytes lie in a free block afterwards). *)
Theorem mm_realloc_never_resizes_in_place
    (fuel : nat) (s : state) (l1 l2 : list blk) (fl : list Z) (b sz n : Z) :
  wf s (l1 ++ [mkBlk b sz true] ++ l2) fl -> MIN_BLOCK_SIZE <= sz ->
  request_ok n -> 0 < n -> (length fl < fuel)%nat ->
  can_serve s (l1 ++ [mkBlk b sz true] ++ l2) (need_of n) ->
  exists s' q l' fl',
    mm_realloc fuel s (payload_of b) n = Done (s', q) /\
    wf s' l' fl' /\ q <> payload_of b /\
    exists d, In d l' /\ b_alloc d = false /\ b_addr d <= b /\ b + sz <= b_end d.
Proof.
  intros Hwf Hsz Hreq Hpos Hfuel Hcan.
  destruct (mm_malloc_succeeds fuel s _ fl n Hwf Hreq Hfuel Hcan)
    as [s1 [q [l' [fl' [E [Hspec [Hwf1 Hq]]]]]]].
  destruct (mm_realloc_moves fuel s l1 l2 fl b sz n Hwf Hsz Hreq Hpos Hfuel
              s1 q l' fl' E Hspec Hwf1 Hq)
    as [s' [la [lb [c [l'' [fl'' [Er [El [Hc [Hal [Hqc [Hfit [Hfs [Hwf' Hdata]]]]]]]]]]]]]].
  exists s', q, l'', fl''. do 2 (split; [assumption|]). split.
  - subst l'. pose proof Hwf1 as [[_ _ _ _ _ Hch Hs _] _].
    assert (HB : In (mkBlk b sz true) (la ++ [mkBlk b sz true] ++ lb))
      by (apply in_or_app; right; left; reflexivity).
    assert (Hc1 : In c (la ++ [mkBlk b sz true] ++ lb)).
    { apply in_app_or in Hc. apply in_or_app. destruct Hc; [left | right; right]; assumption. }
    intros Eq. rewrite Hqc in Eq. apply payload_of_inj in Eq.
    assert (Ec : c = mkBlk b sz true) by (apply (chain_addr_inj _ _ _ _ _ Hch Hs Hc1 HB Eq)).
    subst c.
    apply in_app_or in Hc.
    destruct (split_bounds _ _ _ _ _ Hch Hs) as [G1 [G2 _]].
    destruct Hc as [Hc|Hc]; [destruct (G1 _ Hc) as [_ [? ?]] | destruct (G2 _ Hc) as [? [? _]]];
      unfold b_end in *; simpl in *; lia.
  - subst l'. pose proof Hwf1 as [Hrep1 _].
    rewrite (free_spec_released s1 la b sz lb fl' l'' fl'' Hrep1 Hfs).
    exists (mkBlk (b - prev_free la) (prev_free la + sz + next_free lb) false).
    split; [unfold released; apply in_or_app; right; left; reflexivity|].
    split; [reflexivity|].
    assert (Hpf : 0 <= prev_free la).
    { unfold prev_free. destruct (rev la) as [|d r] eqn:Er'; [lia|].
      destruct (b_alloc d); [lia|].
      assert (Hd : In d (la ++ [mkBlk b sz true] ++ lb)).
      { apply in_or_app. left. apply in_rev. rewrite Er'. left. reflexivity. }
      destruct (block_size_range s1 _ Hrep1 d Hd). lia. }
    assert (Hnf : 0 <= next_free lb).
    { unfold next_free. destruct lb as [|d r]; [lia|].
      destruct (b_alloc d); [lia|].
      assert (Hd : In d (la ++ [mkBlk b sz true] ++ d :: r)).
      { apply in_or_app. right. right. left. reflexivity. }
      destruct (block_size_range s1 _ Hrep1 d Hd). lia. }
    unfold b_end. simpl. lia.
Qed.

Lemma mm_realloc_never_resizes_in_place_witness :
  exists s' q l' fl',
    mm_realloc 1 Examples.two_allocated (payload_of 4104) 8 = Done (s', q) /\
    wf s' l' fl' /\ q <> payload_of 4104 /\
    exists d, In d l' /\ b_alloc d = false /\ b_addr d <= 4104 /\ 4104 + 64 <= b_end d.
Proof.
  apply (mm_realloc_never_resizes_in_place 1 Examples.two_allocated
           [] [mkBlk 4168 32 true] [] 4104 64 8).
  - exact Examples.two_allocated_wf.
  - vm_compute. congruence.
  - exact ExampleLists.request_8.
  - lia.
  - simpl. lia.
  - right. vm_compute. congruence.
Defined.

Section Neighbours.

Lemma prev_not_free l1 :
  free_at_end l1 = false -> prev_free l1 = 0 /\ keep_prev l1 = l1.
Proof.
  intros H. apply prev_allocated. intros l1' c ->.
  rewrite free_at_end_app in H. simpl in H. destruct (b_alloc c); [reflexivity | discriminate].
Qed.

Lemma next_not_free l2 :
  free_at_start l2 = false -> next_free l2 = 0 /\ keep_next l2 = l2.
Proof.
  intros H. apply next_allocated. intros c l2' ->.
  simpl in H. destruct (b_alloc c); [reflexivity | discriminate].
Qed.

Lemma free_block_neighbours l1 x sz l2 :
  no_adjacent_free (l1 ++ [mkBlk x sz false] ++ l2) ->
  free_at_end l1 = false /\ free_at_start l2 = false.
Proof.
  unfold no_adjacent_free. rewrite adjacent_free_mid by discriminate. simpl.
  destruct (adjacent_free l1), (adjacent_free l2), (free_at_end l1), (free_at_start l2);
    simpl; intros H; try discriminate; split; reflexivity.
Qed.

End Neighbours.

(** The free list is LIFO: on a well-formed heap, after [mm_free(p)] of an
    allocated block of at least 32 bytes whose physical predecessor is not
    free, the next [mm_malloc] whose block size fits in the released block
    returns [p] again. *)
Theorem mm_free_then_malloc_reuses_block
    (fuel : nat) (s : state) (l1 l2 : list blk) (fl : list Z) (b sz n : Z) :
  wf s (l1 ++ [mkBlk b sz true] ++ l2) fl -> MIN_BLOCK_SIZE <= sz ->
  free_at_end l1 = false ->
  0 <= n -> need_of n <= sz -> (S (length fl) < fuel)%nat ->
  exists s' l' fl',
    mm_malloc fuel (mm_free s (payload_of b)) n = Done (s', payload_of b) /\
    wf s' l' fl'.
Proof.
  intros Hwf Hsz Hprev Hn Hfit Hfuel. pose proof Hwf as [Hrep _].
  destruct (mm_free_correct s l1 l2 fl b sz Hwf Hsz) as [l' [fl' [Hspec [Hwf' _]]]].
  destruct (prev_not_free l1 Hprev) as [Hpf _].
  assert (Hhead : exists rest sz', fl' = [] ++ b :: rest /\ In (mkBlk b sz' false) l' /\
                                   sz <= sz' /\ (length rest <= length fl)%nat).
  { destruct Hspec as [l1' p szp nx szn l2' flA flB E1 E2 _ | l1' p szp E1 _
                       | nx szn l2' flA flB _ E2 E3 | _ _].
    - exfalso. subst l1. destruct (prev_snoc l1' (mkBlk p szp false)) as [E _].
      rewrite E in Hpf. simpl in Hpf.
      assert (Hin : In (mkBlk p szp false)
                       ((l1' ++ [mkBlk p szp false]) ++ [mkBlk b sz true] ++ l2)).
      { apply in_or_app. left. apply in_or_app. right. left. reflexivity. }
      destruct (block_size_range s _ Hrep _ Hin) as [H16 _]. simpl in H16. lia.
    - exfalso. subst l1. destruct (prev_snoc l1' (mkBlk p szp false)) as [E _].
      rewrite E in Hpf. simpl in Hpf.
      assert (Hin : In (mkBlk p szp false)
                       ((l1' ++ [mkBlk p szp false]) ++ [mkBlk b sz true] ++ l2)).
      { apply in_or_app. left. apply in_or_app. right. left. reflexivity. }
      destruct (block_size_range s _ Hrep _ Hin) as [H16 _]. simpl in H16. lia.
    - exists (flA ++ flB), (sz + szn).
      split; [reflexivity|]. split; [apply in_or_app; right; left; reflexivity|].
      assert (Hin : In (mkBlk nx szn false) (l1 ++ [mkBlk b sz true] ++ l2)).
      { subst l2. apply in_or_app. right. right. left. reflexivity. }
      destruct (block_size_range s _ Hrep _ Hin) as [H16 _]. simpl in H16.
      split; [lia|]. subst fl. rewrite !length_app. simpl. lia.
    - exists fl, sz. split; [reflexivity|].
      split; [apply in_or_app; right; left; reflexivity|]. split; lia. }
  destruct Hhead as [rest [sz' [Efl [Hin [Hle Hlen]]]]].
  destruct (first_fit_placement_at fuel (mm_free s (payload_of b)) l' fl' n
              [] b rest sz' Hwf' Hn) as [s' [l'' [fl'' [sz'' [E [Hwf'' _]]]]]].
  - rewrite Efl. simpl. simpl in Hlen. lia.
  - assumption.
  - assumption.
  - lia.
  - intros f szf [].
  - exists s', l'', fl''. split; assumption.
Qed.

Lemma mm_free_then_malloc_reuses_block_witness :
  exists s' l' fl',
    mm_malloc 2 (mm_free Examples.two_allocated (payload_of 4104)) 8
    = Done (s', payload_of 4104) /\
    wf s' l' fl'.
Proof.
  apply (mm_free_then_malloc_reuses_block 2 Examples.two_allocated
           [] [mkBlk 4168 32 true] [] 4104 64 8).
  - exact Examples.two_allocated_wf.
  - vm_compute. congruence.
  - reflexivity.
  - lia.
  - vm_compute. congruence.
  - simpl. lia.
Defined.

(** On a well-formed heap without adjacent free blocks, for a request with
    [0 < n] and [n + 31 < 2^64]: an allocation served from the free list
    followed by the release of its result restores the block sequence: same
    blocks, sizes and allocation states, same members on the free list
    (possibly in another order), same break. *)
Theorem malloc_then_free_restores_blocks
    (fuel : nat) (s : state) (l : list blk) (fl : list Z) (n : Z) :
  wf s l fl -> no_adjacent_free l -> request_ok n -> 0 < n ->
  (length fl < fuel)%nat ->
  (exists c, In c l /\ b_alloc c = false /\ need_of n <= b_size c) ->
  exists s1 p fl',
    mm_malloc fuel s n = Done (s1, p) /\ p <> NULL /\
    wf (mm_free s1 p) l fl' /\
    (forall f, In f fl' <-> In f fl) /\
    mem_brk (mm_free s1 p) = mem_brk s.
Proof.
  intros Hwf Hadj Hreq Hpos Hfuel Hfree.
  destruct (mm_malloc_succeeds fuel s l fl n Hwf Hreq Hfuel (or_introl Hfree))
    as [s1 [p [l' [fl' [E [Hspec [Hwf1 Hp]]]]]]].
  destruct (need_of_facts n (proj1 Hreq)) as [Nal [Hlo _]].
  assert (Hmem : forall fl'', wf (mm_free s1 p) l fl'' -> forall f, In f fl'' <-> In f fl).
  { intros fl'' [_ [_ _ _ Hm']] f. destruct Hwf as [_ [_ _ _ Hm]].
    rewrite Hm', Hm. tauto. }
  assert (Hsmall : (forall f, In f fl -> get_size (heap s) f < need_of n) -> False).
  { intros Hsm. destruct Hfree as [[a sz al] [Hc [Hal Hle]]]. simpl in Hal, Hle. subst al.
    destruct Hwf as [Hrep [_ _ _ Hm]].
    assert (Hin : In a fl) by (apply Hm; exists sz; assumption).
    pose proof (get_size_block s l Hrep _ Hc) as Hg. simpl in Hg.
    specialize (Hsm a Hin). lia. }
  destruct Hspec as [l1 l2 fl1 fl2 x sz El Efl _ Hsz | l1 l2 fl1 fl2 x sz El Efl _ Hsz
                     | Hsm _ | Hsm _]; [| |contradiction|contradiction].
  - subst l. destruct (free_block_neighbours l1 x sz l2 Hadj) as [Hpv Hnx].
    destruct (prev_not_free l1 Hpv) as [P1 P2]. destruct (next_not_free l2 Hnx) as [N1 N2].
    assert (Hx32 : MIN_BLOCK_SIZE <= sz) by (unfold MIN_BLOCK_SIZE; lia).
    destruct (mm_free_correct _ l1 l2 _ x sz Hwf1 Hx32) as [l'' [fl'' [Hfs [Hwf' _]]]].
    pose proof Hwf1 as [Hrep1 _].
    rewrite (free_spec_released _ l1 x sz l2 _ l'' fl'' Hrep1 Hfs) in Hwf'.
    unfold released in Hwf'. rewrite P1, P2, N1, N2 in Hwf'.
    replace (x - 0) with x in Hwf' by lia. replace (0 + sz + 0) with sz in Hwf' by lia.
    exists (whole_state s x sz), (payload_of x), fl''.
    split; [assumption|]. split; [assumption|]. split; [assumption|].
    split; [apply Hmem; assumption|].
    rewrite (proj1 (mm_free_region _ _)). apply place_region. exact 0.
  - subst l. destruct (free_block_neighbours l1 x sz l2 Hadj) as [Hpv Hnx].
    destruct (prev_not_free l1 Hpv) as [P1 P2].
    assert (Hx32 : MIN_BLOCK_SIZE <= need_of n) by (unfold MIN_BLOCK_SIZE; lia).
    change (l1 ++ [mkBlk x (need_of n) true; mkBlk (x + need_of n) (sz - need_of n) false]
               ++ l2)
      with (l1 ++ [mkBlk x (need_of n) true]
               ++ (mkBlk (x + need_of n) (sz - need_of n) false :: l2)) in Hwf1.
    destruct (mm_free_correct _ l1 _ _ x (need_of n) Hwf1 Hx32) as [l'' [fl'' [Hfs [Hwf' _]]]].
    pose proof Hwf1 as [Hrep1 _].
    rewrite (free_spec_released _ l1 x (need_of n) _ _ l'' fl'' Hrep1 Hfs) in Hwf'.
    unfold released in Hwf'. rewrite P1, P2 in Hwf'.
    cbn [next_free keep_next b_alloc b_size] in Hwf'.
    replace (x - 0) with x in Hwf' by lia.
    replace (0 + need_of n + (sz - need_of n)) with sz in Hwf' by lia.
    exists (split_state s x sz (need_of n)), (payload_of x), fl''.
    split; [assumption|]. split; [assumption|]. split; [assumption|].
    split; [apply Hmem; assumption|].
    rewrite (proj1 (mm_free_region _ _)). apply place_region.
Qed.

Lemma malloc_then_free_restores_blocks_witness :
  exists s1 p fl',
    mm_malloc 2 Examples.one_free 8 = Done (s1, p) /\ p <> NULL /\
    wf (mm_free s1 p) Examples.one_free_blocks fl' /\
    (forall f, In f fl' <-> In f Examples.one_free_list) /\
    mem_brk (mm_free s1 p) = mem_brk Examples.one_free.
Proof.
  apply (malloc_then_free_restores_blocks 2 Examples.one_free
           Examples.one_free_blocks Examples.one_free_list 8).
  - exact Examples.one_free_wf.
  - reflexivity.
  - exact ExampleLists.request_8.
  - lia.
  - simpl. lia.
  - exists (mkBlk 4104 64 false).
    split; [left; reflexivity|]. split; [reflexivity|]. vm_compute. congruence.
Defined.

(** ** The region *)

Definition region_kept (s s' : state) : Prop :=
  mem_brk s <= mem_brk s' /\ mem_max_addr s' = mem_max_addr s.

Section Region.

Lemma region_kept_refl s : region_kept s s.
Proof. split; [lia | reflexivity]. Qed.

Lemma region_kept_trans s1 s2 s3 :
  region_kept s1 s2 -> region_kept s2 s3 -> region_kept s1 s3.
Proof. intros [A1 A2] [B1 B2]. split; [lia | congruence]. Qed.

Lemma mm_free_region_kept s p : region_kept s (mm_free s p).
Proof.
  destruct (mm_free_region s p) as [E1 E2]. split; [lia | assumption].
Qed.

Lemma split_helper_region s b sp sz ssz :
  mem_brk (split_helper s b sp sz ssz) = mem_brk s /\
  mem_max_addr (split_helper s b sp sz ssz) = mem_max_addr s.
Proof.
  unfold split_helper.
  rewrite (proj1 (add_block_region _ _)), (proj2 (add_block_region _ _)).
  destruct (b =? mm_heap_last s); split; reflexivity.
Qed.

Lemma request_size_nonneg n : 0 <= request_size n.
Proof. unfold request_size, round_up. apply Word.wrap_range. Qed.

Lemma mm_malloc_region_kept fuel s n s' p :
  mm_malloc fuel s n = Done (s', p) -> region_kept s s'.
Proof.
  unfold mm_malloc, region_kept. pose proof (request_size_nonneg n) as Hr.
  destruct (find_fit fuel s (request_size n)) as [blk|]; [|discriminate].
  destruct (negb (blk =? NULL)).
  - intros H. inversion H; subst s' p. clear H.
    destruct (remove_block_region s blk) as [E1 E2].
    destruct (_ <? _).
    + destruct (split_helper_region (remove_block s blk) blk (blk + request_size n)
                  (request_size n)
                  (Word.wrap (get_size (heap (remove_block s blk)) blk - request_size n)))
        as [F1 F2].
      split; [lia | congruence].
    + cbn [mem_brk mem_max_addr with_heap]. split; [lia | assumption].
  - unfold mem_sbrk. destruct (mem_brk s + request_size n <=? mem_max_addr s).
    + destruct (mem_brk s =? SBRK_FAILED).
      * intros H. inversion H; subst s' p. split; cbn [mem_brk mem_max_addr]; [lia | reflexivity].
      * intros H. inversion H; subst s' p.
        destruct (mm_heap_first _ =? NULL); split; cbn; try lia; reflexivity.
    + rewrite Z.eqb_refl. intros H. inversion H; subst s' p. split; [lia | reflexivity].
Qed.

Lemma mm_realloc_region_kept fuel s q n s' p :
  mm_realloc fuel s q n = Done (s', p) -> region_kept s s'.
Proof.
  unfold mm_realloc.
  destruct (mm_malloc fuel s n) as [[s1 q1]| |] eqn:E; try discriminate.
  pose proof (mm_malloc_region_kept _ _ _ _ _ E) as H1.
  destruct (q =? NULL); [intros H; inversion H; subst; assumption|].
  destruct (n =? 0).
  - intros H. inversion H; subst s' p.
    eapply region_kept_trans; [exact H1 | apply mm_free_region_kept].
  - destruct (_ && _); [discriminate|].
    intros H. inversion H; subst s' p.
    eapply region_kept_trans; [exact H1|].
    eapply region_kept_trans; [|apply mm_free_region_kept].
    split; [cbn; lia | reflexivity].
Qed.

Lemma mm_calloc_region_kept fuel s k sz s' p :
  mm_calloc fuel s k sz = Done (s', p) -> region_kept s s'.
Proof.
  unfold mm_calloc.
  destruct (mm_malloc fuel s (Word.wrap (k * sz))) as [[s1 q1]| |] eqn:E; try discriminate.
  pose proof (mm_malloc_region_kept _ _ _ _ _ E) as H1.
  destruct (_ && _); [discriminate|].
  intros H. inversion H; subst s' p.
  eapply region_kept_trans; [exact H1|]. split; [cbn; lia | reflexivity].
Qed.

End Region.

(** The allocator never gives memory back to the region provider.  On a
    well-formed heap, [mm_free] of null or of the payload of an allocated
    block leaves the break and the limit exactly as they were; [mm_malloc],
    [mm_realloc] of such a pointer and [mm_calloc], when they return, leave
    the limit as it was and never lower the break. *)
Theorem facade_never_shrinks_region
    (fuel : nat) (s : state) (l : list blk) (fl : list Z) :
  wf s l fl ->
  (forall p,
     p = NULL \/ (exists b sz, In (mkBlk b sz true) l /\ p = payload_of b) ->
     mem_brk (mm_free s p) = mem_brk s /\
     mem_max_addr (mm_free s p) = mem_max_addr s) /\
  (forall n s' p,
     mm_malloc fuel s n = Done (s', p) ->
     mem_brk s <= mem_brk s' /\ mem_max_addr s' = mem_max_addr s) /\
  (forall q n s' p,
     q = NULL \/ (exists b sz, In (mkBlk b sz true) l /\ q = payload_of b) ->
     mm_realloc fuel s q n = Done (s', p) ->
     mem_brk s <= mem_brk s' /\ mem_max_addr s' = mem_max_addr s) /\
  (forall k sz s' p,
     mm_calloc fuel s k sz = Done (s', p) ->
     mem_brk s <= mem_brk s' /\ mem_max_addr s' = mem_max_addr s).
Proof.
  intros _. split; [|split; [|split]].
  - intros p _. apply mm_free_region.
  - intros n s' p E. apply (mm_malloc_region_kept fuel s n s' p E).
  - intros q n s' p _ E. apply (mm_realloc_region_kept fuel s q n s' p E).
  - intros k sz s' p E. apply (mm_calloc_region_kept fuel s k sz s' p E).
Qed.

Lemma facade_never_shrinks_region_witness :
  (forall p,
     p = NULL \/ (exists b sz, In (mkBlk b sz true) Examples.one_free_blocks /\
                               p = payload_of b) ->
     mem_brk (mm_free Examples.one_free p) = mem_brk Examples.one_free /\
     mem_max_addr (mm_free Examples.one_free p) = mem_max_addr Examples.one_free) /\
  (forall n s' p,
     mm_malloc 2 Examples.one_free n = Done (s', p) ->
     mem_brk Examples.one_free <= mem_brk s' /\
     mem_max_addr s' = mem_max_addr Examples.one_free) /\
  (forall q n s' p,
     q = NULL \/ (exists b sz, In (mkBlk b sz true) Examples.one_free_blocks /\
                               q = payload_of b) ->
     mm_realloc 2 Examples.one_free q n = Done (s', p) ->
     mem_brk Examples.one_free <= mem_brk s' /\
     mem_max_addr s' = mem_max_addr Examples.one_free) /\
  (forall k sz s' p,
     mm_calloc 2 Examples.one_free k sz = Done (s', p) ->
     mem_brk Examples.one_free <= mem_brk s' /\
     mem_max_addr s' = mem_max_addr Examples.one_free).
Proof.
  apply (facade_never_shrinks_region 2 Examples.one_free
           Examples.one_free_blocks Examples.one_free_list).
  exact Examples.one_free_wf.
Defined.

(** On a 16-byte aligned region with room, [mm_init] succeeds and the first
    [mm_malloc(n)] returns the address 16 bytes past the start of the region;
    the heap then consists of that single allocated block, which starts
    8 bytes past the start of the region. *)
Theorem mm_init_then_first_allocation (fuel : nat) (s : state) (n : Z) :
  0 <= mem_brk s -> mem_brk s mod ALIGNMENT = 0 ->
  mem_max_addr s + ALIGNMENT < Word.modulus ->
  request_ok n -> mem_brk s + 8 + need_of n <= mem_max_addr s ->
  (0 < fuel)%nat ->
  snd (mm_init s) = true /\
  exists s',
    mm_malloc fuel (fst (mm_init s)) n = Done (s', mem_brk s + ALIGNMENT) /\
    wf s' [mkBlk (mem_brk s + 8) (need_of n) true] [] /\
    mem_brk s' = mem_brk s + 8 + need_of n.
Proof.
  intros H0 Hal Hmax Hreq Hroom Hfuel.
  destruct (need_of_facts n (proj1 Hreq)) as [_ [Hlo _]]. pose proof Hreq as [Hn0 _].
  destruct (mm_init_wf s H0 Hal ltac:(lia) Hmax) as [Hok [Hwf _]].
  split; [assumption|].
  assert (Hbrk : mem_brk (fst (mm_init s)) = mem_brk s + 8).
  { unfold mm_init, mem_sbrk.
    replace (mem_brk s + (ALIGNMENT - SIZEOF_BLOCK) <=? mem_max_addr s) with true
      by (symmetry; apply Z.leb_le; layout_lia).
    replace (mem_brk s =? SBRK_FAILED) with false
      by (symmetry; apply Z.eqb_neq; unfold SBRK_FAILED; layout_lia).
    cbn. unfold ALIGNMENT, SIZEOF_BLOCK. lia. }
  assert (Hmx : mem_max_addr (fst (mm_init s)) = mem_max_addr s).
  { unfold mm_init, mem_sbrk.
    destruct (mem_brk s + (ALIGNMENT - SIZEOF_BLOCK) <=? mem_max_addr s);
      [destruct (mem_brk s =? SBRK_FAILED) | rewrite Z.eqb_refl]; reflexivity. }
  destruct (malloc_grow_case fuel (fst (mm_init s)) [] [] n Hwf Hreq Hfuel)
    as [E Hwf'].
  - intros c [].
  - rewrite Hbrk, Hmx. lia.
  - exists (grown_state (fst (mm_init s)) (need_of n)).
    unfold grown_block in Hwf'. rewrite Hbrk in E, Hwf'. unfold payload_of in E.
    replace (mem_brk s + 8 + PAYLOAD_OFFSET) with (mem_brk s + ALIGNMENT) in E
      by (unfold PAYLOAD_OFFSET, ALIGNMENT; lia).
    split; [assumption|]. split; [exact Hwf'|].
    unfold grown_state. cbn [mem_brk]. rewrite Hbrk. reflexivity.
Qed.

Lemma mm_init_then_first_allocation_witness :
  snd (mm_init Examples.raw) = true /\
  exists s',
    mm_malloc 1 (fst (mm_init Examples.raw)) 8
    = Done (s', mem_brk Examples.raw + ALIGNMENT) /\
    wf s' [mkBlk (mem_brk Examples.raw + 8) (need_of 8) true] [] /\
    mem_brk s' = mem_brk Examples.raw + 8 + need_of 8.
Proof.
  apply (mm_init_then_first_allocation 1 Examples.raw 8).
  - vm_compute. congruence.
  - reflexivity.
  - vm_compute. reflexivity.
  - exact ExampleLists.request_8.
  - vm_compute. congruence.
  - lia.
Defined.

(** [mm_calloc(k, sz)] when the product does not overflow and the request
    can be served: the result is non-null, its first [k * sz] bytes are zero,
    the heap stays well formed, and no byte of a block that was allocated
    before the call changes. *)
Theorem mm_calloc_zeroes_fresh_block
    (fuel : nat) (s : state) (l : list blk) (fl : list Z) (k sz : Z) :
  wf s l fl -> request_ok (k * sz) -> (length fl < fuel)%nat ->
  can_serve s l (need_of (k * sz)) ->
  exists s' q l' fl',
    mm_calloc fuel s k sz = Done (s', q) /\ wf s' l' fl' /\ q <> NULL /\
    (forall i, 0 <= i < k * sz -> heap s' (q + i) = 0) /\
    (forall c, In c l -> b_alloc c = true ->
       In c l' /\ forall y, b_addr c <= y < b_end c -> heap s' y = heap s y).
Proof.
  intros Hwf Hreq Hfuel Hcan. pose proof Hwf as [Hrep _].
  destruct (mm_malloc_succeeds fuel s l fl _ Hwf Hreq Hfuel Hcan)
    as [s1 [q [l' [fl' [E [Hspec [Hwf1 Hq]]]]]]].
  destruct (need_of_facts _ (proj1 Hreq)) as [Nal [Hlo _]]. pose proof Hreq as [Hn0 Hn1].
  assert (Hn16 : 16 <= need_of (k * sz)) by lia.
  destruct (malloc_spec_new_block _ _ _ _ _ _ _ _ Hrep Hn16 Hspec)
    as [[Hnull _]|[c [Hc [Hal [Hqc [Hcs [_ [_ Hfresh]]]]]]]]; [contradiction|].
  assert (Hw : Word.wrap (k * sz) = k * sz) by (apply Word.wrap_small; layout_lia).
  exists (with_heap s1 (memset (heap s1) q 0 (k * sz))), q, l', fl'.
  split.
  { unfold mm_calloc. rewrite Hw, E.
    replace (q =? NULL) with false by (symmetry; apply Z.eqb_neq; assumption).
    reflexivity. }
  split.
  { apply wf_frame_payload; [assumption|].
    apply unchanged_memset. intros y Hy. exists c.
    split; [assumption|]. split; [assumption|].
    subst q. unfold payload_of, b_footer in *. layout_lia. }
  split; [assumption|]. split.
  { intros i Hi. cbn [heap with_heap]. rewrite MemFacts.memset_inside by lia. reflexivity. }
  intros d Hd Hdal.
  assert (Hd' : In d l') by (eapply malloc_spec_persist; eassumption).
  split; [assumption|]. intros y Hy. cbn [heap with_heap].
  pose proof Hwf1 as [[_ _ _ _ _ Hch Hs _] _].
  rewrite MemFacts.memset_outside.
  - apply (malloc_spec_footprint s l fl _ s1 q l' fl' Hwf Nal Hn16 Hspec).
    destruct (block_facts s l Hrep d Hd) as [_ [_ [Hend _]]].
    intros [[e [He [Heal Hey]]]|Hbrk]; [|lia].
    destruct Hrep as [_ _ _ _ _ Hch0 Hs0 _].
    destruct (chain_disjoint _ _ _ _ _ Hch0 Hs0 Hd He) as [->|[?|?]]; [congruence|lia|lia].
  - destruct (chain_disjoint _ _ _ _ _ Hch Hs Hd' Hc) as [->|[?|?]].
    + exfalso. apply (Hfresh c Hd Hdal). reflexivity.
    + left. subst q. unfold payload_of, b_end in *. layout_lia.
    + right. subst q. unfold payload_of, b_end in *. layout_lia.
Qed.

Lemma mm_calloc_zeroes_fresh_block_witness :
  exists s' q l' fl',
    mm_calloc 2 Examples.one_free 3 8 = Done (s', q) /\ wf s' l' fl' /\ q <> NULL /\
    (forall i, 0 <= i < 3 * 8 -> heap s' (q + i) = 0) /\
    (forall c, In c Examples.one_free_blocks -> b_alloc c = true ->
       In c l' /\ forall y, b_addr c <= y < b_end c ->
                            heap s' y = heap Examples.one_free y).
Proof.
  apply (mm_calloc_zeroes_fresh_block 2 Examples.one_free
           Examples.one_free_blocks Examples.one_free_list 3 8).
  - exact Examples.one_free_wf.
  - split; [lia|]. change Word.modulus with 18446744073709551616. lia.
  - simpl. lia.
  - right. vm_compute. congruence.
Defined.


(** ** Releasing a block twice *)


Section DoubleFree.

Variables (s : state) (l1 l2 : list blk) (fl1 fl2 : list Z) (b sz : Z).
Let l := l1 ++ [mkBlk b sz false] ++ l2.
Let fl := fl1 ++ b :: fl2.
Hypothesis Hwf : wf s l fl.
Hypothesis Hadj : no_adjacent_free l.

Let h := hd b fl1.
Let s1 := add_block s b.

(** Bytes written when the free block [b] is linked a second time. *)
Let R : Z -> Prop := fun y => b + 8 <= y < b + 24 \/ h + 8 <= y < h + 16.

Lemma relink_head : head s = h /\ In h fl /\ h <> NULL.
Proof.
  destruct Hwf as [Hrep [Hh _ _ Hm]].
  assert (E : hd NULL fl = h) by (unfold fl, h; destruct fl1; reflexivity).
  assert (Hin : In h fl).
  { unfold fl, h. destruct fl1 as [|f r]; simpl; [|left; reflexivity].
    left. reflexivity. }
  split; [congruence|]. split; [assumption|].
  apply Hm in Hin. destruct Hin as [szh Hin].
  destruct (block_facts s l Hrep _ Hin) as [H8 _]. simpl in H8. unfold NULL. lia.
Qed.

Lemma relink_footprint : unchanged_outside R (heap s) (heap s1).
Proof.
  destruct relink_head as [Hh [_ Hne]].
  intros y Hy. unfold s1, add_block. rewrite Hh.
  replace (h =? NULL) with false by (symmetry; apply Z.eqb_neq; assumption).
  cbn [heap with_heap with_head]. unfold R in Hy.
  rewrite !MemFacts.store64_outside by layout_lia. reflexivity.
Qed.

Lemma relink_fields :
  head s1 = b /\ mm_heap_first s1 = mm_heap_first s /\ mm_heap_last s1 = mm_heap_last s.
Proof.
  unfold s1, add_block. destruct (head s =? NULL); repeat split; reflexivity.
Qed.

(** The rewritten link words lie in the free blocks [b] and [h], past
    their headers. *)
Lemma relink_inside y :
  R y -> exists c, In c l /\ b_alloc c = false /\
                   b_addr c + 8 <= y < b_addr c + 24 /\ b_addr c + 32 <= b_end c.
Proof.
  destruct Hwf as [Hrep [_ _ _ Hm]]. destruct relink_head as [_ [Hin _]].
  assert (Hb : In b fl) by (unfold fl; apply in_or_app; right; left; reflexivity).
  intros [Hy|Hy].
  - apply Hm in Hb. destruct Hb as [szb Hb].
    destruct (block_facts s l Hrep _ Hb) as [_ [_ [_ [_ [[_ Hs] _]]]]].
    exists (mkBlk b szb false). unfold b_end. simpl in *. unfold MIN_BLOCK_SIZE in *.
    repeat split; try assumption; lia.
  - apply Hm in Hin. destruct Hin as [szh Hin].
    destruct (block_facts s l Hrep _ Hin) as [_ [_ [_ [_ [[_ Hs] _]]]]].
    exists (mkBlk h szh false). unfold b_end. simpl in *. unfold MIN_BLOCK_SIZE in *.
    repeat split; try assumption; lia.
Qed.

Lemma relink_keeps_allocated d y :
  In d l -> b_alloc d = true -> b_addr d <= y < b_end d -> ~ R y.
Proof.
  intros Hd Hal Hy Hr. destruct (relink_inside y Hr) as [c [Hc [Hcal [Hcy Hce]]]].
  destruct Hwf as [[_ _ _ _ _ Hch Hs _] _].
  destruct (chain_disjoint _ _ _ _ _ Hch Hs Hd Hc) as [->|[?|?]]; [congruence|lia|lia].
Qed.

Lemma relink_keeps_headers f y :
  In f fl -> f <= y < f + 8 -> ~ R y.
Proof.
  intros Hf Hy Hr. destruct (relink_inside y Hr) as [c [Hc [Hcal [Hcy Hce]]]].
  destruct Hwf as [[_ _ _ _ _ Hch Hs _] [_ _ _ Hm]].
  apply Hm in Hf. destruct Hf as [szf Hf].
  pose proof (proj1 (Forall_forall _ _) Hs _ Hf) as Hsf. apply size_ok_pos in Hsf.
  destruct (chain_disjoint _ _ _ _ _ Hch Hs Hf Hc) as [<-|[?|?]];
    unfold b_end in *; simpl in *; lia.
Qed.

Lemma relink_tags d :
  In d l -> b_alloc d = true ->
  get_size (heap s1) (b_addr d) = b_size d /\
  is_allocated (heap s1) (b_addr d) = true /\
  load64 (heap s1) (b_footer d) = b_size d.
Proof.
  intros Hd Hal. destruct Hwf as [Hrep _].
  pose proof (proj1 (Forall_forall _ _) (hr_size _ _ Hrep) _ Hd) as Hsd.
  apply size_ok_pos in Hsd.
  assert (Hh : load64 (heap s1) (b_addr d) = load64 (heap s) (b_addr d)).
  { apply (unchanged_load64 R _ _ _ relink_footprint).
    intros y Hy. apply (relink_keeps_allocated d y Hd Hal). unfold b_end. lia. }
  assert (Hf : load64 (heap s1) (b_footer d) = load64 (heap s) (b_footer d)).
  { apply (unchanged_load64 R _ _ _ relink_footprint).
    intros y Hy. apply (relink_keeps_allocated d y Hd Hal).
    unfold b_end, b_footer in *. layout_lia. }
  split; [|split].
  - unfold get_size. rewrite Hh. apply (get_size_block s l Hrep d Hd).
  - unfold is_allocated. rewrite Hh. rewrite <- Hal. apply (is_allocated_block s l Hrep d Hd).
  - rewrite Hf. destruct (block_facts s l Hrep d Hd) as [_ [_ [_ [_ [_ [_ Ht]]]]]]. exact Ht.
Qed.

Lemma relink_size : get_size (heap s1) b = sz.
Proof.
  destruct Hwf as [Hrep _].
  assert (HB : In (mkBlk b sz false) l)
    by (unfold l; apply in_or_app; right; left; reflexivity).
  assert (Hb : In b fl) by (unfold fl; apply in_or_app; right; left; reflexivity).
  unfold get_size.
  rewrite (unchanged_load64 R _ _ _ relink_footprint)
    by (intros y Hy; apply (relink_keeps_headers b y Hb); lia).
  apply (get_size_block s l Hrep _ HB).
Qed.

Lemma relink_prev :
  free_neighbour (heap s1)
    (if negb (b =? mm_heap_first s1)
     then b - load64 (heap s1) (b - SIZEOF_FOOTER) else NULL) = false.
Proof.
  destruct relink_fields as [_ [Ef _]]. rewrite Ef.
  pose proof Hwf as [Hrep _]. rewrite (hr_first _ _ Hrep).
  destruct (free_block_neighbours l1 b sz l2 Hadj) as [Hpv _].
  destruct (list_snoc_cases l1) as [E|[l1' [P E]]].
  - unfold l. rewrite E. simpl. rewrite Z.eqb_refl. reflexivity.
  - assert (HP : In P l).
    { unfold l. rewrite E. apply in_or_app. left. apply in_or_app. right. left. reflexivity. }
    assert (Hal : b_alloc P = true).
    { rewrite E, free_at_end_app in Hpv. simpl in Hpv.
      destruct (b_alloc P); [reflexivity | discriminate]. }
    assert (Hend : b_end P = b).
    { destruct Hrep as [_ _ _ _ _ Hc _ _]. unfold l in Hc. rewrite E in Hc.
      rewrite <- app_assoc in Hc. apply chain_split in Hc. destruct Hc as [_ Hc].
      cbn [app chain] in Hc. destruct Hc as [Hc _]. simpl in Hc. congruence. }
    destruct (block_geometry s l1 _ l2 Hrep) as [G1 _].
    assert (Hfirst : exists d, In d l1 /\ hd NULL (map b_addr l) = b_addr d).
    { unfold l. rewrite E. destruct l1' as [|d r].
      - exists P. split; [left; reflexivity | reflexivity].
      - exists d. split; [left; reflexivity | reflexivity]. }
    destruct Hfirst as [d [Hd Ed]]. rewrite Ed.
    destruct (G1 d Hd) as [_ [Hd1 Hd2]]. simpl in Hd2.
    replace (b =? b_addr d) with false by (symmetry; apply Z.eqb_neq; lia).
    cbn [negb].
    destruct (relink_tags P HP Hal) as [_ [Ha Hf]].
    replace (b - SIZEOF_FOOTER) with (b_footer P) by (unfold b_footer, b_end in *; lia).
    rewrite Hf. replace (b - b_size P) with (b_addr P) by (unfold b_end in *; lia).
    unfold free_neighbour. rewrite Ha. apply andb_false_r.
Qed.

Lemma relink_next :
  free_neighbour (heap s1)
    (if negb (b =? mm_heap_last s1) then b + get_size (heap s1) b else NULL) = false.
Proof.
  destruct relink_fields as [_ [_ El]]. rewrite El, relink_size.
  pose proof Hwf as [Hrep _]. rewrite (hr_last _ _ Hrep).
  destruct (free_block_neighbours l1 b sz l2 Hadj) as [_ Hnx].
  assert (Hcases : l2 = [] \/ exists N l2', l2 = N :: l2').
  { destruct l2 as [|N l2']; [left; reflexivity | right; exists N, l2'; reflexivity]. }
  destruct Hcases as [E|[N [l2' E]]].
  - unfold l. rewrite last_map_mid, E. cbv iota. rewrite map_app. simpl map.
    rewrite last_last. simpl. rewrite Z.eqb_refl. reflexivity.
  - assert (HN : In N l).
    { unfold l. rewrite E. apply in_or_app. right. right. left. reflexivity. }
    assert (Hal : b_alloc N = true).
    { rewrite E in Hnx. simpl in Hnx. destruct (b_alloc N); [reflexivity | discriminate]. }
    assert (Hst : b_addr N = b + sz).
    { destruct Hrep as [_ _ _ _ _ Hc _ _]. unfold l in Hc. rewrite E in Hc.
      apply chain_split in Hc. destruct Hc as [_ Hc].
      cbn [app chain] in Hc. destruct Hc as [Hc _]. unfold b_end in Hc. simpl in Hc.
      congruence. }
    destruct (block_geometry s l1 _ l2 Hrep) as [_ [G2 [_ [_ [_ [_ [G7 _]]]]]]].
    simpl in G7.
    destruct (last_addr_in l2 NULL) as [c [Hc Ec]]; [rewrite E; discriminate|].
    assert (Elast : last (map b_addr l) NULL = b_addr c).
    { unfold l. rewrite last_map_mid. rewrite E in Ec |- *. exact Ec. }
    rewrite Elast. destruct (G2 c Hc) as [Hc1 _].
    unfold b_end in Hc1. simpl in Hc1.
    replace (b =? b_addr c) with false by (symmetry; apply Z.eqb_neq; lia).
    cbn [negb]. rewrite <- Hst.
    destruct (relink_tags N HN Hal) as [_ [Ha _]].
    unfold free_neighbour. rewrite Ha. apply andb_false_r.
Qed.

(** The state after the second release. *)
Definition released_twice : state :=
  with_heap s1 (set_header (heap s1) b sz false).

Lemma double_free_state : mm_free s (payload_of b) = released_twice.
Proof.
  pose proof Hwf as [Hrep _].
  destruct (block_geometry s l1 _ l2 Hrep) as [_ [_ [H8 _]]]. simpl in H8.
  unfold mm_free.
  replace (payload_of b =? NULL) with false
    by (symmetry; apply Z.eqb_neq; unfold payload_of; layout_lia).
  replace (block_from_payload (payload_of b)) with b
    by (unfold block_from_payload, payload_of; lia).
  cbv zeta. fold s1.
  rewrite coalesce_helper_cases, relink_prev, relink_next. cbn [andb].
  unfold merge_none, released_twice. rewrite relink_size. reflexivity.
Qed.

Lemma double_free_cycle :
  head released_twice = b /\
  get_size (heap released_twice) b = sz /\
  load64 (heap released_twice) (b + NEXT_OFFSET) = h /\
  forall f, In f fl -> f <> b ->
    get_size (heap released_twice) f = get_size (heap s) f /\
    load64 (heap released_twice) (f + NEXT_OFFSET)
    = load64 (heap s) (f + NEXT_OFFSET).
Proof.
  pose proof Hwf as [Hrep [_ _ Hnd Hm]].
  pose proof (fit_geometry _ _ _ _ _ _ _ Hwf) as [_ [_ [G3 [G4 [G5 [G6 [G7 [G8 G9]]]]]]]].
  pose proof (fit_ptrs_ok _ _ _ _ _ _ _ Hwf) as [Hrange Hsep].
  destruct relink_head as [Hh [Hhin Hne]].
  assert (Hb : In b fl) by (unfold fl; apply in_or_app; right; left; reflexivity).
  unfold released_twice. cbn [head heap with_heap].
  split; [apply relink_fields|].
  assert (T1 : get_size (set_header (heap s1) b sz false) b = sz)
    by (apply set_header_get_size; [lia | layout_lia | layout_lia]).
  assert (T4 : forall y, ~ (b <= y < b + 8) -> ~ (b + sz - 8 <= y < b + sz) ->
                         set_header (heap s1) b sz false y = heap s1 y).
  { intros y Hy1 Hy2. rewrite set_header_flat by layout_lia.
    rewrite !MemFacts.store64_outside by layout_lia. reflexivity. }
  split; [assumption|]. split.
  - rewrite (MemFacts.load64_ext _ (heap s1))
      by (intros y Hy; apply T4; layout_lia).
    unfold s1, add_block. rewrite Hh.
    replace (h =? NULL) with false by (symmetry; apply Z.eqb_neq; assumption).
    cbn [heap with_heap with_head].
    pose proof (Hrange h Hhin) as Hhr.
    assert (Hhb : h = b \/ h + 24 <= b \/ b + 24 <= h) by (apply Hsep; assumption).
    rewrite MemFacts.load64_store64_other by layout_lia.
    apply MemFacts.load64_store64_same_small. lia.
  - intros f Hf Hfb.
    assert (Hfar : f + 32 <= b \/ b + sz <= f).
    { apply (fit_rest_outside _ _ _ _ _ _ _ Hwf).
      unfold fl in Hf. apply in_app_or in Hf. apply in_or_app.
      destruct Hf as [Hf|[Hf|Hf]]; [left; assumption | congruence | right; assumption]. }
    assert (Hfh : forall y, f <= y < f + 8 \/ f + 16 <= y < f + 24 -> ~ R y).
    { intros y Hy [Hr|Hr]; [lia|].
      destruct (Hsep f h Hf Hhin) as [E|[E|E]]; lia. }
    split.
    + unfold get_size.
      rewrite (MemFacts.load64_ext _ (heap s1)) by (intros y Hy; apply T4; lia).
      rewrite (unchanged_load64 R _ _ _ relink_footprint)
        by (intros y Hy; apply Hfh; lia).
      reflexivity.
    + rewrite (MemFacts.load64_ext _ (heap s1))
        by (intros y Hy; apply T4; layout_lia).
      rewrite (unchanged_load64 R _ _ _ relink_footprint)
        by (intros y Hy; apply Hfh; layout_lia).
      reflexivity.
Qed.

End DoubleFree.

(** The [next] links of the nodes [fl], the last one pointing to [e]. *)
Fixpoint next_chain (m : mem) (fl : list Z) (e : Z) : Prop :=
  match fl with
  | [] => True
  | f :: r => load64 m (f + NEXT_OFFSET) = hd e r /\ next_chain m r e
  end.

Section Cycle.

Lemma next_chain_suffix m pre r e : next_chain m (pre ++ r) e -> next_chain m r e.
Proof.
  induction pre as [|f pre IH]; simpl; [auto|]. intros [_ H]. apply IH. exact H.
Qed.

Lemma dlseg_next_chain m : forall p fl1 b fl2,
  dlseg m p (fl1 ++ b :: fl2) NULL -> next_chain m fl1 b.
Proof.
  intros p fl1. revert p. induction fl1 as [|f r IH]; intros p b fl2 H; simpl; [exact I|].
  simpl in H. destruct H as [_ [Hn H]]. split.
  - rewrite Hn. destruct r; reflexivity.
  - apply (IH f b fl2). exact H.
Qed.

(** A walk that starts inside a cycle of blocks that are all too small
    does not end. *)
Lemma cycle_walk_diverges m size b fl1 :
  b <> NULL -> (forall f, In f fl1 -> f <> NULL) ->
  get_size m b < size -> (forall f, In f fl1 -> get_size m f < size) ->
  load64 m (b + NEXT_OFFSET) = hd b fl1 -> next_chain m fl1 b ->
  forall fuel pre r, fl1 = pre ++ r -> find_fit_from fuel m size (hd b r) = None.
Proof.
  intros Hb Hnz Hsb Hsf Hnb Hch.
  induction fuel as [|k IH]; intros pre r E; [reflexivity|].
  cbn [find_fit_from]. destruct r as [|f r']; cbn [hd].
  - replace (b =? NULL) with false by (symmetry; apply Z.eqb_neq; assumption).
    replace (size <=? get_size m b) with false by (symmetry; apply Z.leb_gt; assumption).
    rewrite Hnb. apply (IH [] fl1). reflexivity.
  - assert (Hf : In f fl1) by (rewrite E; apply in_or_app; right; left; reflexivity).
    replace (f =? NULL) with false by (symmetry; apply Z.eqb_neq; apply Hnz; assumption).
    replace (size <=? get_size m f) with false
      by (symmetry; apply Z.leb_gt; apply Hsf; assumption).
    rewrite E in Hch. apply next_chain_suffix in Hch. destruct Hch as [Hn _].
    rewrite Hn. apply (IH (pre ++ [f]) r'). rewrite <- app_assoc. exact E.
Qed.

End Cycle.

(** Double free: releasing a block that is already on the free list makes
    the list cyclic.  A later [mm_malloc] that no free block can satisfy then
    walks the cycle for ever instead of growing the region: it returns for no
    amount of fuel. *)
Theorem double_free_makes_allocation_diverge
    (s : state) (l1 l2 : list blk) (fl1 fl2 : list Z) (b sz n : Z) :
  wf s (l1 ++ [mkBlk b sz false] ++ l2) (fl1 ++ b :: fl2) ->
  no_adjacent_free (l1 ++ [mkBlk b sz false] ++ l2) ->
  request_ok n ->
  (forall c, In c (l1 ++ [mkBlk b sz false] ++ l2) -> b_alloc c = false ->
             b_size c < need_of n) ->
  forall fuel, mm_malloc fuel (mm_free s (payload_of b)) n = OutOfFuel.
Proof.
  intros Hwf Hadj Hreq Hsmall fuel.
  rewrite (double_free_state s l1 l2 fl1 fl2 b sz Hwf Hadj).
  destruct (double_free_cycle s l1 l2 fl1 fl2 b sz Hwf) as [Hh [Hsz [Hnb Hrest]]].
  pose proof Hwf as [Hrep [_ Hd Hnd Hm]].
  pose proof (fit_ptrs_ok _ _ _ _ _ _ _ Hwf) as [Hrange _].
  assert (Hin1 : forall f, In f fl1 -> In f (fl1 ++ b :: fl2) /\ f <> b).
  { intros f Hf. split; [apply in_or_app; left; assumption|].
    intros ->. apply NoDup_remove_2 in Hnd. apply Hnd. apply in_or_app. left. assumption. }
  assert (Hsize : forall f, In f (fl1 ++ b :: fl2) -> get_size (heap s) f < need_of n).
  { intros f Hf. apply Hm in Hf. destruct Hf as [szf Hf].
    pose proof (get_size_block s _ Hrep _ Hf) as Hg. simpl in Hg. rewrite Hg.
    apply (Hsmall _ Hf). reflexivity. }
  assert (Hb : In b (fl1 ++ b :: fl2)) by (apply in_or_app; right; left; reflexivity).
  unfold mm_malloc. rewrite (request_size_eq n Hreq).
  unfold find_fit. rewrite Hh.
  rewrite (cycle_walk_diverges (heap (released_twice s b sz)) (need_of n) b fl1)
    with (pre := fl1) (r := []).
  - reflexivity.
  - specialize (Hrange b Hb). unfold NULL. lia.
  - intros f Hf. destruct (Hin1 f Hf) as [Hfi _]. specialize (Hrange f Hfi). unfold NULL. lia.
  - rewrite Hsz. assert (HB : In (mkBlk b sz false) (l1 ++ [mkBlk b sz false] ++ l2))
      by (apply in_or_app; right; left; reflexivity).
    apply (Hsmall _ HB). reflexivity.
  - intros f Hf. destruct (Hin1 f Hf) as [Hfi Hfb].
    rewrite (proj1 (Hrest f Hfi Hfb)). apply Hsize. assumption.
  - exact Hnb.
  - assert (Hc : next_chain (heap s) fl1 b) by (apply (dlseg_next_chain _ NULL fl1 b fl2 Hd)).
    clear - Hc Hrest Hin1.
    assert (Hall : forall f, In f fl1 ->
              load64 (heap (released_twice s b sz)) (f + NEXT_OFFSET)
              = load64 (heap s) (f + NEXT_OFFSET)).
    { intros f Hf. destruct (Hin1 f Hf) as [Hfi Hfb]. apply (Hrest f Hfi Hfb). }
    clear Hrest Hin1. induction fl1 as [|f r IH]; simpl; [exact I|].
    simpl in Hc. destruct Hc as [Hn Hc]. split.
    + rewrite Hall by (left; reflexivity). exact Hn.
    + apply IH; [assumption|]. intros g Hg. apply Hall. right. assumption.
  - rewrite app_nil_r. reflexivity.
Qed.

Lemma double_free_makes_allocation_diverge_witness :
  mm_malloc 5 (mm_free Examples.one_free (payload_of 4104)) 100 = OutOfFuel.
Proof.
  apply (double_free_makes_allocation_diverge Examples.one_free
           [] [mkBlk 4168 32 true] [] [] 4104 64 100).
  - exact Examples.one_free_wf.
  - reflexivity.
  - split; [lia|]. change Word.modulus with 18446744073709551616. lia.
  - intros c [<-|[<-|[]]]; [intros _; vm_compute; reflexivity | discriminate].
Defined.

(** * The implicit-list variant ([mm-implicit.c])

    The earlier variant of the allocator: blocks carry a header word only,
    there is no free list and no footer; [mm_free] only clears the allocated
    bit, and [mm_malloc] merges runs of free blocks before it searches the
    heap from the first block (delayed coalescing).  [round_up], [get_size],
    [is_allocated] and [block_from_payload] are the same functions as in the
    explicit-list variant.

    Conventions as before.  [find_fit] reads the headers of blocks at or
    below [mm_heap_last] only.  The coalescing pass also reads the word at
    the break, outside the heap, when a run of free blocks ends there, and
    advances the pointer by it, modulo 2^64; on the flat memory this read is
    total. *)

Module Implicit.

Record state := mkState {
  heap : mem;
  mem_brk : Z;
  mem_max_addr : Z;
  mm_heap_first : Z;
  mm_heap_last : Z
}.

Definition with_heap (s : state) (m : mem) : state :=
  mkState m (mem_brk s) (mem_max_addr s) (mm_heap_first s) (mm_heap_last s).

Definition with_last (s : state) (l : Z) : state :=
  mkState (heap s) (mem_brk s) (mem_max_addr s) (mm_heap_first s) l.

Definition with_first (s : state) (f : Z) : state :=
  mkState (heap s) (mem_brk s) (mem_max_addr s) f (mm_heap_last s).

(** Modelled from the spec: the region provider [mem_sbrk] of memlib, which is
    not part of the sources.  It extends the region by exactly [incr] bytes
    and returns the old end, or the sentinel [(void * ) -1] when the region
    cannot grow. *)
Definition mem_sbrk (s : state) (incr : Z) : state * Z :=
  if mem_brk s + incr <=? mem_max_addr s
  then (mkState (heap s) (mem_brk s + incr) (mem_max_addr s)
                (mm_heap_first s) (mm_heap_last s), mem_brk s)
  else (s, SBRK_FAILED).

(** Writes the header [size | is_allocated]; this variant has no footer. *)
Definition set_header (m : mem) (block size : Z) (is_alloc : bool) : mem :=
  store64 m block (Z.lor size (bool_to_Z is_alloc)).

(** The walk of [find_fit] over the blocks from [curr] up to
    [mm_heap_last]; the block found is split when the remainder can hold a
    header. *)
Fixpoint find_fit_from (fuel : nat) (s : state) (size curr : Z)
  : option (state * Z) :=
  match fuel with
  | O => None
  | S k =>
      if negb (mm_heap_last s =? NULL) && (curr <=? mm_heap_last s) then
        if negb (is_allocated (heap s) curr) && (size <=? get_size (heap s) curr)
        then
          let extra := Word.wrap (get_size (heap s) curr - size) in
          if SIZEOF_BLOCK <=? extra then
            let split := curr + size in
            let m1 := set_header (heap s) curr size true in
            let m2 := set_header m1 split extra false in
            let s1 := with_heap s m2 in
            Some (if curr =? mm_heap_last s1 then with_last s1 split else s1, curr)
          else Some (s, curr)
        else find_fit_from k s size (curr + get_size (heap s) curr)
      else Some (s, NULL)
  end.

Definition find_fit (fuel : nat) (s : state) (size : Z) : option (state * Z) :=
  find_fit_from fuel s size (mm_heap_first s).

Definition mm_init (s : state) : state * bool :=
  let '(s1, padding) := mem_sbrk s (ALIGNMENT - SIZEOF_BLOCK) in
  if padding =? SBRK_FAILED then (s1, false)
  else (mkState (heap s1) (mem_brk s1) (mem_max_addr s1) NULL NULL, true).

(** The block size [mm_malloc] computes for a request of [size] bytes. *)
Definition request_size (size : Z) : Z :=
  round_up (Word.wrap (SIZEOF_BLOCK + size)) ALIGNMENT.

(** The inner loop of the coalescing pass: from [curr], absorbs free blocks
    up to [mm_heap_last]; returns the address reached and the size summed.
    In both loops of the pass the pointer advances by a size word read from
    memory and wraps with it. *)
Fixpoint coalesce_run (fuel : nat) (m : mem) (last curr cur_size : Z)
  : option (Z * Z) :=
  match fuel with
  | O => None
  | S k =>
      if negb (is_allocated m curr) && (curr <=? last) then
        let size := get_size m curr in
        coalesce_run k m last (Word.wrap (curr + size)) (Word.wrap (cur_size + size))
      else Some (curr, cur_size)
  end.

(** The outer loop of the coalescing pass. *)
Fixpoint coalesce_from (fuel : nat) (s : state) (curr : Z) : option state :=
  match fuel with
  | O => None
  | S k =>
      if negb (mm_heap_last s =? NULL) && (curr <=? mm_heap_last s) then
        if negb (is_allocated (heap s) curr) then
          let cur_size := get_size (heap s) curr in
          match coalesce_run k (heap s) (mm_heap_last s)
                  (Word.wrap (curr + cur_size)) cur_size with
          | None => None
          | Some (curr', cur_size') =>
              let s1 := with_heap s (set_header (heap s) curr cur_size' false) in
              coalesce_from k s1 (Word.wrap (curr' + get_size (heap s1) curr'))
          end
        else coalesce_from k s (Word.wrap (curr + get_size (heap s) curr))
      else Some s
  end.

Definition mm_malloc (fuel : nat) (s : state) (size : Z) : outcome (state * Z) :=
  let size := request_size size in
  match coalesce_from fuel s (mm_heap_first s) with
  | None => OutOfFuel
  | Some s0 =>
      match find_fit fuel s0 size with
      | None => OutOfFuel
      | Some (s1, block) =>
          if negb (block =? NULL) then
            Done (with_heap s1 (set_header (heap s1) block
                                  (get_size (heap s1) block) true),
                  payload_of block)
          else
            let '(s2, block) := mem_sbrk s1 size in
            if block =? SBRK_FAILED then Done (s2, NULL)
            else
              let s3 := if mm_heap_first s2 =? NULL then with_first s2 block else s2 in
              let s4 := with_last s3 block in
              Done (with_heap s4 (set_header (heap s4) block size true),
                    payload_of block)
      end
  end.

Definition mm_free (s : state) (ptr : Z) : state :=
  if ptr =? NULL then s
  else
    let block := block_from_payload ptr in
    with_heap s (set_header (heap s) block (get_size (heap s) block) false).

Definition mm_realloc (fuel : nat) (s : state) (old_ptr size : Z)
  : outcome (state * Z) :=
  match mm_malloc fuel s size with
  | Done (s1, new_ptr) =>
      if old_ptr =? NULL then Done (s1, new_ptr)
      else if size =? 0 then Done (mm_free s1 old_ptr, NULL)
      else
        let n := realloc_copy_length (heap s1) old_ptr size in
        if (new_ptr =? NULL) && (0 <? n) then Fault
        else
          let s2 := with_heap s1 (memcpy (heap s1) new_ptr old_ptr n) in
          Done (mm_free s2 old_ptr, new_ptr)
  | Fault => Fault
  | OutOfFuel => OutOfFuel
  end.

Definition mm_calloc (fuel : nat) (s : state) (nmemb size : Z)
  : outcome (state * Z) :=
  let total_size := Word.wrap (nmemb * size) in
  match mm_malloc fuel s total_size with
  | Done (s1, block) =>
      let n := Word.wrap (nmemb * size) in
      if (block =? NULL) && (0 <? n) then Fault
      else Done (with_heap s1 (memset (heap s1) block 0 n), block)
  | Fault => Fault
  | OutOfFuel => OutOfFuel
  end.

(** ** Abstract view: the sequence of physical blocks *)

(** The header word of [b] as stored in memory. *)
Definition hdr_ok (m : mem) (b : blk) : Prop :=
  load64 m (b_addr b) = Z.lor (b_size b) (bool_to_Z (b_alloc b)).

(** Block sizes are multiples of [ALIGNMENT]; the smallest block holds a
    header and 8 payload bytes. *)
Definition block_ok (b : blk) : Prop :=
  b_size b mod ALIGNMENT = 0 /\ ALIGNMENT <= b_size b.

(** The data-model invariant.  [mm_heap_last] is the address of the last
    block when the region was last extended or the last block was last
    split; the coalescing pass does not move it, so it may lie inside a
    merged block: the invariant only bounds it. *)
Record heap_rep (s : state) (l : list blk) : Prop := mkHeapRep {
  hr_start : 0 <= heap_start l (mem_brk s);
  hr_align : mem_brk s mod ALIGNMENT = 8;
  hr_max : mem_brk s <= mem_max_addr s /\ mem_max_addr s + ALIGNMENT < Word.modulus;
  hr_first : mm_heap_first s = hd NULL (map b_addr l);
  hr_last : match l with
            | [] => mm_heap_last s = NULL
            | _ :: _ => heap_start l (mem_brk s) <= mm_heap_last s < mem_brk s
            end;
  hr_chain : chain (heap_start l (mem_brk s)) l (mem_brk s);
  hr_size : Forall block_ok l;
  hr_hdr : Forall (hdr_ok (heap s)) l
}.

(** The blocks a heap walk visits: those that start at or below
    [mm_heap_last]; and the others. *)
Fixpoint reach (last : Z) (l : list blk) : list blk :=
  match l with
  | b :: r => if b_addr b <=? last then b :: reach last r else []
  | [] => []
  end.

Fixpoint beyond (last : Z) (l : list blk) : list blk :=
  match l with
  | b :: r => if b_addr b <=? last then beyond last r else l
  | [] => []
  end.

Section Blocks.

Lemma reach_beyond last l : reach last l ++ beyond last l = l.
Proof.
  induction l as [|b r IH]; [reflexivity|]. simpl.
  destruct (b_addr b <=? last); [simpl; rewrite IH|]; reflexivity.
Qed.

Lemma blocks_bounds a l e :
  chain a l e -> Forall block_ok l ->
  a <= e /\ (e - a) mod 16 = 0 /\
  forall b, In b l -> a <= b_addr b /\ b_end b <= e /\ (b_addr b - a) mod 16 = 0.
Proof.
  revert a. induction l as [|c l IH]; intros a Hc Hs; simpl in *.
  - subst. split; [lia|]. split; [rewrite Z.sub_diag; reflexivity|]. intros b [].
  - destruct Hc as [Ha Hc]. inversion Hs as [|? ? [Hm Hp] Hs']; subst.
    destruct (IH _ Hc Hs') as [H1 [H2 H3]].
    unfold b_end, ALIGNMENT in *.
    split; [lia|]. split; [lia|].
    intros b [->|Hb].
    + split; [lia|]. split; [lia|]. rewrite Z.sub_diag. reflexivity.
    + destruct (H3 b Hb) as [? [? ?]]. lia.
Qed.

Lemma blocks_disjoint a l e b c :
  chain a l e -> Forall block_ok l -> In b l -> In c l ->
  b = c \/ b_end b <= b_addr c \/ b_end c <= b_addr b.
Proof.
  intros Hc Hs Hb Hi.
  destruct (in_split _ _ Hb) as [l1 [l2 ->]].
  apply chain_split in Hc. destruct Hc as [Hc1 Hc2].
  apply Forall_app in Hs. destruct Hs as [Hs1 Hs2].
  inversion Hs2 as [|? ? Hsb Hs2']; subst.
  apply in_app_or in Hi. destruct Hi as [Hi|[Hi|Hi]].
  - destruct (blocks_bounds _ _ _ Hc1 Hs1) as [_ [_ H]].
    destruct (H c Hi) as [_ [? _]]. right. right. assumption.
  - left. assumption.
  - destruct (blocks_bounds _ _ _ Hc2 Hs2') as [_ [_ H]].
    destruct (H c Hi) as [? _]. right. left. assumption.
Qed.

(** Decoding the header of a block. *)
Lemma hdr_decode m b :
  hdr_ok m b -> block_ok b -> b_size b < Word.modulus ->
  get_size m (b_addr b) = b_size b /\ is_allocated m (b_addr b) = b_alloc b.
Proof.
  intros Hh [Hm Hp] Hr. unfold hdr_ok in Hh.
  assert (Hev : b_size b mod 2 = 0) by (unfold ALIGNMENT in Hm; lia).
  unfold ALIGNMENT in Hp.
  unfold get_size, is_allocated. rewrite Hh. split.
  - rewrite Header.land_mask by (apply Header.header_range; [lia | assumption]).
    rewrite Header.lor_flag by assumption. destruct (b_alloc b); simpl; lia.
  - rewrite Header.lor_flag by assumption. rewrite Header.land_1.
    destruct (b_alloc b); simpl.
    + replace ((b_size b + 1) mod 2) with 1 by lia. reflexivity.
    + replace ((b_size b + 0) mod 2) with 0 by lia. reflexivity.
Qed.

Lemma set_header_hdr m b :
  b_size b mod 2 = 0 -> 0 <= b_size b < Word.modulus - 1 ->
  hdr_ok (set_header m (b_addr b) (b_size b) (b_alloc b)) b.
Proof.
  intros Hev Hr. unfold hdr_ok, set_header.
  apply MemFacts.load64_store64_same_small.
  apply Header.header_range; [lia | assumption].
Qed.

Lemma set_header_other_bytes m a sz al y :
  ~ (a <= y < a + 8) -> set_header m a sz al y = m y.
Proof. intros H. unfold set_header. apply MemFacts.store64_outside. lia. Qed.

Lemma hdr_ok_frame m m' b :
  (forall y, b_addr b <= y < b_addr b + 8 -> m' y = m y) ->
  hdr_ok m b -> hdr_ok m' b.
Proof.
  intros H Hh. unfold hdr_ok in *. rewrite <- Hh.
  apply MemFacts.load64_ext. intros y Hy. apply H. lia.
Qed.

End Blocks.

Section HeapFacts.

Variables (s : state) (l : list blk).
Hypothesis Hrep : heap_rep s l.

Lemma first_block_aligned :
  heap_start l (mem_brk s) mod 16 = 8 /\ 8 <= heap_start l (mem_brk s).
Proof.
  destruct Hrep as [H0 Hal _ _ _ Hc Hs _].
  destruct (blocks_bounds _ _ _ Hc Hs) as [H1 [H2 _]].
  unfold ALIGNMENT in *. lia.
Qed.

Lemma block_decoded b :
  In b l ->
  8 <= b_addr b /\ b_addr b mod 16 = 8 /\ b_end b <= mem_brk s /\
  b_size b mod 16 = 0 /\ 16 <= b_size b /\ b_size b + 24 < Word.modulus /\
  get_size (heap s) (b_addr b) = b_size b /\
  is_allocated (heap s) (b_addr b) = b_alloc b.
Proof.
  intros Hb. pose proof first_block_aligned as [Hst Hst8].
  destruct Hrep as [H0 Hal Hmax _ _ Hc Hs Ht].
  destruct (blocks_bounds _ _ _ Hc Hs) as [H1 [H2 H3]].
  destruct (H3 b Hb) as [H4 [H5 H6]].
  pose proof (proj1 (Forall_forall _ _) Hs b Hb) as [Hsm Hsp].
  pose proof (proj1 (Forall_forall _ _) Ht b Hb) as Htb.
  assert (Hr : b_size b + 24 < Word.modulus) by (unfold b_end in *; layout_lia).
  destruct (hdr_decode (heap s) b Htb (conj Hsm Hsp)) as [D1 D2]; [lia|].
  unfold b_end in *. unfold ALIGNMENT in *.
  repeat split; try assumption; lia.
Qed.

End HeapFacts.

(** Replacing a run of blocks by another run over the same addresses. *)
Lemma heap_rep_replace_run s s' l1 mid mid' l2 a e :
  heap_rep s (l1 ++ mid ++ l2) ->
  mid <> [] -> mid' <> [] ->
  chain a mid e -> chain a mid' e ->
  Forall block_ok mid' -> Forall (hdr_ok (heap s')) mid' ->
  (forall y, ~ (a <= y < e) -> heap s' y = heap s y) ->
  mem_brk s' = mem_brk s -> mem_max_addr s' = mem_max_addr s ->
  mm_heap_first s' = mm_heap_first s ->
  a <= mm_heap_last s' < mem_brk s \/ mm_heap_last s' = mm_heap_last s ->
  heap_rep s' (l1 ++ mid' ++ l2).
Proof.
  intros Hrep Hne Hne' Hcm Hcm' Hsm' Hhm' Hu Eb Ex Ef Hl.
  pose proof Hrep as [H0 Hal Hmax Hfirst Hlast Hc Hs Ht].
  assert (Hst : heap_start (l1 ++ mid' ++ l2) (mem_brk s)
                = heap_start (l1 ++ mid ++ l2) (mem_brk s)).
  { destruct l1 as [|c l1]; [|reflexivity].
    destruct mid as [|c mid]; [congruence|]. destruct mid' as [|c' mid']; [congruence|].
    simpl in *. destruct Hcm, Hcm'. congruence. }
  apply chain_app in Hc. destruct Hc as [x [Hc1 Hc2]].
  apply chain_app in Hc2. destruct Hc2 as [y [Hc2 Hc3]].
  assert (Hxa : x = a).
  { destruct mid as [|c mid]; [congruence|]. simpl in Hc2, Hcm.
    destruct Hc2, Hcm. congruence. }
  subst x.
  assert (Hye : y = e) by (eapply chain_end_unique; eassumption). subst y.
  apply Forall_app in Hs. destruct Hs as [Hs1 Hs23].
  apply Forall_app in Hs23. destruct Hs23 as [Hs2 Hs3].
  apply Forall_app in Ht. destruct Ht as [Ht1 Ht23].
  apply Forall_app in Ht23. destruct Ht23 as [Ht2 Ht3].
  destruct (blocks_bounds _ _ _ Hc1 Hs1) as [B1 [_ B1']].
  destruct (blocks_bounds _ _ _ Hc3 Hs3) as [B3 [_ B3']].
  destruct (blocks_bounds _ _ _ Hcm' Hsm') as [B2 _].
  assert (Hchain' : chain (heap_start (l1 ++ mid ++ l2) (mem_brk s))
                      (l1 ++ mid' ++ l2) (mem_brk s)).
  { apply chain_app. exists a. split; [assumption|].
    apply chain_app. exists e. split; assumption. }
  constructor; rewrite ?Eb, ?Ex, ?Ef, ?Hst; try assumption.
  - rewrite Hfirst. destruct l1 as [|c l1]; [|reflexivity].
    destruct mid as [|c mid]; [congruence|]. destruct mid' as [|c' mid']; [congruence|].
    simpl in *. destruct Hcm, Hcm'. congruence.
  - assert (Hcase : l1 ++ mid ++ l2 <> []) by (destruct l1; [destruct mid|]; simpl; congruence).
    assert (Hlast' : heap_start (l1 ++ mid ++ l2) (mem_brk s) <= mm_heap_last s'
                     < mem_brk s).
    { destruct Hl as [Hl|Hl].
      - lia.
      - rewrite Hl. destruct (l1 ++ mid ++ l2); [congruence | assumption]. }
    destruct (l1 ++ mid' ++ l2) eqn:E; [|assumption].
    destruct l1; [destruct mid'|]; simpl in E; congruence.
  - apply Forall_app. split; [assumption|]. apply Forall_app. split; assumption.
  - apply Forall_app. split; [|apply Forall_app; split; [assumption|]].
    + apply Forall_forall. intros b Hb.
      apply (hdr_ok_frame (heap s)); [|exact (proj1 (Forall_forall _ _) Ht1 b Hb)].
      intros z Hz. apply Hu. destruct (B1' b Hb) as [? [? _]].
      pose proof (proj1 (Forall_forall _ _) Hs1 b Hb) as [_ Hp].
      unfold b_end, ALIGNMENT in *. lia.
    + apply Forall_forall. intros b Hb.
      apply (hdr_ok_frame (heap s)); [|exact (proj1 (Forall_forall _ _) Ht3 b Hb)].
      intros z Hz. apply Hu. destruct (B3' b Hb) as [? [? _]]. lia.
Qed.

(** ** Release *)

Lemma mm_free_state s l1 b sz al l2 :
  heap_rep s (l1 ++ [mkBlk b sz al] ++ l2) ->
  mm_free s (payload_of b) = with_heap s (set_header (heap s) b sz false).
Proof.
  intros Hrep.
  assert (HB : In (mkBlk b sz al) (l1 ++ [mkBlk b sz al] ++ l2))
    by (apply in_or_app; right; left; reflexivity).
  destruct (block_decoded s _ Hrep _ HB) as [H8 [_ [_ [_ [_ [_ [Hg _]]]]]]]. simpl in *.
  unfold mm_free.
  replace (payload_of b =? NULL) with false
    by (symmetry; apply Z.eqb_neq; unfold payload_of; layout_lia).
  replace (block_from_payload (payload_of b)) with b
    by (unfold block_from_payload, payload_of; lia).
  rewrite Hg. reflexivity.
Qed.

Lemma retag_block s l1 b sz al al' l2 :
  heap_rep s (l1 ++ [mkBlk b sz al] ++ l2) ->
  heap_rep (with_heap s (set_header (heap s) b sz al'))
           (l1 ++ [mkBlk b sz al'] ++ l2).
Proof.
  intros Hrep.
  assert (HB : In (mkBlk b sz al) (l1 ++ [mkBlk b sz al] ++ l2))
    by (apply in_or_app; right; left; reflexivity).
  destruct (block_decoded s _ Hrep _ HB) as [H8 [_ [_ [Hm [Hp [Hr _]]]]]]. simpl in *.
  apply (heap_rep_replace_run s _ l1 [mkBlk b sz al] [mkBlk b sz al'] l2 b (b + sz));
    try assumption; try discriminate; try reflexivity.
  - simpl. unfold b_end. simpl. auto.
  - simpl. unfold b_end. simpl. auto.
  - constructor; [|constructor]. split; simpl; unfold ALIGNMENT; lia.
  - constructor; [|constructor].
    apply (set_header_hdr (heap s) (mkBlk b sz al')); simpl; layout_lia.
  - intros y Hy. cbn [heap with_heap]. apply set_header_other_bytes. lia.
  - right. reflexivity.
Qed.

(** ** Merging runs of free blocks *)

(** Every maximal run of consecutive free blocks becomes one free block. *)
Fixpoint merge_free (l : list blk) : list blk :=
  match l with
  | [] => []
  | b :: r =>
      match merge_free r with
      | c :: r' =>
          if negb (b_alloc b) && negb (b_alloc c)
          then mkBlk (b_addr b) (b_size b + b_size c) false :: r'
          else b :: c :: r'
      | [] => [b]
      end
  end.

(** Sum of the sizes of a run of blocks. *)
Definition run_size (run : list blk) : Z := fold_right (fun c n => b_size c + n) 0 run.

Section MergeFree.

Lemma merge_free_nil l : merge_free l = [] -> l = [].
Proof.
  destruct l as [|b r]; [reflexivity|]. simpl.
  destruct (merge_free r) as [|c r']; [discriminate|].
  destruct (negb (b_alloc b) && negb (b_alloc c)); discriminate.
Qed.

Lemma merge_free_head b r :
  exists sz r', merge_free (b :: r) = mkBlk (b_addr b) sz (b_alloc b) :: r' /\
                (b_alloc b = true -> sz = b_size b /\ r' = merge_free r).
Proof.
  simpl. destruct (merge_free r) as [|c r'].
  - exists (b_size b), []. destruct b; simpl. split; [reflexivity | auto].
  - destruct (b_alloc b) eqn:E; simpl.
    + exists (b_size b), (c :: r'). destruct b; simpl in *. subst. split; [reflexivity | auto].
    + destruct (b_alloc c); simpl.
      * exists (b_size b), (c :: r'). destruct b; simpl in *. subst.
        split; [reflexivity | discriminate].
      * exists (b_size b + b_size c), r'. split; [reflexivity | discriminate].
Qed.

Lemma merge_free_alloc b r :
  b_alloc b = true -> merge_free (b :: r) = b :: merge_free r.
Proof.
  intros H. simpl. rewrite H. simpl. destruct (merge_free r); reflexivity.
Qed.

(** A free block followed by a run of free blocks and then by nothing or
    by an allocated block. *)
Lemma merge_free_run : forall run b rest,
  b_alloc b = false -> Forall (fun c => b_alloc c = false) run ->
  (forall c rest', rest = c :: rest' -> b_alloc c = true) ->
  merge_free (b :: run ++ rest)
  = mkBlk (b_addr b) (b_size b + run_size run) false :: merge_free rest.
Proof.
  induction run as [|c run IH]; intros b rest Hb Hrun Hrest.
  - simpl app. unfold run_size. simpl fold_right. rewrite Z.add_0_r.
    destruct rest as [|d rest'].
    + simpl. destruct b; simpl in *. subst. reflexivity.
    + pose proof (Hrest d rest' eq_refl) as Hd.
      destruct (merge_free_head d rest') as [sz [r' [E _]]].
      change (merge_free (b :: d :: rest'))
        with (match merge_free (d :: rest') with
              | c :: r' => if negb (b_alloc b) && negb (b_alloc c)
                           then mkBlk (b_addr b) (b_size b + b_size c) false :: r'
                           else b :: c :: r'
              | [] => [b]
              end).
      rewrite E. simpl. rewrite Hd, andb_false_r.
      destruct b; simpl in *. subst. reflexivity.
  - inversion Hrun as [|? ? Hc Hrun']; subst.
    change (merge_free (b :: (c :: run) ++ rest))
      with (match merge_free (c :: run ++ rest) with
            | c :: r' => if negb (b_alloc b) && negb (b_alloc c)
                         then mkBlk (b_addr b) (b_size b + b_size c) false :: r'
                         else b :: c :: r'
            | [] => [b]
            end).
    rewrite (IH c rest Hc Hrun' Hrest). simpl. rewrite Hb. simpl.
    unfold run_size. simpl. rewrite Z.add_assoc. reflexivity.
Qed.

Lemma merge_free_chain : forall l a e,
  chain a l e -> chain a (merge_free l) e.
Proof.
  induction l as [|b r IH]; intros a e Hc; [exact Hc|].
  simpl in Hc. destruct Hc as [Ha Hc]. specialize (IH _ _ Hc). simpl.
  destruct (merge_free r) as [|c r'] eqn:E.
  - apply merge_free_nil in E. subst r. simpl in *. auto.
  - simpl in IH. destruct IH as [Hca Hcr].
    destruct (negb (b_alloc b) && negb (b_alloc c)); simpl.
    + split; [assumption|]. unfold b_end in *. simpl.
      replace (b_addr b + (b_size b + b_size c)) with (b_addr c + b_size c) by lia.
      assumption.
    + auto.
Qed.

Lemma merge_free_ok : forall l, Forall block_ok l -> Forall block_ok (merge_free l).
Proof.
  induction l as [|b r IH]; intros H; [constructor|].
  inversion H as [|? ? Hb Hr]; subst. specialize (IH Hr). simpl.
  destruct (merge_free r) as [|c r'].
  - constructor; [assumption | constructor].
  - inversion IH as [|? ? Hc Hr']; subst.
    destruct (negb (b_alloc b) && negb (b_alloc c)).
    + constructor; [|assumption]. destruct Hb, Hc. split; simpl; unfold ALIGNMENT in *; lia.
    + constructor; [assumption|]. constructor; assumption.
Qed.

Lemma merge_free_no_adjacent : forall l, no_adjacent_free (merge_free l).
Proof.
  unfold no_adjacent_free.
  induction l as [|b r IH]; [reflexivity|]. cbn [merge_free].
  destruct (merge_free r) as [|c r'] eqn:E; [reflexivity|].
  rewrite adjacent_free_cons in IH.
  destruct (negb (b_alloc b) && negb (b_alloc c)) eqn:Ebc.
  - apply andb_true_iff in Ebc. destruct Ebc as [_ Ec]. rewrite Ec in IH.
    rewrite adjacent_free_cons. cbn [b_alloc negb andb] in *. exact IH.
  - rewrite adjacent_free_cons. cbn [free_at_start]. rewrite Ebc.
    rewrite adjacent_free_cons. exact IH.
Qed.

Lemma merge_free_keeps_allocated : forall l d,
  In d l -> b_alloc d = true -> In d (merge_free l).
Proof.
  induction l as [|b r IH]; intros d Hd Hal; [destruct Hd|]. simpl.
  destruct Hd as [->|Hd].
  - destruct (merge_free r) as [|c r']; [left; reflexivity|].
    rewrite Hal. simpl. left. reflexivity.
  - specialize (IH d Hd Hal). destruct (merge_free r) as [|c r']; [destruct IH|].
    destruct (negb (b_alloc b) && negb (b_alloc c)) eqn:E.
    + destruct IH as [->|IH]; [|right; assumption].
      apply andb_true_iff in E. destruct E as [_ E]. rewrite Hal in E. discriminate.
    + right. assumption.
Qed.

Lemma merge_free_allocated_from : forall l d,
  In d (merge_free l) -> b_alloc d = true -> In d l.
Proof.
  induction l as [|b r IH]; intros d Hd Hal; [destruct Hd|]. simpl in Hd.
  destruct (merge_free r) as [|c r'].
  - destruct Hd as [->|[]]. left. reflexivity.
  - destruct (negb (b_alloc b) && negb (b_alloc c)) eqn:E.
    + destruct Hd as [<-|Hd]; [discriminate|]. right. apply IH; [right; assumption | assumption].
    + destruct Hd as [->|Hd]; [left; reflexivity|]. right. apply IH; assumption.
Qed.

End MergeFree.

(** ** The coalescing pass of [mm_malloc] *)

(** The free blocks at the front of [r] that the inner loop absorbs, and
    what follows them. *)
Fixpoint free_run (last : Z) (r : list blk) : list blk :=
  match r with
  | c :: r' => if negb (b_alloc c) && (b_addr c <=? last)
               then c :: free_run last r' else []
  | [] => []
  end.

Fixpoint after_run (last : Z) (r : list blk) : list blk :=
  match r with
  | c :: r' => if negb (b_alloc c) && (b_addr c <=? last)
               then after_run last r' else r
  | [] => []
  end.

(** Whether the last block of [l] is free and at or below [last]: the case
    in which the pass reads the word stored at the break. *)
Fixpoint ends_free (last : Z) (l : list blk) : bool :=
  match l with
  | [] => false
  | b :: r =>
      match r with
      | [] => negb (b_alloc b) && (b_addr b <=? last)
      | _ :: _ => ends_free last r
      end
  end.

(** The word at the break does not carry the walk back: when the last block
    is free and at or below [mm_heap_last], the pass advances from the break
    by the word stored there, and the address it reaches, modulo 2^64, is
    above [mm_heap_last]. *)
Definition break_word_ok (s : state) (l : list blk) : Prop :=
  ends_free (mm_heap_last s) l = true ->
  mm_heap_last s < Word.wrap (mem_brk s + get_size (heap s) (mem_brk s)).

Section Runs.

Lemma ends_free_cons last b r :
  ends_free last r = true -> ends_free last (b :: r) = true.
Proof. destruct r as [|c r]; [discriminate | intros H; exact H]. Qed.

Lemma ends_free_app last r1 r2 :
  ends_free last r2 = true -> ends_free last (r1 ++ r2) = true.
Proof.
  intros H. induction r1 as [|c r1 IH]; [exact H|].
  change ((c :: r1) ++ r2) with (c :: (r1 ++ r2)). apply ends_free_cons. exact IH.
Qed.

Lemma ends_free_run last : forall r b,
  negb (b_alloc b) && (b_addr b <=? last) = true -> after_run last r = [] ->
  ends_free last (b :: r) = true.
Proof.
  induction r as [|c r IH]; intros b Hb Hr; [exact Hb|].
  cbn [after_run] in Hr.
  destruct (negb (b_alloc c) && (b_addr c <=? last)) eqn:E; [|discriminate].
  change (ends_free last (b :: c :: r)) with (ends_free last (c :: r)).
  apply IH; assumption.
Qed.

Lemma ends_free_last last : forall l c,
  ends_free last (l ++ [c]) = negb (b_alloc c) && (b_addr c <=? last).
Proof.
  induction l as [|d l IH]; intros c; [reflexivity|].
  change ((d :: l) ++ [c]) with (d :: (l ++ [c])).
  destruct (l ++ [c]) as [|e r] eqn:E; [destruct l; discriminate|].
  change (ends_free last (d :: e :: r)) with (ends_free last (e :: r)).
  rewrite <- E. apply IH.
Qed.

Lemma get_size_ext m m' a :
  (forall y, a <= y < a + 8 -> m' y = m y) -> get_size m' a = get_size m a.
Proof.
  intros H. unfold get_size. f_equal. apply MemFacts.load64_ext. exact H.
Qed.

Lemma run_split last r : free_run last r ++ after_run last r = r.
Proof.
  induction r as [|c r IH]; [reflexivity|]. simpl.
  destruct (negb (b_alloc c) && (b_addr c <=? last)); [simpl; rewrite IH|]; reflexivity.
Qed.

Lemma free_run_free last r : Forall (fun c => b_alloc c = false) (free_run last r).
Proof.
  induction r as [|c r IH]; [constructor|]. simpl.
  destruct (negb (b_alloc c) && (b_addr c <=? last)) eqn:E; [|constructor].
  constructor; [|assumption]. apply andb_true_iff in E. destruct E as [E _].
  destruct (b_alloc c); [discriminate | reflexivity].
Qed.

Lemma after_run_head last r c rest :
  after_run last r = c :: rest -> b_alloc c = true \/ last < b_addr c.
Proof.
  induction r as [|d r IH]; [discriminate|]. simpl.
  destruct (negb (b_alloc d) && (b_addr d <=? last)) eqn:E; [assumption|].
  intros H. inversion H; subst. apply andb_false_iff in E. destruct E as [E|E].
  - left. destruct (b_alloc c); [reflexivity | discriminate].
  - right. apply Z.leb_gt in E. assumption.
Qed.

Lemma reach_run last r :
  reach last r = free_run last r ++ reach last (after_run last r) /\
  beyond last r = beyond last (after_run last r).
Proof.
  induction r as [|c r [IH1 IH2]]; [split; reflexivity|]. simpl.
  destruct (b_alloc c); simpl.
  - destruct (b_addr c <=? last); split; reflexivity.
  - destruct (b_addr c <=? last) eqn:E; simpl.
    + rewrite IH1, IH2. split; reflexivity.
    + rewrite E. split; reflexivity.
Qed.

Lemma run_size_chain a run mid :
  chain a run mid -> run_size run = mid - a.
Proof.
  revert a. induction run as [|c run IH]; intros a H; simpl in *.
  - unfold run_size. simpl. lia.
  - destruct H as [Ha H]. specialize (IH _ H). unfold run_size in *. simpl.
    unfold b_end in *. lia.
Qed.

Lemma run_size_ok run :
  Forall block_ok run -> run_size run mod 16 = 0 /\ 0 <= run_size run.
Proof.
  induction run as [|c run IH]; intros H.
  - unfold run_size. simpl. split; [reflexivity | lia].
  - inversion H as [|? ? [Hm Hp] Hr]; subst. destruct (IH Hr) as [I1 I2].
    unfold run_size in *. simpl. unfold ALIGNMENT in *. split; lia.
Qed.

Lemma get_size_nonneg m a : 0 <= get_size m a.
Proof.
  unfold get_size. apply Z.land_nonneg. left.
  pose proof (MemFacts.load64_range m a). lia.
Qed.

Lemma with_heap_same s : with_heap s (heap s) = s.
Proof. destruct s; reflexivity. Qed.

Lemma loop_condition last a :
  8 <= a -> negb (last =? NULL) && (a <=? last) = (a <=? last).
Proof.
  intros H. destruct (last =? NULL) eqn:E; [|reflexivity].
  apply Z.eqb_eq in E. subst last. simpl. symmetry. apply Z.leb_gt. unfold NULL. lia.
Qed.

(** The inner loop absorbs exactly [free_run]. *)
Lemma coalesce_run_walk m last e : forall r fuel a acc,
  chain a r e -> Forall block_ok r -> Forall (hdr_ok m) r ->
  last < e -> 0 <= acc -> acc + (e - a) < Word.modulus ->
  0 <= a -> e < Word.modulus ->
  (length r < fuel)%nat ->
  coalesce_run fuel m last a acc
  = Some (heap_start (after_run last r) e, acc + run_size (free_run last r)).
Proof.
  induction r as [|c r IH]; intros fuel a acc Hc Hs Hh Hl Ha Hw Ha0 He Hf.
  - destruct fuel as [|k]; [simpl in Hf; lia|]. simpl in Hc. subst a.
    cbn [coalesce_run after_run free_run heap_start].
    replace (e <=? last) with false by (symmetry; apply Z.leb_gt; lia).
    rewrite andb_false_r. unfold run_size. simpl. rewrite Z.add_0_r. reflexivity.
  - destruct fuel as [|k]; [simpl in Hf; lia|].
    simpl in Hc. destruct Hc as [Hca Hc]. subst a.
    inversion Hs as [|? ? Hsc Hs']; subst. inversion Hh as [|? ? Hhc Hh']; subst.
    destruct (blocks_bounds _ _ _ Hc Hs') as [Hle _].
    pose proof Hsc as [Hm Hp]. unfold ALIGNMENT in Hp. unfold b_end in *.
    destruct (hdr_decode m c Hhc Hsc) as [Dg Da]; [lia|].
    cbn [coalesce_run after_run free_run]. rewrite Da, Dg.
    destruct (negb (b_alloc c) && (b_addr c <=? last)) eqn:E.
    + rewrite !Word.wrap_small by lia.
      rewrite (IH k (b_addr c + b_size c) (acc + b_size c)); try assumption; try lia.
      * unfold run_size. simpl. rewrite Z.add_assoc. reflexivity.
      * simpl in Hf. lia.
    + unfold run_size. simpl. rewrite Z.add_0_r. reflexivity.
Qed.

End Runs.

(** The header words of the free blocks of [l]. *)
Definition free_headers (l : list blk) : Z -> Prop :=
  fun y => exists c, In c l /\ b_alloc c = false /\ b_addr c <= y < b_addr c + 8.

Section CoalescingPass.

Lemma reach_incl last l c : In c (reach last l) -> In c l.
Proof.
  induction l as [|b r IH]; simpl; [auto|].
  destruct (b_addr b <=? last); [|intros []].
  intros [H|H]; [left; assumption | right; apply IH; assumption].
Qed.

Lemma reach_stop last l e :
  last < heap_start l e -> reach last l = [] /\ beyond last l = l.
Proof.
  destruct l as [|c r]; [split; reflexivity|]. simpl. intros H.
  replace (b_addr c <=? last) with false by (symmetry; apply Z.leb_gt; lia).
  split; reflexivity.
Qed.

Lemma free_headers_after a r e last y :
  chain a r e -> Forall block_ok r -> y < a -> ~ free_headers (reach last r) y.
Proof.
  intros Hc Hs Hy [c [Hin [_ Hr]]]. apply reach_incl in Hin.
  destruct (blocks_bounds _ _ _ Hc Hs) as [_ [_ H]]. destruct (H c Hin) as [? _]. lia.
Qed.

Lemma hdr_ok_far m m' a r e :
  chain a r e -> Forall block_ok r ->
  (forall y, a <= y -> m' y = m y) ->
  Forall (hdr_ok m) r -> Forall (hdr_ok m') r.
Proof.
  intros Hc Hs Hu Hh. apply Forall_forall. intros c Hin.
  apply (hdr_ok_frame m); [|exact (proj1 (Forall_forall _ _) Hh c Hin)].
  intros y Hy. apply Hu.
  destruct (blocks_bounds _ _ _ Hc Hs) as [_ [_ H]]. destruct (H c Hin) as [? _]. lia.
Qed.

Lemma coalesce_walk : forall fuel R s a,
  chain a R (mem_brk s) -> Forall block_ok R -> Forall (hdr_ok (heap s)) R ->
  8 <= a -> mem_brk s + 16 < Word.modulus -> mm_heap_last s < mem_brk s ->
  break_word_ok s R ->
  (length R + 1 < fuel)%nat ->
  exists m',
    coalesce_from fuel s a = Some (with_heap s m') /\
    Forall (hdr_ok m')
      (merge_free (reach (mm_heap_last s) R) ++ beyond (mm_heap_last s) R) /\
    unchanged_outside (free_headers (reach (mm_heap_last s) R)) (heap s) m'.
Proof.
  induction fuel as [|k IH]; intros R s a Hc Hs Hh Ha Hbrk Hlast Hend Hfuel; [lia|].
  cbn [coalesce_from]. rewrite (loop_condition _ _ Ha).
  destruct R as [|b r].
  - simpl in Hc. subst a.
    replace (mem_brk s <=? mm_heap_last s) with false by (symmetry; apply Z.leb_gt; lia).
    exists (heap s). rewrite with_heap_same. split; [reflexivity|].
    split; [constructor | apply unchanged_refl].
  - simpl in Hc. destruct Hc as [Hba Hc]. subst a.
    inversion Hs as [|? ? Hsb Hs']; subst. inversion Hh as [|? ? Hhb Hh']; subst.
    destruct (blocks_bounds _ _ _ Hc Hs') as [Hle [_ Hin_r]].
    pose proof Hsb as [Hm Hp]. unfold ALIGNMENT in Hm, Hp. unfold b_end in *.
    destruct (hdr_decode (heap s) b Hhb Hsb) as [Dg Da]; [lia|].
    cbn [reach beyond].
    destruct (b_addr b <=? mm_heap_last s) eqn:E.
    2:{ exists (heap s). rewrite with_heap_same. split; [reflexivity|].
        split; [exact Hh | apply unchanged_refl]. }
    rewrite Da, Dg. rewrite (Word.wrap_small (b_addr b + b_size b)) by lia.
    destruct (b_alloc b) eqn:Eal; cbn [negb].
    + (* an allocated block: skipped *)
      destruct (IH r s (b_addr b + b_size b) Hc Hs' Hh') as [m' [E1 [E2 E3]]];
        [lia | assumption | assumption
         | intros He; apply Hend; apply ends_free_cons; exact He
         | simpl in Hfuel; lia|].
      exists m'. split; [assumption|]. split.
      * rewrite merge_free_alloc by assumption. cbn [app]. constructor; [|assumption].
        apply (hdr_ok_frame (heap s)); [|assumption].
        intros y Hy. apply E3. apply (free_headers_after _ _ _ _ _ Hc Hs'). lia.
      * intros y Hy. apply E3. intros [c [Hin Hcy]]. apply Hy.
        exists c. split; [right; assumption | assumption].
    + (* a free block: absorbs the free blocks that follow *)
      rewrite (coalesce_run_walk (heap s) (mm_heap_last s) (mem_brk s) r k
                 (b_addr b + b_size b) (b_size b));
        try assumption; try lia; [|simpl in Hfuel; lia].
      set (last := mm_heap_last s) in *.
      set (FR := free_run last r). set (AR := after_run last r).
      assert (Er : r = FR ++ AR) by (symmetry; apply run_split).
      assert (Hc' := Hc). rewrite Er in Hc'. apply chain_app in Hc'.
      destruct Hc' as [mid [Hc1 Hc2]].
      assert (Hs'' := Hs'). rewrite Er in Hs''. apply Forall_app in Hs''.
      destruct Hs'' as [Hs1 Hs2].
      assert (Hmid : heap_start AR (mem_brk s) = mid).
      { destruct AR as [|c AR'] eqn:EAR; [simpl in *; congruence|].
        simpl in *. destruct Hc2. assumption. }
      rewrite Hmid.
      destruct (blocks_bounds _ _ _ Hc1 Hs1) as [Hm1 _].
      destruct (blocks_bounds _ _ _ Hc2 Hs2) as [Hm2 [_ Hin_ar]].
      pose proof (run_size_chain _ _ _ Hc1) as Hrs. fold FR. rewrite Hrs.
      destruct (run_size_ok FR Hs1) as [Hrm _]. rewrite Hrs in Hrm.
      set (total := b_size b + (mid - (b_addr b + b_size b))) in *.
      set (s1 := with_heap s (set_header (heap s) (b_addr b) total false)).
      assert (Hmerged : hdr_ok (heap s1) (mkBlk (b_addr b) total false)).
      { apply (set_header_hdr (heap s) (mkBlk (b_addr b) total false)); simpl;
          unfold total; layout_lia. }
      assert (Hkeep : forall y, b_addr b + 8 <= y -> heap s1 y = heap s y).
      { intros y Hy. unfold s1. cbn [heap with_heap]. apply set_header_other_bytes. lia. }
      destruct (reach_run last r) as [Rr Br]. fold FR AR in Rr, Br.
      assert (Hfree_b : forall y, ~ free_headers (b :: reach last r) y ->
                                  ~ (b_addr b <= y < b_addr b + 8)).
      { intros y Hy Hr. apply Hy. exists b. split; [left; reflexivity|]. auto. }
      assert (Hbw : get_size (heap s1) (mem_brk s) = get_size (heap s) (mem_brk s)).
      { apply get_size_ext. intros y Hy. apply Hkeep. lia. }
      destruct (mid <=? last) eqn:Emid.
      * (* the run ends at an allocated block within reach *)
        apply Z.leb_le in Emid.
        destruct AR as [|c rest'] eqn:EAR; [simpl in Hc2; lia|].
        simpl in Hc2. destruct Hc2 as [Hca Hc2].
        assert (Hcal : b_alloc c = true).
        { destruct (after_run_head last r c rest' EAR) as [H|H]; [assumption | lia]. }
        pose proof (Forall_inv Hs2) as Hsc. pose proof (Forall_inv_tail Hs2) as Hs2'.
        assert (Hhc : hdr_ok (heap s1) c).
        { apply (hdr_ok_frame (heap s)).
          - intros y Hy. apply Hkeep. lia.
          - apply (proj1 (Forall_forall _ _) Hh'). rewrite Er.
            apply in_or_app. right. left. reflexivity. }
        pose proof Hsc as [_ Hcp]. unfold ALIGNMENT in Hcp.
        destruct (blocks_bounds _ _ _ Hc2 Hs2') as [Hm3 _]. unfold b_end in *.
        destruct (hdr_decode (heap s1) c Hhc Hsc) as [Dgc _]; [lia|].
        rewrite <- Hca, Dgc. rewrite (Word.wrap_small (b_addr c + b_size c)) by lia.
        assert (Hh1 : Forall (hdr_ok (heap s1)) rest').
        { apply (hdr_ok_far (heap s) _ _ _ _ Hc2 Hs2'); [intros y Hy; apply Hkeep; lia|].
          apply Forall_forall. intros d Hd. apply (proj1 (Forall_forall _ _) Hh').
          rewrite Er. apply in_or_app. right. right. assumption. }
        assert (Hend1 : break_word_ok s1 rest').
        { intros He. change (mm_heap_last s1) with last in *.
          change (mem_brk s1) with (mem_brk s). rewrite Hbw. apply Hend.
          apply ends_free_cons. rewrite Er. apply ends_free_app.
          apply ends_free_cons. exact He. }
        destruct (IH rest' s1 (b_addr c + b_size c) Hc2 Hs2' Hh1) as [m' [E1 [E2 E3]]];
          [lia | assumption | assumption | exact Hend1 | |].
        { simpl in Hfuel. rewrite Er, length_app in Hfuel. simpl in Hfuel. lia. }
        exists m'. split; [exact E1|].
        change (mm_heap_last s1) with last in E2, E3.
        assert (Hreach : reach last (c :: rest') = c :: reach last rest').
        { simpl. replace (b_addr c <=? last) with true by (symmetry; apply Z.leb_le; lia).
          reflexivity. }
        assert (Hbey : beyond last (c :: rest') = beyond last rest').
        { simpl. replace (b_addr c <=? last) with true by (symmetry; apply Z.leb_le; lia).
          reflexivity. }
        split.
        -- rewrite Rr, Br, Hreach, Hbey.
           rewrite merge_free_run;
             [| assumption | apply free_run_free
              | intros d rest0 Hd; injection Hd as Hd1 Hd2; rewrite <- Hd1; assumption].
           rewrite merge_free_alloc by assumption. rewrite Hrs. fold total. cbn [app].
           constructor; [|constructor; [|assumption]].
           ++ apply (hdr_ok_frame (heap s1)); [|assumption].
              intros y Hy. simpl in Hy. apply E3.
              apply (free_headers_after _ _ _ _ _ Hc2 Hs2'). lia.
           ++ apply (hdr_ok_frame (heap s1)); [|assumption].
              intros y Hy. apply E3.
              apply (free_headers_after _ _ _ _ _ Hc2 Hs2'). lia.
        -- intros y Hy. rewrite E3.
           ++ unfold s1. cbn [heap with_heap]. apply set_header_other_bytes.
              apply Hfree_b. assumption.
           ++ intros [d [Hd Hdy]]. apply Hy. exists d. split; [|assumption].
              right. rewrite Rr, Hreach. apply in_or_app. right. right. assumption.
      * (* the run ends the walk *)
        apply Z.leb_gt in Emid.
        assert (Hk : (0 < k)%nat) by (simpl in Hfuel; lia).
        destruct k as [|k']; [lia|]. cbn [coalesce_from].
        change (mm_heap_last s1) with last.
        assert (Hnext : last < Word.wrap (mid + get_size (heap s1) mid)).
        { destruct AR as [|c rest'] eqn:EAR.
          - (* the run reaches the break *)
            simpl in Hc2. subst mid. rewrite Hbw. apply Hend.
            apply ends_free_run; [|exact EAR].
            rewrite Eal. cbn [negb andb]. exact E.
          - (* the run stops at a block above [mm_heap_last] *)
            simpl in Hc2. destruct Hc2 as [Hca Hc2].
            pose proof (Forall_inv Hs2) as Hsc. pose proof (Forall_inv_tail Hs2) as Hs2'.
            assert (Hhc : hdr_ok (heap s1) c).
            { apply (hdr_ok_frame (heap s)).
              - intros y Hy. apply Hkeep. lia.
              - apply (proj1 (Forall_forall _ _) Hh'). rewrite Er.
                apply in_or_app. right. left. reflexivity. }
            pose proof Hsc as [_ Hcp]. unfold ALIGNMENT in Hcp.
            destruct (blocks_bounds _ _ _ Hc2 Hs2') as [Hm3 _]. unfold b_end in *.
            destruct (hdr_decode (heap s1) c Hhc Hsc) as [Dgc _]; [lia|].
            rewrite <- Hca, Dgc. rewrite Word.wrap_small by lia. lia. }
        replace (Word.wrap (mid + get_size (heap s1) mid) <=? last) with false
          by (symmetry; apply Z.leb_gt; exact Hnext).
        rewrite andb_false_r.
        exists (heap s1). split; [reflexivity|].
        destruct (reach_stop last AR (mem_brk s)) as [Ra Ba]; [rewrite Hmid; lia|].
        split.
        -- rewrite Rr, Br, Ra, Ba.
           rewrite merge_free_run;
             [| assumption | apply free_run_free | intros d rest0 Hd; discriminate].
           rewrite Hrs. fold total. cbn [merge_free app].
           constructor; [assumption|].
           apply (hdr_ok_far (heap s) _ _ _ _ Hc2 Hs2); [intros y Hy; apply Hkeep; lia|].
           apply Forall_forall. intros d Hd. apply (proj1 (Forall_forall _ _) Hh').
           rewrite Er. apply in_or_app. right. assumption.
        -- intros y Hy. unfold s1. cbn [heap with_heap]. apply set_header_other_bytes.
           apply Hfree_b. assumption.
Qed.

End CoalescingPass.

Section PassOnHeap.

Lemma chain_reach last : forall l a e,
  chain a l e -> exists mid, chain a (reach last l) mid /\ chain mid (beyond last l) e.
Proof.
  intros l a e H. apply chain_app. rewrite reach_beyond. exact H.
Qed.

Lemma merged_start last l e :
  heap_start (merge_free (reach last l) ++ beyond last l) e = heap_start l e /\
  hd NULL (map b_addr (merge_free (reach last l) ++ beyond last l))
  = hd NULL (map b_addr l) /\
  (l <> [] -> merge_free (reach last l) ++ beyond last l <> []).
Proof.
  destruct l as [|b r]; [repeat split; try reflexivity; congruence|].
  cbn [reach beyond]. destruct (b_addr b <=? last).
  - destruct (merge_free_head b (reach last r)) as [sz [r' [E _]]]. rewrite E.
    repeat split; try reflexivity. discriminate.
  - repeat split; try reflexivity. discriminate.
Qed.

Lemma merge_free_length : forall l, (length (merge_free l) <= length l)%nat.
Proof.
  induction l as [|b r IH]; [simpl; lia|]. simpl.
  destruct (merge_free r) as [|c r']; [simpl; lia|].
  destruct (negb (b_alloc b) && negb (b_alloc c)); simpl in *; lia.
Qed.

Lemma merged_length last l :
  (length (merge_free (reach last l) ++ beyond last l) <= length l)%nat.
Proof.
  rewrite length_app. pose proof (merge_free_length (reach last l)).
  rewrite <- (reach_beyond last l) at 3. rewrite length_app. lia.
Qed.

(** The coalescing pass on a well-formed heap. *)
Lemma coalesce_pass fuel s l :
  heap_rep s l -> break_word_ok s l -> (length l + 1 < fuel)%nat ->
  exists m',
    coalesce_from fuel s (mm_heap_first s) = Some (with_heap s m') /\
    heap_rep (with_heap s m')
      (merge_free (reach (mm_heap_last s) l) ++ beyond (mm_heap_last s) l) /\
    unchanged_outside (free_headers (reach (mm_heap_last s) l)) (heap s) m'.
Proof.
  intros Hrep Hend Hfuel. pose proof Hrep as [H0 Hal Hmax Hfirst Hlast Hc Hs Hh].
  destruct (first_block_aligned s l Hrep) as [_ H8].
  destruct l as [|b r].
  - exists (heap s). rewrite with_heap_same.
    split; [|split; [exact Hrep | apply unchanged_refl]].
    destruct fuel as [|k]; [lia|]. cbn [coalesce_from]. rewrite Hlast. reflexivity.
  - assert (Hf : mm_heap_first s = heap_start (b :: r) (mem_brk s)) by (rewrite Hfirst; reflexivity).
    rewrite Hf.
    destruct (coalesce_walk fuel (b :: r) s _ Hc Hs Hh H8) as [m' [E1 [E2 E3]]];
      [layout_lia | lia | assumption | assumption|].
    exists m'. split; [assumption|]. split; [|assumption].
    set (last := mm_heap_last s) in *.
    destruct (merged_start last (b :: r) (mem_brk s)) as [M1 [M2 M3]].
    destruct (chain_reach last _ _ _ Hc) as [mid [Hc1 Hc2]].
    assert (Hs12 := Hs). rewrite <- (reach_beyond last (b :: r)) in Hs12.
    apply Forall_app in Hs12. destruct Hs12 as [Hs1 Hs2].
    constructor; cbn [heap mem_brk mem_max_addr mm_heap_first mm_heap_last with_heap];
      rewrite ?M1, ?M2; try assumption.
    + destruct (merge_free (reach last (b :: r)) ++ beyond last (b :: r)) eqn:El;
        [exfalso; apply M3; [discriminate | first [reflexivity | assumption]] | assumption].
    + apply chain_app. exists mid. split; [apply merge_free_chain|]; assumption.
    + apply Forall_app. split; [apply merge_free_ok|]; assumption.
Qed.

End PassOnHeap.

(** ** First fit in address order *)

Fixpoint first_fit (last need : Z) (l : list blk) : option blk :=
  match l with
  | [] => None
  | b :: r =>
      if b_addr b <=? last then
        if negb (b_alloc b) && (need <=? b_size b) then Some b
        else first_fit last need r
      else None
  end.

(** The state [find_fit] leaves when it returns the free block at [x] of
    size [sz] for a request of [need] bytes. *)
Definition place (s : state) (x sz need : Z) : state :=
  if SIZEOF_BLOCK <=? sz - need then
    let m := set_header (set_header (heap s) x need true) (x + need) (sz - need) false in
    let s1 := with_heap s m in
    if x =? mm_heap_last s then with_last s1 (x + need) else s1
  else s.

(** The blocks that replace the free block once the request is placed. *)
Definition placed (x sz need : Z) : list blk :=
  if need <? sz then [mkBlk x need true; mkBlk (x + need) (sz - need) false]
  else [mkBlk x sz true].

Section FirstFit.

Lemma find_fit_walk need : forall R fuel s a,
  chain a R (mem_brk s) -> Forall block_ok R -> Forall (hdr_ok (heap s)) R ->
  8 <= a -> mem_brk s + 16 < Word.modulus -> mm_heap_last s < mem_brk s ->
  0 <= need -> (length R < fuel)%nat ->
  find_fit_from fuel s need a
  = Some (match first_fit (mm_heap_last s) need R with
          | Some b => (place s (b_addr b) (b_size b) need, b_addr b)
          | None => (s, NULL)
          end).
Proof.
  induction R as [|b r IH]; intros fuel s a Hc Hs Hh Ha Hbrk Hlast Hneed Hfuel.
  - destruct fuel as [|k]; [simpl in Hfuel; lia|]. simpl in Hc. subst a.
    cbn [find_fit_from first_fit]. rewrite loop_condition by assumption.
    replace (mem_brk s <=? mm_heap_last s) with false by (symmetry; apply Z.leb_gt; lia).
    reflexivity.
  - destruct fuel as [|k]; [simpl in Hfuel; lia|].
    simpl in Hc. destruct Hc as [Hba Hc]. subst a.
    inversion Hs as [|? ? Hsb Hs']; subst. inversion Hh as [|? ? Hhb Hh']; subst.
    destruct (blocks_bounds _ _ _ Hc Hs') as [Hle _].
    pose proof Hsb as [Hm Hp]. unfold ALIGNMENT in Hm, Hp. unfold b_end in *.
    destruct (hdr_decode (heap s) b Hhb Hsb) as [Dg Da]; [lia|].
    cbn [find_fit_from first_fit]. rewrite loop_condition by assumption.
    destruct (b_addr b <=? mm_heap_last s); [|reflexivity].
    rewrite Da, Dg.
    destruct (negb (b_alloc b) && (need <=? b_size b)) eqn:E.
    + apply andb_true_iff in E. destruct E as [_ E]. apply Z.leb_le in E.
      rewrite Word.wrap_small by lia. unfold place. cbn [heap mm_heap_last with_heap].
      destruct (SIZEOF_BLOCK <=? b_size b - need); reflexivity.
    + apply IH; try assumption; try lia. simpl in Hfuel. lia.
Qed.

Lemma first_fit_found last need : forall l b,
  first_fit last need l = Some b ->
  exists l1 l2, l = l1 ++ [b] ++ l2 /\ b_alloc b = false /\ need <= b_size b /\
                b_addr b <= last /\
                forall c, In c l1 -> b_alloc c = true \/ b_size c < need.
Proof.
  induction l as [|c r IH]; intros b H; [discriminate|]. simpl in H.
  destruct (b_addr c <=? last) eqn:Er; [|discriminate].
  destruct (negb (b_alloc c) && (need <=? b_size c)) eqn:E.
  - inversion H; subst c. apply andb_true_iff in E. destruct E as [E1 E2].
    exists [], r. split; [reflexivity|].
    split; [destruct (b_alloc b); [discriminate | reflexivity]|].
    split; [apply Z.leb_le; assumption|]. split; [apply Z.leb_le; assumption|].
    intros d [].
  - destruct (IH b H) as [l1 [l2 [El [H1 [H2 [H3 H4]]]]]].
    exists (c :: l1), l2. split; [rewrite El; reflexivity|].
    do 3 (split; [assumption|]).
    intros d [<-|Hd]; [|apply H4; assumption].
    apply andb_false_iff in E. destruct E as [E|E].
    + left. destruct (b_alloc c); [reflexivity | discriminate].
    + right. apply Z.leb_gt in E. assumption.
Qed.

Lemma first_fit_none last need : forall l,
  first_fit last need l = None ->
  forall c, In c (reach last l) -> b_alloc c = true \/ b_size c < need.
Proof.
  induction l as [|c r IH]; intros H d Hd; [destruct Hd|]. simpl in H, Hd.
  destruct (b_addr c <=? last); [|destruct Hd].
  destruct (negb (b_alloc c) && (need <=? b_size c)) eqn:E; [discriminate|].
  destruct Hd as [<-|Hd]; [|apply IH; assumption].
  apply andb_false_iff in E. destruct E as [E|E].
  - left. destruct (b_alloc c); [reflexivity | discriminate].
  - right. apply Z.leb_gt in E. assumption.
Qed.

End FirstFit.

(** ** Placement *)

(** The blocks after [find_fit] has returned the free block at [x]. *)
Definition found (x sz need : Z) : list blk :=
  if need <? sz then [mkBlk x need true; mkBlk (x + need) (sz - need) false]
  else [mkBlk x sz false].

Section Placement.

Variables (s : state) (l1 l2 : list blk) (x sz need : Z).
Hypothesis Hrep : heap_rep s (l1 ++ [mkBlk x sz false] ++ l2).
Hypothesis Hneed_al : need mod ALIGNMENT = 0.
Hypothesis Hneed : 16 <= need <= sz.

Lemma place_fields :
  mem_brk (place s x sz need) = mem_brk s /\
  mem_max_addr (place s x sz need) = mem_max_addr s /\
  mm_heap_first (place s x sz need) = mm_heap_first s /\
  (mm_heap_last (place s x sz need) = mm_heap_last s \/
   (need < sz /\ mm_heap_last (place s x sz need) = x + need)).
Proof.
  unfold place. destruct (SIZEOF_BLOCK <=? sz - need) eqn:E.
  - apply Z.leb_le in E. unfold SIZEOF_BLOCK in E.
    destruct (x =? mm_heap_last s); cbn; repeat split; auto. right. split; [lia | reflexivity].
  - repeat split; auto.
Qed.

Lemma place_outside y :
  ~ (x <= y < x + sz) -> heap (place s x sz need) y = heap s y.
Proof.
  intros Hy. unfold place. destruct (SIZEOF_BLOCK <=? sz - need) eqn:E; [|reflexivity].
  apply Z.leb_le in E. unfold SIZEOF_BLOCK in E.
  assert (Hh : heap (if x =? mm_heap_last s
                     then with_last (with_heap s (set_header (set_header (heap s) x need true)
                                                    (x + need) (sz - need) false)) (x + need)
                     else with_heap s (set_header (set_header (heap s) x need true)
                                         (x + need) (sz - need) false))
               = set_header (set_header (heap s) x need true) (x + need) (sz - need) false)
    by (destruct (x =? mm_heap_last s); reflexivity).
  cbv zeta. rewrite Hh. rewrite !set_header_other_bytes by lia. reflexivity.
Qed.

Lemma place_rep : heap_rep (place s x sz need) (l1 ++ found x sz need ++ l2).
Proof.
  assert (HB : In (mkBlk x sz false) (l1 ++ [mkBlk x sz false] ++ l2))
    by (apply in_or_app; right; left; reflexivity).
  destruct (block_decoded s _ Hrep _ HB) as [H8 [_ [Hend [Hm [Hp [Hr _]]]]]].
  unfold b_end in Hend. simpl in *. unfold ALIGNMENT in *.
  destruct place_fields as [F1 [F2 [F3 F4]]].
  unfold found. destruct (need <? sz) eqn:E.
  - apply Z.ltb_lt in E.
    assert (Hh : heap (place s x sz need)
                 = set_header (set_header (heap s) x need true) (x + need) (sz - need) false).
    { unfold place.
      replace (SIZEOF_BLOCK <=? sz - need) with true
        by (symmetry; apply Z.leb_le; unfold SIZEOF_BLOCK; lia).
      destruct (x =? mm_heap_last s); reflexivity. }
    apply (heap_rep_replace_run s _ l1 [mkBlk x sz false] _ l2 x (x + sz));
      try assumption; try discriminate.
    + simpl. unfold b_end. simpl. auto.
    + simpl. unfold b_end. simpl. repeat split; lia.
    + constructor; [|constructor; [|constructor]]; split; simpl; unfold ALIGNMENT; lia.
    + rewrite Hh. constructor; [|constructor; [|constructor]].
      * apply (hdr_ok_frame (set_header (heap s) x need true)).
        -- intros y Hy. simpl in Hy. apply set_header_other_bytes. lia.
        -- apply (set_header_hdr (heap s) (mkBlk x need true)); simpl; layout_lia.
      * apply (set_header_hdr _ (mkBlk (x + need) (sz - need) false)); simpl; layout_lia.
    + intros y Hy. apply place_outside. assumption.
    + destruct F4 as [F4|[_ F4]]; [right; assumption|]. left. rewrite F4. lia.
  - apply Z.ltb_ge in E. unfold place.
    replace (SIZEOF_BLOCK <=? sz - need) with false
      by (symmetry; apply Z.leb_gt; unfold SIZEOF_BLOCK; lia).
    exact Hrep.
Qed.

(** [mm_malloc] marks the block it got from [find_fit] as allocated. *)
Definition marked : state :=
  with_heap (place s x sz need)
    (set_header (heap (place s x sz need)) x
       (get_size (heap (place s x sz need)) x) true).

Lemma marked_rep : heap_rep marked (l1 ++ placed x sz need ++ l2).
Proof.
  pose proof place_rep as Hp. unfold marked, placed. unfold found in Hp.
  destruct (need <? sz).
  - assert (HB : In (mkBlk x need true)
                    (l1 ++ [mkBlk x need true; mkBlk (x + need) (sz - need) false] ++ l2))
      by (apply in_or_app; right; left; reflexivity).
    destruct (block_decoded _ _ Hp _ HB) as [_ [_ [_ [_ [_ [_ [Hg _]]]]]]]. simpl in Hg.
    rewrite Hg.
    apply (retag_block _ l1 x need true true
             (mkBlk (x + need) (sz - need) false :: l2)). exact Hp.
  - assert (HB : In (mkBlk x sz false) (l1 ++ [mkBlk x sz false] ++ l2))
      by (apply in_or_app; right; left; reflexivity).
    destruct (block_decoded _ _ Hp _ HB) as [_ [_ [_ [_ [_ [_ [Hg _]]]]]]]. simpl in Hg.
    rewrite Hg. apply (retag_block _ l1 x sz false true l2). exact Hp.
Qed.

Lemma marked_outside y : ~ (x <= y < x + sz) -> heap marked y = heap s y.
Proof.
  intros Hy. unfold marked. cbn [heap with_heap].
  rewrite set_header_other_bytes by lia. apply place_outside. assumption.
Qed.

End Placement.

(** ** Growing the region *)

Definition grown (s : state) (need : Z) : state :=
  mkState (set_header (heap s) (mem_brk s) need true)
          (mem_brk s + need) (mem_max_addr s)
          (if mm_heap_first s =? NULL then mem_brk s else mm_heap_first s)
          (mem_brk s).

Lemma grown_rep s l need :
  heap_rep s l -> need mod ALIGNMENT = 0 -> 16 <= need ->
  mem_brk s + need <= mem_max_addr s ->
  heap_rep (grown s need) (l ++ [mkBlk (mem_brk s) need true]).
Proof.
  intros Hrep Hal Hpos Hroom.
  destruct (first_block_aligned s l Hrep) as [_ H8].
  pose proof Hrep as [H0 Ha Hmax Hfirst Hlast Hc Hs Hh].
  destruct (blocks_bounds _ _ _ Hc Hs) as [Hle [_ Hin]].
  assert (Hst : heap_start (l ++ [mkBlk (mem_brk s) need true]) (mem_brk s + need)
                = heap_start l (mem_brk s)) by (destruct l; reflexivity).
  unfold ALIGNMENT in *.
  constructor; cbn [heap mem_brk mem_max_addr mm_heap_first mm_heap_last grown];
    rewrite ?Hst; try assumption; try layout_lia.
  - rewrite Hfirst. destruct l as [|c r]; [reflexivity|]. simpl.
    assert (Hc8 : 8 <= b_addr c) by (simpl in H8; assumption).
    replace (b_addr c =? NULL) with false
      by (symmetry; apply Z.eqb_neq; unfold NULL; lia).
    reflexivity.
  - destruct (l ++ [mkBlk (mem_brk s) need true]) eqn:E;
      [destruct l; discriminate|]. lia.
  - apply chain_app. exists (mem_brk s). split; [assumption|].
    simpl. unfold b_end. simpl. auto.
  - apply Forall_app. split; [assumption|]. constructor; [|constructor].
    split; simpl; unfold ALIGNMENT; lia.
  - apply Forall_app. split.
    + apply Forall_forall. intros c Hc'.
      apply (hdr_ok_frame (heap s)); [|exact (proj1 (Forall_forall _ _) Hh c Hc')].
      intros y Hy. apply set_header_other_bytes. destruct (Hin c Hc') as [_ [He _]].
      pose proof (proj1 (Forall_forall _ _) Hs c Hc') as [_ Hp].
      unfold b_end, ALIGNMENT in *. lia.
    + constructor; [|constructor].
      apply (set_header_hdr (heap s) (mkBlk (mem_brk s) need true)); simpl; layout_lia.
Qed.

(** ** Allocation *)

(** Requests whose block size is computed without wrap-around. *)
Definition request_ok (n : Z) : Prop := 0 <= n /\ n + 23 < Word.modulus.

(** [round_up(header + n, ALIGNMENT)] over the integers. *)
Definition need_of (n : Z) : Z :=
  (SIZEOF_BLOCK + n + (ALIGNMENT - 1)) / ALIGNMENT * ALIGNMENT.

(** The block sequence after the coalescing pass. *)
Definition coalesced (s : state) (l : list blk) : list blk :=
  merge_free (reach (mm_heap_last s) l) ++ beyond (mm_heap_last s) l.

Section Allocation.

Lemma request_size_need n : request_ok n -> request_size n = need_of n.
Proof.
  intros [H0 H1]. unfold request_size, round_up, need_of, Word.wrap.
  change Word.modulus with 18446744073709551616 in *.
  unfold SIZEOF_BLOCK, ALIGNMENT.
  rewrite (Z.mod_small (8 + n)) by lia.
  rewrite (Z.mod_small (8 + n + (16 - 1))) by lia.
  apply Z.mod_small. lia.
Qed.

Lemma need_of_bounds n :
  0 <= n -> need_of n mod 16 = 0 /\ n + 8 <= need_of n <= n + 23 /\ 16 <= need_of n.
Proof.
  intros H. unfold need_of, SIZEOF_BLOCK, ALIGNMENT. lia.
Qed.

Lemma find_fit_on_heap fuel s l need :
  heap_rep s l -> 0 <= need -> (length l < fuel)%nat ->
  find_fit fuel s need
  = Some (match first_fit (mm_heap_last s) need l with
          | Some b => (place s (b_addr b) (b_size b) need, b_addr b)
          | None => (s, NULL)
          end).
Proof.
  intros Hrep Hneed Hfuel. pose proof Hrep as [H0 Hal Hmax Hfirst Hlast Hc Hs Hh].
  destruct (first_block_aligned s l Hrep) as [_ H8].
  unfold find_fit. destruct l as [|b r].
  - destruct fuel as [|k]; [simpl in Hfuel; lia|].
    cbn [find_fit_from first_fit]. rewrite Hlast. reflexivity.
  - assert (Hf : mm_heap_first s = heap_start (b :: r) (mem_brk s))
      by (rewrite Hfirst; reflexivity).
    rewrite Hf. apply find_fit_walk; try assumption; layout_lia.
Qed.

(** The three ways [mm_malloc] ends. *)
Lemma mm_malloc_cases fuel s l n :
  heap_rep s l -> break_word_ok s l -> request_ok n -> (length l + 1 < fuel)%nat ->
  exists m0,
    heap_rep (with_heap s m0) (coalesced s l) /\
    unchanged_outside (free_headers (reach (mm_heap_last s) l)) (heap s) m0 /\
    match first_fit (mm_heap_last s) (need_of n) (coalesced s l) with
    | Some b =>
        mm_malloc fuel s n
        = Done (marked (with_heap s m0) (b_addr b) (b_size b) (need_of n),
                payload_of (b_addr b))
    | None =>
        if mem_brk s + need_of n <=? mem_max_addr s
        then mm_malloc fuel s n
             = Done (grown (with_heap s m0) (need_of n), payload_of (mem_brk s))
        else mm_malloc fuel s n = Done (with_heap s m0, NULL)
    end.
Proof.
  intros Hrep Hend Hreq Hfuel.
  destruct (need_of_bounds n (proj1 Hreq)) as [Nal [Nb N16]].
  destruct (coalesce_pass fuel s l Hrep Hend Hfuel) as [m0 [E [Hrep0 Hu]]].
  exists m0. split; [exact Hrep0|]. split; [exact Hu|].
  fold (coalesced s l) in Hrep0.
  unfold mm_malloc. rewrite (request_size_need n Hreq), E.
  rewrite (find_fit_on_heap fuel _ _ (need_of n) Hrep0);
    [| lia | pose proof (merged_length (mm_heap_last s) l); unfold coalesced; lia].
  change (mm_heap_last (with_heap s m0)) with (mm_heap_last s).
  destruct (first_fit (mm_heap_last s) (need_of n) (coalesced s l)) as [b|] eqn:Eff.
  - destruct (first_fit_found _ _ _ _ Eff) as [l1 [l2 [El [_ _]]]].
    assert (HB : In b (coalesced s l))
      by (rewrite El; apply in_or_app; right; left; reflexivity).
    destruct (block_decoded _ _ Hrep0 _ HB) as [H8 _].
    replace (b_addr b =? NULL) with false
      by (symmetry; apply Z.eqb_neq; unfold NULL; lia).
    reflexivity.
  - change (NULL =? NULL) with true. cbn [negb].
    unfold mem_sbrk. cbn [mem_brk mem_max_addr with_heap].
    destruct (mem_brk s + need_of n <=? mem_max_addr s) eqn:Er; [|rewrite Z.eqb_refl; reflexivity].
    destruct Hrep as [_ _ Hmax _ _ _ _ _].
    replace (mem_brk s =? SBRK_FAILED) with false
      by (symmetry; apply Z.eqb_neq; unfold SBRK_FAILED; layout_lia).
    unfold grown. cbn [mm_heap_first with_heap heap mem_brk mem_max_addr mm_heap_last].
    destruct (mm_heap_first s =? NULL); reflexivity.
Qed.

End Allocation.

(** ** Concrete heaps *)

Module Examples.

(** A zero-filled region of 1024 bytes starting at address 4096. *)
Definition raw : state := mkState (fun _ => 0) 4096 5120 0 0.

Definition state_of (o : outcome (state * Z)) : state :=
  match o with Done (s, _) => s | _ => raw end.

Definition fresh : state := fst (mm_init raw).

(** [a = allocate(40); b = allocate(8); c = allocate(24)]: blocks of 48, 16
    and 32 bytes at 4104, 4152 and 4168. *)
Definition three : state :=
  state_of (mm_malloc 5 (state_of (mm_malloc 5 (state_of (mm_malloc 5 fresh 40)) 8)) 24).

Definition three_blocks : list blk :=
  [mkBlk 4104 48 true; mkBlk 4152 16 true; mkBlk 4168 32 true].

(** Then [free(a); free(b)]: two adjacent free blocks. *)
Definition two_free : state := mm_free (mm_free three 4112) 4160.

Definition two_free_blocks : list blk :=
  [mkBlk 4104 48 false; mkBlk 4152 16 false; mkBlk 4168 32 true].

Lemma three_rep : heap_rep three three_blocks.
Proof.
  constructor.
  - vm_compute. congruence.
  - vm_compute. reflexivity.
  - vm_compute. split; [congruence | reflexivity].
  - vm_compute. reflexivity.
  - vm_compute. split; [congruence | reflexivity].
  - vm_compute. auto.
  - repeat constructor; vm_compute; congruence.
  - repeat constructor; vm_compute; reflexivity.
Qed.

Lemma two_free_rep : heap_rep two_free two_free_blocks.
Proof.
  constructor.
  - vm_compute. congruence.
  - vm_compute. reflexivity.
  - vm_compute. split; [congruence | reflexivity].
  - vm_compute. reflexivity.
  - vm_compute. split; [congruence | reflexivity].
  - vm_compute. auto.
  - repeat constructor; vm_compute; congruence.
  - repeat constructor; vm_compute; reflexivity.
Qed.

(** Instead [free(b); free(c)]: the last two blocks are free. *)
Definition tail_free : state := mm_free (mm_free three 4160) 4176.

Definition tail_free_blocks : list blk :=
  [mkBlk 4104 48 true; mkBlk 4152 16 false; mkBlk 4168 32 false].

Lemma tail_free_rep : heap_rep tail_free tail_free_blocks.
Proof.
  constructor.
  - vm_compute. congruence.
  - vm_compute. reflexivity.
  - vm_compute. split; [congruence | reflexivity].
  - vm_compute. reflexivity.
  - vm_compute. split; [congruence | reflexivity].
  - vm_compute. auto.
  - repeat constructor; vm_compute; congruence.
  - repeat constructor; vm_compute; reflexivity.
Qed.

(** Above the break the example region is zero-filled. *)
Lemma tail_free_break_word : break_word_ok tail_free tail_free_blocks.
Proof. intros _. vm_compute. reflexivity. Qed.

(** The same heap in a region that holds the word [2^64 - 96] at the break
    4200: [4200 + (2^64 - 96)] is 4104 modulo 2^64, the first block. *)
Definition stale_break : state :=
  with_heap tail_free (store64 (heap tail_free) 4200 (Word.modulus - 96)).

Lemma stale_break_rep : heap_rep stale_break tail_free_blocks.
Proof.
  constructor.
  - vm_compute. congruence.
  - vm_compute. reflexivity.
  - vm_compute. split; [congruence | reflexivity].
  - vm_compute. reflexivity.
  - vm_compute. split; [congruence | reflexivity].
  - vm_compute. auto.
  - repeat constructor; vm_compute; congruence.
  - repeat constructor; vm_compute; reflexivity.
Qed.

End Examples.

(** ** Properties of the implicit-list variant *)

Section Reachability.

Lemma reach_all last : forall l,
  (forall c, In c l -> b_addr c <= last) -> reach last l = l /\ beyond last l = [].
Proof.
  induction l as [|b r IH]; intros H; [split; reflexivity|]. simpl.
  replace (b_addr b <=? last) with true
    by (symmetry; apply Z.leb_le; apply H; left; reflexivity).
  destruct IH as [-> ->]; [intros c Hc; apply H; right; assumption|].
  split; reflexivity.
Qed.

Lemma below_last_block a l e :
  chain a l e -> Forall block_ok l ->
  forall c, In c l -> b_addr c <= last (map b_addr l) NULL.
Proof.
  intros Hc Hs c Hin.
  destruct (list_snoc_cases l) as [->|[l' [z ->]]]; [destruct Hin|].
  rewrite map_app. cbn [map]. rewrite last_last.
  apply chain_split in Hc. destruct Hc as [Hc _].
  apply Forall_app in Hs. destruct Hs as [Hs _].
  apply in_app_or in Hin. destruct Hin as [Hin|[<-|[]]]; [|simpl; lia].
  destruct (blocks_bounds _ _ _ Hc Hs) as [_ [_ H]]. destruct (H c Hin) as [_ [He _]].
  pose proof (proj1 (Forall_forall _ _) Hs c Hin) as [_ Hp].
  unfold b_end, ALIGNMENT in *. simpl. lia.
Qed.

Lemma allocated_untouched_by_pass s l d y :
  heap_rep s l -> In d l -> b_alloc d = true -> b_addr d <= y < b_end d ->
  ~ free_headers (reach (mm_heap_last s) l) y.
Proof.
  intros [_ _ _ _ _ Hc Hs _] Hd Hal Hy [c [Hin [Hcal Hcy]]].
  apply reach_incl in Hin.
  pose proof (proj1 (Forall_forall _ _) Hs c Hin) as [_ Hp]. unfold ALIGNMENT in Hp.
  destruct (blocks_disjoint _ _ _ _ _ Hc Hs Hd Hin) as [->|[?|?]];
    [congruence | unfold b_end in *; lia | unfold b_end in *; lia].
Qed.

Lemma allocated_in_coalesced s l d :
  In d l -> b_alloc d = true -> In d (coalesced s l).
Proof.
  intros Hd Hal. unfold coalesced.
  rewrite <- (reach_beyond (mm_heap_last s) l) in Hd.
  apply in_app_or in Hd. apply in_or_app. destruct Hd as [Hd|Hd]; [left | right; assumption].
  apply merge_free_keeps_allocated; assumption.
Qed.

End Reachability.

(** [mm_free] only rewrites the header of the block: the block keeps its
    size and is free afterwards, whether it was allocated or already free;
    no other byte and no variable of the allocator changes.  Nothing is
    merged at this point: a free neighbour stays a separate block. *)
Theorem mm_free_only_clears_flag
    (s : state) (l1 l2 : list blk) (b sz : Z) (al : bool) :
  heap_rep s (l1 ++ [mkBlk b sz al] ++ l2) ->
  heap_rep (mm_free s (payload_of b)) (l1 ++ [mkBlk b sz false] ++ l2) /\
  (forall y, ~ (b <= y < b + SIZEOF_BLOCK) ->
             heap (mm_free s (payload_of b)) y = heap s y) /\
  mem_brk (mm_free s (payload_of b)) = mem_brk s /\
  mm_heap_first (mm_free s (payload_of b)) = mm_heap_first s /\
  mm_heap_last (mm_free s (payload_of b)) = mm_heap_last s.
Proof.
  intros Hrep. rewrite (mm_free_state s l1 b sz al l2 Hrep).
  split; [apply (retag_block s l1 b sz al false l2 Hrep)|].
  split; [|repeat split].
  intros y Hy. cbn [heap with_heap]. apply set_header_other_bytes.
  unfold SIZEOF_BLOCK in Hy. lia.
Qed.

Lemma mm_free_only_clears_flag_witness :
  heap_rep (mm_free Examples.three (payload_of 4152))
    ([mkBlk 4104 48 true] ++ [mkBlk 4152 16 false] ++ [mkBlk 4168 32 true]) /\
  (forall y, ~ (4152 <= y < 4152 + SIZEOF_BLOCK) ->
             heap (mm_free Examples.three (payload_of 4152)) y = heap Examples.three y) /\
  mem_brk (mm_free Examples.three (payload_of 4152)) = mem_brk Examples.three /\
  mm_heap_first (mm_free Examples.three (payload_of 4152)) = mm_heap_first Examples.three /\
  mm_heap_last (mm_free Examples.three (payload_of 4152)) = mm_heap_last Examples.three.
Proof.
  apply (mm_free_only_clears_flag Examples.three
           [mkBlk 4104 48 true] [mkBlk 4168 32 true] 4152 16 true).
  exact Examples.three_rep.
Defined.

(** The coalescing pass at the start of [mm_malloc] (delayed coalescing).
    When the last block is free and at or below [mm_heap_last], the pass
    reads the word stored at the break, outside the heap, and advances by it;
    the pass is only known to end if that advance, modulo 2^64, leads above
    [mm_heap_last] ([break_word_ok]).  Under this condition the pass returns
    and, among the blocks at or below [mm_heap_last], every maximal run of
    consecutive free blocks becomes one free block, so that no two adjacent
    ones are both free; the pass does not move [mm_heap_last]; allocated
    blocks stay and none of their bytes changes.  When [mm_heap_last] is the
    address of the last block, the pass covers the whole heap. *)
Theorem coalescing_pass_merges_free_runs (fuel : nat) (s : state) (l : list blk) :
  heap_rep s l -> break_word_ok s l -> (length l + 1 < fuel)%nat ->
  exists s0,
    coalesce_from fuel s (mm_heap_first s) = Some s0 /\
    heap_rep s0 (merge_free (reach (mm_heap_last s) l) ++ beyond (mm_heap_last s) l) /\
    no_adjacent_free (merge_free (reach (mm_heap_last s) l)) /\
    mm_heap_last s0 = mm_heap_last s /\
    (mm_heap_last s = last (map b_addr l) NULL ->
       reach (mm_heap_last s) l = l /\ beyond (mm_heap_last s) l = []) /\
    (forall d, In d l -> b_alloc d = true ->
       In d (merge_free (reach (mm_heap_last s) l) ++ beyond (mm_heap_last s) l) /\
       forall y, b_addr d <= y < b_end d -> heap s0 y = heap s y).
Proof.
  intros Hrep Hend Hfuel.
  destruct (coalesce_pass fuel s l Hrep Hend Hfuel) as [m0 [E [Hrep0 Hu]]].
  exists (with_heap s m0). split; [assumption|]. split; [assumption|].
  split; [apply merge_free_no_adjacent|]. split; [reflexivity|]. split.
  - intros El. apply reach_all. intros c Hc. rewrite El.
    destruct Hrep as [_ _ _ _ _ Hch Hs _].
    apply (below_last_block _ _ _ Hch Hs c Hc).
  - intros d Hd Hal. split; [apply (allocated_in_coalesced s l d Hd Hal)|].
    intros y Hy. cbn [heap with_heap]. apply Hu.
    apply (allocated_untouched_by_pass s l d y Hrep Hd Hal Hy).
Qed.

Lemma coalescing_pass_merges_free_runs_witness :
  exists s0,
    coalesce_from 5 Examples.tail_free (mm_heap_first Examples.tail_free) = Some s0 /\
    heap_rep s0
      (merge_free (reach (mm_heap_last Examples.tail_free) Examples.tail_free_blocks)
       ++ beyond (mm_heap_last Examples.tail_free) Examples.tail_free_blocks) /\
    no_adjacent_free
      (merge_free (reach (mm_heap_last Examples.tail_free) Examples.tail_free_blocks)) /\
    mm_heap_last s0 = mm_heap_last Examples.tail_free /\
    (mm_heap_last Examples.tail_free = last (map b_addr Examples.tail_free_blocks) NULL ->
       reach (mm_heap_last Examples.tail_free) Examples.tail_free_blocks
       = Examples.tail_free_blocks /\
       beyond (mm_heap_last Examples.tail_free) Examples.tail_free_blocks = []) /\
    (forall d, In d Examples.tail_free_blocks -> b_alloc d = true ->
       In d (merge_free (reach (mm_heap_last Examples.tail_free) Examples.tail_free_blocks)
             ++ beyond (mm_heap_last Examples.tail_free) Examples.tail_free_blocks) /\
       forall y, b_addr d <= y < b_end d -> heap s0 y = heap Examples.tail_free y).
Proof.
  apply (coalescing_pass_merges_free_runs 5 Examples.tail_free Examples.tail_free_blocks).
  - exact Examples.tail_free_rep.
  - exact Examples.tail_free_break_word.
  - simpl. lia.
Defined.

(** [find_fit] is first fit in address order over the blocks at or below
    [mm_heap_last]: it returns (with enough fuel) and its result is either
    null, when none of these blocks is free and large enough, or the first
    such block.  It splits that block whenever it is larger than the request:
    the first part gets the requested size and is marked allocated, the rest
    becomes a free block (possibly of 16 bytes only); a block of exactly the
    requested size is returned as it is. *)
Theorem find_fit_first_fit_and_split
    (fuel : nat) (s : state) (l : list blk) (need : Z) :
  heap_rep s l -> need mod ALIGNMENT = 0 -> ALIGNMENT <= need ->
  (length l < fuel)%nat ->
  exists s1 r,
    find_fit fuel s need = Some (s1, r) /\
    ((r = NULL /\ s1 = s /\
      forall c, In c (reach (mm_heap_last s) l) -> b_alloc c = true \/ b_size c < need) \/
     (exists l1 sz l2,
        l = l1 ++ [mkBlk r sz false] ++ l2 /\ need <= sz /\ r <= mm_heap_last s /\
        (forall c, In c l1 -> b_alloc c = true \/ b_size c < need) /\
        heap_rep s1
          (l1 ++ (if need <? sz
                  then [mkBlk r need true; mkBlk (r + need) (sz - need) false]
                  else [mkBlk r sz false]) ++ l2))).
Proof.
  intros Hrep Hal Hneed Hfuel. unfold ALIGNMENT in Hneed.
  rewrite (find_fit_on_heap fuel s l need Hrep) by (assumption || lia).
  destruct (first_fit (mm_heap_last s) need l) as [b|] eqn:E.
  - destruct (first_fit_found _ _ _ _ E) as [l1 [l2 [El [Hbal [Hfit [Hr Hsmall]]]]]].
    destruct b as [x sz al]. simpl in Hbal, Hfit, Hr. subst al. cbn [b_addr b_size].
    exists (place s x sz need), x. split; [reflexivity|].
    right. exists l1, sz, l2. do 4 (split; [assumption|]).
    rewrite El in Hrep.
    apply (place_rep s l1 l2 x sz need Hrep Hal). lia.
  - exists s, NULL. split; [reflexivity|]. left.
    split; [reflexivity|]. split; [reflexivity|]. apply first_fit_none. assumption.
Qed.

Lemma find_fit_first_fit_and_split_witness :
  exists s1 r,
    find_fit 4 Examples.two_free 16 = Some (s1, r) /\
    ((r = NULL /\ s1 = Examples.two_free /\
      forall c, In c (reach (mm_heap_last Examples.two_free) Examples.two_free_blocks) ->
                b_alloc c = true \/ b_size c < 16) \/
     (exists l1 sz l2,
        Examples.two_free_blocks = l1 ++ [mkBlk r sz false] ++ l2 /\ 16 <= sz /\
        r <= mm_heap_last Examples.two_free /\
        (forall c, In c l1 -> b_alloc c = true \/ b_size c < 16) /\
        heap_rep s1
          (l1 ++ (if 16 <? sz
                  then [mkBlk r 16 true; mkBlk (r + 16) (sz - 16) false]
                  else [mkBlk r sz false]) ++ l2))).
Proof.
  apply (find_fit_first_fit_and_split 4 Examples.two_free Examples.two_free_blocks 16).
  - exact Examples.two_free_rep.
  - reflexivity.
  - vm_compute. congruence.
  - simpl. lia.
Defined.

Section AllocationResult.

Lemma coalesced_keeps s l m0 d y :
  heap_rep s l ->
  unchanged_outside (free_headers (reach (mm_heap_last s) l)) (heap s) m0 ->
  In d l -> b_alloc d = true -> b_addr d <= y < b_end d -> m0 y = heap s y.
Proof.
  intros Hrep Hu Hd Hal Hy. apply Hu.
  apply (allocated_untouched_by_pass s l d y Hrep Hd Hal Hy).
Qed.

Lemma placed_has_block x sz need :
  16 <= need <= sz ->
  exists c, In c (placed x sz need) /\ b_alloc c = true /\ b_addr c = x /\
            need <= b_size c <= sz.
Proof.
  intros H. unfold placed. destruct (need <? sz) eqn:E.
  - apply Z.ltb_lt in E. exists (mkBlk x need true). simpl. repeat split; auto; lia.
  - exists (mkBlk x sz true). simpl. repeat split; auto; lia.
Qed.

End AllocationResult.

(** [mm_malloc] of the implicit-list variant, for a request whose block size
    does not wrap ([n + 23 < 2^64]) on a well-formed heap where the word at
    the break does not carry the coalescing pass back ([break_word_ok]): it
    returns (with enough fuel) in a well-formed heap; every block that was
    allocated before is still there and none of its bytes has changed; a
    non-null result is 16-byte aligned and is the payload of an allocated
    block inside the region with room for the [n] requested bytes, which
    overlaps no block that was allocated before. *)
Theorem mm_malloc_result (fuel : nat) (s : state) (l : list blk) (n : Z) :
  heap_rep s l -> break_word_ok s l -> request_ok n -> (length l + 1 < fuel)%nat ->
  exists s' p l',
    mm_malloc fuel s n = Done (s', p) /\ heap_rep s' l' /\
    (forall d, In d l -> b_alloc d = true ->
       In d l' /\ forall y, b_addr d <= y < b_end d -> heap s' y = heap s y) /\
    (p <> NULL ->
       p mod ALIGNMENT = 0 /\
       exists c, In c l' /\ b_alloc c = true /\ p = payload_of (b_addr c) /\
                 p + n <= b_end c /\ b_end c <= mem_brk s' /\
                 forall d, In d l -> b_alloc d = true ->
                           b_end d <= b_addr c \/ b_end c <= b_addr d).
Proof.
  intros Hrep Hbw Hreq Hfuel.
  destruct (need_of_bounds n (proj1 Hreq)) as [Nal [Nb N16]]. pose proof Hreq as [Hn0 _].
  destruct (mm_malloc_cases fuel s l n Hrep Hbw Hreq Hfuel) as [m0 [Hrep0 [Hu Hcase]]].
  set (s0 := with_heap s m0) in *.
  assert (Hkeep0 : forall d, In d l -> b_alloc d = true ->
            In d (coalesced s l) /\
            forall y, b_addr d <= y < b_end d -> heap s0 y = heap s y).
  { intros d Hd Hal. split; [apply allocated_in_coalesced; assumption|].
    intros y Hy. apply (coalesced_keeps s l m0 d y Hrep Hu Hd Hal Hy). }
  destruct (first_fit (mm_heap_last s) (need_of n) (coalesced s l)) as [b|] eqn:Eff.
  - (* placed in a free block *)
    destruct (first_fit_found _ _ _ _ Eff) as [l1 [l2 [El [Hbal [Hfit [_ _]]]]]].
    destruct b as [x sz al]. simpl in Hbal, Hfit. subst al. cbn [b_addr b_size] in *.
    rewrite El in Hrep0.
    pose proof (marked_rep s0 l1 l2 x sz (need_of n) Hrep0 Nal ltac:(lia)) as Hrep'.
    assert (HB : In (mkBlk x sz false) (l1 ++ [mkBlk x sz false] ++ l2))
      by (apply in_or_app; right; left; reflexivity).
    destruct (block_decoded _ _ Hrep0 _ HB) as [Hx8 [Hxm _]]. simpl in Hx8, Hxm.
    pose proof Hrep0 as [_ _ _ _ _ Hch0 Hs0 _].
    assert (Hother : forall d, In d l -> b_alloc d = true ->
              (In d l1 \/ In d l2) /\ (b_end d <= x \/ x + sz <= b_addr d)).
    { intros d Hd Hal. destruct (Hkeep0 d Hd Hal) as [Hin _]. rewrite El in Hin.
      split.
      - apply in_app_or in Hin. destruct Hin as [Hin|[Hin|Hin]]; auto.
        subst d. discriminate.
      - destruct (blocks_disjoint _ _ _ _ _ Hch0 Hs0 Hin HB) as [->|[?|?]];
          [discriminate | left; assumption | right; assumption]. }
    exists (marked s0 x sz (need_of n)), (payload_of x),
      (l1 ++ placed x sz (need_of n) ++ l2).
    split; [exact Hcase|]. split; [exact Hrep'|]. split.
    + intros d Hd Hal. destruct (Hother d Hd Hal) as [Hin Hdis]. split.
      * apply in_or_app. destruct Hin as [Hin|Hin]; [left; assumption|].
        right. apply in_or_app. right. assumption.
      * intros y Hy.
        rewrite (marked_outside s0 x sz (need_of n) Nal ltac:(lia))
          by (unfold b_end in *; lia).
        apply (proj2 (Hkeep0 d Hd Hal)). assumption.
    + intros _. split; [unfold payload_of, ALIGNMENT; layout_lia|].
      destruct (placed_has_block x sz (need_of n)) as [c [Hc [Hcal [Hca Hcs]]]]; [lia|].
      assert (Hc' : In c (l1 ++ placed x sz (need_of n) ++ l2)).
      { apply in_or_app. right. apply in_or_app. left. assumption. }
      destruct (block_decoded _ _ Hrep' _ Hc') as [_ [_ [Hend _]]].
      exists c. split; [assumption|]. split; [assumption|].
      split; [rewrite Hca; reflexivity|].
      split; [unfold payload_of, b_end; layout_lia|]. split; [assumption|].
      intros d Hd Hal. destruct (Hother d Hd Hal) as [_ Hdis].
      unfold b_end in *. lia.
  - destruct (mem_brk s + need_of n <=? mem_max_addr s) eqn:Er.
    + (* placed in new memory *)
      apply Z.leb_le in Er.
      pose proof (grown_rep s0 _ (need_of n) Hrep0 Nal N16 Er) as Hrep'.
      exists (grown s0 (need_of n)), (payload_of (mem_brk s)),
        (coalesced s l ++ [mkBlk (mem_brk s) (need_of n) true]).
      split; [exact Hcase|]. split; [exact Hrep'|].
      assert (Hend : forall d, In d l -> b_alloc d = true -> b_end d <= mem_brk s).
      { intros d Hd Hal. destruct (block_decoded s l Hrep d Hd) as [_ [_ [He _]]]. exact He. }
      split.
      * intros d Hd Hal. split; [apply in_or_app; left; apply Hkeep0; assumption|].
        intros y Hy. unfold grown. cbn [heap].
        rewrite set_header_other_bytes by (specialize (Hend d Hd Hal); cbn; lia).
        apply (proj2 (Hkeep0 d Hd Hal)). assumption.
      * intros _. destruct Hrep as [_ Hal _ _ _ _ _ _]. unfold ALIGNMENT in Hal.
        split; [unfold payload_of, ALIGNMENT; layout_lia|].
        exists (mkBlk (mem_brk s) (need_of n) true).
        split; [apply in_or_app; right; left; reflexivity|].
        split; [reflexivity|]. split; [reflexivity|].
        split; [unfold payload_of, b_end; simpl; layout_lia|].
        split; [unfold b_end; simpl; cbn; lia|].
        intros d Hd Hdal. left. simpl. apply Hend; assumption.
    + (* no memory *)
      exists s0, NULL, (coalesced s l).
      split; [exact Hcase|]. split; [exact Hrep0|]. split.
      * intros d Hd Hal. apply Hkeep0; assumption.
      * intros H. exfalso. apply H. reflexivity.
Qed.

Lemma mm_malloc_result_witness :
  exists s' p l',
    mm_malloc 5 Examples.tail_free 50 = Done (s', p) /\ heap_rep s' l' /\
    (forall d, In d Examples.tail_free_blocks -> b_alloc d = true ->
       In d l' /\ forall y, b_addr d <= y < b_end d ->
                            heap s' y = heap Examples.tail_free y) /\
    (p <> NULL ->
       p mod ALIGNMENT = 0 /\
       exists c, In c l' /\ b_alloc c = true /\ p = payload_of (b_addr c) /\
                 p + 50 <= b_end c /\ b_end c <= mem_brk s' /\
                 forall d, In d Examples.tail_free_blocks -> b_alloc d = true ->
                           b_end d <= b_addr c \/ b_end c <= b_addr d).
Proof.
  apply (mm_malloc_result 5 Examples.tail_free Examples.tail_free_blocks 50).
  - exact Examples.tail_free_rep.
  - exact Examples.tail_free_break_word.
  - split; [lia|]. change Word.modulus with 18446744073709551616. lia.
  - simpl. lia.
Defined.

(** ** Initialisation *)

(** On a region whose start is 16-byte aligned, [mm_init] pads the heap by 8
    bytes and leaves it with no blocks; the first [mm_malloc] then extends the
    region and returns the 16-byte aligned payload 16 bytes above the start of
    the region, in the block that becomes both the first and the last one. *)
Theorem implicit_init_then_allocate (fuel : nat) (s : state) (n : Z) :
  0 <= mem_brk s -> mem_brk s mod ALIGNMENT = 0 ->
  mem_max_addr s + ALIGNMENT < Word.modulus ->
  request_ok n -> mem_brk s + 8 + need_of n <= mem_max_addr s ->
  (1 < fuel)%nat ->
  exists s0 s1,
    mm_init s = (s0, true) /\ heap_rep s0 [] /\
    mm_malloc fuel s0 n = Done (s1, mem_brk s + ALIGNMENT) /\
    heap_rep s1 [mkBlk (mem_brk s + 8) (need_of n) true] /\
    mm_heap_first s1 = mem_brk s + 8 /\ mm_heap_last s1 = mem_brk s + 8.
Proof.
  intros H0 Hal Hmax Hreq Hroom Hfuel.
  destruct (need_of_bounds n (proj1 Hreq)) as [Nal [Nb N16]].
  set (s0 := mkState (heap s) (mem_brk s + 8) (mem_max_addr s) NULL NULL).
  assert (Ei : mm_init s = (s0, true)).
  { unfold mm_init, mem_sbrk.
    change (ALIGNMENT - SIZEOF_BLOCK) with 8.
    replace (mem_brk s + 8 <=? mem_max_addr s) with true
      by (symmetry; apply Z.leb_le; lia).
    replace (mem_brk s =? SBRK_FAILED) with false
      by (symmetry; apply Z.eqb_neq; unfold SBRK_FAILED, ALIGNMENT in *; lia).
    reflexivity. }
  assert (Hrep0 : heap_rep s0 []).
  { constructor; cbn [heap_start mem_brk mem_max_addr mm_heap_first mm_heap_last s0 map hd].
    - lia.
    - unfold ALIGNMENT in *. lia.
    - split; [lia | assumption].
    - reflexivity.
    - reflexivity.
    - simpl. reflexivity.
    - constructor.
    - constructor. }
  assert (Hend0 : break_word_ok s0 []) by (intros H; discriminate H).
  destruct (mm_malloc_cases fuel s0 [] n Hrep0 Hend0 Hreq) as [m0 [Hrep1 [_ Hcase]]];
    [simpl; lia|].
  change (coalesced s0 []) with (@nil blk) in Hrep1, Hcase.
  cbn [first_fit] in Hcase.
  change (mem_brk s0) with (mem_brk s + 8) in Hcase.
  change (mem_max_addr s0) with (mem_max_addr s) in Hcase.
  replace (mem_brk s + 8 + need_of n <=? mem_max_addr s) with true in Hcase
    by (symmetry; apply Z.leb_le; lia).
  exists s0, (grown (with_heap s0 m0) (need_of n)).
  split; [exact Ei|]. split; [exact Hrep0|]. split.
  - rewrite Hcase. unfold payload_of, PAYLOAD_OFFSET, ALIGNMENT.
    replace (mem_brk s + 8 + 8) with (mem_brk s + 16) by lia. reflexivity.
  - split.
    + apply (grown_rep (with_heap s0 m0) [] (need_of n) Hrep1 Nal N16).
      cbn [mem_brk mem_max_addr with_heap s0]. lia.
    + split; reflexivity.
Qed.

Lemma implicit_init_then_allocate_witness :
  exists s0 s1,
    mm_init Examples.raw = (s0, true) /\ heap_rep s0 [] /\
    mm_malloc 2 s0 40 = Done (s1, mem_brk Examples.raw + ALIGNMENT) /\
    heap_rep s1 [mkBlk (mem_brk Examples.raw + 8) (need_of 40) true] /\
    mm_heap_first s1 = mem_brk Examples.raw + 8 /\
    mm_heap_last s1 = mem_brk Examples.raw + 8.
Proof.
  apply (implicit_init_then_allocate 2 Examples.raw 40).
  - simpl. lia.
  - reflexivity.
  - simpl. change Word.modulus with 18446744073709551616. unfold ALIGNMENT. lia.
  - split; [lia|]. change Word.modulus with 18446744073709551616. lia.
  - vm_compute. congruence.
  - lia.
Defined.

(** ** A free remainder that later walks do not see *)

Section HiddenRemainder.

Lemma merge_free_allocated_prefix : forall l1 r,
  Forall (fun c => b_alloc c = true) l1 -> merge_free (l1 ++ r) = l1 ++ merge_free r.
Proof.
  induction l1 as [|c l1 IH]; intros r H; [reflexivity|].
  inversion H as [|? ? Hc Hl]; subst.
  change ((c :: l1) ++ r) with (c :: (l1 ++ r)).
  rewrite merge_free_alloc by assumption. rewrite IH by assumption. reflexivity.
Qed.

Lemma first_fit_allocated_prefix last need : forall l1 r,
  Forall (fun c => b_alloc c = true) l1 -> (forall c, In c l1 -> b_addr c <= last) ->
  first_fit last need (l1 ++ r) = first_fit last need r.
Proof.
  induction l1 as [|c l1 IH]; intros r H Hr; [reflexivity|].
  inversion H as [|? ? Hc Hl]; subst. simpl.
  replace (b_addr c <=? last) with true
    by (symmetry; apply Z.leb_le; apply Hr; left; reflexivity).
  rewrite Hc. simpl. apply IH; [assumption|]. intros d Hd. apply Hr. right. assumption.
Qed.

Lemma reach_prefix last : forall l1 r,
  (forall c, In c l1 -> b_addr c <= last) ->
  reach last (l1 ++ r) = l1 ++ reach last r /\ beyond last (l1 ++ r) = beyond last r.
Proof.
  induction l1 as [|c l1 IH]; intros r Hr; [split; reflexivity|]. simpl.
  replace (b_addr c <=? last) with true
    by (symmetry; apply Z.leb_le; apply Hr; left; reflexivity).
  destruct (IH r) as [-> ->]; [intros d Hd; apply Hr; right; assumption|].
  split; reflexivity.
Qed.

Lemma marked_fields s x sz need :
  x <> mm_heap_last s ->
  mm_heap_last (marked s x sz need) = mm_heap_last s /\
  mem_brk (marked s x sz need) = mem_brk s /\
  mem_max_addr (marked s x sz need) = mem_max_addr s.
Proof.
  intros Hne. unfold marked, place. cbn [mm_heap_last mem_brk mem_max_addr with_heap].
  destruct (SIZEOF_BLOCK <=? sz - need); [|repeat split].
  replace (x =? mm_heap_last s) with false by (symmetry; apply Z.eqb_neq; assumption).
  repeat split.
Qed.

End HiddenRemainder.

(** Poor reuse of space.  When the last two blocks are free (and the word at
    the break does not carry the coalescing pass back), the pass merges them
    but leaves [mm_heap_last] at the address of the block that was absorbed.
    If an allocation then takes more of the merged block than its first part,
    the free remainder starts above [mm_heap_last] and the heap walks stop
    before it: the next request that would fit in the remainder grows the
    region instead.  Both requests have block sizes that do not wrap. *)
Theorem stale_last_hides_free_remainder
    (fuel : nat) (s : state) (l1 : list blk) (a sa z sz n m : Z) :
  heap_rep s (l1 ++ [mkBlk a sa false; mkBlk z sz false]) ->
  mm_heap_last s = z ->
  z < Word.wrap (mem_brk s + get_size (heap s) (mem_brk s)) ->
  Forall (fun c => b_alloc c = true) l1 ->
  request_ok n -> sa < need_of n < sa + sz ->
  request_ok m -> need_of m <= sa + sz - need_of n ->
  mem_brk s + need_of m <= mem_max_addr s ->
  (length l1 + 3 < fuel)%nat ->
  exists s1 s2,
    mm_malloc fuel s n = Done (s1, payload_of a) /\
    heap_rep s1 (l1 ++ [mkBlk a (need_of n) true;
                        mkBlk (a + need_of n) (sa + sz - need_of n) false]) /\
    mm_heap_last s1 < a + need_of n /\
    mm_malloc fuel s1 m = Done (s2, payload_of (mem_brk s)) /\
    mem_brk s2 = mem_brk s + need_of m.
Proof.
  intros Hrep Hlast Hbw Hall Hreqn Hn Hreqm Hm Hroom Hfuel.
  destruct (need_of_bounds n (proj1 Hreqn)) as [Nal [Nb N16]].
  destruct (need_of_bounds m (proj1 Hreqm)) as [Mal [Mb M16]].
  pose proof Hrep as [_ _ _ _ _ Hch Hs _].
  assert (Hza : z = a + sa).
  { apply chain_split in Hch. destruct Hch as [_ Hch]. simpl in Hch.
    destruct Hch as [Hch _]. unfold b_end in Hch. simpl in Hch. lia. }
  assert (Hl1 : forall c, In c l1 -> b_addr c <= z).
  { intros c Hc.
    assert (Hin : In c (l1 ++ [mkBlk a sa false; mkBlk z sz false]))
      by (apply in_or_app; left; assumption).
    pose proof (below_last_block _ _ _ Hch Hs c Hin) as Hb.
    rewrite map_app in Hb. simpl in Hb.
    change (map b_addr l1 ++ [a; z]) with (map b_addr l1 ++ [a] ++ [z]) in Hb.
    rewrite app_assoc, last_last in Hb. exact Hb. }
  assert (HA : In (mkBlk a sa false) (l1 ++ [mkBlk a sa false; mkBlk z sz false]))
    by (apply in_or_app; right; left; reflexivity).
  destruct (block_decoded _ _ Hrep _ HA) as [Ha8 [_ [_ [_ [Hsa _]]]]]. simpl in Ha8, Hsa.
  (* the first allocation *)
  assert (Hend : break_word_ok s (l1 ++ [mkBlk a sa false; mkBlk z sz false]))
    by (intros _; rewrite Hlast; exact Hbw).
  destruct (mm_malloc_cases fuel s _ n Hrep Hend Hreqn) as [m0 [Hrep0 [_ Hcase]]];
    [rewrite length_app; simpl; lia|].
  assert (Ec : coalesced s (l1 ++ [mkBlk a sa false; mkBlk z sz false])
               = l1 ++ [mkBlk a (sa + sz) false] ++ []).
  { unfold coalesced. rewrite Hlast.
    destruct (reach_prefix z l1 [mkBlk a sa false; mkBlk z sz false] Hl1) as [-> ->].
    cbn [reach beyond b_addr].
    replace (a <=? z) with true by (symmetry; apply Z.leb_le; lia).
    rewrite Z.leb_refl. rewrite app_nil_r.
    rewrite merge_free_allocated_prefix by assumption. reflexivity. }
  rewrite Ec in Hrep0, Hcase. rewrite Hlast in Hcase.
  rewrite first_fit_allocated_prefix in Hcase by assumption.
  cbn [first_fit app b_addr b_alloc b_size negb andb] in Hcase.
  replace (a <=? z) with true in Hcase by (symmetry; apply Z.leb_le; lia).
  replace (need_of n <=? sa + sz) with true in Hcase by (symmetry; apply Z.leb_le; lia).
  set (s0 := with_heap s m0) in *.
  pose proof (marked_rep s0 l1 [] a (sa + sz) (need_of n) Hrep0 Nal ltac:(lia)) as Hrep1.
  unfold placed in Hrep1.
  replace (need_of n <? sa + sz) with true in Hrep1 by (symmetry; apply Z.ltb_lt; lia).
  rewrite app_nil_r in Hrep1.
  destruct (marked_fields s0 a (sa + sz) (need_of n)) as [F1 [F2 F3]];
    [change (mm_heap_last s0) with (mm_heap_last s); lia|].
  change (mm_heap_last s0) with (mm_heap_last s) in F1.
  change (mem_brk s0) with (mem_brk s) in F2.
  change (mem_max_addr s0) with (mem_max_addr s) in F3.
  set (s1 := marked s0 a (sa + sz) (need_of n)) in *.
  (* the second allocation *)
  assert (Hend1 : break_word_ok s1
            (l1 ++ [mkBlk a (need_of n) true;
                    mkBlk (a + need_of n) (sa + sz - need_of n) false])).
  { intros He. exfalso. rewrite F1, Hlast in He.
    change (l1 ++ [mkBlk a (need_of n) true;
                   mkBlk (a + need_of n) (sa + sz - need_of n) false])
      with (l1 ++ [mkBlk a (need_of n) true]
               ++ [mkBlk (a + need_of n) (sa + sz - need_of n) false]) in He.
    rewrite app_assoc, ends_free_last in He. cbn [b_alloc b_addr negb andb] in He.
    apply Z.leb_le in He. lia. }
  destruct (mm_malloc_cases fuel s1 _ m Hrep1 Hend1 Hreqm) as [m1 [_ [_ Hcase1]]];
    [rewrite length_app; simpl; lia|].
  assert (Ec1 : coalesced s1 (l1 ++ [mkBlk a (need_of n) true;
                                    mkBlk (a + need_of n) (sa + sz - need_of n) false])
                = l1 ++ [mkBlk a (need_of n) true;
                         mkBlk (a + need_of n) (sa + sz - need_of n) false]).
  { unfold coalesced. rewrite F1, Hlast.
    destruct (reach_prefix z l1 [mkBlk a (need_of n) true;
                                 mkBlk (a + need_of n) (sa + sz - need_of n) false] Hl1)
      as [-> ->].
    cbn [reach beyond b_addr].
    replace (a <=? z) with true by (symmetry; apply Z.leb_le; lia).
    replace (a + need_of n <=? z) with false by (symmetry; apply Z.leb_gt; lia).
    rewrite merge_free_allocated_prefix by assumption.
    rewrite (merge_free_alloc (mkBlk a (need_of n) true) []) by reflexivity.
    rewrite <- app_assoc. reflexivity. }
  rewrite Ec1, F1, Hlast in Hcase1.
  rewrite first_fit_allocated_prefix in Hcase1 by assumption.
  cbn [first_fit app b_addr b_alloc b_size negb andb] in Hcase1.
  replace (a <=? z) with true in Hcase1 by (symmetry; apply Z.leb_le; lia).
  replace (a + need_of n <=? z) with false in Hcase1 by (symmetry; apply Z.leb_gt; lia).
  rewrite F2, F3 in Hcase1.
  replace (mem_brk s + need_of m <=? mem_max_addr s) with true in Hcase1
    by (symmetry; apply Z.leb_le; assumption).
  exists s1, (grown (with_heap s1 m1) (need_of m)).
  split; [exact Hcase|]. split; [exact Hrep1|]. split; [lia|].
  split; [exact Hcase1|]. cbn [mem_brk grown with_heap]. rewrite F2. reflexivity.
Qed.

Lemma stale_last_hides_free_remainder_witness :
  exists s1 s2,
    mm_malloc 5 Examples.tail_free 24 = Done (s1, payload_of 4152) /\
    heap_rep s1 ([mkBlk 4104 48 true] ++
                 [mkBlk 4152 (need_of 24) true;
                  mkBlk (4152 + need_of 24) (16 + 32 - need_of 24) false]) /\
    mm_heap_last s1 < 4152 + need_of 24 /\
    mm_malloc 5 s1 8 = Done (s2, payload_of (mem_brk Examples.tail_free)) /\
    mem_brk s2 = mem_brk Examples.tail_free + need_of 8.
Proof.
  apply (stale_last_hides_free_remainder 5 Examples.tail_free
           [mkBlk 4104 48 true] 4152 16 4168 32 24 8).
  - exact Examples.tail_free_rep.
  - reflexivity.
  - vm_compute. reflexivity.
  - repeat constructor.
  - split; [lia|]. change Word.modulus with 18446744073709551616. lia.
  - vm_compute. split; reflexivity.
  - split; [lia|]. change Word.modulus with 18446744073709551616. lia.
  - vm_compute. congruence.
  - vm_compute. congruence.
  - simpl. lia.
Defined.

(** ** A word at the break that carries the walk back *)

Section BreakWord.

Lemma ends_free_tail last b r :
  r <> [] -> ends_free last (b :: r) = ends_free last r.
Proof. destruct r; [congruence | reflexivity]. Qed.

Lemma ends_free_app_tail last r1 r2 :
  r2 <> [] -> ends_free last (r1 ++ r2) = ends_free last r2.
Proof.
  intros H. induction r1 as [|c r1 IH]; [reflexivity|].
  change ((c :: r1) ++ r2) with (c :: (r1 ++ r2)).
  rewrite ends_free_tail; [exact IH|].
  destruct r1; [simpl; assumption | discriminate].
Qed.

Lemma ends_free_reach last : forall r a e,
  chain a r e -> Forall block_ok r -> ends_free last r = true ->
  forall c, In c r -> b_addr c <= last.
Proof.
  induction r as [|b r IH]; intros a e Hc Hs He c Hin; [destruct Hin|].
  pose proof (Forall_inv Hs) as Hsb. pose proof (Forall_inv_tail Hs) as Hs'.
  destruct r as [|d r'].
  - destruct Hin as [<-|[]]. simpl in He. apply andb_true_iff in He.
    destruct He as [_ He]. apply Z.leb_le. exact He.
  - simpl in Hc. destruct Hc as [_ Hc].
    change (ends_free last (b :: d :: r')) with (ends_free last (d :: r')) in He.
    destruct Hin as [<-|Hin]; [|apply (IH _ _ Hc Hs' He c Hin)].
    pose proof (IH _ _ Hc Hs' He d (or_introl eq_refl)) as Hd.
    destruct Hc as [Hd0 _]. destruct Hsb as [_ Hp]. unfold b_end, ALIGNMENT in *. lia.
Qed.

(** The inner loop with any amount of fuel: it runs out of fuel or absorbs
    exactly [free_run]. *)
Lemma coalesce_run_partial m last e : forall r fuel a acc,
  chain a r e -> Forall block_ok r -> Forall (hdr_ok m) r ->
  last < e -> 0 <= acc -> acc + (e - a) < Word.modulus ->
  0 <= a -> e < Word.modulus ->
  coalesce_run fuel m last a acc = None \/
  coalesce_run fuel m last a acc
  = Some (heap_start (after_run last r) e, acc + run_size (free_run last r)).
Proof.
  induction r as [|c r IH]; intros fuel a acc Hc Hs Hh Hl Ha Hw Ha0 He.
  - destruct fuel as [|k]; [left; reflexivity|]. right. simpl in Hc. subst a.
    cbn [coalesce_run after_run free_run heap_start].
    replace (e <=? last) with false by (symmetry; apply Z.leb_gt; lia).
    rewrite andb_false_r. unfold run_size. simpl. rewrite Z.add_0_r. reflexivity.
  - destruct fuel as [|k]; [left; reflexivity|].
    simpl in Hc. destruct Hc as [Hca Hc]. subst a.
    pose proof (Forall_inv Hs) as Hsc. pose proof (Forall_inv_tail Hs) as Hs'.
    pose proof (Forall_inv Hh) as Hhc. pose proof (Forall_inv_tail Hh) as Hh'.
    destruct (blocks_bounds _ _ _ Hc Hs') as [Hle _].
    pose proof Hsc as [Hm Hp]. unfold ALIGNMENT in Hp. unfold b_end in *.
    destruct (hdr_decode m c Hhc Hsc) as [Dg Da]; [lia|].
    cbn [coalesce_run after_run free_run]. rewrite Da, Dg.
    destruct (negb (b_alloc c) && (b_addr c <=? last)) eqn:E.
    + rewrite !Word.wrap_small by lia.
      destruct (IH k (b_addr c + b_size c) (acc + b_size c)) as [H|H];
        try assumption; try lia.
      * left. exact H.
      * right. rewrite H. unfold run_size. simpl. rewrite Z.add_assoc. reflexivity.
    + right. unfold run_size. simpl. rewrite Z.add_0_r. reflexivity.
Qed.

(** When the last block is free and at or below [mm_heap_last] and the word
    at the break leads back to the first block, the pass does not end: from
    any block boundary it runs out of any amount of fuel.  [P] are the
    blocks before the position [a], [R] those from [a] on. *)
Lemma walk_never_ends : forall fuel s P R a,
  R <> [] ->
  chain (mm_heap_first s) P a -> chain a R (mem_brk s) ->
  Forall block_ok P -> Forall block_ok R ->
  Forall (hdr_ok (heap s)) P -> Forall (hdr_ok (heap s)) R ->
  8 <= mm_heap_first s -> mem_brk s + 16 < Word.modulus ->
  mm_heap_last s < mem_brk s ->
  ends_free (mm_heap_last s) R = true ->
  Word.wrap (mem_brk s + get_size (heap s) (mem_brk s)) = mm_heap_first s ->
  coalesce_from fuel s a = None.
Proof.
  induction fuel as [|k IH];
    intros s P R a HR HcP HcR HsP HsR HhP HhR H8 Hbrk Hlast Hend Hback;
    [reflexivity|].
  destruct R as [|b r]; [congruence|].
  destruct (blocks_bounds _ _ _ HcP HsP) as [HPa [_ HinP]].
  pose proof (ends_free_reach _ _ _ _ HcR HsR Hend) as Hreach.
  simpl in HcR. destruct HcR as [Hba Hc]. subst a.
  pose proof (Forall_inv HsR) as Hsb. pose proof (Forall_inv_tail HsR) as Hs'.
  pose proof (Forall_inv HhR) as Hhb. pose proof (Forall_inv_tail HhR) as Hh'.
  destruct (blocks_bounds _ _ _ Hc Hs') as [Hle [_ Hin_r]].
  pose proof Hsb as [Hm Hp]. unfold ALIGNMENT in Hm, Hp. unfold b_end in *.
  destruct (hdr_decode (heap s) b Hhb Hsb) as [Dg Da]; [lia|].
  cbn [coalesce_from]. rewrite loop_condition by lia.
  replace (b_addr b <=? mm_heap_last s) with true
    by (symmetry; apply Z.leb_le; apply Hreach; left; reflexivity).
  rewrite Da, Dg. rewrite (Word.wrap_small (b_addr b + b_size b)) by lia.
  destruct (b_alloc b) eqn:Eal; cbn [negb].
  - (* an allocated block: skipped; it is not the last one *)
    assert (Hr : r <> []).
    { intros ->. simpl in Hend. rewrite Eal in Hend. discriminate. }
    apply (IH s (P ++ [b]) r (b_addr b + b_size b)); try assumption.
    + apply chain_app. exists (b_addr b). split; [assumption|].
      simpl. unfold b_end. auto.
    + apply Forall_app. split; [assumption | constructor; [assumption | constructor]].
    + apply Forall_app. split; [assumption | constructor; [assumption | constructor]].
    + rewrite <- Hend. symmetry. apply ends_free_tail. assumption.
  - (* a free block *)
    destruct (coalesce_run_partial (heap s) (mm_heap_last s) (mem_brk s) r k
                (b_addr b + b_size b) (b_size b)) as [E|E];
      try assumption; try lia; rewrite E; [reflexivity|].
    cbv beta iota zeta.
    set (last := mm_heap_last s) in *.
    set (FR := free_run last r). set (AR := after_run last r).
    assert (Er : r = FR ++ AR) by (symmetry; apply run_split).
    assert (Hc' := Hc). rewrite Er in Hc'. apply chain_app in Hc'.
    destruct Hc' as [mid [Hc1 Hc2]].
    assert (Hs'' := Hs'). rewrite Er in Hs''. apply Forall_app in Hs''.
    destruct Hs'' as [Hs1 Hs2].
    assert (Hmid : heap_start AR (mem_brk s) = mid).
    { destruct AR as [|c AR'] eqn:EAR; [simpl in *; congruence|].
      simpl in *. destruct Hc2. assumption. }
    rewrite Hmid.
    destruct (blocks_bounds _ _ _ Hc1 Hs1) as [Hm1 _].
    destruct (blocks_bounds _ _ _ Hc2 Hs2) as [Hm2 [_ Hin_ar]].
    pose proof (run_size_chain _ _ _ Hc1) as Hrs. fold FR. rewrite Hrs.
    destruct (run_size_ok FR Hs1) as [Hrm _]. rewrite Hrs in Hrm.
    set (total := b_size b + (mid - (b_addr b + b_size b))) in *.
    set (M := mkBlk (b_addr b) total false).
    set (s1 := with_heap s (set_header (heap s) (b_addr b) total false)).
    assert (HMok : block_ok M) by (split; simpl; unfold total, ALIGNMENT; lia).
    assert (Hmerged : hdr_ok (heap s1) M).
    { apply (set_header_hdr (heap s) M); simpl; unfold total; layout_lia. }
    assert (Hkeep : forall y, ~ (b_addr b <= y < b_addr b + 8) -> heap s1 y = heap s y).
    { intros y Hy. unfold s1. cbn [heap with_heap]. apply set_header_other_bytes. lia. }
    assert (Hbw : get_size (heap s1) (mem_brk s) = get_size (heap s) (mem_brk s)).
    { apply get_size_ext. intros y Hy. apply Hkeep. lia. }
    assert (HhP1 : Forall (hdr_ok (heap s1)) P).
    { apply Forall_forall. intros d Hd.
      apply (hdr_ok_frame (heap s)); [|exact (proj1 (Forall_forall _ _) HhP d Hd)].
      intros y Hy. apply Hkeep.
      destruct (HinP d Hd) as [_ [He _]].
      pose proof (proj1 (Forall_forall _ _) HsP d Hd) as [_ Hdp].
      unfold b_end, ALIGNMENT in *. lia. }
    assert (HhA1 : Forall (hdr_ok (heap s1)) AR).
    { apply Forall_forall. intros d Hd.
      apply (hdr_ok_frame (heap s)).
      - intros y Hy. apply Hkeep. destruct (Hin_ar d Hd) as [? _]. lia.
      - apply (proj1 (Forall_forall _ _) Hh'). rewrite Er.
        apply in_or_app. right. assumption. }
    destruct AR as [|c rest] eqn:EAR.
    + (* the run reaches the break: back to the first block *)
      simpl in Hc2. subst mid. rewrite Hbw, Hback.
      apply (IH s1 [] (P ++ [M]) (mm_heap_first s1)).
      * destruct P; discriminate.
      * reflexivity.
      * apply chain_app. exists (b_addr b). split; [assumption|].
        simpl. unfold b_end. simpl. unfold total. split; [reflexivity | lia].
      * constructor.
      * apply Forall_app. split; [assumption | constructor; [assumption | constructor]].
      * constructor.
      * apply Forall_app. split; [assumption | constructor; [assumption | constructor]].
      * assumption.
      * assumption.
      * assumption.
      * change (mm_heap_last s1) with last. rewrite ends_free_last.
        cbn [M b_alloc b_addr negb andb]. apply Z.leb_le.
        apply Hreach. left. reflexivity.
      * change (mem_brk s1) with (mem_brk s). rewrite Hbw. exact Hback.
    + (* the run stops at an allocated block, which is not the last one *)
      simpl in Hc2. destruct Hc2 as [Hca Hc2].
      pose proof (Forall_inv Hs2) as Hsc. pose proof (Forall_inv_tail Hs2) as Hs2'.
      pose proof (Forall_inv HhA1) as Hhc. pose proof (Forall_inv_tail HhA1) as Hh1.
      assert (Hcin : In c r) by (rewrite Er; apply in_or_app; right; left; reflexivity).
      assert (Hcal : b_alloc c = true).
      { destruct (after_run_head last r c rest EAR) as [H|H]; [assumption|].
        assert (b_addr c <= last) by (apply Hreach; right; assumption). lia. }
      pose proof Hsc as [_ Hcp]. unfold ALIGNMENT in Hcp.
      destruct (blocks_bounds _ _ _ Hc2 Hs2') as [Hm3 _]. unfold b_end in *.
      destruct (hdr_decode (heap s1) c Hhc Hsc) as [Dgc _]; [lia|].
      rewrite <- Hca, Dgc. rewrite (Word.wrap_small (b_addr c + b_size c)) by lia.
      assert (Hrest : rest <> []).
      { intros ->. rewrite Er in Hend.
        change (b :: FR ++ [c]) with ((b :: FR) ++ [c]) in Hend.
        rewrite ends_free_last, Hcal in Hend. discriminate. }
      apply (IH s1 (P ++ [M; c]) rest (b_addr c + b_size c)); try assumption.
      * apply chain_app. exists (b_addr b). split; [assumption|].
        simpl. unfold b_end. simpl. unfold total.
        split; [reflexivity|]. split; [lia | reflexivity].
      * apply Forall_app. split; [assumption|].
        constructor; [assumption | constructor; [assumption | constructor]].
      * apply Forall_app. split; [assumption|].
        constructor; [assumption | constructor; [assumption | constructor]].
      * change (mm_heap_last s1) with last. rewrite <- Hend, Er.
        replace (b :: FR ++ c :: rest) with ((b :: FR ++ [c]) ++ rest)
          by (simpl; rewrite <- app_assoc; reflexivity).
        symmetry. apply ends_free_app_tail. assumption.
      * change (mem_brk s1) with (mem_brk s). rewrite Hbw. exact Hback.
Qed.

End BreakWord.

(** The coalescing pass depends on memory outside the heap.  When the last
    block is free and at or below [mm_heap_last], the pass reads the word
    stored at the break and advances by it; if that leads (modulo 2^64) back
    to the first block of the heap, the pass starts over and never ends:
    [mm_malloc] does not return, whatever the request. *)
Theorem stale_break_word_makes_allocation_diverge
    (s : state) (l : list blk) (n : Z) :
  heap_rep s l ->
  ends_free (mm_heap_last s) l = true ->
  Word.wrap (mem_brk s + get_size (heap s) (mem_brk s)) = mm_heap_first s ->
  forall fuel, mm_malloc fuel s n = OutOfFuel.
Proof.
  intros Hrep Hend Hback fuel.
  destruct (first_block_aligned s l Hrep) as [_ H8].
  pose proof Hrep as [H0 Hal Hmax Hfirst Hlast Hc Hs Hh].
  destruct l as [|b r]; [discriminate Hend|].
  assert (Hf : mm_heap_first s = b_addr b) by (rewrite Hfirst; reflexivity).
  cbn [heap_start] in Hc, H8.
  unfold mm_malloc.
  rewrite (walk_never_ends fuel s [] (b :: r) (mm_heap_first s)); try assumption.
  - reflexivity.
  - discriminate.
  - reflexivity.
  - rewrite Hf. exact Hc.
  - constructor.
  - constructor.
  - rewrite Hf. exact H8.
  - layout_lia.
  - lia.
Qed.

Lemma stale_break_word_makes_allocation_diverge_witness :
  mm_malloc 2000 Examples.stale_break 8 = OutOfFuel.
Proof.
  apply (stale_break_word_makes_allocation_diverge Examples.stale_break
           Examples.tail_free_blocks 8).
  - exact Examples.stale_break_rep.
  - vm_compute. reflexivity.
  - vm_compute. reflexivity.
Defined.

End Implicit.
